(** * KoFinCorpus: link discovery and file retrieval

    A shallow embedding of [src/lib/FileLinkFetcher.ts] and
    [src/lib/FileDownloader.ts].

    - JavaScript strings are sequences of UTF-16 code units ([jsstring]).
    - [JSON.stringify] / [JSON.parse] follow ECMA-262 (QuoteJSONString and the
      JSON grammar) on the fragment of values the program handles.
    - Numbers are IEEE 754 binary64 values, with the rounding of every
      operation written out.
    - The file system is a tree of directories and files with a working
      directory; a path names the place pathname resolution reaches, and
      names nothing when the resolution passes a place that is no directory.
      The page renderer, the HTTP server, the operator's answer and
      [Math.random] are inputs.
    - [async] methods become computations in a small state-and-exception
      monad over the world; [while (true)] is unrolled with fuel. *)

From Stdlib Require Import ZArith NArith List Bool Lia String Ascii.
From Stdlib Require Import QArith Qround DecimalString.
From stdpp Require Import base option list gmap.

Set Warnings "-register-all".

Local Open Scope N_scope.

(** ** JavaScript strings *)

(** A string value is a finite sequence of 16-bit code units. *)
Abbreviation jsstring := (list N).

(** An ASCII source literal as a JavaScript string. *)
Definition js (s : string) : jsstring :=
  map N_of_ascii (list_ascii_of_string s).

(** Truthiness of a string: only the empty string is falsy. *)
Definition truthy (s : jsstring) : bool :=
  match s with [] => false | _ => true end.

(** Strict equality [===] on strings compares the code units. *)
Definition str_eqb (a b : jsstring) : bool := bool_decide (a = b).

(** ** The data contract *)

(** [export interface FileLink { url: string; filename: string; }] *)
Record FileLink := mkFileLink { url : jsstring; filename : jsstring }.

#[global] Instance FileLink_eq_dec : EqDecision FileLink.
Proof. solve_decision. Defined.

(** ** JSON.stringify on file links *)

Module Json.

Definition is_lead (c : N) : bool := (0xD800 <=? c) && (c <=? 0xDBFF).
Definition is_trail (c : N) : bool := (0xDC00 <=? c) && (c <=? 0xDFFF).

(** Lower-case hexadecimal digit of a value below 16. *)
Definition hex_digit (d : N) : N := if d <? 10 then 48 + d else 87 + d.

(** UnicodeEscape: backslash, [u], four lower-case hex digits. *)
Definition unicode_escape (c : N) : jsstring :=
  [92; 117; hex_digit (c / 4096 mod 16); hex_digit (c / 256 mod 16);
   hex_digit (c / 16 mod 16); hex_digit (c mod 16)].

(** QuoteJSONString on one code point that is a single code unit. *)
Definition quote_unit (c : N) : jsstring :=
  if c =? 8 then [92; 98]
  else if c =? 9 then [92; 116]
  else if c =? 10 then [92; 110]
  else if c =? 12 then [92; 102]
  else if c =? 13 then [92; 114]
  else if c =? 34 then [92; 34]
  else if c =? 92 then [92; 92]
  else if (c <? 32) || is_lead c || is_trail c then unicode_escape c
  else [c].

(** QuoteJSONString walks the code points of the string: a leading surrogate
    followed by a trailing one is a single code point and is copied; a lone
    surrogate is escaped. *)
Fixpoint quote_body (s : jsstring) : jsstring :=
  match s with
  | [] => []
  | c :: rest =>
      if is_lead c then
        match rest with
        | d :: rest' =>
            if is_trail d then c :: d :: quote_body rest'
            else quote_unit c ++ quote_body rest
        | [] => quote_unit c
        end
      else quote_unit c ++ quote_body rest
  end.

Definition quote (s : jsstring) : jsstring := 34 :: quote_body s ++ [34].

(** A code unit below the surrogate range. *)
Definition plain (c : N) : Prop := c < 0xD800.

(** Well-formed UTF-16: every surrogate is half of a pair. On such text the
    UTF-8 transcoding of [fs.writeFileSync] and [fs.readFileSync] loses
    nothing. *)
Fixpoint well_formed (s : jsstring) : bool :=
  match s with
  | [] => true
  | c :: rest =>
      if is_lead c then
        match rest with
        | d :: rest' => is_trail d && well_formed rest'
        | [] => false
        end
      else negb (is_trail c) && well_formed rest
  end.

(** [JSON.stringify(link)] for an object built as [{ url: fileUrl, filename }]:
    own properties in creation order, no gap. *)
Definition stringify (link : FileLink) : jsstring :=
  js "{" ++ quote (js "url") ++ js ":" ++ quote (url link) ++ js ","
     ++ quote (js "filename") ++ js ":" ++ quote (filename link) ++ js "}".

(** ** JSON.parse *)

Inductive token :=
| TLBracket | TRBracket | TLBrace | TRBrace | TComma | TColon
| TString (s : jsstring)
| TNumber (lexeme : jsstring)
| TTrue | TFalse | TNull.

(** Parsed JSON text. Numbers keep their lexeme; object members keep the
    order and the duplicates of the text. *)
Inductive json :=
| JNull
| JBool (b : bool)
| JNumber (lexeme : jsstring)
| JString (s : jsstring)
| JArray (items : list json)
| JObject (members : list (jsstring * json)).

Definition is_ws (c : N) : bool :=
  (c =? 32) || (c =? 9) || (c =? 10) || (c =? 13).

Definition is_digit (c : N) : bool := (48 <=? c) && (c <=? 57).

Definition hex_value (c : N) : option N :=
  if (48 <=? c) && (c <=? 57) then Some (c - 48)
  else if (97 <=? c) && (c <=? 102) then Some (c - 87)
  else if (65 <=? c) && (c <=? 70) then Some (c - 55)
  else None.

(** Single-character escapes of the JSON grammar. *)
Definition unescape (e : N) : option N :=
  if e =? 34 then Some 34
  else if e =? 92 then Some 92
  else if e =? 47 then Some 47
  else if e =? 98 then Some 8
  else if e =? 102 then Some 12
  else if e =? 110 then Some 10
  else if e =? 114 then Some 13
  else if e =? 116 then Some 9
  else None.

(** The characters of a string after its opening quote: the decoded value and
    the text after the closing quote. *)
Fixpoint lex_string (s : jsstring) : option (jsstring * jsstring) :=
  match s with
  | [] => None
  | c :: rest =>
      if c =? 34 then Some ([], rest)
      else if c =? 92 then
        match rest with
        | [] => None
        | e :: rest1 =>
            if e =? 117 then
              match rest1 with
              | h1 :: h2 :: h3 :: h4 :: rest2 =>
                  match hex_value h1, hex_value h2, hex_value h3, hex_value h4 with
                  | Some a, Some b, Some c', Some d =>
                      '(v, r) ← lex_string rest2;
                      Some ((a * 4096 + b * 256 + c' * 16 + d) :: v, r)
                  | _, _, _, _ => None
                  end
              | _ => None
              end
            else
              u ← unescape e;
              '(v, r) ← lex_string rest1;
              Some (u :: v, r)
        end
      else if c <? 32 then None
      else '(v, r) ← lex_string rest; Some (c :: v, r)
  end.

(** Longest prefix of decimal digits. *)
Fixpoint span_digits (s : jsstring) : jsstring * jsstring :=
  match s with
  | c :: rest =>
      if is_digit c then let '(ds, r) := span_digits rest in (c :: ds, r)
      else ([], s)
  | [] => ([], [])
  end.

(** int: a single [0], or a non-zero digit followed by digits. *)
Definition lex_int (s : jsstring) : option (jsstring * jsstring) :=
  match s with
  | c :: rest =>
      if c =? 48 then Some ([c], rest)
      else if is_digit c then let '(ds, r) := span_digits rest in Some (c :: ds, r)
      else None
  | [] => None
  end.

Definition lex_frac (s : jsstring) : option (jsstring * jsstring) :=
  match s with
  | c :: rest =>
      if c =? 46 then
        match span_digits rest with
        | ([], _) => None
        | (ds, r) => Some (c :: ds, r)
        end
      else Some ([], s)
  | [] => Some ([], s)
  end.

Definition lex_exp (s : jsstring) : option (jsstring * jsstring) :=
  match s with
  | c :: rest =>
      if (c =? 101) || (c =? 69) then
        let '(sign, rest1) :=
          match rest with
          | g :: rest' => if (g =? 43) || (g =? 45) then ([g], rest') else ([], rest)
          | [] => ([], rest)
          end in
        match span_digits rest1 with
        | ([], _) => None
        | (ds, r) => Some (c :: sign ++ ds, r)
        end
      else Some ([], s)
  | [] => Some ([], s)
  end.

(** number: optional minus, int, optional fraction, optional exponent. *)
Definition lex_number (s : jsstring) : option (jsstring * jsstring) :=
  let '(minus, s0) :=
    match s with
    | c :: rest => if c =? 45 then ([c], rest) else ([], s)
    | [] => ([], s)
    end in
  '(i, s1) ← lex_int s0;
  '(f, s2) ← lex_frac s1;
  '(e, s3) ← lex_exp s2;
  Some (minus ++ i ++ f ++ e, s3).

(** [s] without its prefix [p], if it starts with [p]. *)
Fixpoint strip_prefix (p s : jsstring) : option jsstring :=
  match p, s with
  | [], _ => Some s
  | a :: p', b :: s' => if a =? b then strip_prefix p' s' else None
  | _ :: _, [] => None
  end.

(** The three literal names. *)
Definition lex_literal (s : jsstring) : option (token * jsstring) :=
  match strip_prefix (js "true") s with
  | Some r => Some (TTrue, r)
  | None =>
      match strip_prefix (js "false") s with
      | Some r => Some (TFalse, r)
      | None =>
          match strip_prefix (js "null") s with
          | Some r => Some (TNull, r)
          | None => None
          end
      end
  end.

(** Tokens of a JSON text; every step consumes at least one code unit. *)
Fixpoint lex (fuel : nat) (s : jsstring) : option (list token) :=
  match fuel with
  | O => None
  | S fuel' =>
      match s with
      | [] => Some []
      | c :: rest =>
          if is_ws c then lex fuel' rest
          else if c =? 91 then cons TLBracket <$> lex fuel' rest
          else if c =? 93 then cons TRBracket <$> lex fuel' rest
          else if c =? 123 then cons TLBrace <$> lex fuel' rest
          else if c =? 125 then cons TRBrace <$> lex fuel' rest
          else if c =? 44 then cons TComma <$> lex fuel' rest
          else if c =? 58 then cons TColon <$> lex fuel' rest
          else if c =? 34 then
            '(v, r) ← lex_string rest; cons (TString v) <$> lex fuel' r
          else if (c =? 45) || is_digit c then
            '(n, r) ← lex_number s; cons (TNumber n) <$> lex fuel' r
          else
            '(t, r) ← lex_literal s; cons t <$> lex fuel' r
      end
  end.

(** Recursive descent over the tokens. [parse_elements] and [parse_members]
    read what follows the first element or member. *)
Fixpoint parse_value (fuel : nat) (ts : list token) : option (json * list token) :=
  match fuel with
  | O => None
  | S f =>
      match ts with
      | TNull :: r => Some (JNull, r)
      | TTrue :: r => Some (JBool true, r)
      | TFalse :: r => Some (JBool false, r)
      | TNumber n :: r => Some (JNumber n, r)
      | TString s :: r => Some (JString s, r)
      | TLBracket :: TRBracket :: r => Some (JArray [], r)
      | TLBracket :: r =>
          '(v, r1) ← parse_value f r;
          '(vs, r2) ← parse_elements f r1;
          Some (JArray (v :: vs), r2)
      | TLBrace :: TRBrace :: r => Some (JObject [], r)
      | TLBrace :: TString k :: TColon :: r =>
          '(v, r1) ← parse_value f r;
          '(ms, r2) ← parse_members f r1;
          Some (JObject ((k, v) :: ms), r2)
      | _ => None
      end
  end
with parse_elements (fuel : nat) (ts : list token) : option (list json * list token) :=
  match fuel with
  | O => None
  | S f =>
      match ts with
      | TRBracket :: r => Some ([], r)
      | TComma :: r =>
          '(v, r1) ← parse_value f r;
          '(vs, r2) ← parse_elements f r1;
          Some (v :: vs, r2)
      | _ => None
      end
  end
with parse_members (fuel : nat) (ts : list token) : option (list (jsstring * json) * list token) :=
  match fuel with
  | O => None
  | S f =>
      match ts with
      | TRBrace :: r => Some ([], r)
      | TComma :: TString k :: TColon :: r =>
          '(v, r1) ← parse_value f r;
          '(ms, r2) ← parse_members f r1;
          Some ((k, v) :: ms, r2)
      | _ => None
      end
  end.

(** The tokens of a whole text. *)
Definition tokens (s : jsstring) : option (list token) := lex (S (length s)) s.

(** [JSON.parse(text)]: [None] stands for the SyntaxError. *)
Definition parse (text : jsstring) : option json :=
  ts ← tokens text;
  '(v, r) ← parse_value (S (length ts)) ts;
  match r with [] => Some v | _ => None end.

(** Property read [o.key] on a parsed object: the last member with that key
    is the one [JSON.parse] keeps. *)
Fixpoint get_member (key : jsstring) (ms : list (jsstring * json)) : option json :=
  match ms with
  | [] => None
  | (k, v) :: rest =>
      match get_member key rest with
      | Some w => Some w
      | None => if str_eqb k key then Some v else None
      end
  end.

Definition string_member (key : jsstring) (v : json) : option jsstring :=
  match v with
  | JObject ms =>
      match get_member key ms with
      | Some (JString s) => Some s
      | _ => None
      end
  | _ => None
  end.

(** The [url] and [filename] the program reads off a parsed element. *)
Definition as_FileLink (v : json) : option FileLink :=
  u ← string_member (js "url") v;
  f ← string_member (js "filename") v;
  Some (mkFileLink u f).

Definition as_FileLinks (v : json) : option (list FileLink) :=
  match v with
  | JArray items => mapM as_FileLink items
  | _ => None
  end.

(** The value a file link parses back to, and its tokens. *)
Definition of_FileLink (l : FileLink) : json :=
  JObject [(js "url", JString (url l)); (js "filename", JString (filename l))].

Definition tokens_of_link (l : FileLink) : list token :=
  [TLBrace; TString (js "url"); TColon; TString (url l); TComma;
   TString (js "filename"); TColon; TString (filename l); TRBrace].

Definition tokens_of_links (links : list FileLink) : list token :=
  match links with
  | [] => []
  | l :: rest =>
      tokens_of_link l ++ concat (map (fun l' => TComma :: tokens_of_link l') rest)
  end.

End Json.

(** ** String helpers of the standard library of JavaScript *)

(** WhiteSpace and LineTerminator code units, as [trim] and [parseInt] skip. *)
Definition is_js_space (c : N) : bool :=
  ((9 <=? c) && (c <=? 13)) || (c =? 32) || (c =? 160) || (c =? 0x1680)
  || ((0x2000 <=? c) && (c <=? 0x200A)) || (c =? 0x2028) || (c =? 0x2029)
  || (c =? 0x202F) || (c =? 0x205F) || (c =? 0x3000) || (c =? 0xFEFF).

Fixpoint trim_start (s : jsstring) : jsstring :=
  match s with
  | c :: rest => if is_js_space c then trim_start rest else s
  | [] => []
  end.

(** [s.trim()] *)
Definition trim (s : jsstring) : jsstring :=
  rev (trim_start (rev (trim_start s))).

(** [s.startsWith(p)] *)
Fixpoint startsWith (p s : jsstring) : bool :=
  match p, s with
  | [], _ => true
  | a :: p', b :: s' => (a =? b) && startsWith p' s'
  | _ :: _, [] => false
  end.

(** [n.toString()] for an integer. *)
Definition decimal (z : Z) : jsstring :=
  js (NilZero.string_of_int (Z.to_int z)).

(** [s.padStart(2, '0')] *)
Definition padStart2 (s : jsstring) : jsstring :=
  match s with
  | [] => js "00"
  | [c] => [48; c]
  | _ => s
  end.

Fixpoint digits_value (acc : Z) (s : jsstring) : Z :=
  match s with
  | c :: rest =>
      if Json.is_digit c then digits_value (10 * acc + Z.of_N (c - 48)) rest
      else acc
  | [] => acc
  end.

(** [parseInt(s, 10)]: leading white space and a sign are skipped, the longest
    prefix of digits is read; [None] is NaN. *)
Definition parseInt (s : jsstring) : option Z :=
  let t := trim_start s in
  let '(neg, body) :=
    match t with
    | c :: rest =>
        if c =? 45 then (true, rest)
        else if c =? 43 then (false, rest)
        else (false, t)
    | [] => (false, t)
    end in
  match body with
  | c :: _ =>
      if Json.is_digit c then
        Some (if neg then (- digits_value 0 body)%Z else digits_value 0 body)
      else None
  | [] => None
  end.

(** ** Numbers *)

(** A JavaScript number is an IEEE 754 binary64 value: a rational
    [m * 2^e] with [|m| < 2^53] and [-1074 <= e <= 971], an infinity, or NaN.
    A finite value is kept in lowest terms; the sign of zero is not tracked. *)
Module Number.

Inductive number :=
| Finite (q : Q)
| PosInf
| NegInf
| NaN.

Definition pow2 (e : Z) : Q := Qpower 2 e.

(** For a positive rational, the [e] with [2^e <= q < 2^(e+1)]. *)
Definition ilog2 (q : Q) : Z :=
  let e := (Z.log2 (Qnum q) - Z.log2 (Zpos (Qden q)))%Z in
  if Qle_bool (pow2 e) q then e else (e - 1)%Z.

(** The nearest integer, a tie going to the even one. *)
Definition nearest (q : Q) : Z :=
  let f := Qfloor q in
  match Qcompare (q - inject_Z f) (1 # 2) with
  | Lt => f
  | Gt => (f + 1)%Z
  | Eq => if Z.even f then f else (f + 1)%Z
  end.

(** Round to nearest, ties to even, for a positive rational: in the binade
    of [q] - the lowest one for subnormal results - the values are the
    multiples of [ulp]; a result of [2^1024] or more overflows. *)
Definition round_pos (q : Q) : number :=
  let e := Z.max (ilog2 q) (-1022) in
  let ulp := pow2 (e - 52) in
  let r := Qred (inject_Z (nearest (q / ulp)) * ulp) in
  if Qle_bool (pow2 1024) r then PosInf else Finite r.

Definition opp (x : number) : number :=
  match x with
  | Finite q => Finite (Qred (- q))
  | PosInf => NegInf
  | NegInf => PosInf
  | NaN => NaN
  end.

(** The binary64 value of an exact result. *)
Definition round (q : Q) : number :=
  match Qcompare q 0 with
  | Eq => Finite 0
  | Gt => round_pos q
  | Lt => opp (round_pos (- q))
  end.

(** [x + y] *)
Definition add (x y : number) : number :=
  match x, y with
  | NaN, _ | _, NaN => NaN
  | PosInf, NegInf | NegInf, PosInf => NaN
  | PosInf, _ | _, PosInf => PosInf
  | NegInf, _ | _, NegInf => NegInf
  | Finite a, Finite b => round (a + b)
  end.

(** [x - y] *)
Definition sub (x y : number) : number := add x (opp y).

(** An infinity times a finite value or an infinity. *)
Definition scaled (positive : bool) (c : comparison) : number :=
  match c with
  | Eq => NaN
  | Gt => if positive then PosInf else NegInf
  | Lt => if positive then NegInf else PosInf
  end.

(** [x * y] *)
Definition mul (x y : number) : number :=
  match x, y with
  | NaN, _ | _, NaN => NaN
  | Finite a, Finite b => round (a * b)
  | PosInf, Finite b => scaled true (Qcompare b 0)
  | NegInf, Finite b => scaled false (Qcompare b 0)
  | Finite a, PosInf => scaled true (Qcompare a 0)
  | Finite a, NegInf => scaled false (Qcompare a 0)
  | PosInf, PosInf | NegInf, NegInf => PosInf
  | PosInf, NegInf | NegInf, PosInf => NegInf
  end.

(** [Math.floor(x)] *)
Definition floor (x : number) : number :=
  match x with
  | Finite q => Finite (inject_Z (Qfloor q))
  | other => other
  end.

(** An integer literal of the source. *)
Definition of_Z (z : Z) : number := round (inject_Z z).

(** The integers every one of which is a binary64 value. *)
Definition safe (z : Z) : Prop := (- 2 ^ 53 <= z <= 2 ^ 53)%Z.

(** The rationals that are binary64 values. *)
Definition is_double (q : Q) : Prop := round q = Finite q.
End Number.
Export Number (number).

(** ** The world *)

Inductive Node :=
| File (data : list N)
| Dir.

(** One anchor of a rendered page: [{ href, title }]. *)
Record Anchor := mkAnchor { href : jsstring; title : jsstring }.

(** What the headless browser does for one call of [getFileLinksFromPage]:
    whether [puppeteer.launch] and [browser.newPage] succeed, what
    [page.goto] and [page.evaluate] deliver ([None] when either rejects), and
    whether [browser.close] succeeds. *)
Record Rendering := mkRendering {
  launches : bool;
  anchors : option (list Anchor);
  closes : bool
}.

(** What [axios.get(url, { responseType: 'stream' })] does: it rejects, or it
    resolves with the [content-length] header (if any) and a body stream. *)
Inductive Response :=
| Rejects
| Responds (content_length : option jsstring) (body : list N).

(** Library functions of Node and the browser the program calls. *)
Record Platform := mkPlatform {
  path_join : jsstring -> jsstring -> jsstring;
  path_dirname : jsstring -> jsstring;
  (** [s.replace(pattern, replacement)] with a string pattern *)
  str_replace : jsstring -> jsstring -> jsstring -> jsstring;
  (** [new URL(rel, base).href]; [None] when the constructor throws *)
  url_href : jsstring -> jsstring -> option jsstring
}.

(** Everything outside the program. *)
Record Env := mkEnv {
  render : Z -> jsstring -> Rendering;   (* by page number and page URL *)
  remote : jsstring -> Response;         (* by file URL *)
  writable : jsstring -> bool;           (* may this path be created, written, removed *)
  dir_size : jsstring -> Z;              (* [stat.size] of a directory *)
  random : nat -> Q                      (* [Math.random()] for the i-th file: a binary64 value *)
}.

Inductive Err :=
| TypeError
| SyntaxError
| BrowserError
| PageError
| NetworkError (u : jsstring)
| IOError (p : jsstring).

(** Console lines, one constructor per message of the two classes. *)
Inductive LogLine :=
| LFolderCreated (p : jsstring)
| LSaved (p : jsstring)
| LExisting (p : jsstring)
| LLoaded (n : option nat) (p : jsstring)
| LFetchingNew
| LFetchingPage (pageUrl : jsstring)
| LPageCount (page : Z) (n : nat)
| LStopDuplicate (page : Z)
| LStopShort (maxItems : Z)
| LFileLinks (links : list FileLink)
| LPageFailed (pageUrl : jsstring) (e : Err)
| LStarting (i : nat) (name : jsstring)
| LSkipUnverifiable
| LSizes (existing : Z) (temp : option Z)
| LSkipSameSize
| LReplacing
| LDownloaded
| LFailed (u : jsstring) (e : Err)
| LAllDownloaded
| LAllComplete
| LErrorDuring (e : Err)
| LCancelled.

(** Observable effects, in the order they happen. *)
Inductive Event :=
| EvLog (l : LogLine)
| EvPrompt (message : jsstring)
| EvGoto (pageUrl : jsstring)
| EvGet (u : jsstring)
| EvMkdir (p : jsstring)
| EvWriteFile (p : jsstring)
| EvUnlink (p : jsstring)
| EvStream (p : jsstring)
| EvDelay (ms : number).

(** ** Paths *)

(** Pathname resolution as POSIX has it, without symbolic links: the pieces
    of a path between its slashes are walked one after the other, from the
    root for an absolute path and from the working directory otherwise. *)
Module Path.

(** The pieces of a path between its slashes. *)
Fixpoint split (p : jsstring) : list jsstring :=
  match p with
  | [] => [[]]
  | c :: rest =>
      if c =? 47 then [] :: split rest
      else
        match split rest with
        | piece :: pieces => (c :: piece) :: pieces
        | [] => [[c]]
        end
  end.

(** One piece of a path, on the names walked so far (innermost first): an
    empty piece and a dot stay, two dots go up, a name goes down. *)
Definition step (walked : list jsstring) (piece : jsstring) : list jsstring :=
  if str_eqb piece [] || str_eqb piece (js ".") then walked
  else if str_eqb piece (js "..") then tail walked
  else piece :: walked.

Definition absolute (p : jsstring) : bool :=
  match p with
  | c :: _ => c =? 47
  | [] => false
  end.

(** Where the resolution of a path starts: the root for an absolute path,
    the working directory otherwise. *)
Definition start (cwd : list jsstring) (p : jsstring) : list jsstring :=
  if absolute p then [] else rev cwd.

(** The places pathname resolution passes, each as the names from the root
    down: the starting directory, and the place reached after each piece. *)
Fixpoint passes (walked : list jsstring) (pieces : list jsstring)
  : list (list jsstring) :=
  match pieces with
  | [] => [rev walked]
  | piece :: rest => rev walked :: passes (step walked piece) rest
  end.

Definition trail (cwd : list jsstring) (p : jsstring) : list (list jsstring) :=
  passes (start cwd p) (split p).

(** The place a path names: the last place of its trail. Symbolic links are
    outside the model. *)
Definition resolve (cwd : list jsstring) (p : jsstring) : list jsstring :=
  rev (fold_left step (split p) (start cwd p)).

(** The empty path, and a path with a null character, name nothing. *)
Definition valid (p : jsstring) : bool :=
  truthy p && forallb (fun c => negb (c =? 0)) p.
End Path.

(** ** The file system *)

(** What there is at a place: a regular file with its bytes, or a directory
    with its entries. *)
Inductive Tree :=
| TFile (data : list N)
| TDir (entries : gmap jsstring Tree).

(** The state of the file system: the entries of the root directory, and
    the working directory of the process. *)
Record FS := mkFS {
  root : gmap jsstring Tree;
  cwd : list jsstring
}.

Module Fs.

(** What is at a place, if anything: everything above it is a directory. *)
Fixpoint find (place : list jsstring) (entries : gmap jsstring Tree)
  : option Tree :=
  match place with
  | [] => Some (TDir entries)
  | name :: rest =>
      match entries !! name with
      | Some (TDir below) => find rest below
      | Some (TFile data) =>
          match rest with
          | [] => Some (TFile data)
          | _ => None
          end
      | None => None
      end
  end.

Definition entries_of (t : option Tree) : gmap jsstring Tree :=
  match t with
  | Some (TDir below) => below
  | _ => ∅
  end.

(** [node] put at a place, with the directories that lead there: a file
    replaces what was at the place, a directory that is there stays as it
    is. *)
Fixpoint put (place : list jsstring) (node : Node)
    (entries : gmap jsstring Tree) : gmap jsstring Tree :=
  match place with
  | [] => entries
  | name :: rest =>
      match rest, node with
      | [], File data => <[name := TFile data]> entries
      | _, _ =>
          <[name := TDir (put rest node (entries_of (entries !! name)))]> entries
      end
  end.

(** The entry at a place taken out of its directory. *)
Fixpoint cut (place : list jsstring) (entries : gmap jsstring Tree)
  : gmap jsstring Tree :=
  match place with
  | [] => entries
  | name :: rest =>
      match rest with
      | [] => delete name entries
      | _ =>
          match entries !! name with
          | Some (TDir below) => <[name := TDir (cut rest below)]> entries
          | _ => entries
          end
      end
  end.

(** No regular file stands at the place or above it. *)
Fixpoint no_file_on (place : list jsstring) (entries : gmap jsstring Tree)
  : bool :=
  match place with
  | [] => true
  | name :: rest =>
      match entries !! name with
      | Some (TFile _) => false
      | Some (TDir below) => no_file_on rest below
      | None => true
      end
  end.

Definition is_dir (t : option Tree) : bool :=
  match t with
  | Some (TDir _) => true
  | _ => false
  end.

(** What a place holds, seen from outside: a file with its bytes, or a
    directory. *)
Definition entry (fs : FS) (place : list jsstring) : option Node :=
  match find place (root fs) with
  | Some (TFile data) => Some (File data)
  | Some (TDir _) => Some Dir
  | None => None
  end.

(** The place a path names in a state. *)
Definition place_of (fs : FS) (p : jsstring) : list jsstring :=
  Path.resolve (cwd fs) p.

(** The resolution of a path goes through: every place it passes before
    the last is a directory. *)
Definition reachable (fs : FS) (p : jsstring) : bool :=
  forallb (fun place => is_dir (find place (root fs)))
    (removelast (Path.trail (cwd fs) p)).

(** What a path names, if its resolution goes through. *)
Definition node_at (fs : FS) (p : jsstring) : option Node :=
  if Path.valid p && reachable fs p then entry fs (place_of fs p) else None.

(** The directories made along a trail. *)
Definition made (places : list (list jsstring)) (entries : gmap jsstring Tree)
  : gmap jsstring Tree :=
  fold_left (fun entries place => put place Dir entries) places entries.

(** A file at the place a path names; directories at the places a path
    passes. *)
Definition set_at (p : jsstring) (node : Node) (fs : FS) : FS :=
  match node with
  | File data => mkFS (put (place_of fs p) (File data) (root fs)) (cwd fs)
  | Dir => mkFS (made (Path.trail (cwd fs) p) (root fs)) (cwd fs)
  end.

(** A place is on the way of a path: the resolution of the path passes it,
    or a place below it. These are the places [mkdir] with [recursive: true]
    makes directories of. *)
Definition on_the_way (fs : FS) (p : jsstring) (place : list jsstring) : Prop :=
  exists passed, In passed (Path.trail (cwd fs) p) /\ place `prefix_of` passed.

Definition is_dir_node (node : option Node) : bool :=
  match node with
  | Some Dir => true
  | _ => false
  end.

(** Two places neither of which lies above the other. *)
Definition apart (a b : list jsstring) : Prop :=
  ~ a `prefix_of` b /\ ~ b `prefix_of` a.

Definition remove_at (p : jsstring) (fs : FS) : FS :=
  mkFS (cut (place_of fs p) (root fs)) (cwd fs).

(** [mkdir] with [recursive: true] goes through: the resolution starts in a
    directory and no regular file is in its way. *)
Definition can_make (fs : FS) (p : jsstring) : bool :=
  Path.valid p
  && is_dir (find (rev (Path.start (cwd fs) p)) (root fs))
  && forallb (fun place => no_file_on place (root fs)) (Path.trail (cwd fs) p).

(** A regular file can be opened for writing at the path: the resolution
    goes through, the directory the place lies in is there, and the place
    holds no directory. *)
Definition can_write (fs : FS) (p : jsstring) : bool :=
  Path.valid p && reachable fs p
  && match place_of fs p with
     | [] => false
     | place =>
         is_dir (find (removelast place) (root fs))
         && negb (is_dir (find place (root fs)))
     end.
End Fs.

(** [fs !! p] is what the path [p] names in [fs]. [<[p := node]> fs] has a
    file at the place [p] names, with the directories that lead there, or
    directories at the places [p] passes. The empty state has an empty root
    for its working directory. *)
#[global] Instance fs_lookup : Lookup jsstring Node FS :=
  fun p fs => Fs.node_at fs p.
#[global] Instance fs_insert : Insert jsstring Node FS := Fs.set_at.
#[global] Instance fs_empty : Empty FS := mkFS ∅ [].

(** ** Computations *)

Inductive Res (A : Type) :=
| Ret (a : A)
| Throw (e : Err)
| Starved.
Arguments Ret {A} a.
Arguments Throw {A} e.
Arguments Starved {A}.

(** A method body: from the file system to an outcome, the file system it
    leaves, and the events it produced. *)
Definition M (A : Type) : Type :=
  FS -> Res A * FS * list Event.

Definition ret {A} (a : A) : M A := fun fs => (Ret a, fs, []).
Definition throw {A} (e : Err) : M A := fun fs => (Throw e, fs, []).
Definition starve {A} : M A := fun fs => (Starved, fs, []).
Definition emit (ev : Event) : M unit := fun fs => (Ret tt, fs, [ev]).
Definition console (l : LogLine) : M unit := emit (EvLog l).

Definition bind {A B} (m : M A) (k : A -> M B) : M B :=
  fun fs =>
    match m fs with
    | (Ret a, fs1, t1) => let '(r, fs2, t2) := k a fs1 in (r, fs2, t1 ++ t2)
    | (Throw e, fs1, t1) => (Throw e, fs1, t1)
    | (Starved, fs1, t1) => (Starved, fs1, t1)
    end.

(** [try { m } catch (error) { h error }] *)
Definition try_catch {A} (m : M A) (h : Err -> M A) : M A :=
  fun fs =>
    match m fs with
    | (Throw e, fs1, t1) => let '(r, fs2, t2) := h e fs1 in (r, fs2, t1 ++ t2)
    | other => other
    end.

Declare Scope io_scope.
Delimit Scope io_scope with io.
Notation "x <- c1 ;; c2" := (bind c1 (fun x => c2))
  (at level 100, c1 at next level, right associativity) : io_scope.
Notation "c1 ;; c2" := (bind c1 (fun _ => c2))
  (at level 100, right associativity) : io_scope.

Local Open Scope io_scope.

(** ** The file system calls *)

Section FileSystem.
Context (env : Env).

Definition existsSync (p : jsstring) : M bool :=
  fun fs => (Ret (bool_decide (is_Some (fs !! p))), fs, []).

(** [fs.mkdirSync(p, { recursive: true })]: the directory and every missing
    directory above it are made; a directory that is there is no error, a
    regular file in the way is. *)
Definition mkdirSync (p : jsstring) : M unit :=
  fun fs =>
    if Fs.can_make fs p && writable env p then
      (Ret tt, <[p := Dir]> fs, [EvMkdir p])
    else (Throw (IOError p), fs, []).

(** [fs.writeFileSync(p, text, 'utf8')]; the text is kept by its code units.
    It fails when the directory of [p] is missing and when [p] names a
    directory. *)
Definition writeFileSync (p : jsstring) (text : jsstring) : M unit :=
  fun fs =>
    if Fs.can_write fs p && writable env p then
      (Ret tt, <[p := File text]> fs, [EvWriteFile p])
    else (Throw (IOError p), fs, []).

(** [fs.readFileSync(p, 'utf8')] *)
Definition readFileSync (p : jsstring) : M jsstring :=
  fun fs =>
    match fs !! p with
    | Some (File data) => (Ret data, fs, [])
    | _ => (Throw (IOError p), fs, [])
    end.

(** [fs.statSync(p).size] *)
Definition statSync_size (p : jsstring) : M Z :=
  fun fs =>
    match fs !! p with
    | Some (File data) => (Ret (Z.of_nat (length data)), fs, [])
    | Some Dir => (Ret (dir_size env p), fs, [])
    | None => (Throw (IOError p), fs, [])
    end.

(** [fs.unlinkSync(p)] *)
Definition unlinkSync (p : jsstring) : M unit :=
  fun fs =>
    match fs !! p with
    | Some (File _) =>
        if writable env p then (Ret tt, Fs.remove_at p fs, [EvUnlink p])
        else (Throw (IOError p), fs, [])
    | _ => (Throw (IOError p), fs, [])
    end.

(** [fs.createWriteStream(p)], [body.pipe(writer)] and the wait for
    ['finish'] or ['error']: the stream fails to open when the directory of
    [p] is missing and when [p] names a directory. *)
Definition streamToFile (p : jsstring) (body : list N) : M unit :=
  fun fs =>
    if Fs.can_write fs p && writable env p then
      (Ret tt, <[p := File body]> fs, [EvStream p])
    else (Throw (IOError p), fs, []).
End FileSystem.

(** [askUserConfirmation]: the prompt is shown and the line the operator types
    is compared: [answer.trim().toLowerCase() === 'y']. Lower-casing yields the
    one-unit string [y] exactly for [y] and [Y]. *)
Definition confirms (answer : jsstring) : bool :=
  match trim answer with
  | [c] => (c =? 121) || (c =? 89)
  | _ => false
  end.

Definition askUserConfirmation (message answer : jsstring) : M bool :=
  emit (EvPrompt message) ;; ret (confirms answer).

(** ** Reading a trace *)

(** The page URLs a trace navigated to, in order. *)
Definition fetched (tr : list Event) : list jsstring :=
  omap (fun ev => match ev with EvGoto u => Some u | _ => None end) tr.

(** The files a trace asked the server for, in order. *)
Definition requested (tr : list Event) : list jsstring :=
  omap (fun ev => match ev with EvGet u => Some u | _ => None end) tr.

(** The paths a trace streamed a response body to, in order. *)
Definition streamed (tr : list Event) : list jsstring :=
  omap (fun ev => match ev with EvStream p => Some p | _ => None end) tr.

(** The per-file terminal states, as the console shows them. *)
Inductive DownloadOutcome := downloaded | skipped | failed.

Definition outcomes (tr : list Event) : list DownloadOutcome :=
  omap (fun ev =>
          match ev with
          | EvLog LDownloaded => Some downloaded
          | EvLog LSkipSameSize | EvLog LSkipUnverifiable => Some skipped
          | EvLog (LFailed _ _) => Some failed
          | _ => None
          end) tr.


(** ** FileDownloader.ts *)

Module FileDownloader.

(** The private fields of the class. *)
Record Downloader := mk {
  folderPath : jsstring;
  minDelayMs : number;
  maxDelayMs : number
}.

Section Methods.
Context (pf : Platform) (env : Env) (self : Downloader).

(** [Math.floor(Math.random() * (max - min + 1)) + min], on the draw for
    the i-th file. *)
Definition getRandomDelay (i : nat) : number :=
  Number.add
    (Number.floor
       (Number.mul (Number.round (random env i))
          (Number.add (Number.sub (maxDelayMs self) (minDelayMs self))
             (Number.of_Z 1))))
    (minDelayMs self).

Definition delay (ms : number) : M unit := emit (EvDelay ms).

(** [axios.get(url, { responseType: 'stream' })]: header and body, or the
    rejection. *)
Definition axios_get (u : jsstring) : M (option jsstring * list N) :=
  emit (EvGet u) ;;
  match remote env u with
  | Rejects => throw (NetworkError u)
  | Responds header body => ret (header, body)
  end.

(** [contentLengthHeader ? parseInt(contentLengthHeader, 10) : null]:
    the outer [None] is [null], the inner one is NaN. *)
Definition tempFileSize_of (contentLengthHeader : option jsstring)
  : option (option Z) :=
  match contentLengthHeader with
  | Some h => if truthy h then Some (parseInt h) else None
  | None => None
  end.

(** [existingFileSize === tempFileSize] on numbers; NaN equals nothing. *)
Definition same_size (existingFileSize : Z) (tempFileSize : option Z) : bool :=
  match tempFileSize with
  | Some z => (existingFileSize =? z)%Z
  | None => false
  end.

(** The block under [if (fs.existsSync(filePath))]: [Some r] is an early
    [return {downloaded: r}], [None] falls through to the download. *)
Definition checkExisting (filePath : jsstring)
    (contentLengthHeader : option jsstring) : M (option bool) :=
  existingFileSize <- statSync_size env filePath ;;
  match tempFileSize_of contentLengthHeader with
  | None => console LSkipUnverifiable ;; ret (Some false)
  | Some tempFileSize =>
      console (LSizes existingFileSize tempFileSize) ;;
      if same_size existingFileSize tempFileSize then
        console LSkipSameSize ;; ret (Some false)
      else
        console LReplacing ;; unlinkSync env filePath ;; ret None
  end.

(** [downloadFile(fileLink)]; the result is the [downloaded] flag. *)
Definition downloadFile (fileLink : FileLink) : M bool :=
  let filePath := path_join pf (folderPath self) (filename fileLink) in
  try_catch
    (response <- axios_get (url fileLink) ;;
     present <- existsSync filePath ;;
     early <- (if present then checkExisting filePath (fst response)
               else ret None) ;;
     match early with
     | Some r => ret r
     | None =>
         streamToFile env filePath (snd response) ;;
         console LDownloaded ;;
         ret true
     end)
    (fun error => console (LFailed (url fileLink) error) ;; throw error).

(** The body of [for (let i = 0; i < fileLinks.length; i++)], from index
    [i] on. *)
Fixpoint downloadLoop (i : nat) (fileLinks : list FileLink) : M unit :=
  match fileLinks with
  | [] => ret tt
  | fileLink :: rest =>
      console (LStarting (i + 1) (filename fileLink)) ;;
      downloaded <- downloadFile fileLink ;;
      (if downloaded : bool then delay (getRandomDelay i) else ret tt) ;;
      downloadLoop (S i) rest
  end.

(** The block under [if (!fs.existsSync(this.folderPath))]. *)
Definition ensureFolder : M unit :=
  present <- existsSync (folderPath self) ;;
  if present : bool then ret tt
  else mkdirSync env (folderPath self) ;;
       console (LFolderCreated (folderPath self)).

Definition downloadAllFiles (fileLinks : list FileLink) : M unit :=
  ensureFolder ;;
  downloadLoop 0 fileLinks ;;
  console LAllDownloaded.

Definition confirmMessage (fileLinks : list FileLink) : jsstring :=
  js "Download " ++ decimal (Z.of_nat (length fileLinks))
     ++ js " file links? (y/n): ".

(** [confirmAndDownloadFiles(fileLinks)], with the line the operator types. *)
Definition confirmAndDownloadFiles (fileLinks : list FileLink)
    (answer : jsstring) : M unit :=
  confirmed <- askUserConfirmation (confirmMessage fileLinks) answer ;;
  if confirmed : bool then
    try_catch
      (downloadAllFiles fileLinks ;; console LAllComplete)
      (fun error => console (LErrorDuring error))
  else console LCancelled.

(** What it is for a file of the correct size to be there already:
    the server announces a content length, and the destination holds a file
    of that many bytes. *)
Definition alreadyThere (fs : FS) (l : FileLink) : Prop :=
  exists h body data,
    remote env (url l) = Responds (Some h) body
    /\ truthy h = true
    /\ parseInt h = Some (Z.of_nat (length data))
    /\ fs !! path_join pf (folderPath self) (filename l) = Some (File data).

End Methods.

End FileDownloader.

(** ** FileLinkFetcher.ts *)

Module FileLinkFetcher.

Record SourceConfig := mkSource {
  sourceName : jsstring;
  categoryId : jsstring;
  categoryName : jsstring
}.

Record Date := mkDate { year : Z; month : Z; day : Z }.

(** The fields of an instance once the constructor has run. *)
Record Fetcher := mk {
  baseUrl : jsstring;
  sourceConfig : SourceConfig;
  startDate : Date;
  endDate : Date;
  startPage : Z;
  maxItemsPerPage : Z;
  (** [href.match(downloadPattern)]: the matched text [match[0]], if any *)
  downloadPattern : jsstring -> option jsstring;
  downloadMinDelayMs : number;
  downloadMaxDelayMs : number;
  outputFilePath : jsstring;
  downloadFolderPath : jsstring
}.

Definition formatNumber (num : Z) : jsstring := padStart2 (decimal num).

Definition formatDate (date : Date) : jsstring :=
  decimal (year date) ++ formatNumber (month date) ++ formatNumber (day date).

(** The constructor: the template is filled in, the two paths are derived. *)
Definition new (pf : Platform) (baseUrl0 : jsstring) (sc : SourceConfig)
    (startD endD : Date) (startP maxItems : Z)
    (pattern : jsstring -> option jsstring) (minDelay maxDelay : number)
  : Fetcher :=
  let r := str_replace pf in
  let b1 := r baseUrl0 (js "{categoryId}") (categoryId sc) in
  let b2 := r b1 (js "{searchStartYear}") (decimal (year startD)) in
  let b3 := r b2 (js "{searchStartMonth}") (formatNumber (month startD)) in
  let b4 := r b3 (js "{searchStartDay}") (formatNumber (day startD)) in
  let b5 := r b4 (js "{searchEndYear}") (decimal (year endD)) in
  let b6 := r b5 (js "{searchEndMonth}") (formatNumber (month endD)) in
  let b7 := r b6 (js "{searchEndDay}") (formatNumber (day endD)) in
  let b8 := r b7 (js "{maxItemsPerPage}") (decimal maxItems) in
  let dateRange := formatDate startD ++ js "-" ++ formatDate endD in
  let stem := js "./downloads/" ++ sourceName sc ++ js "-" ++ categoryName sc
                 ++ js "-" ++ dateRange in
  {| baseUrl := b8; sourceConfig := sc; startDate := startD; endDate := endD;
     startPage := startP; maxItemsPerPage := maxItems;
     downloadPattern := pattern;
     downloadMinDelayMs := minDelay; downloadMaxDelayMs := maxDelay;
     outputFilePath := stem ++ js ".json";
     downloadFolderPath := stem |}.

(** *** The title pattern [/(.+\.[a-zA-Z0-9]+)/] *)

Definition is_line_terminator (c : N) : bool :=
  (c =? 10) || (c =? 13) || (c =? 0x2028) || (c =? 0x2029).

Definition is_alnum (c : N) : bool :=
  ((97 <=? c) && (c <=? 122)) || ((65 <=? c) && (c <=? 90))
  || ((48 <=? c) && (c <=? 57)).

Fixpoint span_alnum (s : jsstring) : jsstring :=
  match s with
  | c :: rest => if is_alnum c then c :: span_alnum rest else []
  | [] => []
  end.

(** The text matched at the head of [s] by greedy [.*] followed by a dot and
    a greedy run of letters and digits: the last dot that works wins. *)
Fixpoint match_tail (s : jsstring) : option jsstring :=
  match s with
  | [] => None
  | c :: rest =>
      if is_line_terminator c then None
      else
        match match_tail rest with
        | Some m => Some (c :: m)
        | None =>
            if c =? 46 then
              match span_alnum rest with
              | [] => None
              | run => Some (c :: run)
              end
            else None
        end
  end.

(** [extractFileNameFromTitle]: capture 1 of the leftmost match, or null. *)
Fixpoint extractFileNameFromTitle (title : jsstring) : option jsstring :=
  match title with
  | [] => None
  | c :: rest =>
      match (if is_line_terminator c then None else match_tail rest) with
      | Some m => Some (c :: m)
      | None => extractFileNameFromTitle rest
      end
  end.

Section Methods.
Context (pf : Platform) (env : Env) (self : Fetcher).

(** [extractFileUrl]: [inl] is the TypeError of [new URL]. *)
Definition extractFileUrl (href : jsstring) : Err + option jsstring :=
  match downloadPattern self href with
  | Some m =>
      if startsWith (js "http") m then inr (Some m)
      else
        match url_href pf m (baseUrl self) with
        | Some h => inr (Some h)
        | None => inl TypeError
        end
  | None => inr None
  end.

(** The [for (const link of links)] loop inside the [try]: the links pushed
    so far, and the error that cut the loop short, if any. *)
Fixpoint collectLinks (links : list Anchor) (fileLinks : list FileLink)
  : list FileLink * option Err :=
  match links with
  | [] => (fileLinks, None)
  | link :: rest =>
      match extractFileUrl (href link) with
      | inl e => (fileLinks, Some e)
      | inr fileUrl =>
          match fileUrl, extractFileNameFromTitle (title link) with
          | Some u, Some name =>
              if truthy u && truthy name then
                collectLinks rest (fileLinks ++ [mkFileLink u name])
              else collectLinks rest fileLinks
          | _, _ => collectLinks rest fileLinks
          end
      end
  end.

(** The [try] block on what the browser delivers: [fileLinks] as the block
    leaves it, and the error caught, if any. *)
Definition tryPage (r : Rendering) : list FileLink * option Err :=
  match anchors r with
  | None => ([], Some PageError)
  | Some links => collectLinks links []
  end.

(** [getFileLinksFromPage(pageUrl)], for the page numbered [page]. *)
Definition getFileLinksFromPage (page : Z) (pageUrl : jsstring)
  : M (list FileLink) :=
  let r := render env page pageUrl in
  if launches r then
    emit (EvGoto pageUrl) ;;
    (match snd (tryPage r) with
     | Some e => console (LPageFailed pageUrl e)
     | None => ret tt
     end) ;;
    if closes r then ret (fst (tryPage r)) else throw BrowserError
  else throw BrowserError.

(** [parts.join(sep)] *)
Fixpoint join (sep : jsstring) (parts : list jsstring) : jsstring :=
  match parts with
  | [] => []
  | [p] => p
  | p :: rest => p ++ sep ++ join sep rest
  end.

(** The text [saveFileLinksToJson] writes. *)
Definition jsonLines (fileLinks : list FileLink) : jsstring :=
  [91; 10]
    ++ join [44; 10] (map (fun link => [32; 32] ++ Json.stringify link) fileLinks)
    ++ [10; 93].

Definition saveFileLinksToJson (fileLinks : list FileLink) : M unit :=
  let folderPath := path_dirname pf (outputFilePath self) in
  present <- existsSync folderPath ;;
  (if present : bool then ret tt
   else mkdirSync env folderPath ;; console (LFolderCreated folderPath)) ;;
  writeFileSync env (outputFilePath self) (jsonLines fileLinks) ;;
  console (LSaved (outputFilePath self)).

(** [lastPageLinks.length === pageFileLinks.length && lastPageLinks.every(...)] *)
Definition isDuplicatePage (lastPageLinks pageFileLinks : list FileLink) : bool :=
  (length lastPageLinks =? length pageFileLinks)%nat
  && forallb
       (fun '(index, link) =>
          match pageFileLinks !! index with
          | Some other =>
              str_eqb (url link) (url other)
              && str_eqb (filename link) (filename other)
          | None => false
          end)
       (imap pair lastPageLinks).

Definition pageUrlOf (page : Z) : jsstring :=
  str_replace pf (baseUrl self) (js "{curPage}") (decimal page).

(** The [while (true)] loop, entered with the current [page],
    [lastPageLinks] and [fileLinks]; it returns [fileLinks]. *)
Fixpoint walk (fuel : nat) (page : Z) (lastPageLinks fileLinks : list FileLink)
  : M (list FileLink) :=
  match fuel with
  | O => starve
  | S fuel' =>
      let pageUrl := pageUrlOf page in
      console (LFetchingPage pageUrl) ;;
      pageFileLinks <- getFileLinksFromPage page pageUrl ;;
      console (LPageCount page (length pageFileLinks)) ;;
      if isDuplicatePage lastPageLinks pageFileLinks then
        console (LStopDuplicate page) ;; ret fileLinks
      else
        let fileLinks' := fileLinks ++ pageFileLinks in
        if (Z.of_nat (length pageFileLinks) <? maxItemsPerPage self)%Z then
          console (LStopShort (maxItemsPerPage self)) ;; ret fileLinks'
        else walk fuel' (page + 1)%Z pageFileLinks fileLinks'
  end.

(** What [fetchAllFileLinks] hands back: the value [JSON.parse] produced,
    returned as it is, or the list the walk accumulated. *)
Inductive LinkList :=
| FromCheckpoint (v : Json.json)
| FromWalk (fileLinks : list FileLink).

(** [v.length] on a parsed value: reading it off [null] throws; [None] is a
    value without a length of its own (an object's [length] member, if it has
    one, is not followed). *)
Definition length_of (v : Json.json) : Err + option nat :=
  match v with
  | Json.JNull => inl TypeError
  | Json.JArray items => inr (Some (length items))
  | Json.JString s => inr (Some (length s))
  | _ => inr None
  end.

Definition reuseMessage : jsstring :=
  js "A file with existing download links was found. Do you want to use it? (y = use existing, n = fetch new): ".

(** The branch [if (userChoice)]. *)
Definition loadExisting (existingFilePath : jsstring) : M LinkList :=
  text <- readFileSync existingFilePath ;;
  match Json.parse text with
  | None => throw SyntaxError
  | Some v =>
      match length_of v with
      | inl e => throw e
      | inr n =>
          console (LLoaded n existingFilePath) ;;
          ret (FromCheckpoint v)
      end
  end.

(** Everything from [let page = this.startPage] on. *)
Definition walkAndSave (fuel : nat) : M LinkList :=
  fileLinks <- walk fuel (startPage self) [] [] ;;
  console (LFileLinks fileLinks) ;;
  saveFileLinksToJson fileLinks ;;
  ret (FromWalk fileLinks).

(** [fetchAllFileLinks()], with the line the operator types if asked. *)
Definition fetchAllFileLinks (fuel : nat) (answer : jsstring) : M LinkList :=
  let existingFilePath := outputFilePath self in
  present <- existsSync existingFilePath ;;
  if present : bool then
    console (LExisting existingFilePath) ;;
    userChoice <- askUserConfirmation reuseMessage answer ;;
    if userChoice : bool then loadExisting existingFilePath
    else console LFetchingNew ;; walkAndSave fuel
  else walkAndSave fuel.
End Methods.

(** *** What a run shows *)

Section Observations.
Context (pf : Platform) (env : Env) (self : Fetcher).

(** What [getFileLinksFromPage] hands to the loop for a page number. *)
Definition pageResult (page : Z) : Res (list FileLink) :=
  (getFileLinksFromPage pf env self page (pageUrlOf pf self page) ∅).1.1.

(** The events of that call. *)
Definition pageEvents (page : Z) : list Event :=
  (getFileLinksFromPage pf env self page (pageUrlOf pf self page) ∅).2.

(** The events of a turn of the loop that reads [links] off [page]. *)
Definition turnEvents (page : Z) (links : list FileLink) : list Event :=
  EvLog (LFetchingPage (pageUrlOf pf self page)) :: pageEvents page
    ++ [EvLog (LPageCount page (length links))].

(** The reference an anchor stands for, if it stands for one: its href
    matches the download pattern, the match gives a URL, and its title holds
    a file name. *)
Definition referenceOf (link : Anchor) : option FileLink :=
  match extractFileUrl pf self (href link), extractFileNameFromTitle (title link) with
  | inr (Some fileUrl), Some fileName =>
      if truthy fileUrl && truthy fileName then Some (mkFileLink fileUrl fileName)
      else None
  | _, _ => None
  end.

(** The references a page yields, when it yields any. *)
Definition linksOf (page : Z) : list FileLink :=
  match pageResult page with
  | Ret links => links
  | _ => []
  end.

(** The references of the [count] pages from [page] on, in order. *)
Fixpoint linksFrom (page : Z) (count : nat) : list FileLink :=
  match count with
  | O => []
  | S count' => linksOf page ++ linksFrom (page + 1)%Z count'
  end.

(** The first [k] pages from [page] on keep the walk going: each comes back,
    is no repeat of the page before it, and is full. *)
Fixpoint keepsGoing (page : Z) (lastLinks : list FileLink) (k : nat) : Prop :=
  match k with
  | O => True
  | S k' =>
      exists links,
        pageResult page = Ret links
        /\ isDuplicatePage lastLinks links = false
        /\ (Z.of_nat (length links) <? maxItemsPerPage self)%Z = false
        /\ keepsGoing (page + 1)%Z links k'
  end.

(** The URLs of the [count] pages from [page] on. *)
Fixpoint urlsFrom (page : Z) (count : nat) : list jsstring :=
  match count with
  | O => []
  | S count' => pageUrlOf pf self page :: urlsFrom (page + 1)%Z count'
  end.
End Observations.

End FileLinkFetcher.

(** ** A small world to run the program in *)

Module Sample.
(** [s.replace(pat, rep)] for a replacement without dollar patterns. *)
Fixpoint replaceFirst (s pat rep : jsstring) : jsstring :=
  match Json.strip_prefix pat s with
  | Some r => rep ++ r
  | None =>
      match s with
      | [] => []
      | c :: s' => c :: replaceFirst s' pat rep
      end
  end.

Fixpoint afterSlash (r : jsstring) : jsstring :=
  match r with
  | [] => []
  | c :: r' => if c =? 47 then r' else afterSlash r'
  end.

Definition dirname (p : jsstring) : jsstring :=
  match rev (afterSlash (rev p)) with
  | [] => js "."
  | d => d
  end.

Definition platform : Platform :=
  {| path_join := fun d f => d ++ 47 :: f;
     path_dirname := dirname;
     str_replace := replaceFirst;
     url_href := fun rel base =>
       if startsWith (js "//") rel then None
       else Some (js "https://example.com" ++ rel) |}.

Definition fetcher (maxItems : Z) : FileLinkFetcher.Fetcher :=
  FileLinkFetcher.new platform
    (js "https://example.com/list?from={searchStartYear}-{searchStartMonth}&page={curPage}")
    (FileLinkFetcher.mkSource (js "src") (js "CO") (js "cat"))
    (FileLinkFetcher.mkDate 2024 1 1) (FileLinkFetcher.mkDate 2024 5 31)
    1 maxItems
    (fun h => if startsWith (js "/") h then Some h else None)
    (Number.of_Z 0) (Number.of_Z 0).

Definition anchorA : Anchor := mkAnchor (js "/files/a") (js "a.pdf").
Definition anchorB : Anchor := mkAnchor (js "/files/b") (js "b.pdf").
Definition anchorBad : Anchor := mkAnchor (js "//") (js "bad.pdf").
Definition linkA : FileLink :=
  mkFileLink (js "https://example.com/files/a") (js "a.pdf").
Definition linkB : FileLink :=
  mkFileLink (js "https://example.com/files/b") (js "b.pdf").

(** A source that serves the pages of [pages] and fails to deliver any other. *)
Definition site (pages : list (list Anchor)) : Env :=
  {| render := fun page _ =>
       mkRendering true (pages !! Z.to_nat (page - 1)) true;
     remote := fun _ => Rejects;
     writable := fun _ => true;
     dir_size := fun _ => 4096%Z;
     random := fun _ => 0%Q |}.

(** A file server answering the listed URLs and rejecting any other request;
    the [locked] paths cannot be written. *)
Fixpoint answer (served : list (jsstring * Response)) (u : jsstring) : Response :=
  match served with
  | [] => Rejects
  | (k, r) :: rest => if str_eqb k u then r else answer rest u
  end.

Definition server (served : list (jsstring * Response)) (locked : list jsstring)
  : Env :=
  {| render := fun _ _ => mkRendering true None true;
     remote := answer served;
     writable := fun p => negb (bool_decide (p ∈ locked));
     dir_size := fun _ => 4096%Z;
     random := fun _ => (1 # 2)%Q |}.

Definition downloader : FileDownloader.Downloader :=
  FileDownloader.mk (js "./downloads/src-cat") (Number.of_Z 0) (Number.of_Z 3000).

Definition linkC : FileLink :=
  mkFileLink (js "https://example.com/files/c") (js "c.pdf").

End Sample.

(** ** UTF-8, as ['utf8'] files are written and read *)

Module Utf8.
Import Json.

(** The bytes of one code point. *)
Definition encode_point (cp : N) : list N :=
  if cp <? 0x80 then [cp]
  else if cp <? 0x800 then [0xC0 + cp / 64; 0x80 + cp mod 64]
  else if cp <? 0x10000 then
    [0xE0 + cp / 4096; 0x80 + cp / 64 mod 64; 0x80 + cp mod 64]
  else
    [0xF0 + cp / 262144; 0x80 + cp / 4096 mod 64; 0x80 + cp / 64 mod 64;
     0x80 + cp mod 64].

(** The code point of a surrogate pair. *)
Definition pair_point (lead trail : N) : N :=
  0x10000 + (lead - 0xD800) * 0x400 + (trail - 0xDC00).

(** [Buffer.from(text, 'utf8')]: the text by code points; a surrogate that is
    not half of a pair is written as U+FFFD. *)
Fixpoint encode (s : jsstring) : list N :=
  match s with
  | [] => []
  | c :: rest =>
      if is_lead c then
        match rest with
        | d :: rest' =>
            if is_trail d then encode_point (pair_point c d) ++ encode rest'
            else encode_point 0xFFFD ++ encode rest
        | [] => encode_point 0xFFFD
        end
      else if is_trail c then encode_point 0xFFFD ++ encode rest
      else encode_point c ++ encode rest
  end.

Definition is_cont (b : N) : bool := (0x80 <=? b) && (b <=? 0xBF).

(** The code units of one code point. *)
Definition units_of (cp : N) : jsstring :=
  if cp <? 0x10000 then [cp]
  else [0xD800 + (cp - 0x10000) / 0x400; 0xDC00 + (cp - 0x10000) mod 0x400].

(** [buffer.toString('utf8')] on well-formed UTF-8: shortest encodings only,
    no surrogates, nothing above U+10FFFF. [None] stands for bytes that are
    not well-formed, where the decoder substitutes U+FFFD. *)
Fixpoint decode (bs : list N) : option jsstring :=
  match bs with
  | [] => Some []
  | b0 :: r0 =>
      if b0 <? 0x80 then cons b0 <$> decode r0
      else if (0xC2 <=? b0) && (b0 <=? 0xDF) then
        match r0 with
        | b1 :: r1 =>
            if is_cont b1 then
              cons ((b0 - 0xC0) * 64 + (b1 - 0x80)) <$> decode r1
            else None
        | _ => None
        end
      else if (0xE0 <=? b0) && (b0 <=? 0xEF) then
        match r0 with
        | b1 :: b2 :: r2 =>
            if is_cont b1 && is_cont b2
               && negb ((b0 =? 0xE0) && (b1 <? 0xA0))
               && negb ((b0 =? 0xED) && (0x9F <? b1)) then
              cons ((b0 - 0xE0) * 4096 + (b1 - 0x80) * 64 + (b2 - 0x80))
                <$> decode r2
            else None
        | _ => None
        end
      else if (0xF0 <=? b0) && (b0 <=? 0xF4) then
        match r0 with
        | b1 :: b2 :: b3 :: r3 =>
            if is_cont b1 && is_cont b2 && is_cont b3
               && negb ((b0 =? 0xF0) && (b1 <? 0x90))
               && negb ((b0 =? 0xF4) && (0x8F <? b1)) then
              app (units_of ((b0 - 0xF0) * 262144 + (b1 - 0x80) * 4096
                             + (b2 - 0x80) * 64 + (b3 - 0x80)))
                <$> decode r3
            else None
        | _ => None
        end
      else None
  end.

(** A 16-bit code unit. *)
Definition code_unit (c : N) : Prop := c < 0x10000.
End Utf8.

(** ** The download patterns of the two scripts *)

Module Scripts.
Import Json.

(** The class of the pattern: any character but white space, the double
    quote and the single quote. *)
Definition is_url_char (c : N) : bool :=
  negb (is_js_space c || (c =? 34) || (c =? 39)).

(** The longest run of such characters at the head of a text. *)
Fixpoint span_url (s : jsstring) : jsstring :=
  match s with
  | c :: rest => if is_url_char c then c :: span_url rest else []
  | [] => []
  end.

(** The class, repeated, then [.pdf], inside a run of such characters: the
    greedy class gives back as little as it must, so the last [.pdf] that has
    a character before it wins; what is left of the run comes back too. *)
Fixpoint last_pdf (run : jsstring) : option (jsstring * jsstring) :=
  match run with
  | [] => None
  | c :: rest =>
      match last_pdf rest with
      | Some (m, tail) => Some (c :: m, tail)
      | None =>
          match strip_prefix (js ".pdf") rest with
          | Some tail => Some (c :: js ".pdf", tail)
          | None => None
          end
      end
  end.

(** The pattern after the two slashes, at the head of a text: up to the last
    [.pdf] of the run, and the rest of the run when that is a question mark
    and at least one more character. *)
Definition pdf_path (s : jsstring) : option jsstring :=
  match last_pdf (span_url s) with
  | Some (m, tail) =>
      match tail with
      | q :: _ :: _ => if q =? 63 then Some (m ++ tail) else Some m
      | _ => Some m
      end
  | None => None
  end.

(** [:\/\/] and the rest, after a scheme. *)
Definition after_scheme (scheme s : jsstring) : option jsstring :=
  match strip_prefix (js "://") s with
  | Some rest => app (scheme ++ js "://") <$> pdf_path rest
  | None => None
  end.

(** The whole pattern at the head of a text: [s?] takes the s first. *)
Definition mirae_at (s : jsstring) : option jsstring :=
  match strip_prefix (js "http") s with
  | Some r0 =>
      match (match r0 with
             | c :: r1 => if c =? 115 then after_scheme (js "https") r1 else None
             | [] => None
             end) with
      | Some m => Some m
      | None => after_scheme (js "http") r0
      end
  | None => None
  end.

(** [href.match(p)?.[0]]: the match at the leftmost position that has one. *)
Fixpoint leftmost {A} (at_head : jsstring -> option A) (s : jsstring)
  : option A :=
  match at_head s with
  | Some m => Some m
  | None =>
      match s with
      | [] => None
      | _ :: rest => leftmost at_head rest
      end
  end.

(** DOWNLOAD_PATTERN of MiraeAssetFetcher.ts: http, an optional s, a colon
    and two slashes, one or more characters of the class, [.pdf], and
    optionally a question mark and one or more characters of the class. *)
Definition MIRAE_DOWNLOAD_PATTERN : jsstring -> option jsstring :=
  leftmost mirae_at.

(** The longest run of characters that are no quote. *)
Fixpoint span_unquoted (s : jsstring) : jsstring :=
  match s with
  | c :: rest => if (c =? 34) || (c =? 39) then [] else c :: span_unquoted rest
  | [] => []
  end.

Definition hankyung_at (s : jsstring) : option jsstring :=
  match strip_prefix (js "/analysis/downpdf?") s with
  | Some rest => Some (js "/analysis/downpdf?" ++ span_unquoted rest)
  | None => None
  end.

(** DOWNLOAD_PATTERN of the HanKyung script: [/analysis/downpdf?] and every
    character up to the next quote, double or single. *)
Definition HANKYUNG_DOWNLOAD_PATTERN : jsstring -> option jsstring :=
  leftmost hankyung_at.
End Scripts.

(** ** DartFetcher: the links it hands to the downloader *)

Module DartFetcher.
Import Json.

Definition BASE_URL : jsstring := js "https://dart.fss.or.kr".

(** The class of the last pattern of [getDownloadInfo]: less-than,
    greater-than, colon, double quote, slash, backslash, bar, question mark
    and star. *)
Definition is_reserved (c : N) : bool :=
  (c =? 60) || (c =? 62) || (c =? 58) || (c =? 34) || (c =? 47) || (c =? 92)
  || (c =? 124) || (c =? 63) || (c =? 42).

(** [fileName.replace(pattern, "_")] with that class, repeated, and the [g]
    flag: every longest run of such characters becomes one underscore.
    [in_run] tells that the character before was one of them. *)
Fixpoint sanitize_from (in_run : bool) (s : jsstring) : jsstring :=
  match s with
  | [] => []
  | c :: rest =>
      if is_reserved c then
        if in_run then sanitize_from true rest else 95 :: sanitize_from true rest
      else c :: sanitize_from false rest
  end.

Definition sanitize (fileName : jsstring) : jsstring := sanitize_from false fileName.

(** The pattern of [getPdfDownloadInfo] at the head of a text:
    [openPdfDownload], an opening parenthesis, digits between single quotes,
    a comma, white space if any, digits between single quotes, a closing
    parenthesis. The two runs of digits are the captures. *)
Definition openPdfDownload_at (s : jsstring) : option (jsstring * jsstring) :=
  r0 ← strip_prefix (js "openPdfDownload('") s;
  let '(rcpNo, r1) := span_digits r0 in
  match rcpNo with
  | [] => None
  | _ =>
      r2 ← strip_prefix (js "',") r1;
      r3 ← strip_prefix (js "'") (trim_start r2);
      let '(dcmNo, r4) := span_digits r3 in
      match dcmNo with
      | [] => None
      | _ => _ ← strip_prefix (js "')") r4; Some (rcpNo, dcmNo)
      end
  end.

(** [interface SearchResultItem] *)
Record SearchResultItem := mkItem {
  number : Z;
  corpName : jsstring;
  reportName : jsstring;
  submitter : jsstring;
  receiveDate : jsstring;
  remarks : jsstring;
  href : jsstring
}.

(** What the site does. [report]: for a report URL, the [onclick] attribute
    of the download button, if the button has one; [None] when the request or
    the parsing of the page throws. [disposition]: for a download URL, the
    [content-disposition] header, if there is one; [None] when the request
    rejects. [nameIn]: the file name the two name patterns and their decoders
    read off a header - none when neither pattern matches, a failure when the
    decoder throws. *)
Inductive Failure :=
| RequestFailed (u : jsstring)
| HeaderMissing
| BadName.

Record Site := mkSite {
  report : jsstring -> option (option jsstring);
  disposition : jsstring -> option (option jsstring);
  nameIn : jsstring -> Failure + option jsstring
}.

Inductive Line :=
| LNoButton
| LNoArguments
| LPageError (reportUrl : jsstring)
| LFetchingInfo (downloadUrl : jsstring)
| LZipFailed (e : Failure)
| LNoInfo (reportUrl : jsstring).

Inductive Step :=
| Get (u : jsstring)
| Log (l : Line).

Section Methods.
Context (site : Site).

(** [getPdfDownloadInfo(reportUrl)]: the two numbers, or null. *)
Definition getPdfDownloadInfo (reportUrl : jsstring)
  : option (jsstring * jsstring) * list Step :=
  match report site reportUrl with
  | None => (None, [Get reportUrl; Log (LPageError reportUrl)])
  | Some onclickAttr =>
      match onclickAttr with
      | Some a =>
          if truthy a then
            match Scripts.leftmost openPdfDownload_at a with
            | Some info => (Some info, [Get reportUrl])
            | None => (None, [Get reportUrl; Log LNoArguments])
            end
          else (None, [Get reportUrl; Log LNoButton])
      | None => (None, [Get reportUrl; Log LNoButton])
      end
  end.

Definition downloadUrlOf (fileType rcpNo dcmNo : jsstring) : jsstring :=
  BASE_URL ++ js "/pdf/download/" ++ fileType ++ js ".do?rcp_no=" ++ rcpNo
    ++ js "&dcm_no=" ++ dcmNo.

(** [getDownloadInfo(rcpNo, dcmNo, fileType)]: the link, or what it throws. *)
Definition getDownloadInfo (rcpNo dcmNo fileType : jsstring)
  : (Failure + FileLink) * list Step :=
  let downloadUrl := downloadUrlOf fileType rcpNo dcmNo in
  let t := [Log (LFetchingInfo downloadUrl); Get downloadUrl] in
  match disposition site downloadUrl with
  | None => (inl (RequestFailed downloadUrl), t)
  | Some contentDisposition =>
      match contentDisposition with
      | Some h =>
          if truthy h then
            match nameIn site h with
            | inl e => (inl e, t)
            | inr name =>
                let fileName :=
                  match name with
                  | Some n => n
                  | None => js "file_" ++ rcpNo ++ js ".unknown"
                  end in
                (inr (mkFileLink downloadUrl (sanitize fileName)), t)
            end
          else (inl HeaderMissing, t)
      | None => (inl HeaderMissing, t)
      end
  end.

(** The [for (const result of searchItems)] loop of [fetchAllFileLinks]:
    [fileLinks] as the loop leaves it. *)
Fixpoint linkLoop (searchItems : list SearchResultItem) (fileLinks : list FileLink)
  : list FileLink * list Step :=
  match searchItems with
  | [] => (fileLinks, [])
  | result :: rest =>
      let reportUrl := href result in
      let '(pdfDownloadInfo, t0) := getPdfDownloadInfo reportUrl in
      match pdfDownloadInfo with
      | Some (rcpNo, dcmNo) =>
          let '(pdf, t1) := getDownloadInfo rcpNo dcmNo (js "pdf") in
          match pdf with
          | inr fileLink =>
              let '(out, t) :=
                linkLoop rest
                  (fileLinks ++ [mkFileLink (url fileLink) (filename fileLink)]) in
              (out, t0 ++ t1 ++ t)
          | inl _ =>
              let '(zip, t2) := getDownloadInfo rcpNo dcmNo (js "zip") in
              match zip with
              | inr fileLink =>
                  let '(out, t) :=
                    linkLoop rest
                      (fileLinks ++ [mkFileLink (url fileLink) (filename fileLink)]) in
                  (out, t0 ++ t1 ++ t2 ++ t)
              | inl zipError =>
                  let '(out, t) := linkLoop rest fileLinks in
                  (out, t0 ++ t1 ++ t2 ++ Log (LZipFailed zipError) :: t)
              end
          end
      | None =>
          let '(out, t) := linkLoop rest fileLinks in
          (out, t0 ++ Log (LNoInfo reportUrl) :: t)
      end
  end.
End Methods.

Definition is_get (s : Step) : bool :=
  match s with Get _ => true | Log _ => false end.

(** The characters that are neither of that class nor an underscore. *)
Definition plain (c : N) : bool := negb (is_reserved c) && negb (c =? 95).

(** A call as the pattern of [getPdfDownloadInfo] wants it, with white space
    [ws] after the comma. *)
Definition call (rcpNo ws dcmNo : jsstring) : jsstring :=
  js "openPdfDownload('" ++ rcpNo ++ js "'," ++ ws ++ js "'" ++ dcmNo ++ js "')".

(** A non-empty run of decimal digits. *)
Definition digits (s : jsstring) : Prop :=
  s <> [] /\ Forall (fun c => is_digit c = true) s.

(** A link as the loop makes them: a download URL of the site for two
    numbers, and a file name without a reserved character. *)
Definition dart_link (l : FileLink) : Prop :=
  (exists fileType rcpNo dcmNo,
     url l = downloadUrlOf fileType rcpNo dcmNo
     /\ (fileType = js "pdf" \/ fileType = js "zip")
     /\ digits rcpNo /\ digits dcmNo)
  /\ Forall (fun c => is_reserved c = false) (filename l).
End DartFetcher.

(** ** A site with five reports *)

Module DartSample.
Import DartFetcher.

Definition item (h : jsstring) : SearchResultItem :=
  mkItem 1 (js "corp") (js "report") (js "corp") (js "2025.01.02") [] h.

(** The first report has a PDF, the second only an archive, the third
    neither, the page of the fourth has no button, and the page of the fifth
    does not load. *)
Definition site : Site := {|
  report := fun u =>
    if str_eqb u (js "r1") then
      Some (Some (js "openPdfDownload('20250102000123', '1234567'); return false;"))
    else if str_eqb u (js "r2") then
      Some (Some (js "openPdfDownload('20250103000456','7654321')"))
    else if str_eqb u (js "r3") then
      Some (Some (js "openPdfDownload('20250104000789', '1111111')"))
    else if str_eqb u (js "r4") then Some None
    else None;
  disposition := fun u =>
    if str_eqb u (downloadUrlOf (js "pdf") (js "20250102000123") (js "1234567")) then
      Some (Some (js "attachment; filename=q1/2025: report?.pdf"))
    else if str_eqb u (downloadUrlOf (js "zip") (js "20250103000456") (js "7654321")) then
      Some (Some (js "attachment; filename=all.zip"))
    else if str_eqb u (downloadUrlOf (js "zip") (js "20250104000789") (js "1111111")) then
      Some None
    else None;
  nameIn := fun h => inr (Json.strip_prefix (js "attachment; filename=") h)
|}.

Definition searchItems : list SearchResultItem :=
  [item (js "r1"); item (js "r2"); item (js "r3"); item (js "r4"); item (js "r5")].
End DartSample.

(** ** Notions the further facts are stated with *)

Module Notions.
Import FileLinkFetcher.

(** A run of white space, as [trim] strips it. *)
Definition blank (s : jsstring) : Prop := Forall (fun c => is_js_space c = true) s.

(** What the title pattern [/(.+\.[a-zA-Z0-9]+)/] matches: at least one
    character that is no line terminator, a dot, and at least one letter or
    digit. *)
Definition file_name_shape (m : jsstring) : Prop :=
  exists stem ext,
    m = stem ++ 46 :: ext
    /\ stem <> [] /\ Forall (fun c => is_line_terminator c = false) stem
    /\ ext <> [] /\ Forall (fun c => is_alnum c = true) ext.

(** The text [m] occurs in [s] after [before]. *)
Definition occurs_at (before m s : jsstring) : Prop :=
  exists after, s = before ++ m ++ after.

(** A dot, then letters and digits, after characters of one line. *)
Definition dotted (pre ext : jsstring) : Prop :=
  Forall (fun c => is_line_terminator c = false) pre
  /\ ext <> [] /\ Forall (fun c => is_alnum c = true) ext.

(** The lines of a text: the pieces between its line feeds. *)
Fixpoint lines (s : jsstring) : list jsstring :=
  match s with
  | [] => [[]]
  | c :: rest =>
      if c =? 10 then [] :: lines rest
      else
        match lines rest with
        | l :: ls => (c :: l) :: ls
        | [] => [[c]]
        end
  end.

Definition one_line (s : jsstring) : Prop := Forall (fun c => c <> 10) s.

(** A reference the downloader can work with: it has a URL, and a file name
    of the shape the title pattern matches. *)
Definition usable (l : FileLink) : Prop :=
  url l <> [] /\ file_name_shape (filename l).

(** The pauses a trace made, in order. *)
Definition delays (tr : list Event) : list number :=
  omap (fun ev => match ev with EvDelay ms => Some ms | _ => None end) tr.

(** A server that announces, for every file of the batch, the true length of
    the body it sends. *)
Definition honest (env : Env) (links : list FileLink) : Prop :=
  forall l, In l links ->
    exists h body,
      remote env (url l) = Responds (Some h) body
      /\ truthy h = true
      /\ parseInt h = Some (Z.of_nat (length body)).

#[global] Instance DownloadOutcome_eq_dec : EqDecision DownloadOutcome.
Proof. solve_decision. Defined.

(** [fs.statSync(p).size], when there is something at [p]. *)
Definition size_at (env : Env) (fs : FS) (p : jsstring) : option Z :=
  match fs !! p with
  | Some (File data) => Some (Z.of_nat (length data))
  | Some Dir => Some (dir_size env p)
  | None => None
  end.

(** The destination of [l] has the size the server announces for it. *)
Definition settled (pf : Platform) (env : Env) (self : FileDownloader.Downloader)
    (fs : FS) (l : FileLink) : Prop :=
  exists h body,
    remote env (url l) = Responds (Some h) body
    /\ truthy h = true
    /\ parseInt h = Some (Z.of_nat (length body))
    /\ size_at env fs (path_join pf (FileDownloader.folderPath self) (filename l))
       = Some (Z.of_nat (length body)).

(** A reference whose strings are sequences of 16-bit code units. *)
Definition of_code_units (l : FileLink) : Prop :=
  Forall Utf8.code_unit (url l) /\ Forall Utf8.code_unit (filename l).
End Notions.

(** ** The callers: [fetchAndDownloadFileLinks] and the scripts *)

Module Pipeline.
Import FileLinkFetcher.

(** The console lines of [fetchAndDownloadFileLinks] and of the scripts'
    [startDownloadProcess]. *)
Inductive TopLine :=
| LFound (n : nat) (fileLinks : list FileLink)
| LProcessCompleted
| LProcessError (e : Err).

(** A step of the whole process: an event of the two classes, or one of the
    lines above. *)
Inductive Step :=
| Inner (ev : Event)
| Top (l : TopLine).

Definition Run : Type := Res unit * FS * list Step.

(** The list a [FileLink[]] value holds, when it is one: the walked list, or
    a checkpoint value that is an array of objects with string [url] and
    [filename]. *)
Definition typed (fileLinks : LinkList) : option (list FileLink) :=
  match fileLinks with
  | FromWalk links => Some links
  | FromCheckpoint v => Json.as_FileLinks v
  end.

Section Callers.
Context (pf : Platform) (env : Env) (self : Fetcher).

(** What the rest of [fetchAndDownloadFileLinks] does with a checkpoint value
    that is no [FileLink[]] - the declared type is not checked at run time,
    and the outcome then depends on how [path.join] and [axios] treat values
    that are no strings. It is left open. *)
Context (untyped : Json.json -> jsstring -> FS -> Run).

(** The last two statements of [fetchAndDownloadFileLinks], on a list. *)
Definition retrieve (links : list FileLink) (downloadAnswer : jsstring)
    (fs : FS) : Run :=
  let downloader :=
    FileDownloader.mk (downloadFolderPath self)
      (downloadMinDelayMs self) (downloadMaxDelayMs self) in
  let '(r, fs', t) :=
    FileDownloader.confirmAndDownloadFiles pf env downloader links downloadAnswer fs in
  (r, fs', Top (LFound (length links) links) :: map Inner t).

(** [fetchAndDownloadFileLinks()], with the lines the operator types at the
    two prompts. *)
Definition fetchAndDownloadFileLinks (fuel : nat)
    (reuseAnswer downloadAnswer : jsstring) (fs : FS) : Run :=
  match fetchAllFileLinks pf env self fuel reuseAnswer fs with
  | (Ret fileLinks, fs1, t1) =>
      let '(r, fs2, t2) :=
        match fileLinks with
        | FromWalk links => retrieve links downloadAnswer fs1
        | FromCheckpoint v =>
            match Json.as_FileLinks v with
            | Some links => retrieve links downloadAnswer fs1
            | None => untyped v downloadAnswer fs1
            end
        end in
      (r, fs2, map Inner t1 ++ t2)
  | (Throw e, fs1, t1) => (Throw e, fs1, map Inner t1)
  | (Starved, fs1, t1) => (Starved, fs1, map Inner t1)
  end.

(** [startDownloadProcess()] of the scripts. *)
Definition startDownloadProcess (fuel : nat)
    (reuseAnswer downloadAnswer : jsstring) (fs : FS) : Run :=
  match fetchAndDownloadFileLinks fuel reuseAnswer downloadAnswer fs with
  | (Ret _, fs1, t1) => (Ret tt, fs1, t1 ++ [Top LProcessCompleted])
  | (Throw e, fs1, t1) => (Ret tt, fs1, t1 ++ [Top (LProcessError e)])
  | (Starved, fs1, t1) => (Starved, fs1, t1)
  end.
End Callers.
End Pipeline.

(** ** A source whose browser gives up *)

Module Scenario.
(** A source whose browser fails to start on any page beyond [pages]. *)
Definition crashing (pages : list (list Anchor)) : Env :=
  {| render := fun page _ =>
       match pages !! Z.to_nat (page - 1) with
       | Some a => mkRendering true (Some a) true
       | None => mkRendering false None true
       end;
     remote := fun _ => Rejects;
     writable := fun _ => true;
     dir_size := fun _ => 4096%Z;
     random := fun _ => 0%Q |}.
End Scenario.

(** * Facts *)

(** ** The model on small inputs *)

Module Sanity.

Example confirms_y : confirms (js "y") = true /\ confirms (js " Y ") = true.
Proof. split; reflexivity. Qed.

Example confirms_other :
  confirms (js "yes") = false /\ confirms (js "n") = false /\ confirms [] = false.
Proof. repeat split; reflexivity. Qed.

Example parseInt_samples :
  parseInt (js "200") = Some 200%Z
  /\ parseInt (js "  12abc") = Some 12%Z
  /\ parseInt (js "-0") = Some 0%Z
  /\ parseInt (js "abc") = None.
Proof. repeat split; reflexivity. Qed.

Example title_with_extension :
  FileLinkFetcher.extractFileNameFromTitle (js "report 2024.v2.pdf (final)")
  = Some (js "report 2024.v2.pdf").
Proof. reflexivity. Qed.

Example title_without_extension :
  FileLinkFetcher.extractFileNameFromTitle (js "no extension here") = None
  /\ FileLinkFetcher.extractFileNameFromTitle (js ".pdf") = None.
Proof. split; reflexivity. Qed.

Example parse_nested :
  Json.parse (js "{ " ++ Json.quote (js "a") ++ js " : [1, true, null, -1.5e3], "
                ++ Json.quote (js "b") ++ js " : {} }")
  = Some (Json.JObject
            [(js "a", Json.JArray [Json.JNumber (js "1"); Json.JBool true;
                                   Json.JNull; Json.JNumber (js "-1.5e3")]);
             (js "b", Json.JObject [])]).
Proof. reflexivity. Qed.

Example parse_rejects :
  Json.parse (js "[1,]") = None
  /\ Json.parse (js "[01]") = None
  /\ Json.parse (js "[] []") = None
  /\ Json.parse [] = None.
Proof. repeat split; reflexivity. Qed.

Example quote_escapes :
  Json.quote [0xD800; 10; 34; 65; 0xD83D; 0xDE00]
  = [34] ++ js "\ud800\n" ++ [92; 34; 65; 0xD83D; 0xDE00; 34].
Proof. reflexivity. Qed.

Example jsonLines_empty : FileLinkFetcher.jsonLines [] = [91; 10; 10; 93].
Proof. reflexivity. Qed.

Example derived_paths :
  FileLinkFetcher.outputFilePath (Sample.fetcher 80)
  = js "./downloads/src-cat-20240101-20240531.json"
  /\ FileLinkFetcher.downloadFolderPath (Sample.fetcher 80)
     = js "./downloads/src-cat-20240101-20240531".
Proof. split; reflexivity. Qed.

End Sanity.

(** ** JSON: what is written reads back *)

Module JsonFacts.
Import Json.

Lemma hex_value_digit d : d < 16 -> hex_value (hex_digit d) = Some d.
Proof.
  intros H.
  assert (Hd : d = 0 \/ d = 1 \/ d = 2 \/ d = 3 \/ d = 4 \/ d = 5 \/ d = 6 \/ d = 7
           \/ d = 8 \/ d = 9 \/ d = 10 \/ d = 11 \/ d = 12 \/ d = 13 \/ d = 14 \/ d = 15)
    by lia.
  repeat (destruct Hd as [-> | Hd]; [reflexivity |]). subst. reflexivity.
Qed.

Lemma hex_split c : c < 65536 ->
  (c / 4096 mod 16) * 4096 + (c / 256 mod 16) * 256 + (c / 16 mod 16) * 16 + c mod 16 = c.
Proof.
  intros H.
  pose proof (N.div_mod c 16 ltac:(lia)).
  pose proof (N.div_mod (c / 16) 16 ltac:(lia)).
  pose proof (N.div_mod (c / 256) 16 ltac:(lia)).
  pose proof (N.div_mod (c / 4096) 16 ltac:(lia)).
  pose proof (N.mod_lt c 16 ltac:(lia)).
  pose proof (N.mod_lt (c / 16) 16 ltac:(lia)).
  pose proof (N.mod_lt (c / 256) 16 ltac:(lia)).
  pose proof (N.mod_lt (c / 4096) 16 ltac:(lia)).
  assert (c / 16 / 16 = c / 256) by (rewrite N.Div0.div_div; reflexivity).
  assert (c / 256 / 16 = c / 4096) by (rewrite N.Div0.div_div; reflexivity).
  assert (c / 4096 / 16 = 0) by (rewrite N.Div0.div_div; apply N.div_small; lia).
  lia.
Qed.

Lemma lex_string_literal c rest :
  (c =? 34) = false -> (c =? 92) = false -> (c <? 32) = false ->
  lex_string (c :: rest) = '(v, r) ← lex_string rest; Some (c :: v, r).
Proof. intros H1 H2 H3. cbn [lex_string]. rewrite H1, H2, H3. reflexivity. Qed.

Lemma lex_string_escape h1 h2 h3 h4 rest :
  lex_string (92 :: 117 :: h1 :: h2 :: h3 :: h4 :: rest)
  = match hex_value h1, hex_value h2, hex_value h3, hex_value h4 with
    | Some a, Some b, Some c', Some d =>
        '(v, r) ← lex_string rest;
        Some ((a * 4096 + b * 256 + c' * 16 + d) :: v, r)
    | _, _, _, _ => None
    end.
Proof. reflexivity. Qed.

Lemma lex_string_unicode c rest : c < 65536 ->
  lex_string (unicode_escape c ++ rest) = '(v, r) ← lex_string rest; Some (c :: v, r).
Proof.
  intros H. unfold unicode_escape. cbn [app]. rewrite lex_string_escape.
  rewrite !hex_value_digit by (apply N.mod_lt; lia).
  rewrite hex_split by exact H. reflexivity.
Qed.

Lemma surrogate_bounds c : is_lead c || is_trail c = true -> 0xD800 <= c <= 0xDFFF.
Proof.
  unfold is_lead, is_trail. intros H.
  apply orb_true_iff in H as [H | H]; apply andb_true_iff in H as [H1 H2];
    apply N.leb_le in H1, H2; lia.
Qed.

Lemma lex_string_quote_unit c rest :
  lex_string (quote_unit c ++ rest) = '(v, r) ← lex_string rest; Some (c :: v, r).
Proof.
  unfold quote_unit.
  repeat match goal with
  | |- context [if ?x =? ?k then _ else _] =>
      destruct (N.eqb_spec x k) as [-> | ?]; [reflexivity |]
  end.
  destruct ((c <? 32) || is_lead c || is_trail c) eqn:E.
  - apply lex_string_unicode.
    rewrite <- orb_assoc in E. apply orb_true_iff in E as [E | E].
    + apply N.ltb_lt in E. lia.
    + apply surrogate_bounds in E. lia.
  - apply orb_false_iff in E as [E _]. apply orb_false_iff in E as [E _].
    apply lex_string_literal; [apply N.eqb_neq | apply N.eqb_neq |]; assumption.
Qed.

Lemma lex_string_pair c d rest :
  is_lead c = true -> is_trail d = true ->
  lex_string (c :: d :: rest) = '(v, r) ← lex_string rest; Some (c :: d :: v, r).
Proof.
  intros Hc Hd.
  assert (0xD800 <= c <= 0xDFFF) by (apply surrogate_bounds; rewrite Hc; reflexivity).
  assert (0xD800 <= d <= 0xDFFF)
    by (apply surrogate_bounds; rewrite Hd; apply orb_true_r).
  rewrite lex_string_literal
    by (first [apply N.eqb_neq | apply N.ltb_ge]; lia).
  rewrite lex_string_literal
    by (first [apply N.eqb_neq | apply N.ltb_ge]; lia).
  destruct (lex_string rest) as [[v r] |]; reflexivity.
Qed.

Lemma quote_body_cons2 c d s :
  quote_body (c :: d :: s)
  = if is_lead c && is_trail d then c :: d :: quote_body s
    else quote_unit c ++ quote_body (d :: s).
Proof. cbn [quote_body]. destruct (is_lead c), (is_trail d); reflexivity. Qed.

Lemma quote_body_single c : quote_body [c] = quote_unit c.
Proof. cbn [quote_body]. rewrite app_nil_r. destruct (is_lead c); reflexivity. Qed.

(** Reading back a quoted string. *)
Lemma lex_string_quote_body s : forall rest,
  lex_string (quote_body s ++ 34 :: rest) = Some (s, rest).
Proof.
  assert (H : forall s, (forall rest, lex_string (quote_body s ++ 34 :: rest) = Some (s, rest))
              /\ (forall c rest, lex_string (quote_body (c :: s) ++ 34 :: rest) = Some (c :: s, rest))).
  { clear s. induction s as [| d s [IH1 IH2]]; split.
    - reflexivity.
    - intros c rest. rewrite quote_body_single, lex_string_quote_unit. reflexivity.
    - intros rest. apply (IH2 d rest).
    - intros c rest. rewrite quote_body_cons2.
      destruct (is_lead c && is_trail d) eqn:E.
      + apply andb_true_iff in E as [Hc Hd].
        cbn [app]. rewrite lex_string_pair by assumption.
        rewrite IH1. reflexivity.
      + rewrite <- app_assoc, lex_string_quote_unit, IH2. reflexivity. }
  apply H.
Qed.

(** *** The lexer's fuel *)

Lemma lex_string_shorter s : forall v r,
  lex_string s = Some (v, r) -> (length r < length s)%nat.
Proof.
  remember (length s) as n eqn:Hn. revert s Hn.
  induction n as [n IHn] using lt_wf_ind. intros s -> v r H.
  assert (IH : forall s' v' r', (length s' < length s)%nat ->
            lex_string s' = Some (v', r') -> (length r' < length s')%nat)
    by (intros s' v' r' Hlt; exact (IHn _ Hlt s' eq_refl v' r')).
  clear IHn.
  destruct s as [| c rest]; [discriminate |].
  cbn [lex_string] in H.
  destruct (c =? 34); [injection H as _ <-; simpl; lia |].
  destruct (c =? 92).
  - destruct rest as [| e rest1]; [discriminate |].
    destruct (e =? 117).
    + destruct rest1 as [| h1 [| h2 [| h3 [| h4 rest2]]]]; try discriminate.
      destruct (hex_value h1), (hex_value h2), (hex_value h3), (hex_value h4);
        try discriminate.
      destruct (lex_string rest2) as [[v' r'] |] eqn:E; [| discriminate].
      injection H as _ <-. apply IH in E; simpl in *; lia.
    + destruct (unescape e); [| discriminate]. cbn in H.
      destruct (lex_string rest1) as [[v' r'] |] eqn:E; [| discriminate].
      injection H as _ <-. apply IH in E; simpl in *; lia.
  - destruct (c <? 32); [discriminate |].
    destruct (lex_string rest) as [[v' r'] |] eqn:E; [| discriminate].
    injection H as _ <-. apply IH in E; simpl in *; lia.
Qed.

Lemma span_digits_shorter s ds r :
  span_digits s = (ds, r) -> (length r <= length s)%nat.
Proof.
  revert ds r. induction s as [| c rest IH]; intros ds r H; cbn [span_digits] in H.
  - injection H as _ <-. lia.
  - destruct (is_digit c).
    + destruct (span_digits rest) as [ds' r'] eqn:E. injection H as _ <-.
      specialize (IH _ _ eq_refl). simpl. lia.
    + injection H as _ <-. lia.
Qed.

Lemma lex_number_shorter s n r :
  lex_number s = Some (n, r) -> (length r < length s)%nat.
Proof.
  unfold lex_number. intros H.
  assert (Hint : forall s0 i s1, lex_int s0 = Some (i, s1) -> (length s1 < length s0)%nat).
  { intros s0 i s1. unfold lex_int. destruct s0 as [| c rest]; [discriminate |].
    destruct (c =? 48); [intros [= _ <-]; simpl; lia |].
    destruct (is_digit c); [| discriminate].
    destruct (span_digits rest) as [ds r'] eqn:E. intros [= _ <-].
    apply span_digits_shorter in E. simpl. lia. }
  assert (Hfrac : forall s1 f s2, lex_frac s1 = Some (f, s2) -> (length s2 <= length s1)%nat).
  { intros s1 f s2. unfold lex_frac. destruct s1 as [| c rest]; [intros [= _ <-]; lia |].
    destruct (c =? 46); [| intros [= _ <-]; lia].
    destruct (span_digits rest) as [[| d ds] r'] eqn:E; [discriminate |].
    intros [= _ <-]. apply span_digits_shorter in E. simpl. lia. }
  assert (Hexp : forall s2 e s3, lex_exp s2 = Some (e, s3) -> (length s3 <= length s2)%nat).
  { intros s2 e s3. unfold lex_exp. destruct s2 as [| c rest]; [intros [= _ <-]; lia |].
    destruct ((c =? 101) || (c =? 69)); [| intros [= _ <-]; lia].
    destruct rest as [| g rest'].
    - cbn. discriminate.
    - destruct ((g =? 43) || (g =? 45)).
      + destruct (span_digits rest') as [[| d ds] r'] eqn:E; [discriminate |].
        intros [= _ <-]. apply span_digits_shorter in E. simpl. lia.
      + destruct (span_digits (g :: rest')) as [[| d ds] r'] eqn:E; [discriminate |].
        intros [= _ <-]. apply span_digits_shorter in E. simpl in *. lia. }
  assert (Hminus : forall m s0,
            match s with
            | c :: rest => if c =? 45 then ([c], rest) else ([], s)
            | [] => ([], s)
            end = (m, s0) -> (length s0 <= length s)%nat).
  { intros m s0 E. destruct s as [| c rest]; [injection E as _ <-; lia |].
    destruct (c =? 45); injection E as _ <-; simpl; lia. }
  destruct (match s with
            | c :: rest => if c =? 45 then ([c], rest) else ([], s)
            | [] => ([], s)
            end) as [m s0] eqn:E0.
  specialize (Hminus m s0 eq_refl).
  destruct (lex_int s0) as [[i s1] |] eqn:E1; [| discriminate].
  cbn in H.
  destruct (lex_frac s1) as [[f s2] |] eqn:E2; [| discriminate].
  cbn in H.
  destruct (lex_exp s2) as [[e s3] |] eqn:E3; [| discriminate].
  cbn in H. injection H as _ <-.
  apply Hint in E1. apply Hfrac in E2. apply Hexp in E3. lia.
Qed.

Lemma strip_prefix_shorter p : forall s r,
  strip_prefix p s = Some r -> (length r + length p = length s)%nat.
Proof.
  induction p as [| a p IH]; intros s r H; cbn [strip_prefix] in H.
  - injection H as ->. simpl. lia.
  - destruct s as [| b s]; [discriminate |].
    destruct (a =? b); [| discriminate]. apply IH in H. simpl. lia.
Qed.

Lemma lex_literal_shorter s t r :
  lex_literal s = Some (t, r) -> (length r < length s)%nat.
Proof.
  unfold lex_literal. intros H.
  destruct (strip_prefix (js "true") s) eqn:E1.
  { injection H as _ <-. apply strip_prefix_shorter in E1. simpl in E1. lia. }
  destruct (strip_prefix (js "false") s) eqn:E2.
  { injection H as _ <-. apply strip_prefix_shorter in E2. simpl in E2. lia. }
  destruct (strip_prefix (js "null") s) eqn:E3; [| discriminate].
  injection H as _ <-. apply strip_prefix_shorter in E3. simpl in E3. lia.
Qed.

(** Fuel beyond the length of the text changes nothing. *)
Lemma lex_fuel_irrelevant f1 : forall f2 s,
  (length s < f1)%nat -> (length s < f2)%nat -> lex f1 s = lex f2 s.
Proof.
  induction f1 as [| f1 IH]; intros f2 s H1 H2; [lia |].
  destruct f2 as [| f2]; [lia |].
  destruct s as [| c rest]; [reflexivity |].
  simpl in H1, H2.
  assert (IHrest : lex f1 rest = lex f2 rest) by (apply IH; lia).
  cbn [lex].
  repeat match goal with
  | |- (if ?b then _ else _) = (if ?b then _ else _) => destruct b
  | |- _ <$> _ = _ <$> _ => f_equal
  end; try exact IHrest.
  - destruct (lex_string rest) as [[v r] |] eqn:E; [| reflexivity].
    apply lex_string_shorter in E. cbn. f_equal. apply IH; lia.
  - destruct (lex_number (c :: rest)) as [[n r] |] eqn:E; [| reflexivity].
    apply lex_number_shorter in E. simpl in E. cbn. f_equal. apply IH; lia.
  - destruct (lex_literal (c :: rest)) as [[t r] |] eqn:E; [| reflexivity].
    apply lex_literal_shorter in E. simpl in E. cbn. f_equal. apply IH; lia.
Qed.

Lemma tokens_nil : tokens [] = Some [].
Proof. reflexivity. Qed.

Lemma lex_unfold f c rest :
  lex (S f) (c :: rest) =
    if is_ws c then lex f rest
    else if c =? 91 then cons TLBracket <$> lex f rest
    else if c =? 93 then cons TRBracket <$> lex f rest
    else if c =? 123 then cons TLBrace <$> lex f rest
    else if c =? 125 then cons TRBrace <$> lex f rest
    else if c =? 44 then cons TComma <$> lex f rest
    else if c =? 58 then cons TColon <$> lex f rest
    else if c =? 34 then
      '(v, r) ← lex_string rest; cons (TString v) <$> lex f r
    else if (c =? 45) || is_digit c then
      '(n, r) ← lex_number (c :: rest); cons (TNumber n) <$> lex f r
    else
      '(t, r) ← lex_literal (c :: rest); cons t <$> lex f r.
Proof. reflexivity. Qed.

Lemma tokens_step c rest :
  tokens (c :: rest) =
    if is_ws c then tokens rest
    else if c =? 91 then cons TLBracket <$> tokens rest
    else if c =? 93 then cons TRBracket <$> tokens rest
    else if c =? 123 then cons TLBrace <$> tokens rest
    else if c =? 125 then cons TRBrace <$> tokens rest
    else if c =? 44 then cons TComma <$> tokens rest
    else if c =? 58 then cons TColon <$> tokens rest
    else if c =? 34 then
      '(v, r) ← lex_string rest; cons (TString v) <$> tokens r
    else if (c =? 45) || is_digit c then
      '(n, r) ← lex_number (c :: rest); cons (TNumber n) <$> tokens r
    else
      '(t, r) ← lex_literal (c :: rest); cons t <$> tokens r.
Proof.
  unfold tokens at 1. cbn [length]. rewrite lex_unfold. fold (tokens rest).
  repeat match goal with
  | |- (if ?b then _ else _) = (if ?b then _ else _) => destruct b
  end; try reflexivity.
  - destruct (lex_string rest) as [[v r] |] eqn:E; [| reflexivity].
    apply lex_string_shorter in E. cbn [mbind option_bind]. f_equal.
    unfold tokens. apply lex_fuel_irrelevant; lia.
  - destruct (lex_number (c :: rest)) as [[n r] |] eqn:E; [| reflexivity].
    apply lex_number_shorter in E. simpl in E. cbn [mbind option_bind]. f_equal.
    unfold tokens. apply lex_fuel_irrelevant; lia.
  - destruct (lex_literal (c :: rest)) as [[t r] |] eqn:E; [| reflexivity].
    apply lex_literal_shorter in E. simpl in E. cbn [mbind option_bind]. f_equal.
    unfold tokens. apply lex_fuel_irrelevant; lia.
Qed.

Lemma tokens_quote s rest :
  tokens (quote s ++ rest) = cons (TString s) <$> tokens rest.
Proof.
  unfold quote. cbn [app]. rewrite tokens_step. cbn.
  rewrite <- app_assoc. cbn [app]. rewrite lex_string_quote_body. reflexivity.
Qed.

Lemma parse_unfold_value f ts :
  parse_value (S f) ts =
      match ts with
      | TNull :: r => Some (JNull, r)
      | TTrue :: r => Some (JBool true, r)
      | TFalse :: r => Some (JBool false, r)
      | TNumber n :: r => Some (JNumber n, r)
      | TString s :: r => Some (JString s, r)
      | TLBracket :: TRBracket :: r => Some (JArray [], r)
      | TLBracket :: r =>
          '(v, r1) ← parse_value f r;
          '(vs, r2) ← parse_elements f r1;
          Some (JArray (v :: vs), r2)
      | TLBrace :: TRBrace :: r => Some (JObject [], r)
      | TLBrace :: TString k :: TColon :: r =>
          '(v, r1) ← parse_value f r;
          '(ms, r2) ← parse_members f r1;
          Some (JObject ((k, v) :: ms), r2)
      | _ => None
      end.
Proof. reflexivity. Qed.

Lemma parse_unfold_elements f ts :
  parse_elements (S f) ts =
      match ts with
      | TRBracket :: r => Some ([], r)
      | TComma :: r =>
          '(v, r1) ← parse_value f r;
          '(vs, r2) ← parse_elements f r1;
          Some (v :: vs, r2)
      | _ => None
      end.
Proof. reflexivity. Qed.

Lemma parse_unfold_members f ts :
  parse_members (S f) ts =
      match ts with
      | TRBrace :: r => Some ([], r)
      | TComma :: TString k :: TColon :: r =>
          '(v, r1) ← parse_value f r;
          '(ms, r2) ← parse_members f r1;
          Some ((k, v) :: ms, r2)
      | _ => None
      end.
Proof. reflexivity. Qed.

Ltac step_sub H IHv IHe IHm :=
  match type of H with
  | context [parse_value ?f ?r] =>
      let E := fresh "E" in
      destruct (parse_value f r) as [[? ?] |] eqn:E; [| discriminate H];
      rewrite (IHv _ _ E); cbn [mbind option_bind] in H |- *
  | context [parse_elements ?f ?r] =>
      let E := fresh "E" in
      destruct (parse_elements f r) as [[? ?] |] eqn:E; [| discriminate H];
      rewrite (IHe _ _ E); cbn [mbind option_bind] in H |- *
  | context [parse_members ?f ?r] =>
      let E := fresh "E" in
      destruct (parse_members f r) as [[? ?] |] eqn:E; [| discriminate H];
      rewrite (IHm _ _ E); cbn [mbind option_bind] in H |- *
  end.

Lemma parse_fuel_S f :
  (forall ts x, parse_value f ts = Some x -> parse_value (S f) ts = Some x)
  /\ (forall ts x, parse_elements f ts = Some x -> parse_elements (S f) ts = Some x)
  /\ (forall ts x, parse_members f ts = Some x -> parse_members (S f) ts = Some x).
Proof.
  induction f as [| f (IHv & IHe & IHm)]; [repeat split; discriminate |].
  repeat split; intros ts x H.
  - rewrite parse_unfold_value in H. rewrite parse_unfold_value.
    destruct ts as [| [] [| [] [| [] ts]]]; try assumption; try discriminate;
      repeat step_sub H IHv IHe IHm; try assumption.
  - rewrite parse_unfold_elements in H. rewrite parse_unfold_elements.
    destruct ts as [| [] ts]; try assumption; try discriminate;
      repeat step_sub H IHv IHe IHm; try assumption.
  - rewrite parse_unfold_members in H. rewrite parse_unfold_members.
    destruct ts as [| [] [| [] [| [] ts]]]; try assumption; try discriminate;
      repeat step_sub H IHv IHe IHm; try assumption.
Qed.

Lemma parse_value_mono f f' ts x :
  (f <= f')%nat -> parse_value f ts = Some x -> parse_value f' ts = Some x.
Proof.
  induction 1 as [| f' _ IH]; [trivial |].
  intros H. apply parse_fuel_S, IH, H.
Qed.

Ltac sub_shorter H IHv IHe IHm :=
  match type of H with
  | context [parse_value ?f ?r] =>
      let E := fresh "E" in
      destruct (parse_value f r) as [[? ?] |] eqn:E; [| discriminate H];
      apply IHv in E; cbn [mbind option_bind] in H
  | context [parse_elements ?f ?r] =>
      let E := fresh "E" in
      destruct (parse_elements f r) as [[? ?] |] eqn:E; [| discriminate H];
      apply IHe in E; cbn [mbind option_bind] in H
  | context [parse_members ?f ?r] =>
      let E := fresh "E" in
      destruct (parse_members f r) as [[? ?] |] eqn:E; [| discriminate H];
      apply IHm in E; cbn [mbind option_bind] in H
  end.

(** Every parser consumes at least one token. *)
Lemma parse_shorter f :
  (forall ts v r, parse_value f ts = Some (v, r) -> (length r < length ts)%nat)
  /\ (forall ts vs r, parse_elements f ts = Some (vs, r) -> (length r < length ts)%nat)
  /\ (forall ts ms r, parse_members f ts = Some (ms, r) -> (length r < length ts)%nat).
Proof.
  induction f as [| f (IHv & IHe & IHm)]; [repeat split; discriminate |].
  repeat split; intros ts x r H.
  - rewrite parse_unfold_value in H.
    destruct ts as [| [] [| [] [| [] ts]]]; try discriminate;
      repeat sub_shorter H IHv IHe IHm;
      injection H as _ <-; simpl in *; lia.
  - rewrite parse_unfold_elements in H.
    destruct ts as [| [] ts]; try discriminate;
      repeat sub_shorter H IHv IHe IHm;
      injection H as _ <-; simpl in *; lia.
  - rewrite parse_unfold_members in H.
    destruct ts as [| [] [| [] [| [] ts]]]; try discriminate;
      repeat sub_shorter H IHv IHe IHm;
      injection H as _ <-; simpl in *; lia.
Qed.

Ltac sub_same f1 f2 IHv IHe IHm :=
  match goal with
  | |- context [parse_value f1 ?r] =>
      rewrite (IHv f2 r) by (simpl in *; lia);
      let E := fresh "E" in
      destruct (parse_value f2 r) as [[? ?] |] eqn:E; [| reflexivity];
      apply parse_shorter in E; cbn [mbind option_bind]
  | |- context [parse_elements f1 ?r] =>
      rewrite (IHe f2 r) by (simpl in *; lia);
      let E := fresh "E" in
      destruct (parse_elements f2 r) as [[? ?] |] eqn:E; [| reflexivity];
      apply parse_shorter in E; cbn [mbind option_bind]
  | |- context [parse_members f1 ?r] =>
      rewrite (IHm f2 r) by (simpl in *; lia);
      let E := fresh "E" in
      destruct (parse_members f2 r) as [[? ?] |] eqn:E; [| reflexivity];
      apply parse_shorter in E; cbn [mbind option_bind]
  end.

(** Fuel beyond the number of tokens changes nothing: [None] is a syntax
    error, never a lack of fuel. *)
Lemma parse_fuel_irrelevant f1 :
  (forall f2 ts, (length ts < f1)%nat -> (length ts < f2)%nat ->
     parse_value f1 ts = parse_value f2 ts)
  /\ (forall f2 ts, (length ts < f1)%nat -> (length ts < f2)%nat ->
        parse_elements f1 ts = parse_elements f2 ts)
  /\ (forall f2 ts, (length ts < f1)%nat -> (length ts < f2)%nat ->
        parse_members f1 ts = parse_members f2 ts).
Proof.
  induction f1 as [| f1 (IHv & IHe & IHm)]; [repeat split; intros; lia |].
  repeat split; intros f2 ts H1 H2; (destruct f2 as [| f2]; [lia |]).
  - rewrite !parse_unfold_value.
    destruct ts as [| [] [| [] [| [] ts]]]; try reflexivity;
      repeat sub_same f1 f2 IHv IHe IHm; reflexivity.
  - rewrite !parse_unfold_elements.
    destruct ts as [| [] ts]; try reflexivity;
      repeat sub_same f1 f2 IHv IHe IHm; reflexivity.
  - rewrite !parse_unfold_members.
    destruct ts as [| [] [| [] [| [] ts]]]; try reflexivity;
      repeat sub_same f1 f2 IHv IHe IHm; reflexivity.
Qed.

(** *** Reading back what [saveFileLinksToJson] writes *)

Lemma tokens_ws c rest : is_ws c = true -> tokens (c :: rest) = tokens rest.
Proof. intros H. rewrite tokens_step, H. reflexivity. Qed.

Lemma tokens_lbracket rest : tokens (91 :: rest) = cons TLBracket <$> tokens rest.
Proof. rewrite tokens_step. reflexivity. Qed.

Lemma tokens_rbracket rest : tokens (93 :: rest) = cons TRBracket <$> tokens rest.
Proof. rewrite tokens_step. reflexivity. Qed.

Lemma tokens_lbrace rest : tokens (123 :: rest) = cons TLBrace <$> tokens rest.
Proof. rewrite tokens_step. reflexivity. Qed.

Lemma tokens_rbrace rest : tokens (125 :: rest) = cons TRBrace <$> tokens rest.
Proof. rewrite tokens_step. reflexivity. Qed.

Lemma tokens_comma rest : tokens (44 :: rest) = cons TComma <$> tokens rest.
Proof. rewrite tokens_step. reflexivity. Qed.

Lemma tokens_colon rest : tokens (58 :: rest) = cons TColon <$> tokens rest.
Proof. rewrite tokens_step. reflexivity. Qed.

Lemma quote_body_url : quote_body (js "url") = js "url".
Proof. reflexivity. Qed.

Lemma tokens_stringify l rest :
  tokens (stringify l ++ rest) = app (tokens_of_link l) <$> tokens rest.
Proof.
  unfold stringify.
  change (js "{") with [123]. change (js ":") with [58].
  change (js ",") with [44]. change (js "}") with [125].
  rewrite <- !app_assoc. cbn [app].
  rewrite tokens_lbrace, tokens_quote. cbn [app].
  rewrite tokens_colon, tokens_quote. cbn [app].
  rewrite tokens_comma, tokens_quote. cbn [app].
  rewrite tokens_colon, tokens_quote. cbn [app].
  rewrite tokens_rbrace.
  destruct (tokens rest); reflexivity.
Qed.

Lemma tokens_join rest : forall l tail,
  tokens (FileLinkFetcher.join [44; 10] (map (fun link => [32; 32] ++ stringify link) (l :: rest)) ++ tail)
  = app (tokens_of_links (l :: rest)) <$> tokens tail.
Proof.
  induction rest as [| l' rest IH]; intros l tail.
  - cbn [map FileLinkFetcher.join tokens_of_links concat]. rewrite <- app_assoc. cbn [app].
    rewrite !tokens_ws by reflexivity. rewrite tokens_stringify, app_nil_r.
    reflexivity.
  - change (map ?f (l :: l' :: rest)) with (f l :: map f (l' :: rest)).
    change (FileLinkFetcher.join ?sep (?p :: map ?f (l' :: rest)))
      with (p ++ sep ++ FileLinkFetcher.join sep (map f (l' :: rest))).
    rewrite <- !app_assoc. cbn [app].
    rewrite !tokens_ws by reflexivity. rewrite tokens_stringify.
    rewrite tokens_comma, tokens_ws by reflexivity. rewrite IH.
    destruct (tokens tail) as [ts |]; [| reflexivity].
    cbn [fmap option_fmap option_map tokens_of_links map concat].
    rewrite <- !app_assoc. reflexivity.
Qed.

Lemma tokens_jsonLines links :
  tokens (FileLinkFetcher.jsonLines links) = Some (TLBracket :: tokens_of_links links ++ [TRBracket]).
Proof.
  unfold FileLinkFetcher.jsonLines. cbn [app]. rewrite tokens_lbracket, tokens_ws by reflexivity.
  destruct links as [| l rest].
  - reflexivity.
  - rewrite tokens_join. cbn [app].
    rewrite tokens_ws by reflexivity. rewrite tokens_rbracket, tokens_nil.
    reflexivity.
Qed.

Lemma parse_link f l rest :
  parse_value (3 + f) (tokens_of_link l ++ rest) = Some (of_FileLink l, rest).
Proof. reflexivity. Qed.

Lemma parse_more_links links : forall f rest,
  parse_elements (S (length links + 3 + f))
    (concat (map (fun l' => TComma :: tokens_of_link l') links) ++ TRBracket :: rest)
  = Some (map of_FileLink links, rest).
Proof.
  induction links as [| l links IH]; intros f rest.
  - reflexivity.
  - cbn [map concat length]. rewrite <- app_assoc.
    rewrite parse_unfold_elements.
    change ((TComma :: tokens_of_link l) ++ ?r) with (TComma :: tokens_of_link l ++ r).
    cbv iota.
    replace (S (length links) + 3 + f)%nat with (3 + (length links + f + 1))%nat by lia.
    rewrite parse_link. cbn [mbind option_bind].
    replace (3 + (length links + f + 1))%nat with (S (length links + 3 + f))%nat by lia.
    rewrite IH. reflexivity.
Qed.

Lemma length_more_tokens links :
  length (concat (map (fun l' => TComma :: tokens_of_link l') links))
  = (10 * length links)%nat.
Proof.
  induction links as [| l links IH]; [reflexivity |].
  cbn [map concat]. rewrite length_app, IH. simpl. lia.
Qed.

Theorem parse_jsonLines links :
  parse (FileLinkFetcher.jsonLines links) = Some (JArray (map of_FileLink links)).
Proof.
  unfold parse. rewrite tokens_jsonLines. cbn [mbind option_bind].
  destruct links as [| l rest]; [reflexivity |].
  set (ts := TLBracket :: tokens_of_links (l :: rest) ++ [TRBracket]).
  assert (H : parse_value (S (S (length rest + 3 + 0))) ts
              = Some (JArray (map of_FileLink (l :: rest)), [])).
  { subst ts. rewrite parse_unfold_value.
    cbn [tokens_of_links]. rewrite <- app_assoc.
    change (tokens_of_link l ++ ?r)
      with (TLBrace :: TString (js "url") :: TColon :: TString (url l)
              :: TComma :: TString (js "filename") :: TColon
              :: TString (filename l) :: TRBrace :: r).
    cbv iota.
    change (TLBrace :: TString (js "url") :: TColon :: TString (url l)
              :: TComma :: TString (js "filename") :: TColon
              :: TString (filename l) :: TRBrace :: ?r)
      with (tokens_of_link l ++ r).
    replace (S (length rest + 3 + 0))%nat with (3 + (length rest + 1))%nat by lia.
    rewrite parse_link. cbn [mbind option_bind].
    replace (3 + (length rest + 1))%nat with (S (length rest + 3 + 0))%nat by lia.
    rewrite parse_more_links. reflexivity. }
  assert (Hlen : length ts = (11 + 10 * length rest)%nat).
  { subst ts. unfold tokens_of_links.
    rewrite length_cons, !length_app, length_more_tokens. simpl. lia. }
  apply (parse_value_mono _ (S (length ts))) in H; [| lia].
  rewrite H. reflexivity.
Qed.

Lemma as_FileLink_of l : as_FileLink (of_FileLink l) = Some l.
Proof. destruct l. reflexivity. Qed.

Lemma as_FileLinks_of links :
  as_FileLinks (JArray (map of_FileLink links)) = Some links.
Proof.
  cbn [as_FileLinks]. induction links as [| l links IH]; [reflexivity |].
  cbn [map mapM]. rewrite as_FileLink_of. cbn [mbind option_bind].
  rewrite IH. reflexivity.
Qed.

(** *** What is written is well-formed UTF-16 *)

Lemma plain_not_surrogate c : plain c -> is_lead c = false /\ is_trail c = false.
Proof.
  unfold plain, is_lead, is_trail. intros H. split;
    apply andb_false_iff; left; apply N.leb_gt; lia.
Qed.

Lemma well_formed_cons_plain c s :
  is_lead c = false -> is_trail c = false -> well_formed (c :: s) = well_formed s.
Proof. intros Hl Ht. cbn [well_formed]. rewrite Hl, Ht. reflexivity. Qed.

Lemma well_formed_pair c d s :
  is_lead c = true -> is_trail d = true -> well_formed (c :: d :: s) = well_formed s.
Proof. intros Hl Ht. cbn [well_formed]. rewrite Hl, Ht. reflexivity. Qed.

Lemma well_formed_app a : forall b,
  well_formed a = true -> well_formed b = true -> well_formed (a ++ b) = true.
Proof.
  assert (H : forall a,
            (forall b, well_formed a = true -> well_formed b = true ->
                       well_formed (a ++ b) = true)
            /\ (forall c b, well_formed (c :: a) = true -> well_formed b = true ->
                            well_formed (c :: a ++ b) = true)).
  { clear a. induction a as [| d a [IH1 IH2]]; split.
    - intros b _ Hb. exact Hb.
    - intros c b Hc Hb. cbn [well_formed app] in Hc |- *.
      destruct (is_lead c); [discriminate |].
      destruct (is_trail c); [discriminate |]. exact Hb.
    - intros b. apply (IH2 d b).
    - intros c b Hc Hb. cbn [app]. cbn [well_formed] in Hc.
      destruct (is_lead c) eqn:Hl.
      + apply andb_true_iff in Hc as [Hd Ha].
        rewrite well_formed_pair by assumption. apply IH1; assumption.
      + apply andb_true_iff in Hc as [Ht Hda]. apply negb_true_iff in Ht.
        rewrite well_formed_cons_plain by assumption.
        apply (IH2 d b); assumption. }
  apply H.
Qed.

Lemma well_formed_plain s : Forall plain s -> well_formed s = true.
Proof.
  induction 1 as [| c s Hc _ IH]; [reflexivity |].
  destruct (plain_not_surrogate c Hc) as [Hl Ht].
  rewrite well_formed_cons_plain by assumption. exact IH.
Qed.

Lemma hex_digit_plain d : d < 16 -> plain (hex_digit d).
Proof.
  unfold hex_digit, plain. intros H. destruct (d <? 10); lia.
Qed.

Lemma well_formed_quote_unit c : well_formed (quote_unit c) = true.
Proof.
  unfold quote_unit.
  repeat match goal with
  | |- context [if ?x =? ?k then _ else _] =>
      destruct (N.eqb_spec x k) as [-> | ?]; [reflexivity |]
  end.
  destruct ((c <? 32) || is_lead c || is_trail c) eqn:E.
  - apply well_formed_plain. unfold unicode_escape.
    repeat constructor; try (unfold plain; lia);
      apply hex_digit_plain, N.mod_lt; lia.
  - apply orb_false_iff in E as [E Ht]. apply orb_false_iff in E as [_ Hl].
    rewrite well_formed_cons_plain by assumption. reflexivity.
Qed.

Lemma well_formed_quote_body s : well_formed (quote_body s) = true.
Proof.
  assert (H : forall s, well_formed (quote_body s) = true
                        /\ forall c, well_formed (quote_body (c :: s)) = true).
  { clear s. induction s as [| d s [IH1 IH2]]; split.
    - reflexivity.
    - intros c. rewrite quote_body_single. apply well_formed_quote_unit.
    - apply IH2.
    - intros c. rewrite quote_body_cons2.
      destruct (is_lead c && is_trail d) eqn:E.
      + apply andb_true_iff in E as [Hc Hd].
        rewrite well_formed_pair by assumption. exact IH1.
      + apply well_formed_app; [apply well_formed_quote_unit | apply IH2]. }
  apply H.
Qed.

Lemma well_formed_quote s : well_formed (quote s) = true.
Proof.
  unfold quote. change (34 :: ?x) with ([34] ++ x).
  apply well_formed_app; [reflexivity |].
  apply well_formed_app; [apply well_formed_quote_body | reflexivity].
Qed.

Lemma well_formed_stringify l : well_formed (stringify l) = true.
Proof.
  unfold stringify.
  do 8 (apply well_formed_app; [first [reflexivity | apply well_formed_quote] |]).
  reflexivity.
Qed.

(** The checkpoint text survives the UTF-8 encoding of the file. *)
Lemma well_formed_jsonLines links :
  well_formed (FileLinkFetcher.jsonLines links) = true.
Proof.
  unfold FileLinkFetcher.jsonLines.
  apply well_formed_app; [reflexivity |].
  apply well_formed_app; [| reflexivity].
  induction links as [| l [| l' rest] IH]; [reflexivity | |].
  - cbn [map FileLinkFetcher.join].
    apply well_formed_app; [reflexivity | apply well_formed_stringify].
  - change (map ?f (l :: l' :: rest)) with (f l :: map f (l' :: rest)).
    change (FileLinkFetcher.join ?sep (?p :: map ?f (l' :: rest)))
      with (p ++ sep ++ FileLinkFetcher.join sep (map f (l' :: rest))).
    apply well_formed_app;
      [apply well_formed_app; [reflexivity | apply well_formed_stringify] |].
    apply well_formed_app; [reflexivity | exact IH].
Qed.

End JsonFacts.

(** ** The file system *)

Module FsFacts.
Import Fs.

(** *** Places in a tree *)

Lemma find_file_above place : forall entries data more,
  find place entries = Some (TFile data) -> more <> [] ->
  find (place ++ more) entries = None.
Proof.
  induction place as [| name rest IH]; intros entries data more Hf Hm; [discriminate |].
  cbn [find app] in *. destruct (entries !! name) as [[d | below] |]; [| eauto | discriminate].
  destruct rest; [| discriminate]. cbn [app]. destruct more; [contradiction | reflexivity].
Qed.

Lemma find_none_above place : forall entries more,
  find place entries = None -> find (place ++ more) entries = None.
Proof.
  induction place as [| name rest IH]; intros entries more Hf; [discriminate |].
  cbn [find app] in *. destruct (entries !! name) as [[d | below] |]; [| eauto | reflexivity].
  destruct rest; [discriminate |]. reflexivity.
Qed.

(** Everything above a place that holds something is a directory. *)
Lemma find_dir_above place : forall entries more t,
  find (place ++ more) entries = Some t -> is_dir (find place entries) = true \/ more = [].
Proof.
  intros entries more t Hf. destruct more as [| m more]; [auto |]. left.
  destruct (find place entries) as [[d | below] |] eqn:Hp; [| reflexivity |].
  - rewrite (find_file_above _ _ _ _ Hp) in Hf; discriminate.
  - rewrite (find_none_above _ _ _ Hp) in Hf. discriminate.
Qed.

Lemma find_parent place entries t :
  place <> [] -> find place entries = Some t ->
  is_dir (find (removelast place) entries) = true.
Proof.
  intros Hne Hf. rewrite (app_removelast_last [] Hne) in Hf.
  destruct (find_dir_above _ _ _ _ Hf) as [H | H]; [exact H | discriminate].
Qed.

Lemma find_put_file place : forall entries data,
  place <> [] -> find place (put place (File data) entries) = Some (TFile data).
Proof.
  induction place as [| name rest IH]; intros entries data Hne; [contradiction |].
  cbn [find put]. destruct rest as [| next rest].
  - rewrite lookup_insert_eq. reflexivity.
  - rewrite lookup_insert_eq. apply IH. discriminate.
Qed.

Lemma put_dir_step name rest entries :
  put (name :: rest) Dir entries
  = <[name := TDir (put rest Dir (entries_of (entries !! name)))]> entries.
Proof. cbn [put]. destruct rest; reflexivity. Qed.

Lemma put_file_step name next rest data entries :
  put (name :: next :: rest) (File data) entries
  = <[name := TDir (put (next :: rest) (File data) (entries_of (entries !! name)))]>
      entries.
Proof. reflexivity. Qed.

(** Making the directories on the way to a place makes every place on the
    way a directory. *)
Lemma find_put_dir place : forall entries before,
  is_dir (find before (put (before ++ place) Dir entries)) = true.
Proof.
  intros entries before. revert entries.
  induction before as [| name rest IH]; intros entries; [reflexivity |].
  cbn [app]. rewrite put_dir_step. cbn [find]. rewrite lookup_insert_eq. apply IH.
Qed.

Lemma apart_cons name a b : apart (name :: a) (name :: b) -> apart a b.
Proof.
  intros [H1 H2]. split; intros [k ->].
  - apply H1. exists k. reflexivity.
  - apply H2. exists k. reflexivity.
Qed.

Lemma apart_nonempty a b : apart a b -> a <> [] /\ b <> [].
Proof.
  intros [H1 H2]. split; intros ->.
  - apply H1. apply prefix_nil.
  - apply H2. apply prefix_nil.
Qed.

(** What is put at a place shows at no place apart from it. *)
Lemma find_put_apart place : forall other node entries,
  apart other place ->
  find other (put place node entries) = find other entries.
Proof.
  induction place as [| name rest IH]; intros other node entries Hap.
  - destruct (apart_nonempty _ _ Hap) as [_ []]. reflexivity.
  - destruct other as [| oname orest].
    { destruct (apart_nonempty _ _ Hap) as [[] _]. reflexivity. }
    assert (Hput : exists t, put (name :: rest) node entries = <[name := t]> entries
                     /\ (forall below, t = TDir below ->
                           rest = [] /\ node = Dir /\ below = entries_of (entries !! name)
                           \/ rest <> [] /\ below = put rest node (entries_of (entries !! name)))
                     /\ (forall data, t = TFile data -> rest = [])).
    { destruct rest as [| next rest]; [destruct node as [data |] |].
      - exists (TFile data). split; [reflexivity |].
        split; [intros below [=] | intros d _; reflexivity].
      - eexists. split; [apply put_dir_step |]. split; [| intros d [=]].
        intros below [= <-]. left. auto.
      - eexists. split; [destruct node; [apply put_file_step | apply put_dir_step] |].
        split; [| intros d [=]]. intros below [= <-]. right. split; [discriminate |].
        reflexivity. }
    destruct Hput as (t & -> & Hdir & Hfile).
    cbn [find]. destruct (decide (oname = name)) as [-> | Hne].
    2: { rewrite lookup_insert_ne by congruence. reflexivity. }
    rewrite lookup_insert_eq. apply apart_cons in Hap.
    destruct (apart_nonempty _ _ Hap) as [Ho Hr].
    destruct t as [data | below].
    + rewrite (Hfile _ eq_refl) in Hr. contradiction.
    + destruct (Hdir _ eq_refl) as [(-> & _) | (_ & ->)]; [contradiction |].
      rewrite (IH _ _ _ Hap).
      destruct (entries !! name) as [[d | b] |]; cbn [entries_of].
      * destruct orest as [| o orest]; [contradiction |].
        cbn [find]. rewrite lookup_empty. reflexivity.
      * reflexivity.
      * destruct orest as [| o orest]; [contradiction |].
        cbn [find]. rewrite lookup_empty. reflexivity.
Qed.

Lemma find_app place : forall entries more,
  find (place ++ more) entries
  = match find place entries with
    | Some (TDir below) => find more below
    | Some (TFile data) => match more with [] => Some (TFile data) | _ => None end
    | None => None
    end.
Proof.
  induction place as [| name rest IH]; intros entries more; [reflexivity |].
  cbn [app find]. destruct (entries !! name) as [[data | below] |]; [| apply IH | reflexivity].
  destruct rest as [| next rest]; cbn [app]; [| reflexivity].
  destruct more; reflexivity.
Qed.

Lemma find_put_dir_at place : forall entries,
  find place (put place Dir entries)
  = Some (TDir (entries_of (find place entries))).
Proof.
  induction place as [| name rest IH]; intros entries; [reflexivity |].
  rewrite put_dir_step. cbn [find]. rewrite lookup_insert_eq, IH.
  destruct (entries !! name) as [[data | below] |]; cbn [entries_of]; try reflexivity.
  - destruct rest; reflexivity.
  - destruct rest; [reflexivity |]. cbn [find]. rewrite lookup_empty. reflexivity.
Qed.

(** A directory that is there stays as it is. *)
Lemma put_dir_id place : forall entries,
  is_dir (find place entries) = true -> put place Dir entries = entries.
Proof.
  induction place as [| name rest IH]; intros entries Hd; [reflexivity |].
  rewrite put_dir_step. cbn [find] in Hd.
  destruct (entries !! name) as [[data | below] |] eqn:Hn;
    [destruct rest; discriminate | | discriminate].
  cbn [entries_of]. rewrite (IH _ Hd). apply insert_id. exact Hn.
Qed.

(** With no regular file in the way, the places on the way held a directory
    or nothing. *)
Lemma no_file_on_above place : forall entries more,
  no_file_on (place ++ more) entries = true ->
  find place entries = None \/ is_dir (find place entries) = true.
Proof.
  induction place as [| name rest IH]; intros entries more Hn; [right; reflexivity |].
  cbn [app no_file_on find] in *.
  destruct (entries !! name) as [[data | below] |]; [discriminate | eauto | auto].
Qed.

Lemma put_file_above before : forall place data entries,
  place <> [] ->
  is_dir (find before (put (before ++ place) (File data) entries)) = true.
Proof.
  induction before as [| name rest IH]; intros place data entries Hne; [reflexivity |].
  cbn [app]. destruct (rest ++ place) as [| next more] eqn:Hrest.
  { apply app_eq_nil in Hrest as [_ ->]. contradiction. }
  rewrite put_file_step, <- Hrest. cbn [find]. rewrite lookup_insert_eq.
  apply IH. exact Hne.
Qed.

Lemma find_cut place : forall entries data,
  find place entries = Some (TFile data) -> find place (cut place entries) = None.
Proof.
  induction place as [| name rest IH]; intros entries data Hf; [discriminate |].
  cbn [find cut] in *. destruct rest as [| next rest].
  - rewrite lookup_delete_eq. reflexivity.
  - destruct (entries !! name) as [[d | below] |] eqn:Hn; try discriminate.
    rewrite lookup_insert_eq. eapply IH, Hf.
Qed.

Lemma find_cut_apart place : forall other entries,
  apart other place -> find other (cut place entries) = find other entries.
Proof.
  induction place as [| name rest IH]; intros other entries Hap; [reflexivity |].
  destruct other as [| oname orest].
  { destruct (apart_nonempty _ _ Hap) as [[] _]. reflexivity. }
  cbn [cut]. destruct rest as [| next rest].
  - cbn [find]. destruct (decide (oname = name)) as [-> | Hne].
    + destruct Hap as [_ []]. exists orest. reflexivity.
    + rewrite lookup_delete_ne by congruence. reflexivity.
  - destruct (entries !! name) as [[d | below] |] eqn:Hn; try reflexivity.
    cbn [find]. destruct (decide (oname = name)) as [-> | Hne].
    + rewrite lookup_insert_eq, Hn. apply IH. eapply apart_cons, Hap.
    + rewrite lookup_insert_ne by congruence. reflexivity.
Qed.

Lemma cut_step name rest entries :
  rest <> [] ->
  cut (name :: rest) entries
  = match entries !! name with
    | Some (TDir below) => <[name := TDir (cut rest below)]> entries
    | _ => entries
    end.
Proof. destruct rest; [contradiction | reflexivity]. Qed.

(** Taking a file out leaves the directories above it directories. *)
Lemma find_cut_above before : forall place entries data,
  place <> [] -> find (before ++ place) entries = Some (TFile data) ->
  is_dir (find before (cut (before ++ place) entries)) = true.
Proof.
  induction before as [| name rest IH]; intros place entries data Hne Hf; [reflexivity |].
  cbn [app] in *.
  assert (Hrest : rest ++ place <> []).
  { intros H. apply app_eq_nil in H as [_ ->]. contradiction. }
  rewrite (cut_step _ _ _ Hrest). cbn [find] in *.
  destruct (entries !! name) as [[d | below] |] eqn:Hn.
  - destruct (rest ++ place); [contradiction | discriminate].
  - rewrite lookup_insert_eq. eapply IH; eassumption.
  - discriminate.
Qed.

(** Writing a file where one was taken out is writing over it. *)
Lemma put_cut place : forall entries data body,
  find place entries = Some (TFile data) ->
  put place (File body) (cut place entries) = put place (File body) entries.
Proof.
  induction place as [| name rest IH]; intros entries data body Hf; [reflexivity |].
  destruct rest as [| next rest].
  - cbn [put cut]. apply insert_delete_eq.
  - cbn [find] in Hf. destruct (entries !! name) as [[d | below] |] eqn:Hn; try discriminate.
    rewrite !put_file_step. cbn [cut]. rewrite Hn, lookup_insert_eq. cbn [entries_of].
    rewrite (IH _ _ _ Hf), insert_insert_eq. reflexivity.
Qed.

Lemma places_cases (a b : list jsstring) :
  a = b
  \/ (exists more, more <> [] /\ b = a ++ more)
  \/ (exists more, more <> [] /\ a = b ++ more)
  \/ apart a b.
Proof.
  destruct (decide (a `prefix_of` b)) as [[k ->] | Hab].
  - destruct k as [| x k]; [left; symmetry; apply app_nil_r |].
    right. left. exists (x :: k). split; [discriminate | reflexivity].
  - destruct (decide (b `prefix_of` a)) as [[k ->] | Hba].
    + destruct k as [| x k]; [left; apply app_nil_r |].
      right. right. left. exists (x :: k). split; [discriminate | reflexivity].
    + right. right. right. split; assumption.
Qed.

(** With no regular file in the way of a place, none stands at a place
    above it. *)
Lemma no_file_on_spec place : forall entries,
  no_file_on place entries = true <->
  forall above data, above `prefix_of` place -> find above entries <> Some (TFile data).
Proof.
  induction place as [| name rest IH]; intros entries.
  - split; [| reflexivity]. intros _ above data Hp.
    apply prefix_nil_inv in Hp as ->. discriminate.
  - cbn [no_file_on]. split.
    + intros Hn above data Hp. destruct above as [| a above]; [discriminate |].
      apply prefix_cons_inv_1 in Hp as Ha. apply prefix_cons_inv_2 in Hp as Hp'.
      subst a. cbn [find].
      destruct (entries !! name) as [[d | below] |]; [discriminate | | discriminate].
      apply IH; assumption.
    + intros H. destruct (entries !! name) as [[d | below] |] eqn:Hn; [| | reflexivity].
      * exfalso. apply (H [name] d); [exists rest; reflexivity |].
        cbn [find]. rewrite Hn. reflexivity.
      * apply IH. intros above data Hp.
        specialize (H (name :: above) data (prefix_cons _ _ _ Hp)).
        cbn [find] in H. rewrite Hn in H. exact H.
Qed.

(** Making the directories to a place, with no regular file in the way,
    changes what no place off the way holds. *)
Lemma find_put_dir_off place : forall other entries,
  no_file_on place entries = true -> ~ other `prefix_of` place ->
  find other (put place Dir entries) = find other entries.
Proof.
  intros other entries Hn Hoff.
  destruct (places_cases other place)
    as [Heq | [(more & Hm & HPQ) | [(more & Hm & HQP) | Hap]]].
  - destruct Hoff. rewrite Heq. reflexivity.
  - destruct Hoff. exists more. exact HPQ.
  - rewrite HQP, !find_app, find_put_dir_at.
    rewrite <- (app_nil_r place) in Hn.
    destruct (no_file_on_above _ _ _ Hn) as [Hnone | Hd].
    + rewrite Hnone. cbn [entries_of]. destruct more; [contradiction |].
      cbn [find]. rewrite lookup_empty. reflexivity.
    + destruct (find place entries) as [[d | b] |]; try discriminate. reflexivity.
  - apply find_put_apart, Hap.
Qed.

Lemma put_dir_keeps_dirs place other entries :
  no_file_on place entries = true ->
  is_dir (find other entries) = true ->
  is_dir (find other (put place Dir entries)) = true.
Proof.
  intros Hn Hd. destruct (decide (other `prefix_of` place)) as [[more ->] | Hoff].
  - apply find_put_dir.
  - rewrite (find_put_dir_off _ _ _ Hn Hoff). exact Hd.
Qed.

Lemma put_dir_keeps_clear place other entries :
  no_file_on place entries = true ->
  no_file_on other entries = true ->
  no_file_on other (put place Dir entries) = true.
Proof.
  intros Hn Ho. apply no_file_on_spec. intros above data Hp Hf.
  destruct (decide (above `prefix_of` place)) as [[more ->] | Hoff].
  - pose proof (find_put_dir more entries above) as Hd. rewrite Hf in Hd. discriminate.
  - rewrite (find_put_dir_off _ _ _ Hn Hoff) in Hf.
    exact (proj1 (no_file_on_spec _ _) Ho _ _ Hp Hf).
Qed.

Lemma made_keeps_dirs places : forall entries other,
  Forall (fun place => no_file_on place entries = true) places ->
  is_dir (find other entries) = true ->
  is_dir (find other (made places entries)) = true.
Proof.
  induction places as [| place rest IH]; intros entries other Hall Hd; [exact Hd |].
  apply Forall_cons in Hall as [Hn Hall]. cbn [made fold_left].
  apply IH.
  - eapply Forall_impl; [exact Hall |]. intros t Ht. apply put_dir_keeps_clear; assumption.
  - apply put_dir_keeps_dirs; assumption.
Qed.

Lemma made_on_way places : forall entries place other,
  Forall (fun place => no_file_on place entries = true) places ->
  In place places -> other `prefix_of` place ->
  is_dir (find other (made places entries)) = true.
Proof.
  induction places as [| t rest IH]; intros entries place other Hall Hin Hp; [destruct Hin |].
  apply Forall_cons in Hall as [Hn Hall]. cbn [made fold_left].
  assert (Hrest : Forall (fun place => no_file_on place (put t Dir entries) = true) rest).
  { eapply Forall_impl; [exact Hall |]. intros x Hx. apply put_dir_keeps_clear; assumption. }
  destruct Hin as [-> | Hin].
  - apply made_keeps_dirs; [exact Hrest |]. destruct Hp as [more ->]. apply find_put_dir.
  - eapply IH; eassumption.
Qed.

Lemma made_off_way places : forall entries other,
  Forall (fun place => no_file_on place entries = true) places ->
  (forall place, In place places -> ~ other `prefix_of` place) ->
  find other (made places entries) = find other entries.
Proof.
  induction places as [| t rest IH]; intros entries other Hall Hoff; [reflexivity |].
  apply Forall_cons in Hall as [Hn Hall]. cbn [made fold_left].
  rewrite IH.
  - apply find_put_dir_off; [exact Hn |]. apply Hoff. left. reflexivity.
  - eapply Forall_impl; [exact Hall |]. intros x Hx. apply put_dir_keeps_clear; assumption.
  - intros place Hin. apply Hoff. right. exact Hin.
Qed.

Lemma made_id places : forall entries,
  Forall (fun place => is_dir (find place entries) = true) places ->
  made places entries = entries.
Proof.
  induction places as [| t rest IH]; intros entries Hall; [reflexivity |].
  apply Forall_cons in Hall as [Hd Hall]. cbn [made fold_left].
  rewrite (put_dir_id _ _ Hd). apply IH, Hall.
Qed.

(** *** Trails *)

Lemma passes_last pieces : forall walked,
  last (Path.passes walked pieces) = Some (rev (fold_left Path.step pieces walked)).
Proof.
  induction pieces as [| piece rest IH]; intros walked; [reflexivity |].
  cbn [Path.passes fold_left]. rewrite last_cons, IH. reflexivity.
Qed.

Lemma trail_last cwd p : last (Path.trail cwd p) = Some (Path.resolve cwd p).
Proof. apply passes_last. Qed.

Lemma trail_split cwd p :
  Path.trail cwd p = removelast (Path.trail cwd p) ++ [Path.resolve cwd p].
Proof.
  pose proof (trail_last cwd p) as Hl.
  destruct (Path.trail cwd p) as [| t ts] eqn:Ht using rev_ind; [discriminate |].
  rewrite last_snoc in Hl. injection Hl as ->.
  rewrite removelast_last. reflexivity.
Qed.

(** *** Paths in a state *)

Lemma lookup_unfold (fs : FS) p : fs !! p = node_at fs p.
Proof. reflexivity. Qed.

Lemma insert_file_unfold (fs : FS) p data :
  <[p := File data]> fs = mkFS (put (place_of fs p) (File data) (root fs)) (cwd fs).
Proof. reflexivity. Qed.

Lemma insert_dir_unfold (fs : FS) p :
  <[p := Dir]> fs = mkFS (made (Path.trail (cwd fs) p) (root fs)) (cwd fs).
Proof. reflexivity. Qed.

Lemma cwd_insert (fs : FS) p node : cwd (<[p := node]> fs) = cwd fs.
Proof. destruct node; reflexivity. Qed.

Lemma place_of_insert (fs : FS) p node q :
  place_of (<[p := node]> fs) q = place_of fs q.
Proof. unfold place_of. rewrite cwd_insert. reflexivity. Qed.

Lemma place_of_remove (fs : FS) p q : place_of (remove_at p fs) q = place_of fs q.
Proof. reflexivity. Qed.

Lemma is_dir_entry (fs : FS) place :
  is_dir (find place (root fs)) = is_dir_node (entry fs place).
Proof.
  unfold entry. destruct (find place (root fs)) as [[d | b] |]; reflexivity.
Qed.

(** Two states with the same working directory and the same directories
    resolve every path alike. *)
Lemma reachable_same (fs fs' : FS) p :
  cwd fs' = cwd fs ->
  (forall place, is_dir (find place (root fs')) = is_dir (find place (root fs))) ->
  reachable fs' p = reachable fs p.
Proof.
  intros Hc Hd. unfold reachable. rewrite Hc.
  induction (removelast (Path.trail (cwd fs) p)) as [| t ts IH]; [reflexivity |].
  cbn [forallb]. rewrite Hd, IH. reflexivity.
Qed.

Lemma lookup_same (fs fs' : FS) p :
  cwd fs' = cwd fs ->
  (forall place, is_dir (find place (root fs')) = is_dir (find place (root fs))) ->
  entry fs' (place_of fs p) = entry fs (place_of fs p) ->
  fs' !! p = fs !! p.
Proof.
  intros Hc Hd He. rewrite !lookup_unfold. unfold node_at.
  rewrite (reachable_same _ _ _ Hc Hd). unfold place_of in *. rewrite Hc, He. reflexivity.
Qed.

Lemma lookup_some_valid (fs : FS) p node :
  fs !! p = Some node -> Path.valid p = true.
Proof.
  rewrite lookup_unfold. unfold node_at.
  destruct (Path.valid p); [reflexivity | discriminate].
Qed.

Lemma lookup_spec (fs : FS) p node :
  fs !! p = Some node <->
  Path.valid p = true /\ reachable fs p = true /\ entry fs (place_of fs p) = Some node.
Proof.
  rewrite lookup_unfold. unfold node_at.
  destruct (Path.valid p); [| split; [discriminate | intros [[=] _]]].
  destruct (reachable fs p); [| split; [discriminate | intros (_ & [=] & _)]].
  cbn [andb]. split; [auto | intros (_ & _ & H); exact H].
Qed.

Lemma entry_file (fs : FS) place data :
  entry fs place = Some (File data) <-> find place (root fs) = Some (TFile data).
Proof.
  unfold entry. destruct (find place (root fs)) as [[d | b] |]; split; congruence.
Qed.

Lemma entry_dir (fs : FS) place :
  entry fs place = Some Dir <-> is_dir (find place (root fs)) = true.
Proof.
  unfold entry. destruct (find place (root fs)) as [[d | b] |]; cbn; split; congruence.
Qed.

Lemma can_write_spec (fs : FS) p :
  can_write fs p = true <->
  Path.valid p = true /\ reachable fs p = true
  /\ place_of fs p <> []
  /\ is_dir (find (removelast (place_of fs p)) (root fs)) = true
  /\ is_dir (find (place_of fs p) (root fs)) = false.
Proof.
  unfold can_write. rewrite !andb_true_iff.
  destruct (place_of fs p) as [| name rest].
  - split; [intros [_ [=]] | intros (_ & _ & [] & _); reflexivity].
  - rewrite andb_true_iff, negb_true_iff. split.
    + intros [[Hv Hn] [Hp Hl]]. repeat split; [assumption .. | discriminate | |]; assumption.
    + intros (Hv & Hn & _ & Hp & Hl). auto.
Qed.

(** A path that names a regular file can be written to. *)
Lemma lookup_file_can_write (fs : FS) p data :
  fs !! p = Some (File data) -> can_write fs p = true.
Proof.
  intros (Hv & Hr & Hf%entry_file)%lookup_spec. apply can_write_spec.
  assert (Hne : place_of fs p <> []) by (intros H; rewrite H in Hf; discriminate).
  split; [exact Hv |]. split; [exact Hr |]. split; [exact Hne |].
  split; [exact (find_parent _ _ _ Hne Hf) | rewrite Hf; reflexivity].
Qed.

Lemma can_write_dir (fs : FS) p :
  fs !! p = Some Dir -> can_write fs p = false.
Proof.
  intros (_ & _ & Hd%entry_dir)%lookup_spec.
  destruct (can_write fs p) eqn:Hc; [| reflexivity].
  apply can_write_spec in Hc as (_ & _ & _ & _ & Hl). congruence.
Qed.

(** Writing a file changes what no other place holds. *)
Lemma entry_write_ne (fs : FS) p place data :
  can_write fs p = true -> place <> place_of fs p ->
  entry (<[p := File data]> fs) place = entry fs place.
Proof.
  intros (_ & _ & HPne & Hparent & Hleaf)%can_write_spec Hne.
  rewrite insert_file_unfold. unfold entry. cbn [root].
  destruct (places_cases place (place_of fs p))
    as [Heq | [(more & Hm & HPQ) | [(more & Hm & HQP) | Hap]]].
  - contradiction.
  - (* the place lies above *)
    rewrite HPQ in *.
    pose proof (put_file_above place more data (root fs) Hm) as Habove.
    destruct (find place (put (place ++ more) (File data) (root fs)))
      as [[d | b] |]; try discriminate.
    rewrite (removelast_app _ Hm), find_app in Hparent.
    destruct (find place (root fs)) as [[d | b'] |]; try discriminate;
      [| reflexivity].
    destruct (removelast more); discriminate.
  - (* the place lies below *)
    rewrite HQP.
    rewrite (find_file_above _ _ _ _ (find_put_file _ (root fs) data HPne) Hm).
    destruct (find (place_of fs p) (root fs)) as [[d | b] |] eqn:Hf; [| discriminate |].
    + rewrite (find_file_above _ _ _ _ Hf Hm). reflexivity.
    + rewrite (find_none_above _ _ _ Hf). reflexivity.
  - rewrite (find_put_apart _ _ _ _ Hap). reflexivity.
Qed.

Lemma entry_write_eq (fs : FS) p data :
  place_of fs p <> [] ->
  entry (<[p := File data]> fs) (place_of fs p) = Some (File data).
Proof.
  intros Hne. rewrite insert_file_unfold. unfold entry. cbn [root].
  rewrite find_put_file by exact Hne. reflexivity.
Qed.

(** Writing a file makes and unmakes no directory. *)
Lemma dirs_write (fs : FS) p data place :
  can_write fs p = true ->
  is_dir (find place (root (<[p := File data]> fs))) = is_dir (find place (root fs)).
Proof.
  intros Hc. destruct (decide (place = place_of fs p)) as [-> | Hne].
  - rewrite !is_dir_entry, entry_write_eq, <- is_dir_entry
      by (apply can_write_spec in Hc; tauto).
    apply can_write_spec in Hc as (_ & _ & _ & _ & ->). reflexivity.
  - rewrite !is_dir_entry, (entry_write_ne _ _ _ _ Hc Hne). reflexivity.
Qed.

(** What is written is there. *)
Lemma lookup_write_eq (fs : FS) p data :
  can_write fs p = true -> <[p := File data]> fs !! p = Some (File data).
Proof.
  intros Hc. apply lookup_spec.
  pose proof (proj1 (can_write_spec _ _) Hc) as (Hv & Hr & Hne & _).
  split; [exact Hv |]. split.
  - rewrite (reachable_same fs); [exact Hr | reflexivity |].
    intros place. apply dirs_write, Hc.
  - rewrite place_of_insert. apply entry_write_eq, Hne.
Qed.

Lemma lookup_write_ne (fs : FS) p q data :
  can_write fs p = true -> place_of fs q <> place_of fs p ->
  <[p := File data]> fs !! q = fs !! q.
Proof.
  intros Hc Hne. apply lookup_same; [reflexivity | |].
  - intros place. apply dirs_write, Hc.
  - apply entry_write_ne; assumption.
Qed.

Lemma can_write_not_here (fs : FS) p :
  can_write fs p = true -> fs !! p = None \/ exists data, fs !! p = Some (File data).
Proof.
  intros H. destruct (fs !! p) as [[data | ] |] eqn:Hp; eauto.
  rewrite (can_write_dir _ _ Hp) in H. discriminate.
Qed.

(** *** Making directories *)

Lemma can_make_spec (fs : FS) p :
  can_make fs p = true <->
  Path.valid p = true
  /\ is_dir (find (rev (Path.start (cwd fs) p)) (root fs)) = true
  /\ Forall (fun place => no_file_on place (root fs) = true) (Path.trail (cwd fs) p).
Proof.
  unfold can_make. rewrite !andb_true_iff, forallb_forall, List.Forall_forall. tauto.
Qed.

(** Every place a path passes before the last is on the way to a place of
    its trail. *)
Lemma removelast_in {A} (l : list A) x : In x (removelast l) -> In x l.
Proof.
  induction l as [| a l IH]; [intros [] |]. cbn [removelast].
  destruct l as [| b l]; [intros [] |]. intros [<- | Hin]; [left; reflexivity |].
  right. apply IH, Hin.
Qed.

Lemma reachable_spec (fs : FS) p :
  reachable fs p = true <->
  Forall (fun place => is_dir (find place (root fs)) = true)
    (removelast (Path.trail (cwd fs) p)).
Proof. unfold reachable. rewrite forallb_forall, List.Forall_forall. tauto. Qed.

(** Making a directory that is there changes nothing. *)
Lemma insert_dir_id (fs : FS) p : fs !! p = Some Dir -> <[p := Dir]> fs = fs.
Proof.
  intros (_ & Hr%reachable_spec & Hd%entry_dir)%lookup_spec.
  rewrite insert_dir_unfold, made_id; [destruct fs; reflexivity |].
  rewrite trail_split. apply Forall_app. split; [exact Hr |].
  constructor; [exact Hd | constructor].
Qed.

(** After [mkdir], every place on the way to a place the path passes holds a
    directory; before it, such a place held a directory or nothing; and no
    other place has changed. *)
Lemma entry_mkdir_on_way (fs : FS) p place passed :
  can_make fs p = true ->
  In passed (Path.trail (cwd fs) p) -> place `prefix_of` passed ->
  entry (<[p := Dir]> fs) place = Some Dir.
Proof.
  intros (_ & _ & Hall)%can_make_spec Hin Hp. apply entry_dir.
  rewrite insert_dir_unfold. cbn [root]. eapply made_on_way; eassumption.
Qed.

Lemma entry_before_mkdir (fs : FS) p place passed :
  can_make fs p = true ->
  In passed (Path.trail (cwd fs) p) -> place `prefix_of` passed ->
  entry fs place = None \/ entry fs place = Some Dir.
Proof.
  intros (_ & _ & Hall)%can_make_spec Hin Hp.
  rewrite List.Forall_forall in Hall. specialize (Hall _ Hin).
  unfold entry. destruct (find place (root fs)) as [[d | b] |] eqn:Hf; auto.
  destruct (proj1 (no_file_on_spec _ _) Hall _ _ Hp Hf).
Qed.

Lemma entry_mkdir_off_way (fs : FS) p place :
  can_make fs p = true ->
  (forall passed, In passed (Path.trail (cwd fs) p) -> ~ place `prefix_of` passed) ->
  entry (<[p := Dir]> fs) place = entry fs place.
Proof.
  intros (_ & _ & Hall)%can_make_spec Hoff.
  rewrite insert_dir_unfold. unfold entry. cbn [root].
  rewrite (made_off_way _ _ _ Hall Hoff). reflexivity.
Qed.

(** [mkdir] unmakes no directory. *)
Lemma dirs_mkdir (fs : FS) p place :
  can_make fs p = true ->
  is_dir (find place (root fs)) = true ->
  is_dir (find place (root (<[p := Dir]> fs))) = true.
Proof.
  intros (_ & _ & Hall)%can_make_spec Hd. rewrite insert_dir_unfold. cbn [root].
  apply made_keeps_dirs; assumption.
Qed.

(** The directory made is there. *)
Lemma lookup_mkdir_eq (fs : FS) p :
  can_make fs p = true -> <[p := Dir]> fs !! p = Some Dir.
Proof.
  intros Hc. pose proof (proj1 (can_make_spec _ _) Hc) as (Hv & _ & Hall).
  apply lookup_spec. split; [exact Hv |]. split.
  - apply reachable_spec. rewrite cwd_insert. apply List.Forall_forall.
    intros place Hin%removelast_in. apply entry_dir.
    eapply entry_mkdir_on_way; [exact Hc | exact Hin | reflexivity].
  - rewrite place_of_insert. eapply entry_mkdir_on_way; [exact Hc | | reflexivity].
    rewrite trail_split. apply in_or_app. right. left. reflexivity.
Qed.

(** *** Removing a file *)

Lemma entry_remove_eq (fs : FS) p data :
  fs !! p = Some (File data) -> entry (remove_at p fs) (place_of fs p) = None.
Proof.
  intros (_ & _ & Hf%entry_file)%lookup_spec. unfold entry, remove_at. cbn [root].
  rewrite (find_cut _ _ _ Hf). reflexivity.
Qed.

Lemma entry_remove_ne (fs : FS) p place data :
  fs !! p = Some (File data) -> place <> place_of fs p ->
  entry (remove_at p fs) place = entry fs place.
Proof.
  intros (_ & _ & Hf%entry_file)%lookup_spec Hne.
  unfold entry, remove_at. cbn [root].
  destruct (places_cases place (place_of fs p))
    as [Heq | [(more & Hm & HPQ) | [(more & Hm & HQP) | Hap]]].
  - contradiction.
  - rewrite HPQ in *.
    pose proof (find_cut_above _ _ _ _ Hm Hf) as Hafter.
    destruct (find_dir_above _ _ _ _ Hf) as [Hbefore | ->]; [| contradiction].
    destruct (find place (cut (place ++ more) (root fs)))
      as [[d | b] |]; try discriminate.
    destruct (find place (root fs)) as [[d | b'] |]; try discriminate.
    reflexivity.
  - rewrite HQP, (find_file_above _ _ _ _ Hf Hm).
    rewrite (find_none_above _ _ _ (find_cut _ _ _ Hf)). reflexivity.
  - rewrite (find_cut_apart _ _ _ Hap). reflexivity.
Qed.

(** Removing a file makes and unmakes no directory. *)
Lemma dirs_remove (fs : FS) p data place :
  fs !! p = Some (File data) ->
  is_dir (find place (root (remove_at p fs))) = is_dir (find place (root fs)).
Proof.
  intros Hf. destruct (decide (place = place_of fs p)) as [-> | Hne].
  - rewrite !is_dir_entry, (entry_remove_eq _ _ _ Hf).
    apply lookup_spec in Hf as (_ & _ & ->). reflexivity.
  - rewrite !is_dir_entry, (entry_remove_ne _ _ _ _ Hf Hne). reflexivity.
Qed.

Lemma lookup_remove_eq (fs : FS) p data :
  fs !! p = Some (File data) -> remove_at p fs !! p = None.
Proof.
  intros Hf. rewrite lookup_unfold. unfold node_at.
  rewrite place_of_remove, (entry_remove_eq _ _ _ Hf).
  destruct (Path.valid p && reachable (remove_at p fs) p); reflexivity.
Qed.

Lemma lookup_remove_ne (fs : FS) p q data :
  fs !! p = Some (File data) -> place_of fs q <> place_of fs p ->
  remove_at p fs !! q = fs !! q.
Proof.
  intros Hf Hne. apply lookup_same; [reflexivity | |].
  - intros place. eapply dirs_remove, Hf.
  - eapply entry_remove_ne; eassumption.
Qed.

Lemma can_write_removed (fs : FS) p data :
  fs !! p = Some (File data) -> can_write (remove_at p fs) p = true.
Proof.
  intros Hf. pose proof (lookup_file_can_write _ _ _ Hf) as Hc.
  apply can_write_spec in Hc as (Hv & Hr & Hne & Hp & _).
  apply can_write_spec. rewrite place_of_remove.
  split; [exact Hv |]. split.
  { rewrite (reachable_same fs); [exact Hr | reflexivity |].
    intros place. eapply dirs_remove, Hf. }
  split; [exact Hne |]. split.
  - rewrite (dirs_remove _ _ _ _ Hf). exact Hp.
  - rewrite is_dir_entry, (entry_remove_eq _ _ _ Hf). reflexivity.
Qed.

(** Writing where a file was removed is writing over the file. *)
Lemma insert_removed (fs : FS) p data body :
  fs !! p = Some (File data) ->
  <[p := File body]> (remove_at p fs) = <[p := File body]> fs.
Proof.
  intros (_ & _ & Hf%entry_file)%lookup_spec. rewrite !insert_file_unfold.
  unfold remove_at, place_of. cbn [root cwd]. rewrite (put_cut _ _ _ _ Hf). reflexivity.
Qed.

End FsFacts.

(** ** Numbers *)

From Stdlib Require Qpower Lqa.

Module NumberFacts.
Import Number Qpower Lqa.
Local Open Scope Q_scope.

Lemma pow2_pos e : 0 < pow2 e.
Proof. apply Qpower_0_lt. reflexivity. Qed.

Lemma pow2_add a b : pow2 (a + b) == pow2 a * pow2 b.
Proof. apply Qpower_plus. discriminate. Qed.

Lemma pow2_succ e : pow2 (e + 1) == 2 * pow2 e.
Proof. rewrite pow2_add. change (pow2 1) with 2. ring. Qed.

Lemma pow2_lt a b : (a < b)%Z -> pow2 a < pow2 b.
Proof. intros H. apply Qpower_lt_compat_l; [exact H | reflexivity]. Qed.

Lemma pow2_le a b : (a <= b)%Z -> pow2 a <= pow2 b.
Proof. intros H. apply Qpower_le_compat_l; [exact H | discriminate]. Qed.

Lemma pow2_lt_inv a b : pow2 a < pow2 b -> (a < b)%Z.
Proof. intros H. apply (Qpower_lt_compat_l_inv 2); [exact H | reflexivity]. Qed.

Lemma pow2_Z e : (0 <= e)%Z -> pow2 e == inject_Z (2 ^ e).
Proof. intros H. rewrite (Zpower_Qpower 2 e H). reflexivity. Qed.

Lemma pow2_sub a b : pow2 (a - b) == pow2 a / pow2 b.
Proof.
  unfold Z.sub. rewrite pow2_add. unfold pow2 at 2. rewrite Qpower_opp. reflexivity.
Qed.

(** [ilog2] finds the binade of a positive rational. *)
Lemma ilog2_spec q : 0 < q -> pow2 (ilog2 q) <= q /\ q < pow2 (ilog2 q + 1).
Proof.
  intros Hq. destruct q as [n d]. unfold ilog2. cbn [Qnum Qden].
  assert (Hn : (0 < n)%Z) by (unfold Qlt in Hq; cbn in Hq; lia).
  set (a := Z.log2 n). set (b := Z.log2 (Zpos d)).
  destruct (Z.log2_spec n Hn) as [Ha1 Ha2]. fold a in Ha1, Ha2.
  destruct (Z.log2_spec (Zpos d) eq_refl) as [Hb1 Hb2]. fold b in Hb1, Hb2.
  assert (Ha0 : (0 <= a)%Z) by apply Z.log2_nonneg.
  assert (Hb0 : (0 <= b)%Z) by apply Z.log2_nonneg.
  assert (Hq' : n # d == inject_Z n / inject_Z (Zpos d)) by apply Qmake_Qdiv.
  assert (Hd : 0 < inject_Z (Zpos d)) by reflexivity.
  assert (Hna : pow2 a <= inject_Z n).
  { rewrite (pow2_Z a Ha0), <- Zle_Qle. exact Ha1. }
  assert (Hna' : inject_Z n < pow2 (a + 1)).
  { rewrite (pow2_Z (a + 1)) by lia. rewrite <- Zlt_Qlt. exact Ha2. }
  assert (Hdb : pow2 b <= inject_Z (Z.pos d)).
  { rewrite (pow2_Z b Hb0), <- Zle_Qle. exact Hb1. }
  assert (Hdb' : inject_Z (Z.pos d) < pow2 (b + 1)).
  { rewrite (pow2_Z (b + 1)) by lia. rewrite <- Zlt_Qlt. exact Hb2. }
  assert (Hlow : pow2 (a - b - 1) < n # d).
  { rewrite Hq'. apply Qlt_shift_div_l; [exact Hd |].
    pose proof (pow2_add (a - b - 1) (b + 1)) as Hp.
    replace (a - b - 1 + (b + 1))%Z with a in Hp by lia.
    pose proof (pow2_pos (a - b - 1)) as Hpos. nra. }
  assert (Hhigh : n # d < pow2 (a - b + 1)).
  { rewrite Hq'. apply Qlt_shift_div_r; [exact Hd |].
    pose proof (pow2_add (a - b + 1) b) as Hp.
    replace (a - b + 1 + b)%Z with (a + 1)%Z in Hp by lia.
    pose proof (pow2_pos (a - b + 1)) as Hpos. nra. }
  destruct (Qle_bool (pow2 (a - b)) (n # d)) eqn:Hle.
  - apply Qle_bool_iff in Hle. split; [exact Hle | exact Hhigh].
  - split; [apply Qlt_le_weak, Hlow |].
    replace (a - b - 1 + 1)%Z with (a - b)%Z by lia.
    apply Qnot_le_lt. intros H. apply Qle_bool_iff in H. congruence.
Qed.

Lemma ilog2_unique q e : 0 < q -> pow2 e <= q -> q < pow2 (e + 1) -> ilog2 q = e.
Proof.
  intros Hq Hlo Hhi. destruct (ilog2_spec q Hq) as [Hlo' Hhi'].
  assert (H1 : (e < ilog2 q + 1)%Z).
  { apply pow2_lt_inv. eapply Qle_lt_trans; eassumption. }
  assert (H2 : (ilog2 q < e + 1)%Z).
  { apply pow2_lt_inv. eapply Qle_lt_trans; eassumption. }
  lia.
Qed.

Lemma ilog2_comp q q' : 0 < q -> q == q' -> ilog2 q = ilog2 q'.
Proof.
  intros Hq Heq. assert (Hq' : 0 < q') by (rewrite <- Heq; exact Hq).
  destruct (ilog2_spec q' Hq') as [Hlo Hhi].
  apply ilog2_unique; [exact Hq | rewrite Heq; exact Hlo | rewrite Heq; exact Hhi].
Qed.

Lemma nearest_comp q q' : q == q' -> nearest q = nearest q'.
Proof.
  intros Heq. unfold nearest. rewrite (Qfloor_comp _ _ Heq).
  assert (Hc : (q - inject_Z (Qfloor q') ?= 1 # 2) = (q' - inject_Z (Qfloor q') ?= 1 # 2)).
  { apply Qcompare_comp; [rewrite Heq |]; reflexivity. }
  rewrite Hc. reflexivity.
Qed.

Lemma nearest_Z m : nearest (inject_Z m) = m.
Proof.
  unfold nearest. rewrite Qfloor_Z.
  assert (Hc : (inject_Z m - inject_Z m ?= 1 # 2) = Lt).
  { apply (proj1 (Qlt_alt _ _)). lra. }
  rewrite Hc. reflexivity.
Qed.

Lemma nearest_cases q : nearest q = Qfloor q
                        \/ (nearest q = (Qfloor q + 1)%Z /\ 1 # 2 <= q - inject_Z (Qfloor q)).
Proof.
  unfold nearest.
  destruct (q - inject_Z (Qfloor q) ?= 1 # 2) eqn:Hc.
  - destruct (Z.even (Qfloor q)); [left; reflexivity |].
    right. split; [reflexivity |]. apply (proj2 (Qeq_alt _ _)) in Hc. lra.
  - left. reflexivity.
  - right. split; [reflexivity |]. apply (proj2 (Qgt_alt _ _)) in Hc. lra.
Qed.

Lemma nearest_nonneg q : 0 <= q -> (0 <= nearest q)%Z.
Proof.
  intros Hq. assert (Hf : (0 <= Qfloor q)%Z).
  { change 0%Z with (Qfloor 0). apply Qfloor_resp_le, Hq. }
  destruct (nearest_cases q) as [-> | [-> _]]; lia.
Qed.

(** Below the middle of two integers, the nearest integer is below the
    upper one. *)
Lemma nearest_below q M : q < inject_Z M - (1 # 2) -> (nearest q <= M - 1)%Z.
Proof.
  intros Hq. pose proof (Qfloor_le q) as Hf.
  destruct (nearest_cases q) as [-> | [-> Hhalf]].
  - assert (H : (Qfloor q < M)%Z) by (rewrite Zlt_Qlt; lra). lia.
  - assert (H : (Qfloor q + 1 < M)%Z).
    { rewrite Zlt_Qlt, inject_Z_plus. change (inject_Z 1) with 1. lra. }
    lia.
Qed.

Lemma Qred_Z z : Qred (inject_Z z) = inject_Z z.
Proof.
  unfold Qred, inject_Z. cbn [Qnum Qden].
  pose proof (Z.ggcd_gcd z 1) as Hg. pose proof (Z.ggcd_correct_divisors z 1) as Hd.
  destruct (Z.ggcd z 1) as [g [aa bb]]. cbn [fst snd] in *.
  rewrite Z.gcd_1_r in Hg. subst g. destruct Hd as [Ha Hb].
  rewrite !Z.mul_1_l in *. subst aa. subst bb. reflexivity.
Qed.

Lemma round_pos_comp q q' : 0 < q -> q == q' -> round_pos q = round_pos q'.
Proof.
  intros Hq Heq. unfold round_pos. rewrite (ilog2_comp q q' Hq Heq).
  set (ulp := pow2 (Z.max (ilog2 q') (-1022) - 52)).
  rewrite (nearest_comp (q / ulp) (q' / ulp)) by (rewrite Heq; reflexivity).
  reflexivity.
Qed.

Lemma round_comp q q' : q == q' -> round q = round q'.
Proof.
  intros Heq. unfold round.
  assert (Hc : (q ?= 0) = (q' ?= 0)) by (apply Qcompare_comp; [exact Heq | reflexivity]).
  rewrite <- Hc. destruct (q ?= 0) eqn:Hq; [reflexivity | |].
  - f_equal. apply round_pos_comp; [apply (proj2 (Qlt_alt _ _)) in Hq; lra | rewrite Heq; reflexivity].
  - apply round_pos_comp; [apply (proj2 (Qgt_alt _ _)) in Hq; lra | exact Heq].
Qed.

(** A positive rational that is a multiple of the unit of its binade, below
    the overflow threshold, is a binary64 value. *)
Lemma round_pos_exact q m :
  0 < q -> q < pow2 1024 ->
  q == inject_Z m * pow2 (Z.max (ilog2 q) (-1022) - 52) ->
  round_pos q = Finite (Qred q).
Proof.
  intros Hq Hmax Hm. unfold round_pos.
  set (ulp := pow2 (Z.max (ilog2 q) (-1022) - 52)) in *.
  assert (Hulp : 0 < ulp) by apply pow2_pos.
  assert (Hn : nearest (q / ulp) = m).
  { rewrite <- (nearest_Z m). apply nearest_comp. rewrite Hm. field. lra. }
  rewrite Hn. rewrite (Qred_complete _ q) by (symmetry; exact Hm).
  destruct (Qle_bool (pow2 1024) (Qred q)) eqn:Hle; [| reflexivity].
  apply Qle_bool_iff in Hle. rewrite Qred_correct in Hle. lra.
Qed.

(** The integers up to [2^53] in size are binary64 values. *)
Lemma round_Z z : safe z -> round (inject_Z z) = Finite (inject_Z z).
Proof.
  assert (Hpos : forall z, (0 < z <= 2 ^ 53)%Z ->
            round_pos (inject_Z z) = Finite (inject_Z z)).
  { clear z. intros z Hz.
    assert (Hq : 0 < inject_Z z) by (change 0 with (inject_Z 0); rewrite <- Zlt_Qlt; lia).
    destruct (ilog2_spec _ Hq) as [Hlo Hhi].
    set (e := ilog2 (inject_Z z)) in *.
    assert (He0 : (0 <= e)%Z).
    { assert (H : (0 < e + 1)%Z); [| lia].
      apply pow2_lt_inv. eapply Qle_lt_trans; [| exact Hhi].
      change (pow2 0) with (inject_Z 1). rewrite <- Zle_Qle. lia. }
    assert (He53 : (e <= 53)%Z).
    { assert (H : (e < 54)%Z); [| lia].
      apply pow2_lt_inv. eapply Qle_lt_trans; [exact Hlo |].
      rewrite (pow2_Z 54) by lia. rewrite <- Zlt_Qlt. lia. }
    assert (Hmax : Z.max e (-1022) = e) by lia.
    rewrite <- (Qred_Z z) at 2.
    assert (Hbig : inject_Z z < pow2 1024).
    { apply Qle_lt_trans with (y := pow2 53).
      - rewrite (pow2_Z 53) by lia. rewrite <- Zle_Qle. lia.
      - apply pow2_lt. lia. }
    destruct (Z.eq_dec e 53%Z) as [He | He].
    - assert (Hz53 : z = (2 ^ 53)%Z).
      { subst e. rewrite He in Hlo. rewrite (pow2_Z 53) in Hlo by lia.
        rewrite <- Zle_Qle in Hlo. lia. }
      apply (round_pos_exact _ (2 ^ 52)%Z); [exact Hq | exact Hbig |].
      fold e. rewrite Hmax, He, Hz53. reflexivity.
    - apply (round_pos_exact _ (z * 2 ^ (52 - e))%Z); [exact Hq | exact Hbig |].
      fold e. rewrite Hmax, inject_Z_mult.
      rewrite <- (pow2_Z (52 - e)) by lia.
      pose proof (pow2_add (52 - e) (e - 52)) as Hp.
      replace (52 - e + (e - 52))%Z with 0%Z in Hp by lia.
      change (pow2 0) with 1 in Hp. rewrite <- Qmult_assoc, <- Hp. ring. }
  intros [Hlo Hhi]. unfold round.
  destruct (inject_Z z ?= 0) eqn:Hc.
  - apply (proj2 (Qeq_alt _ _)) in Hc. f_equal.
    assert (z = 0%Z) as -> by (unfold Qeq in Hc; cbn in Hc; lia). reflexivity.
  - apply (proj2 (Qlt_alt _ _)) in Hc.
    assert (Hz : (z < 0)%Z) by (rewrite Zlt_Qlt; exact Hc).
    change (- inject_Z z) with (inject_Z (- z)).
    rewrite Hpos by lia. cbn [opp].
    change (- inject_Z (- z)) with (inject_Z (- - z)).
    rewrite Z.opp_involutive. f_equal. apply Qred_Z.
  - apply (proj2 (Qgt_alt _ _)) in Hc.
    assert (Hz : (0 < z)%Z) by (rewrite Zlt_Qlt; exact Hc).
    apply Hpos. lia.
Qed.

(** What it is to be a positive binary64 value: a multiple of the unit of
    its binade. *)
Lemma is_double_pos r :
  is_double r -> 0 < r ->
  r == inject_Z (nearest (r / pow2 (Z.max (ilog2 r) (-1022) - 52)))
       * pow2 (Z.max (ilog2 r) (-1022) - 52).
Proof.
  unfold is_double, round. intros Hr Hpos.
  assert (Hc : (r ?= 0) = Gt) by (apply (proj1 (Qgt_alt _ _)); exact Hpos).
  rewrite Hc in Hr. unfold round_pos in Hr.
  destruct (Qle_bool _ _); [discriminate |].
  injection Hr as Hr. rewrite <- Hr at 1. apply Qred_correct.
Qed.

(** The binary64 values below one stop at [1 - 2^-53]. *)
Lemma double_below_one r :
  is_double r -> 0 < r -> r < 1 -> r <= 1 - pow2 (-53).
Proof.
  intros Hr Hpos Hlt. pose proof (is_double_pos r Hr Hpos) as Hm.
  destruct (ilog2_spec r Hpos) as [Hlo Hhi].
  set (e := ilog2 r) in *.
  assert (He : (e < 0)%Z).
  { apply pow2_lt_inv. change (pow2 0) with 1. lra. }
  assert (Hsmall : pow2 (-53) <= 1 # 2) by discriminate.
  destruct (Z.eq_dec e (-1)%Z) as [He1 | He1].
  - rewrite He1 in Hm. change (Z.max (-1) (-1022) - 52)%Z with (-53)%Z in Hm.
    set (m := nearest (r / pow2 (-53))) in *.
    assert (Hone : 1 == inject_Z (2 ^ 53) * pow2 (-53)) by reflexivity.
    assert (Hp : 0 < pow2 (-53)) by apply pow2_pos.
    assert (Hlt' : (m < 2 ^ 53)%Z).
    { rewrite Zlt_Qlt. apply (proj1 (Qmult_lt_r _ _ _ Hp)). rewrite <- Hm, <- Hone. exact Hlt. }
    assert (Hle : inject_Z m <= inject_Z (2 ^ 53 - 1)) by (rewrite <- Zle_Qle; lia).
    assert (Hdec : inject_Z (2 ^ 53 - 1) * pow2 (-53) == 1 - pow2 (-53)) by reflexivity.
    rewrite Hm, <- Hdec. apply (proj2 (Qmult_le_r _ _ _ Hp)). exact Hle.
  - assert (Hhalf : pow2 (e + 1) <= 1 # 2).
    { change (1 # 2) with (pow2 (-1)). apply pow2_le. lia. }
    lra.
Qed.

(** A binary64 value below one, times an integer up to [2^53], rounds to a
    value below that integer. *)
Lemma round_mul_below r N :
  is_double r -> 0 <= r -> r < 1 -> (1 <= N <= 2 ^ 53)%Z ->
  exists y, round (r * inject_Z N) = Finite y /\ 0 <= y /\ y < inject_Z N.
Proof.
  intros Hr H0 H1 HN.
  assert (HN1 : 1 <= inject_Z N) by (change 1 with (inject_Z 1); rewrite <- Zle_Qle; lia).
  assert (HN53 : inject_Z N <= pow2 53).
  { rewrite (pow2_Z 53) by lia. rewrite <- Zle_Qle. lia. }
  destruct (Qlt_le_dec 0 r) as [Hpos | Hzero].
  2: { exists 0. assert (Hr0 : r == 0) by lra.
       rewrite (round_comp _ 0) by (rewrite Hr0; ring).
       split; [reflexivity |]. split; lra. }
  pose proof (double_below_one r Hr Hpos H1) as Hgap.
  set (n := inject_Z N) in *. set (x := r * n).
  assert (Hx : 0 < x) by (unfold x; nra).
  assert (HxN : x < n) by (unfold x; nra).
  unfold round.
  assert (Hc : (x ?= 0) = Gt) by (apply (proj1 (Qgt_alt _ _)); exact Hx).
  rewrite Hc. unfold round_pos.
  destruct (ilog2_spec x Hx) as [Hlo Hhi].
  set (e := Z.max (ilog2 x) (-1022)). set (ulp := pow2 (e - 52)).
  assert (Hulp : 0 < ulp) by apply pow2_pos.
  assert (Hlog : (ilog2 x < 53)%Z).
  { apply pow2_lt_inv. lra. }
  assert (He52 : (e <= 52)%Z) by (unfold e; lia).
  assert (HeN : pow2 e < n).
  { unfold e. destruct (Z.max_spec (ilog2 x) (-1022)) as [[_ ->] | [_ ->]].
    - assert (pow2 (-1022) < 1) by reflexivity. lra.
    - lra. }
  assert (Hhalf : ulp == 2 * (pow2 e * pow2 (-53))).
  { unfold ulp. replace (e - 52)%Z with (e + (-53) + 1)%Z by lia.
    rewrite pow2_succ, pow2_add. reflexivity. }
  assert (Hmid : x < n - ulp / 2).
  { assert (Hg : n * pow2 (-53) <= n - x) by (unfold x; nra).
    assert (Hp : 0 < pow2 (-53)) by apply pow2_pos.
    assert (Hs : pow2 e * pow2 (-53) < n * pow2 (-53)).
    { apply (proj2 (Qmult_lt_r _ _ _ Hp)). exact HeN. }
    assert (Hu : ulp / 2 == pow2 e * pow2 (-53)) by (rewrite Hhalf; field).
    rewrite Hu. lra. }
  set (M := (N * 2 ^ (52 - e))%Z).
  assert (HM : inject_Z M * ulp == n).
  { unfold M, ulp. rewrite inject_Z_mult, <- (pow2_Z (52 - e)) by lia.
    fold n. rewrite <- Qmult_assoc, <- pow2_add.
    replace (52 - e + (e - 52))%Z with 0%Z by lia. change (pow2 0) with 1. ring. }
  set (m := nearest (x / ulp)).
  assert (Hm0 : (0 <= m)%Z).
  { apply nearest_nonneg. apply Qle_shift_div_l; [exact Hulp |]. lra. }
  assert (Hm1 : (m <= M - 1)%Z).
  { apply nearest_below. apply Qlt_shift_div_r; [exact Hulp |].
    assert (Hexp : (inject_Z M - (1 # 2)) * ulp == n - ulp / 2).
    { rewrite <- HM. field. }
    rewrite Hexp. exact Hmid. }
  assert (Hy0 : 0 <= inject_Z m * ulp).
  { assert (0 <= inject_Z m) by (change 0 with (inject_Z 0); rewrite <- Zle_Qle; exact Hm0).
    nra. }
  assert (Hy1 : inject_Z m * ulp < n).
  { assert (Hmm : inject_Z m <= inject_Z (M - 1)) by (rewrite <- Zle_Qle; exact Hm1).
    assert (Hmm' : inject_Z (M - 1) == inject_Z M - 1).
    { unfold Z.sub. rewrite inject_Z_plus, inject_Z_opp. reflexivity. }
    nra. }
  assert (Hbig : pow2 53 < pow2 1024) by (apply pow2_lt; lia).
  destruct (Qle_bool (pow2 1024) (Qred (inject_Z m * ulp))) eqn:Hle.
  { apply Qle_bool_iff in Hle. rewrite Qred_correct in Hle. lra. }
  exists (Qred (inject_Z m * ulp)). split; [reflexivity |].
  rewrite Qred_correct. split; assumption.
Qed.

(** Sums and differences of integers that stay within [2^53] are exact. *)
Lemma add_Z a b : safe (a + b) ->
  add (Finite (inject_Z a)) (Finite (inject_Z b)) = Finite (inject_Z (a + b)).
Proof.
  intros Hs. cbn [add]. rewrite <- (round_Z _ Hs). apply round_comp.
  rewrite inject_Z_plus. reflexivity.
Qed.

Lemma sub_Z a b : safe (a - b) ->
  sub (Finite (inject_Z a)) (Finite (inject_Z b)) = Finite (inject_Z (a - b)).
Proof.
  intros Hs. unfold sub. cbn [opp add]. rewrite <- (round_Z _ Hs). apply round_comp.
  rewrite Qred_correct. unfold Z.sub. rewrite inject_Z_plus, inject_Z_opp. reflexivity.
Qed.

End NumberFacts.

(** ** The page walk *)

Module FetcherFacts.
Import FileLinkFetcher.

Section WalkFacts.
Context (pf : Platform) (env : Env) (self : Fetcher).

#[local] Abbreviation walk := (walk pf env self).
#[local] Abbreviation pageResult := (pageResult pf env self).
#[local] Abbreviation pageUrlOf := (pageUrlOf pf self).
#[local] Abbreviation pageEvents := (pageEvents pf env self).
#[local] Abbreviation turnEvents := (turnEvents pf env self).

Lemma getFileLinksFromPage_run page fs :
  getFileLinksFromPage pf env self page (pageUrlOf page) fs
  = (pageResult page, fs, pageEvents page).
Proof.
  unfold pageResult, pageEvents, getFileLinksFromPage.
  destruct (launches _); [| reflexivity].
  unfold bind, emit, console, ret, throw.
  destruct (tryPage _ _ _).2; destruct (closes _); reflexivity.
Qed.

Lemma isDuplicatePage_spec (a b : list FileLink) :
  isDuplicatePage a b = true <-> a = b.
Proof.
  unfold isDuplicatePage. rewrite andb_true_iff, Nat.eqb_eq, forallb_forall.
  split.
  - intros [Hlen Hall]. apply list_eq_same_length with (length a); [done | done |].
    intros i x y _ Hx Hy.
    specialize (Hall (i, x)). cbn in Hall. rewrite Hy in Hall.
    assert (Hin : In (i, x) (imap pair a)).
    { apply list_elem_of_In, elem_of_lookup_imap. eauto. }
    apply Hall, andb_true_iff in Hin as [Hu Hf].
    apply bool_decide_eq_true in Hu, Hf. destruct x, y; simpl in *; congruence.
  - intros <-. split; [done |]. intros [i x] Hin.
    apply list_elem_of_In, elem_of_lookup_imap in Hin as (j & y & [= -> ->] & Hy).
    rewrite Hy. unfold str_eqb. rewrite !bool_decide_eq_true_2; done.
Qed.

Lemma pageResult_cases page :
  (exists links, pageResult page = Ret links) \/ pageResult page = Throw BrowserError.
Proof.
  unfold FileLinkFetcher.pageResult, getFileLinksFromPage.
  destruct (launches _); [| right; reflexivity].
  unfold bind, emit, console, ret, throw.
  destruct (tryPage _ _ _).2; destruct (closes _); eauto.
Qed.

(** One turn of the loop on a page that comes back. *)
Lemma walk_turn fuel page lastLinks acc fs links :
  pageResult page = Ret links ->
  walk (S fuel) page lastLinks acc fs =
    if isDuplicatePage lastLinks links then
      (Ret acc, fs, turnEvents page links ++ [EvLog (LStopDuplicate page)])
    else if (Z.of_nat (length links) <? maxItemsPerPage self)%Z then
      (Ret (acc ++ links), fs,
       turnEvents page links ++ [EvLog (LStopShort (maxItemsPerPage self))])
    else
      let '(r, fs', tr) := walk fuel (page + 1)%Z links (acc ++ links) fs in
      (r, fs', turnEvents page links ++ tr).
Proof.
  intros Hp. cbn [FileLinkFetcher.walk]. unfold bind at 1. unfold console at 1, emit at 1.
  unfold bind at 1. rewrite getFileLinksFromPage_run, Hp.
  unfold bind, console, emit, ret, turnEvents.
  destruct (isDuplicatePage lastLinks links).
  - cbn. rewrite <- app_assoc. reflexivity.
  - destruct (Z.of_nat (length links) <? maxItemsPerPage self)%Z.
    + cbn. rewrite <- app_assoc. reflexivity.
    + destruct (walk fuel (page + 1)%Z links (acc ++ links) fs) as [[r fs'] tr].
      cbn. rewrite <- app_assoc. reflexivity.
Qed.

(** One turn of the loop when the browser itself fails. *)
Lemma walk_throw fuel page lastLinks acc fs e :
  pageResult page = Throw e ->
  walk (S fuel) page lastLinks acc fs =
    (Throw e, fs, EvLog (LFetchingPage (pageUrlOf page)) :: pageEvents page).
Proof.
  intros Hp. cbn [FileLinkFetcher.walk]. unfold bind at 1. unfold console at 1, emit at 1.
  unfold bind at 1. rewrite getFileLinksFromPage_run, Hp. reflexivity.
Qed.

#[local] Abbreviation linksFrom := (linksFrom pf env self).
#[local] Abbreviation linksOf := (linksOf pf env self).
#[local] Abbreviation urlsFrom := (urlsFrom pf self).

Lemma fetched_app t1 t2 : fetched (t1 ++ t2) = fetched t1 ++ fetched t2.
Proof. apply omap_app. Qed.

(** A page that comes back was navigated to, once. *)
Lemma fetched_pageEvents page :
  fetched (pageEvents page)
  = if launches (render env page (pageUrlOf page)) then [pageUrlOf page] else [].
Proof.
  unfold pageEvents, getFileLinksFromPage.
  destruct (launches _); [| reflexivity].
  unfold bind, emit, console, ret, throw.
  destruct (tryPage _ _ _).2; destruct (closes _); reflexivity.
Qed.

Lemma pageResult_launches page links :
  pageResult page = Ret links -> launches (render env page (pageUrlOf page)) = true.
Proof.
  unfold FileLinkFetcher.pageResult, getFileLinksFromPage.
  destruct (launches _); [reflexivity | discriminate].
Qed.

Lemma fetched_pageEvents_le page : (length (fetched (pageEvents page)) <= 1)%nat.
Proof. rewrite fetched_pageEvents. destruct (launches _); simpl; lia. Qed.

Lemma linksOf_ret page links : pageResult page = Ret links -> linksOf page = links.
Proof. unfold FileLinkFetcher.linksOf. intros ->. reflexivity. Qed.

Lemma linksFrom_snoc count : forall page,
  linksFrom page (S count)
  = linksFrom page count ++ linksOf (page + Z.of_nat count)%Z.
Proof.
  induction count as [| count IH]; intros page.
  - cbn [FileLinkFetcher.linksFrom]. rewrite Z.add_0_r, app_nil_r. reflexivity.
  - change (linksFrom page (S (S count)))
      with (linksOf page ++ linksFrom (page + 1)%Z (S count)).
    rewrite IH. cbn [FileLinkFetcher.linksFrom]. rewrite <- app_assoc.
    do 3 f_equal. lia.
Qed.

Lemma fetched_turnEvents page links :
  pageResult page = Ret links -> fetched (turnEvents page links) = [pageUrlOf page].
Proof.
  intros H. unfold turnEvents.
  change (?a :: ?l ++ ?r) with ([a] ++ l ++ r).
  rewrite !fetched_app, fetched_pageEvents, (pageResult_launches _ _ H). reflexivity.
Qed.

Lemma triple_inj {A B C} (a a' : A) (b b' : B) (c c' : C) :
  (a, b, c) = (a', b', c') -> a = a' /\ b = b' /\ c = c'.
Proof. intros [= -> -> ->]. auto. Qed.

Ltac stopped Hrun Hlen :=
  apply triple_inj in Hrun as (<- & <- & <-);
  repeat match goal with
  | Hp : pageResult _ = Ret _ |- _ =>
      rewrite fetched_app, (fetched_turnEvents _ _ Hp) in Hlen
  end;
  simpl in Hlen; lia.

(** The walk, once it has navigated to two equal pages in a row. *)
Lemma walk_duplicate n : forall fuel page lastLinks acc fs res fs' tr L,
  walk fuel page lastLinks acc fs = (res, fs', tr) ->
  (n + 2 <= length (fetched tr))%nat ->
  pageResult (page + Z.of_nat n) = Ret L ->
  pageResult (page + Z.of_nat n + 1) = Ret L ->
  res = Ret (acc ++ linksFrom page (S n))
  /\ fs' = fs
  /\ fetched tr = urlsFrom page (n + 2)
  /\ last tr = Some (EvLog (LStopDuplicate (page + Z.of_nat n + 1))).
Proof.
  induction n as [| n IH]; intros fuel page lastLinks acc fs res fs' tr L Hrun Hlen HN HN1.
  - rewrite Z.add_0_r in HN, HN1 |- *.
    destruct fuel as [| fuel]; [stopped Hrun Hlen |].
    rewrite (walk_turn _ _ _ _ _ _ HN) in Hrun.
    destruct (isDuplicatePage lastLinks L); [stopped Hrun Hlen |].
    destruct (Z.of_nat (length L) <? maxItemsPerPage self)%Z; [stopped Hrun Hlen |].
    destruct fuel as [| fuel]; [stopped Hrun Hlen |].
    rewrite (walk_turn _ _ _ _ _ _ HN1) in Hrun.
    rewrite (proj2 (isDuplicatePage_spec L L) eq_refl) in Hrun.
    apply triple_inj in Hrun as (<- & <- & <-).
    repeat split.
    + cbn [FileLinkFetcher.linksFrom]. rewrite app_nil_r, (linksOf_ret _ _ HN). reflexivity.
    + rewrite !fetched_app, !fetched_turnEvents by done. reflexivity.
    + rewrite app_assoc. apply last_snoc.
  - destruct fuel as [| fuel]; [stopped Hrun Hlen |].
    destruct (pageResult_cases page) as [[links Hp] | Hp].
    2: { rewrite (walk_throw _ _ _ _ _ _ Hp) in Hrun. apply triple_inj in Hrun as (<- & <- & <-).
         pose proof (fetched_pageEvents_le page) as Hle.
         change (fetched (?a :: ?l)) with (fetched l) in Hlen. lia. }
    rewrite (walk_turn _ _ _ _ _ _ Hp) in Hrun.
    destruct (isDuplicatePage lastLinks links); [stopped Hrun Hlen |].
    destruct (Z.of_nat (length links) <? maxItemsPerPage self)%Z; [stopped Hrun Hlen |].
    destruct (walk fuel (page + 1)%Z links (acc ++ links) fs) as [[r f'] t'] eqn:Hw.
    apply triple_inj in Hrun as (<- & <- & <-).
    rewrite fetched_app, fetched_turnEvents in Hlen |- * by done.
    replace (page + Z.of_nat (S n))%Z with (page + 1 + Z.of_nat n)%Z in * by lia.
    destruct (IH _ _ _ _ _ _ _ _ L Hw ltac:(simpl in Hlen; lia) HN HN1)
      as (-> & -> & Hf & Hl).
    repeat split.
    + change (linksFrom page (S (S n)))
        with (linksOf page ++ linksFrom (page + 1)%Z (S n)).
      rewrite (linksOf_ret _ _ Hp), app_assoc. reflexivity.
    + rewrite Hf. reflexivity.
    + rewrite last_app, Hl. reflexivity.
Qed.

(** The walk, once it has navigated to a page that comes back short. *)
Lemma walk_short k : forall fuel page lastLinks acc fs res fs' tr L,
  walk fuel page lastLinks acc fs = (res, fs', tr) ->
  (k + 1 <= length (fetched tr))%nat ->
  pageResult (page + Z.of_nat k) = Ret L ->
  (Z.of_nat (length L) < maxItemsPerPage self)%Z ->
  fs' = fs
  /\ fetched tr = urlsFrom page (k + 1)
  /\ ((res = Ret (acc ++ linksFrom page k)
       /\ last tr = Some (EvLog (LStopDuplicate (page + Z.of_nat k))))
      \/ (res = Ret (acc ++ linksFrom page (S k))
          /\ last tr = Some (EvLog (LStopShort (maxItemsPerPage self))))).
Proof.
  induction k as [| k IH]; intros fuel page lastLinks acc fs res fs' tr L Hrun Hlen HN Hshort.
  - rewrite Z.add_0_r in HN |- *.
    destruct fuel as [| fuel]; [stopped Hrun Hlen |].
    rewrite (walk_turn _ _ _ _ _ _ HN) in Hrun.
    destruct (isDuplicatePage lastLinks L).
    { apply triple_inj in Hrun as (<- & <- & <-). repeat split.
      - rewrite fetched_app, (fetched_turnEvents _ _ HN). reflexivity.
      - left. cbn [FileLinkFetcher.linksFrom]. rewrite app_nil_r. split; [done |].
        apply last_snoc. }
    apply Z.ltb_lt in Hshort. rewrite Hshort in Hrun.
    apply triple_inj in Hrun as (<- & <- & <-). repeat split.
    + rewrite fetched_app, (fetched_turnEvents _ _ HN). reflexivity.
    + right. cbn [FileLinkFetcher.linksFrom].
      rewrite app_nil_r, (linksOf_ret _ _ HN). split; [done |]. apply last_snoc.
  - destruct fuel as [| fuel]; [stopped Hrun Hlen |].
    destruct (pageResult_cases page) as [[links Hp] | Hp].
    2: { rewrite (walk_throw _ _ _ _ _ _ Hp) in Hrun.
         apply triple_inj in Hrun as (<- & <- & <-).
         pose proof (fetched_pageEvents_le page) as Hle.
         change (fetched (?a :: ?l)) with (fetched l) in Hlen. lia. }
    rewrite (walk_turn _ _ _ _ _ _ Hp) in Hrun.
    destruct (isDuplicatePage lastLinks links); [stopped Hrun Hlen |].
    destruct (Z.of_nat (length links) <? maxItemsPerPage self)%Z; [stopped Hrun Hlen |].
    destruct (walk fuel (page + 1)%Z links (acc ++ links) fs) as [[r f'] t'] eqn:Hw.
    apply triple_inj in Hrun as (<- & <- & <-).
    rewrite fetched_app, (fetched_turnEvents _ _ Hp) in Hlen |- *.
    replace (page + Z.of_nat (S k))%Z with (page + 1 + Z.of_nat k)%Z in * by lia.
    destruct (IH _ _ _ _ _ _ _ _ L Hw ltac:(simpl in Hlen; lia) HN Hshort)
      as (-> & Hf & Hres).
    repeat split.
    + rewrite Hf. reflexivity.
    + assert (Hne : t' <> []).
      { intros ->. destruct Hres as [[_ Hl] | [_ Hl]]; discriminate. }
      rewrite last_app.
      change (linksFrom page (S (S k)))
        with (linksOf page ++ linksFrom (page + 1)%Z (S k)).
      change (linksFrom page (S k))
        with (linksOf page ++ linksFrom (page + 1)%Z k).
      rewrite (linksOf_ret _ _ Hp), !app_assoc.
      destruct Hres as [[-> ->] | [-> ->]]; [left | right]; done.
Qed.


#[local] Abbreviation saveFileLinksToJson := (saveFileLinksToJson pf env self).
#[local] Abbreviation walkAndSave := (walkAndSave pf env self).
#[local] Abbreviation fetchAllFileLinks := (fetchAllFileLinks pf env self).

(** The walk leaves the file system alone. *)
Lemma walk_fs fuel : forall page lastLinks acc fs res fs' tr,
  walk fuel page lastLinks acc fs = (res, fs', tr) -> fs' = fs.
Proof.
  induction fuel as [| fuel IH]; intros page lastLinks acc fs res fs' tr Hrun.
  - apply triple_inj in Hrun as (_ & <- & _). reflexivity.
  - destruct (pageResult_cases page) as [[links Hp] | Hp].
    + rewrite (walk_turn _ _ _ _ _ _ Hp) in Hrun.
      destruct (isDuplicatePage lastLinks links);
        [apply triple_inj in Hrun as (_ & <- & _); reflexivity |].
      destruct (Z.of_nat (length links) <? maxItemsPerPage self)%Z;
        [apply triple_inj in Hrun as (_ & <- & _); reflexivity |].
      destruct (walk fuel (page + 1)%Z links (acc ++ links) fs) as [[r f'] t'] eqn:Hw.
      apply triple_inj in Hrun as (_ & <- & _). eapply IH, Hw.
    + rewrite (walk_throw _ _ _ _ _ _ Hp) in Hrun.
      apply triple_inj in Hrun as (_ & <- & _). reflexivity.
Qed.

(** What a successful save leaves behind. *)
Lemma save_ok links fs fs' ts :
  saveFileLinksToJson links fs = (Ret tt, fs', ts) ->
  fs' !! outputFilePath self = Some (File (jsonLines links)) /\ fetched ts = [].
Proof.
  unfold FileLinkFetcher.saveFileLinksToJson, bind, existsSync, mkdirSync,
    writeFileSync, console, emit, ret.
  set (dir := path_dirname pf (outputFilePath self)).
  destruct (bool_decide (is_Some (fs !! dir))).
  - destruct (Fs.can_write fs (outputFilePath self)) eqn:Hc; [| discriminate].
    destruct (writable env (outputFilePath self)); [| discriminate].
    intros H; apply triple_inj in H as (_ & <- & <-).
    split; [apply FsFacts.lookup_write_eq, Hc | reflexivity].
  - destruct (Fs.can_make fs dir && writable env dir); [| discriminate].
    destruct (Fs.can_write (<[dir:=Dir]> fs) (outputFilePath self)) eqn:Hc;
      [| discriminate].
    destruct (writable env (outputFilePath self)); [| discriminate].
    intros H; apply triple_inj in H as (_ & <- & <-).
    split; [apply FsFacts.lookup_write_eq, Hc | reflexivity].
Qed.

(** Overwriting a checkpoint whose folder is there. *)
Lemma save_over links fs old :
  fs !! outputFilePath self = Some (File old) ->
  is_Some (fs !! path_dirname pf (outputFilePath self)) ->
  writable env (outputFilePath self) = true ->
  saveFileLinksToJson links fs
  = (Ret tt, <[outputFilePath self := File (jsonLines links)]> fs,
     [EvWriteFile (outputFilePath self); EvLog (LSaved (outputFilePath self))]).
Proof.
  intros Hold Hdir Hw.
  unfold FileLinkFetcher.saveFileLinksToJson, bind, existsSync, mkdirSync,
    writeFileSync, console, emit, ret.
  rewrite bool_decide_eq_true_2 by exact Hdir.
  rewrite (FsFacts.lookup_file_can_write _ _ _ Hold), Hw. reflexivity.
Qed.

(** Everything after the checkpoint question, on a walk that comes back. *)
Lemma walkAndSave_ret fuel fs links tr :
  walk fuel (startPage self) [] [] fs = (Ret links, fs, tr) ->
  walkAndSave fuel fs =
    let '(r, fs', ts) := saveFileLinksToJson links fs in
    (match r with
     | Ret _ => Ret (FromWalk links)
     | Throw e => Throw e
     | Starved => Starved
     end, fs', tr ++ EvLog (LFileLinks links) :: ts).
Proof.
  intros Hw. unfold FileLinkFetcher.walkAndSave, bind, console, emit, ret.
  rewrite Hw.
  destruct (saveFileLinksToJson links fs) as [[[[] | e |] fs'] ts];
    cbn [app]; rewrite ?app_nil_r; reflexivity.
Qed.

(** With no checkpoint, or a checkpoint the operator declines, the walk runs. *)
Lemma fetchAll_fresh fuel answer fs :
  fs !! outputFilePath self = None ->
  fetchAllFileLinks fuel answer fs = walkAndSave fuel fs.
Proof.
  intros Hnone. unfold FileLinkFetcher.fetchAllFileLinks.
  unfold bind at 1. unfold existsSync.
  rewrite bool_decide_eq_false_2 by (rewrite Hnone; apply is_Some_None).
  destruct (walkAndSave fuel fs) as [[r fs'] tr]. reflexivity.
Qed.

Lemma fetchAll_declined fuel answer fs :
  is_Some (fs !! outputFilePath self) ->
  confirms answer = false ->
  fetchAllFileLinks fuel answer fs =
    let '(r, fs', tr) := walkAndSave fuel fs in
    (r, fs', EvLog (LExisting (outputFilePath self)) :: EvPrompt reuseMessage
               :: EvLog LFetchingNew :: tr).
Proof.
  intros Hsome Hno. unfold FileLinkFetcher.fetchAllFileLinks.
  unfold bind at 1. unfold existsSync.
  rewrite bool_decide_eq_true_2 by exact Hsome.
  unfold askUserConfirmation. rewrite Hno.
  unfold bind, console, emit, ret.
  destruct (walkAndSave fuel fs) as [[r fs'] tr]. reflexivity.
Qed.

Lemma fetchAll_reused fuel answer fs text v n :
  fs !! outputFilePath self = Some (File text) ->
  confirms answer = true ->
  Json.parse text = Some v ->
  length_of v = inr n ->
  fetchAllFileLinks fuel answer fs =
    (Ret (FromCheckpoint v), fs,
     [EvLog (LExisting (outputFilePath self)); EvPrompt reuseMessage;
      EvLog (LLoaded n (outputFilePath self))]).
Proof.
  intros Hfile Hyes Hparse Hlen. unfold FileLinkFetcher.fetchAllFileLinks.
  unfold bind at 1. unfold existsSync.
  rewrite bool_decide_eq_true_2 by (rewrite Hfile; eauto).
  unfold askUserConfirmation, loadExisting. rewrite Hyes.
  unfold bind, console, emit, ret, readFileSync. rewrite Hfile, Hparse, Hlen.
  reflexivity.
Qed.

(** A walk that ended keeps its outcome under any larger fuel. *)
Lemma walk_more_fuel fuel : forall page lastLinks acc fs res fs' tr extra,
  walk fuel page lastLinks acc fs = (res, fs', tr) ->
  res <> Starved ->
  walk (fuel + extra) page lastLinks acc fs = (res, fs', tr).
Proof.
  induction fuel as [| fuel IH]; intros page lastLinks acc fs res fs' tr extra Hrun Hres.
  - apply triple_inj in Hrun as (<- & _ & _). contradiction.
  - change (S fuel + extra)%nat with (S (fuel + extra)).
    destruct (pageResult_cases page) as [[links Hp] | Hp].
    + rewrite (walk_turn _ _ _ _ _ _ Hp) in Hrun.
      rewrite (walk_turn _ _ _ _ _ _ Hp).
      destruct (isDuplicatePage lastLinks links); [exact Hrun |].
      destruct (Z.of_nat (length links) <? maxItemsPerPage self)%Z; [exact Hrun |].
      destruct (walk fuel (page + 1)%Z links (acc ++ links) fs) as [[r f'] t'] eqn:Hw.
      apply triple_inj in Hrun as (<- & <- & <-).
      rewrite (IH _ _ _ _ _ _ _ extra Hw Hres). reflexivity.
    + rewrite (walk_throw _ _ _ _ _ _ Hp) in Hrun.
      rewrite (walk_throw _ _ _ _ _ _ Hp). exact Hrun.
Qed.

(** Enough fuel reaches any page the walk is kept going to. *)
Lemma walk_reaches k : forall fuel page lastLinks acc fs links,
  keepsGoing pf env self page lastLinks k ->
  pageResult (page + Z.of_nat k) = Ret links ->
  (k < fuel)%nat ->
  (k + 1 <= length (fetched (walk fuel page lastLinks acc fs).2))%nat.
Proof.
  induction k as [| k IH]; intros fuel page lastLinks acc fs links Hgo Hk Hfuel.
  - rewrite Z.add_0_r in Hk. destruct fuel as [| fuel]; [lia |].
    rewrite (walk_turn _ _ _ _ _ _ Hk).
    destruct (isDuplicatePage lastLinks links);
      [| destruct (Z.of_nat (length links) <? maxItemsPerPage self)%Z;
         [| destruct (walk fuel (page + 1)%Z links (acc ++ links) fs) as [[r f'] t']]];
      cbn [snd]; rewrite fetched_app, (fetched_turnEvents _ _ Hk);
      simpl; lia.
  - destruct fuel as [| fuel]; [lia |].
    destruct Hgo as (first & Hp & Hdup & Hfull & Hgo).
    rewrite (walk_turn _ _ _ _ _ _ Hp), Hdup, Hfull.
    replace (page + Z.of_nat (S k))%Z with (page + 1 + Z.of_nat k)%Z in Hk by lia.
    pose proof (IH fuel (page + 1)%Z first (acc ++ first) fs links Hgo Hk ltac:(lia))
      as Hlen.
    destruct (walk fuel (page + 1)%Z first (acc ++ first) fs) as [[r f'] t'].
    cbn [snd] in *. rewrite fetched_app, (fetched_turnEvents _ _ Hp).
    simpl. lia.
Qed.

(** With enough fuel, a walk kept going up to a repeated page returns there. *)
Corollary walk_returns_at_repeat (n : nat) fuel fs L :
  keepsGoing pf env self (startPage self) [] (S n) ->
  pageResult (startPage self + Z.of_nat n) = Ret L ->
  pageResult (startPage self + Z.of_nat n + 1) = Ret L ->
  (S n < fuel)%nat ->
  exists tr,
    walk fuel (startPage self) [] [] fs
    = (Ret (linksFrom (startPage self) (S n)), fs, tr)
    /\ fetched tr = urlsFrom (startPage self) (n + 2).
Proof.
  intros Hgo HN HN1 Hfuel.
  assert (HN1' : pageResult (startPage self + Z.of_nat (S n)) = Ret L)
    by (replace (startPage self + Z.of_nat (S n))%Z
          with (startPage self + Z.of_nat n + 1)%Z by lia; exact HN1).
  pose proof (walk_reaches (S n) fuel (startPage self) [] [] fs L Hgo HN1' Hfuel) as Hlen.
  destruct (walk fuel (startPage self) [] [] fs) as [[res fs'] tr] eqn:Hrun.
  cbn [snd] in Hlen.
  destruct (walk_duplicate n _ _ _ _ _ _ _ _ L Hrun ltac:(lia) HN HN1)
    as (-> & -> & Hf & _).
  eauto.
Qed.

(** With enough fuel, a walk kept going up to a short page returns there. *)
Corollary walk_returns_at_short (k : nat) fuel fs L :
  keepsGoing pf env self (startPage self) [] k ->
  pageResult (startPage self + Z.of_nat k) = Ret L ->
  (Z.of_nat (length L) < maxItemsPerPage self)%Z ->
  (k < fuel)%nat ->
  exists out tr,
    walk fuel (startPage self) [] [] fs = (Ret out, fs, tr)
    /\ fetched tr = urlsFrom (startPage self) (k + 1).
Proof.
  intros Hgo Hk Hshort Hfuel.
  pose proof (walk_reaches k fuel (startPage self) [] [] fs L Hgo Hk Hfuel) as Hlen.
  destruct (walk fuel (startPage self) [] [] fs) as [[res fs'] tr] eqn:Hrun.
  cbn [snd] in Hlen.
  destruct (walk_short k _ _ _ _ _ _ _ _ L Hrun Hlen Hk Hshort)
    as (-> & Hf & [[-> _] | [-> _]]); eauto.
Qed.

End WalkFacts.

(** C1. Duplicate-page termination. In a run of the page walk that has
    navigated to pages N and N+1 (N the n-th page after [startPage]), if both
    yield the same reference list then the walk returns there: the pages
    navigated to are exactly [startPage] .. N+1, so page N+2 is never
    fetched; the run ends on the duplicate-page message; and the result is
    the references of pages [startPage] .. N, without those of page N+1. *)
Theorem duplicate_page_stops pf env self fuel fs res fs' tr (n : nat) L :
  walk pf env self fuel (startPage self) [] [] fs = (res, fs', tr) ->
  (n + 2 <= length (fetched tr))%nat ->
  pageResult pf env self (startPage self + Z.of_nat n) = Ret L ->
  pageResult pf env self (startPage self + Z.of_nat n + 1) = Ret L ->
  res = Ret (linksFrom pf env self (startPage self) (S n))
  /\ fetched tr = urlsFrom pf self (startPage self) (n + 2)
  /\ last tr = Some (EvLog (LStopDuplicate (startPage self + Z.of_nat n + 1))).
Proof.
  intros Hrun Hlen HN HN1.
  destruct (walk_duplicate pf env self n _ _ _ _ _ _ _ _ L Hrun Hlen HN HN1)
    as (-> & _ & Hf & Hl).
  auto.
Qed.

Lemma duplicate_page_stops_witness :
  let env := Sample.site [[Sample.anchorA]; [Sample.anchorA]; [Sample.anchorB]] in
  let self := Sample.fetcher 1 in
  let run := walk Sample.platform env self 5 1 [] [] ∅ in
  ((2 <= length (fetched run.2))%nat
   /\ pageResult Sample.platform env self 1 = Ret [Sample.linkA]
   /\ pageResult Sample.platform env self 2 = Ret [Sample.linkA])
  /\ run.1.1 = Ret [Sample.linkA]
  /\ fetched run.2 = urlsFrom Sample.platform self 1 2
  /\ last run.2 = Some (EvLog (LStopDuplicate 2)).
Proof.
  intros env self run.
  assert (Hlen : (0 + 2 <= length (fetched run.2))%nat) by (vm_compute; lia).
  split; [split; [exact Hlen | split; reflexivity] |].
  apply (duplicate_page_stops Sample.platform env self 5 ∅ run.1.1 run.1.2 run.2
           0 [Sample.linkA]); [reflexivity | exact Hlen | reflexivity | reflexivity].
Defined.

(** C4. Short-page termination. In a run of the page walk that has navigated
    to a page yielding strictly fewer references than [maxItemsPerPage], the
    walk returns at that page and no further page is fetched, whether the
    duplicate check fires on that page (the page's references are then left
    out) or not (they are appended and the short-page message ends the run). *)
Theorem short_page_stops pf env self fuel fs res fs' tr (k : nat) L :
  walk pf env self fuel (startPage self) [] [] fs = (res, fs', tr) ->
  (k + 1 <= length (fetched tr))%nat ->
  pageResult pf env self (startPage self + Z.of_nat k) = Ret L ->
  (Z.of_nat (length L) < maxItemsPerPage self)%Z ->
  fetched tr = urlsFrom pf self (startPage self) (k + 1)
  /\ ((res = Ret (linksFrom pf env self (startPage self) k)
       /\ last tr = Some (EvLog (LStopDuplicate (startPage self + Z.of_nat k))))
      \/ (res = Ret (linksFrom pf env self (startPage self) (S k))
          /\ last tr = Some (EvLog (LStopShort (maxItemsPerPage self))))).
Proof.
  intros Hrun Hlen HN Hshort.
  destruct (walk_short pf env self k _ _ _ _ _ _ _ _ L Hrun Hlen HN Hshort)
    as (_ & Hf & Hres).
  auto.
Qed.

Lemma short_page_stops_witness :
  let env := Sample.site [[Sample.anchorA; Sample.anchorB]; [Sample.anchorA];
                          [Sample.anchorB]] in
  let self := Sample.fetcher 2 in
  let run := walk Sample.platform env self 5 1 [] [] ∅ in
  ((2 <= length (fetched run.2))%nat
   /\ pageResult Sample.platform env self 2 = Ret [Sample.linkA]
   /\ (Z.of_nat (length [Sample.linkA]) < maxItemsPerPage self)%Z)
  /\ fetched run.2 = urlsFrom Sample.platform self 1 2
  /\ ((run.1.1 = Ret (linksFrom Sample.platform env self 1 1)
       /\ last run.2 = Some (EvLog (LStopDuplicate 2)))
      \/ (run.1.1 = Ret (linksFrom Sample.platform env self 1 2)
          /\ last run.2 = Some (EvLog (LStopShort 2)))).
Proof.
  intros env self run.
  assert (Hlen : (1 + 1 <= length (fetched run.2))%nat) by (vm_compute; lia).
  assert (Hshort : (Z.of_nat (length [Sample.linkA]) < maxItemsPerPage self)%Z)
    by (vm_compute; reflexivity).
  split; [split; [exact Hlen | split; [reflexivity | exact Hshort]] |].
  apply (short_page_stops Sample.platform env self 5 ∅ run.1.1 run.1.2 run.2
           1 [Sample.linkA]); [reflexivity | exact Hlen | reflexivity | exact Hshort].
Defined.

(** The events of every page a walk navigated to are in its trace. *)
Lemma walk_logs_page pf env self k : forall fuel page lastLinks acc fs res fs' tr e,
  walk pf env self fuel page lastLinks acc fs = (res, fs', tr) ->
  (k + 1 <= length (fetched tr))%nat ->
  In e (pageEvents pf env self (page + Z.of_nat k)) ->
  In e tr.
Proof.
  induction k as [| k IH]; intros fuel page lastLinks acc fs res fs' tr e Hrun Hlen He.
  - rewrite Z.add_0_r in He.
    destruct fuel as [| fuel].
    { apply triple_inj in Hrun as (_ & _ & <-). simpl in Hlen. lia. }
    destruct (pageResult_cases pf env self page) as [[links Hp] | Hp].
    + rewrite (walk_turn _ _ _ _ _ _ _ _ _ Hp) in Hrun.
      assert (Hturn : In e (turnEvents pf env self page links)).
      { unfold turnEvents. right. apply in_or_app. left. exact He. }
      destruct (isDuplicatePage lastLinks links);
        [apply triple_inj in Hrun as (_ & _ & <-); apply in_or_app; auto |].
      destruct (Z.of_nat (length links) <? maxItemsPerPage self)%Z;
        [apply triple_inj in Hrun as (_ & _ & <-); apply in_or_app; auto |].
      destruct (walk pf env self fuel (page + 1)%Z links (acc ++ links) fs)
        as [[r f'] t'].
      apply triple_inj in Hrun as (_ & _ & <-). apply in_or_app; auto.
    + rewrite (walk_throw _ _ _ _ _ _ _ _ _ Hp) in Hrun.
      apply triple_inj in Hrun as (_ & _ & <-). right. exact He.
  - destruct fuel as [| fuel].
    { apply triple_inj in Hrun as (_ & _ & <-). simpl in Hlen. lia. }
    destruct (pageResult_cases pf env self page) as [[links Hp] | Hp].
    2: { rewrite (walk_throw _ _ _ _ _ _ _ _ _ Hp) in Hrun.
         apply triple_inj in Hrun as (_ & _ & <-).
         pose proof (fetched_pageEvents_le pf env self page) as Hle.
         change (fetched (?a :: ?l)) with (fetched l) in Hlen. lia. }
    rewrite (walk_turn _ _ _ _ _ _ _ _ _ Hp) in Hrun.
    destruct (isDuplicatePage lastLinks links).
    { apply triple_inj in Hrun as (_ & _ & <-).
      rewrite fetched_app, (fetched_turnEvents _ _ _ _ _ Hp) in Hlen.
      simpl in Hlen. lia. }
    destruct (Z.of_nat (length links) <? maxItemsPerPage self)%Z.
    { apply triple_inj in Hrun as (_ & _ & <-).
      rewrite fetched_app, (fetched_turnEvents _ _ _ _ _ Hp) in Hlen.
      simpl in Hlen. lia. }
    destruct (walk pf env self fuel (page + 1)%Z links (acc ++ links) fs)
      as [[r f'] t'] eqn:Hw.
    apply triple_inj in Hrun as (_ & _ & <-).
    rewrite fetched_app, (fetched_turnEvents _ _ _ _ _ Hp) in Hlen.
    apply in_or_app. right.
    replace (page + Z.of_nat (S k))%Z with (page + 1 + Z.of_nat k)%Z in He by lia.
    eapply IH; [exact Hw | simpl in Hlen; lia | exact He].
Qed.

(** Whatever fails inside the [try] block, the page comes back with the
    links the block had pushed, and the failure is on the console. *)
Lemma try_block_absorbs pf env self page :
  let r := render env page (pageUrlOf pf self page) in
  launches r = true -> closes r = true ->
  pageResult pf env self page = Ret (tryPage pf self r).1
  /\ forall e, (tryPage pf self r).2 = Some e ->
       pageEvents pf env self page
       = [EvGoto (pageUrlOf pf self page);
          EvLog (LPageFailed (pageUrlOf pf self page) e)].
Proof.
  intros r Hl Hc. subst r.
  unfold pageResult, pageEvents, getFileLinksFromPage.
  rewrite Hl, Hc. unfold bind, emit, console, ret. split.
  - destruct (tryPage _ _ _).2; reflexivity.
  - intros e ->. reflexivity.
Qed.

Lemma omap_cons {A B} (f : A -> option B) x l :
  omap f (x :: l) = match f x with Some y => y :: omap f l | None => omap f l end.
Proof. reflexivity. Qed.

(** The loop over the anchors pushes, in order, the references of the anchors
    it gets through. *)
Lemma collectLinks_through pf self links : forall acc,
  (forall a, In a links -> exists u, extractFileUrl pf self (href a) = inr u) ->
  collectLinks pf self links acc = (acc ++ omap (referenceOf pf self) links, None).
Proof.
  induction links as [| link rest IH]; intros acc Hok.
  - cbn. rewrite app_nil_r. reflexivity.
  - destruct (Hok link (or_introl eq_refl)) as [u Hu].
    cbn [collectLinks]. rewrite omap_cons. unfold referenceOf at 1. rewrite Hu.
    assert (Hrest : forall a, In a rest -> exists u, extractFileUrl pf self (href a) = inr u)
      by (intros a Ha; apply Hok; right; exact Ha).
    destruct u as [u |]; [destruct (extractFileNameFromTitle (title link)) as [name |] |].
    + destruct (truthy u && truthy name).
      * rewrite (IH _ Hrest), <- app_assoc. reflexivity.
      * apply IH, Hrest.
    + apply IH, Hrest.
    + rewrite (IH _ Hrest). destruct (extractFileNameFromTitle (title link)); reflexivity.
Qed.

(** It stops at the first anchor whose URL cannot be built, with what it
    had pushed. *)
Lemma collectLinks_stops pf self before bad after e : forall acc,
  (forall a, In a before -> exists u, extractFileUrl pf self (href a) = inr u) ->
  extractFileUrl pf self (href bad) = inl e ->
  collectLinks pf self (before ++ bad :: after) acc
  = (acc ++ omap (referenceOf pf self) before, Some e).
Proof.
  induction before as [| link rest IH]; intros acc Hok Hbad.
  - cbn. rewrite Hbad, app_nil_r. reflexivity.
  - destruct (Hok link (or_introl eq_refl)) as [u Hu].
    cbn [app collectLinks]. rewrite omap_cons. unfold referenceOf at 1. rewrite Hu.
    assert (Hrest : forall a, In a rest -> exists u, extractFileUrl pf self (href a) = inr u)
      by (intros a Ha; apply Hok; right; exact Ha).
    destruct u as [u |]; [destruct (extractFileNameFromTitle (title link)) as [name |] |].
    + destruct (truthy u && truthy name).
      * rewrite (IH _ Hrest Hbad), <- app_assoc. reflexivity.
      * apply IH; assumption.
    + apply IH; assumption.
    + rewrite (IH _ Hrest Hbad). destruct (extractFileNameFromTitle (title link)); reflexivity.
Qed.

(** C9, amended. With the browser launching and closing normally, a fetch or
    extract failure on a listing page does not propagate out of
    [getFileLinksFromPage]: it is logged, and the page contributes the
    references collected before the failure. When building the URL of an
    anchor throws, these are the references of the anchors before it, in
    order; when the fetch itself ([page.goto] or [page.evaluate]) fails,
    there are none. After such a fetch failure, and provided
    [maxItemsPerPage] is positive, a walk that navigated to that page
    returns there, through the duplicate-page or the short-page branch, with
    the references of the pages before it: the page is navigated to once and
    no later page is fetched. *)
Theorem page_failure_is_absorbed pf env self fuel fs res fs' tr (k : nat) :
  let page := (startPage self + Z.of_nat k)%Z in
  let r := render env page (pageUrlOf pf self page) in
  launches r = true -> closes r = true ->
  pageResult pf env self page = Ret (tryPage pf self r).1
  /\ (forall e, (tryPage pf self r).2 = Some e ->
        In (EvLog (LPageFailed (pageUrlOf pf self page) e))
           (pageEvents pf env self page))
  /\ (forall before bad after e,
        anchors r = Some (before ++ bad :: after) ->
        (forall a, In a before -> exists u, extractFileUrl pf self (href a) = inr u) ->
        extractFileUrl pf self (href bad) = inl e ->
        pageResult pf env self page = Ret (omap (referenceOf pf self) before)
        /\ pageEvents pf env self page
           = [EvGoto (pageUrlOf pf self page);
              EvLog (LPageFailed (pageUrlOf pf self page) e)])
  /\ (anchors r = None ->
      pageResult pf env self page = Ret []
      /\ pageEvents pf env self page
         = [EvGoto (pageUrlOf pf self page);
            EvLog (LPageFailed (pageUrlOf pf self page) PageError)]
      /\ ((0 < maxItemsPerPage self)%Z ->
          walk pf env self fuel (startPage self) [] [] fs = (res, fs', tr) ->
          (k + 1 <= length (fetched tr))%nat ->
          res = Ret (linksFrom pf env self (startPage self) k)
          /\ fetched tr = urlsFrom pf self (startPage self) (k + 1)
          /\ In (EvLog (LPageFailed (pageUrlOf pf self page) PageError)) tr
          /\ (last tr = Some (EvLog (LStopDuplicate page))
              \/ last tr = Some (EvLog (LStopShort (maxItemsPerPage self)))))).
Proof.
  intros page r Hl Hc.
  destruct (try_block_absorbs pf env self page Hl Hc) as [Hp Hlog].
  fold r in Hp, Hlog.
  split; [exact Hp |]. split.
  { intros e He. rewrite (Hlog e He). right. left. reflexivity. }
  split.
  { intros before bad after e Ha Hok Hbad.
    assert (Htry : tryPage pf self r = (omap (referenceOf pf self) before, Some e)).
    { unfold tryPage. rewrite Ha.
      apply (collectLinks_stops pf self before bad after e [] Hok Hbad). }
    rewrite Htry in Hp, Hlog. split; [exact Hp | exact (Hlog e eq_refl)]. }
  intros Ha.
  assert (Hnone : tryPage pf self r = ([], Some PageError))
    by (unfold tryPage; rewrite Ha; reflexivity).
  rewrite Hnone in Hp, Hlog. cbn [fst snd] in Hp, Hlog.
  split; [exact Hp |]. split; [exact (Hlog _ eq_refl) |].
  intros Hmax Hrun Hlen.
  destruct (walk_short pf env self k _ _ _ _ _ _ _ _ [] Hrun Hlen Hp
              ltac:(simpl; lia)) as (_ & Hf & Hres).
  assert (Hsame : linksFrom pf env self (startPage self) (S k)
                  = linksFrom pf env self (startPage self) k).
  { rewrite linksFrom_snoc. fold page.
    rewrite (linksOf_ret _ _ _ _ _ Hp), app_nil_r. reflexivity. }
  assert (Hin : In (EvLog (LPageFailed (pageUrlOf pf self page) PageError)) tr).
  { eapply walk_logs_page; [exact Hrun | exact Hlen |].
    fold page. rewrite (Hlog _ eq_refl). right. left. reflexivity. }
  repeat split; try assumption.
  - destruct Hres as [[-> _] | [-> _]]; [| rewrite Hsame]; reflexivity.
  - destruct Hres as [[_ ->] | [_ ->]]; auto.
Qed.

Lemma page_failure_is_absorbed_witness :
  let env := Sample.site [[Sample.anchorA; Sample.anchorBad; Sample.anchorB]] in
  let self := Sample.fetcher 1 in
  let run := walk Sample.platform env self 5 1 [] [] ∅ in
  (anchors (render env 1 (pageUrlOf Sample.platform self 1))
   = Some ([Sample.anchorA] ++ Sample.anchorBad :: [Sample.anchorB])
   /\ extractFileUrl Sample.platform self (href Sample.anchorBad) = inl TypeError
   /\ anchors (render env 2 (pageUrlOf Sample.platform self 2)) = None
   /\ (0 < maxItemsPerPage self)%Z
   /\ (2 <= length (fetched run.2))%nat)
  /\ pageResult Sample.platform env self 1 = Ret [Sample.linkA]
  /\ pageResult Sample.platform env self 2 = Ret []
  /\ run.1.1 = Ret [Sample.linkA]
  /\ fetched run.2 = urlsFrom Sample.platform self 1 2.
Proof.
  intros env self run.
  assert (Hone : anchors (render env 1 (pageUrlOf Sample.platform self 1))
                 = Some ([Sample.anchorA] ++ Sample.anchorBad :: [Sample.anchorB]))
    by reflexivity.
  assert (Hbad : extractFileUrl Sample.platform self (href Sample.anchorBad) = inl TypeError)
    by reflexivity.
  assert (Ha : anchors (render env 2 (pageUrlOf Sample.platform self 2)) = None)
    by reflexivity.
  assert (Hmax : (0 < maxItemsPerPage self)%Z) by reflexivity.
  assert (Hlen : (1 + 1 <= length (fetched run.2))%nat) by (vm_compute; lia).
  split; [repeat split; assumption |].
  destruct (page_failure_is_absorbed Sample.platform env self 5 ∅
              run.1.1 run.1.2 run.2 0 eq_refl eq_refl) as (_ & _ & Hextract & _).
  destruct (Hextract [Sample.anchorA] Sample.anchorBad [Sample.anchorB] TypeError Hone)
    as [Hfirst _]; [| exact Hbad |].
  { intros a [<- | []]. eexists. reflexivity. }
  destruct (page_failure_is_absorbed Sample.platform env self 5 ∅
              run.1.1 run.1.2 run.2 1 eq_refl eq_refl) as (_ & _ & _ & Hfetch).
  destruct (Hfetch Ha) as (Hp & _ & Hwalk).
  destruct (Hwalk Hmax eq_refl Hlen) as (Hres & Hf & _).
  split; [exact Hfirst |]. split; [exact Hp |]. split; [exact Hres | exact Hf].
Defined.

(** C9 as stated fails in two ways. An extraction failure in the middle of a
    page leaves the references pushed before it: page 1 below has three
    anchors, the second one makes [new URL] throw, and the page contributes
    the first reference; with [maxItemsPerPage = 1] the walk goes on to
    page 2. And with [maxItemsPerPage = 0] the short-page rule never fires:
    page 2 fails to load after a non-empty page 1, and the walk goes on to
    page 3. *)
Lemma page_failure_counterexample :
  (let env := Sample.site [[Sample.anchorA; Sample.anchorBad; Sample.anchorB];
                           [Sample.anchorA]] in
   let self := Sample.fetcher 1 in
   (tryPage Sample.platform self
      (render env 1 (pageUrlOf Sample.platform self 1))).2 = Some TypeError
   /\ pageResult Sample.platform env self 1 = Ret [Sample.linkA]
   /\ fetched (walk Sample.platform env self 5 1 [] [] ∅).2
      = urlsFrom Sample.platform self 1 2)
  /\ (let env := Sample.site [[Sample.anchorA]] in
      let self := Sample.fetcher 0 in
      anchors (render env 2 (pageUrlOf Sample.platform self 2)) = None
      /\ pageResult Sample.platform env self 2 = Ret []
      /\ fetched (walk Sample.platform env self 5 1 [] [] ∅).2
         = urlsFrom Sample.platform self 1 3).
Proof. vm_compute. repeat split; reflexivity. Qed.

(** Nothing a save logs is a stop message of the loop. *)
Lemma save_events pf env self links fs r fs' ts :
  saveFileLinksToJson pf env self links fs = (r, fs', ts) ->
  fetched ts = []
  /\ forall e, In e ts ->
       e = EvMkdir (path_dirname pf (outputFilePath self))
       \/ e = EvLog (LFolderCreated (path_dirname pf (outputFilePath self)))
       \/ e = EvWriteFile (outputFilePath self)
       \/ e = EvLog (LSaved (outputFilePath self)).
Proof.
  unfold saveFileLinksToJson, bind, existsSync, mkdirSync,
    writeFileSync, console, emit, ret.
  set (dir := path_dirname pf (outputFilePath self)).
  destruct (bool_decide (is_Some (fs !! dir))).
  - destruct (Fs.can_write fs (outputFilePath self));
      destruct (writable env (outputFilePath self));
      intros H; apply triple_inj in H as (_ & _ & <-);
      (split; [reflexivity |]); simpl; intros e He; intuition.
  - destruct (Fs.can_make fs dir); destruct (writable env dir); cbn [andb];
      try (intros H; apply triple_inj in H as (_ & _ & <-);
           split; [reflexivity |]; simpl; intuition).
    destruct (Fs.can_write (<[dir:=Dir]> fs) (outputFilePath self));
      destruct (writable env (outputFilePath self));
      intros H; apply triple_inj in H as (_ & _ & <-);
      (split; [reflexivity |]); simpl; intros e He; intuition.
Qed.

Lemma pageEvents_cases pf env self page e :
  In e (pageEvents pf env self page) ->
  e = EvGoto (pageUrlOf pf self page)
  \/ exists err, e = EvLog (LPageFailed (pageUrlOf pf self page) err).
Proof.
  unfold pageEvents, getFileLinksFromPage.
  destruct (launches _); [| intros []].
  unfold bind, emit, console, ret, throw.
  destruct (tryPage _ _ _).2; destruct (closes _); simpl; intuition eauto.
Qed.

(** C10. If the first page yields the empty list and the checkpoint is not
    reused, the duplicate check fires on that first page (the previous list
    starts empty): the walk stops through the duplicate-page branch, not the
    short-page one, navigates to no second page, returns the empty list, and
    the save - when it succeeds - leaves the empty checkpoint, an opening
    bracket, two line feeds and a closing bracket. *)
Theorem empty_first_page pf env self fuel answer fs fs' ts :
  pageResult pf env self (startPage self) = Ret [] ->
  fs !! outputFilePath self = None \/ confirms answer = false ->
  saveFileLinksToJson pf env self [] fs = (Ret tt, fs', ts) ->
  let run := fetchAllFileLinks pf env self (S fuel) answer fs in
  run.1.1 = Ret (FromWalk [])
  /\ run.1.2 = fs'
  /\ fs' !! outputFilePath self = Some (File [91; 10; 10; 93])
  /\ fetched run.2 = [pageUrlOf pf self (startPage self)]
  /\ In (EvLog (LStopDuplicate (startPage self))) run.2
  /\ ~ In (EvLog (LStopShort (maxItemsPerPage self))) run.2.
Proof.
  intros Hp Hfresh Hsave run.
  assert (Hwalk : walk pf env self (S fuel) (startPage self) [] [] fs
                  = (Ret [], fs, turnEvents pf env self (startPage self) []
                                   ++ [EvLog (LStopDuplicate (startPage self))])).
  { rewrite (walk_turn _ _ _ _ _ _ _ _ _ Hp). reflexivity. }
  assert (Hws : walkAndSave pf env self (S fuel) fs
                = (Ret (FromWalk []), fs',
                   (turnEvents pf env self (startPage self) []
                      ++ [EvLog (LStopDuplicate (startPage self))])
                   ++ EvLog (LFileLinks []) :: ts)).
  { rewrite (walkAndSave_ret _ _ _ _ _ _ _ Hwalk), Hsave. reflexivity. }
  destruct (save_ok _ _ _ _ _ _ _ Hsave) as [Hfile Hts].
  destruct (save_events _ _ _ _ _ _ _ _ Hsave) as [_ Hkinds].
  assert (Hturn : fetched (turnEvents pf env self (startPage self) [])
                  = [pageUrlOf pf self (startPage self)])
    by (apply fetched_turnEvents; exact Hp).
  assert (Hno : forall pre,
            (forall e, In e pre -> e <> EvLog (LStopShort (maxItemsPerPage self))) ->
            ~ In (EvLog (LStopShort (maxItemsPerPage self)))
                (pre ++ (turnEvents pf env self (startPage self) []
                           ++ [EvLog (LStopDuplicate (startPage self))])
                        ++ EvLog (LFileLinks []) :: ts)).
  { intros pre Hpre Hin. rewrite !in_app_iff in Hin.
    destruct Hin as [Hin | [[Hin | Hin] | Hin]].
    - exact (Hpre _ Hin eq_refl).
    - unfold turnEvents in Hin. destruct Hin as [Hin | Hin]; [discriminate |].
      apply in_app_iff in Hin as [Hin | [Hin | []]]; [| discriminate].
      apply pageEvents_cases in Hin as [Hin | [err Hin]]; discriminate.
    - destruct Hin as [Hin | []]. discriminate.
    - destruct Hin as [Hin | Hin]; [discriminate |].
      apply Hkinds in Hin as [Hin | [Hin | [Hin | Hin]]]; discriminate. }
  subst run.
  destruct (fs !! outputFilePath self) as [node |] eqn:Hout.
  - destruct Hfresh as [Hfresh | Hno']; [discriminate |].
    rewrite (fetchAll_declined pf env self _ _ _ ltac:(rewrite Hout; eauto) Hno'), Hws.
    cbn [fst snd]. repeat split; try assumption.
    + change (fetched (?a :: ?b :: ?c :: ?l)) with (fetched l).
      rewrite !fetched_app, Hturn.
      change (fetched (EvLog ?l :: ?t)) with (fetched t).
      rewrite Hts. reflexivity.
    + do 3 right. apply in_or_app. left. apply in_or_app. right. left. reflexivity.
    + apply (Hno [_; _; _]). intros e [<- | [<- | [<- | []]]]; discriminate.
  - rewrite (fetchAll_fresh pf env self _ _ _ Hout), Hws.
    cbn [fst snd]. repeat split; try assumption.
    + rewrite !fetched_app, Hturn.
      change (fetched (EvLog ?l :: ?t)) with (fetched t).
      rewrite Hts. reflexivity.
    + apply in_or_app. left. apply in_or_app. right. left. reflexivity.
    + apply (Hno []). intros e [].
Qed.

Lemma empty_first_page_witness :
  let env := Sample.site [] in
  let self := Sample.fetcher 80 in
  let run := fetchAllFileLinks Sample.platform env self 1 [] ∅ in
  pageResult Sample.platform env self 1 = Ret []
  /\ run.1.1 = Ret (FromWalk [])
  /\ run.1.2 !! outputFilePath self = Some (File [91; 10; 10; 93])
  /\ fetched run.2 = [pageUrlOf Sample.platform self 1]
  /\ In (EvLog (LStopDuplicate 1)) run.2
  /\ ~ In (EvLog (LStopShort 80)) run.2.
Proof.
  intros env self run.
  assert (Hp : pageResult Sample.platform env self (startPage self) = Ret [])
    by reflexivity.
  pose (saved := saveFileLinksToJson Sample.platform env self [] ∅).
  assert (Hsave : saveFileLinksToJson Sample.platform env self [] ∅
                  = (Ret tt, saved.1.2, saved.2)) by (vm_compute; reflexivity).
  destruct (empty_first_page Sample.platform env self 0 [] ∅ saved.1.2 saved.2
              Hp ltac:(left; vm_compute; reflexivity) Hsave) as (H1 & H2 & H3 & H4 & H5 & H6).
  fold run in H1, H2, H4, H5, H6.
  repeat split; assumption.
Defined.

(** C3. With a checkpoint file at the derived path: when the operator
    confirms, [fetchAllFileLinks] returns the parsed contents of the file (an
    array, as the checkpoint format has it) as they are, with no page fetched
    and the file system untouched; when the operator declines, the page walk
    runs as it would without a checkpoint and, once it returns its list, the
    checkpoint is overwritten with that list. *)
Theorem checkpoint_reuse_or_refresh pf env self fuel answer fs text :
  fs !! outputFilePath self = Some (File text) ->
  (confirms answer = true ->
   forall items, Json.parse text = Some (Json.JArray items) ->
     fetchAllFileLinks pf env self fuel answer fs
     = (Ret (FromCheckpoint (Json.JArray items)), fs,
        [EvLog (LExisting (outputFilePath self)); EvPrompt reuseMessage;
         EvLog (LLoaded (Some (length items)) (outputFilePath self))]))
  /\ (confirms answer = false ->
      forall links fs1 tw,
        walk pf env self fuel (startPage self) [] [] fs = (Ret links, fs1, tw) ->
        is_Some (fs !! path_dirname pf (outputFilePath self)) ->
        writable env (outputFilePath self) = true ->
        fetchAllFileLinks pf env self fuel answer fs
        = (Ret (FromWalk links),
           <[outputFilePath self := File (jsonLines links)]> fs,
           EvLog (LExisting (outputFilePath self)) :: EvPrompt reuseMessage
             :: EvLog LFetchingNew
             :: tw ++ [EvLog (LFileLinks links);
                       EvWriteFile (outputFilePath self);
                       EvLog (LSaved (outputFilePath self))])).
Proof.
  intros Hfile. split.
  - intros Hyes items Hparse.
    apply (fetchAll_reused pf env self fuel answer fs text _ _ Hfile Hyes Hparse).
    reflexivity.
  - intros Hno links fs1 tw Hwalk Hdir Hw.
    pose proof (walk_fs _ _ _ _ _ _ _ _ _ _ _ Hwalk) as ->.
    rewrite (fetchAll_declined pf env self _ _ _ ltac:(rewrite Hfile; eauto) Hno).
    rewrite (walkAndSave_ret _ _ _ _ _ _ _ Hwalk).
    rewrite (save_over _ _ _ _ _ _ Hfile Hdir Hw). reflexivity.
Qed.

Lemma checkpoint_reuse_or_refresh_witness :
  let env := Sample.site [[Sample.anchorA]; [Sample.anchorA]] in
  let self := Sample.fetcher 1 in
  let fs : FS :=
    <[outputFilePath self := File (jsonLines [Sample.linkB])]>
      (<[js "./downloads" := Dir]> ∅) in
  (fetchAllFileLinks Sample.platform env self 0 (js "y") fs).1
  = (Ret (FromCheckpoint (Json.JArray [Json.of_FileLink Sample.linkB])), fs)
  /\ (fetchAllFileLinks Sample.platform env self 5 (js "n") fs).1
     = (Ret (FromWalk [Sample.linkA]),
        <[outputFilePath self := File (jsonLines [Sample.linkA])]> fs).
Proof.
  intros env self fs.
  assert (Hfile : fs !! outputFilePath self = Some (File (jsonLines [Sample.linkB])))
    by (vm_compute; reflexivity).
  destruct (checkpoint_reuse_or_refresh Sample.platform env self 0 (js "y") fs _ Hfile)
    as [Hyes _].
  destruct (checkpoint_reuse_or_refresh Sample.platform env self 5 (js "n") fs _ Hfile)
    as [_ Hno].
  split.
  - rewrite (Hyes eq_refl [Json.of_FileLink Sample.linkB]
               ltac:(vm_compute; reflexivity)).
    reflexivity.
  - pose (w := walk Sample.platform env self 5 (startPage self) [] [] fs).
    rewrite (Hno eq_refl [Sample.linkA] w.1.2 w.2
               ltac:(vm_compute; reflexivity)
               ltac:(vm_compute; eauto)
               eq_refl).
    reflexivity.
Defined.

(** C8. Checkpoint round trip. Whatever list [saveFileLinksToJson] writes,
    the empty one included, the text it leaves at the checkpoint path parses
    as JSON to an array whose elements carry the same urls and filenames in
    the same order; a later run that reuses the checkpoint gets that array. *)
Theorem checkpoint_round_trip pf env self links fs fs' ts :
  saveFileLinksToJson pf env self links fs = (Ret tt, fs', ts) ->
  exists text v,
    fs' !! outputFilePath self = Some (File text)
    /\ Json.parse text = Some v
    /\ Json.as_FileLinks v = Some links
    /\ forall fuel answer, confirms answer = true ->
         (fetchAllFileLinks pf env self fuel answer fs').1.1
         = Ret (FromCheckpoint v).
Proof.
  intros Hsave. destruct (save_ok _ _ _ _ _ _ _ Hsave) as [Hfile _].
  exists (jsonLines links), (Json.JArray (map Json.of_FileLink links)).
  split; [exact Hfile |].
  split; [apply JsonFacts.parse_jsonLines |].
  split; [apply JsonFacts.as_FileLinks_of |].
  intros fuel answer Hyes.
  rewrite (fetchAll_reused pf env self fuel answer fs' _ _ _ Hfile Hyes
             (JsonFacts.parse_jsonLines links) eq_refl).
  reflexivity.
Qed.

Lemma checkpoint_round_trip_witness :
  let env := Sample.site [] in
  let self := Sample.fetcher 1 in
  let saved := saveFileLinksToJson Sample.platform env self
                 [Sample.linkA; Sample.linkB] ∅ in
  saved.1.1 = Ret tt
  /\ exists text v,
       saved.1.2 !! outputFilePath self = Some (File text)
       /\ Json.parse text = Some v
       /\ Json.as_FileLinks v = Some [Sample.linkA; Sample.linkB]
       /\ forall fuel answer, confirms answer = true ->
            (fetchAllFileLinks Sample.platform env self fuel answer saved.1.2).1.1
            = Ret (FromCheckpoint v).
Proof.
  intros env self saved. split; [reflexivity |].
  apply (checkpoint_round_trip Sample.platform env self
           [Sample.linkA; Sample.linkB] ∅ saved.1.2 saved.2).
  vm_compute. reflexivity.
Defined.

End FetcherFacts.

(** ** Downloads *)

Module DownloaderFacts.
Import FileDownloader.
Import FetcherFacts.

Section DownloadFacts.
Context (pf : Platform) (env : Env) (self : Downloader).

#[local] Abbreviation downloadFile := (downloadFile pf env self).
#[local] Abbreviation downloadLoop := (downloadLoop pf env self).
#[local] Abbreviation downloadAllFiles := (downloadAllFiles pf env self).
#[local] Abbreviation confirmAndDownloadFiles := (confirmAndDownloadFiles pf env self).
#[local] Abbreviation pathOf fileLink :=
  (path_join pf (folderPath self) (filename fileLink)).

Ltac run_download :=
  unfold FileDownloader.downloadFile, axios_get, checkExisting;
  unfold try_catch, bind, existsSync, statSync_size, unlinkSync, streamToFile,
    console, emit, ret, throw.

(** The server rejects: logged and re-raised. *)
Lemma downloadFile_rejects l fs :
  remote env (url l) = Rejects ->
  downloadFile l fs
  = (Throw (NetworkError (url l)), fs,
     [EvGet (url l); EvLog (LFailed (url l) (NetworkError (url l)))]).
Proof. intros H. run_download. rewrite H. reflexivity. Qed.

(** Nothing at the destination yet: the body is written when the directory
    of the destination is there and the write is allowed. *)
Lemma downloadFile_fresh l fs h body :
  remote env (url l) = Responds h body ->
  fs !! pathOf l = None ->
  downloadFile l fs
  = if Fs.can_write fs (pathOf l) && writable env (pathOf l) then
      (Ret true, <[pathOf l := File body]> fs,
       [EvGet (url l); EvStream (pathOf l); EvLog LDownloaded])
    else
      (Throw (IOError (pathOf l)), fs,
       [EvGet (url l); EvLog (LFailed (url l) (IOError (pathOf l)))]).
Proof.
  intros H Hnone. run_download. rewrite H. cbv beta iota. cbn [app fst snd].
  rewrite bool_decide_eq_false_2 by (rewrite Hnone; apply is_Some_None).
  destruct (Fs.can_write fs (pathOf l) && writable env (pathOf l)); reflexivity.
Qed.

(** A file is there and the size cannot be checked. *)
Lemma downloadFile_unverifiable l fs h body data :
  remote env (url l) = Responds h body ->
  fs !! pathOf l = Some (File data) ->
  tempFileSize_of h = None ->
  downloadFile l fs = (Ret false, fs, [EvGet (url l); EvLog LSkipUnverifiable]).
Proof.
  intros H Hfile Hnull. run_download. rewrite H. cbv beta iota. cbn [app fst snd].
  rewrite bool_decide_eq_true_2 by (rewrite Hfile; eauto).
  rewrite Hfile, Hnull. reflexivity.
Qed.

(** A file is there and has the announced size. *)
Lemma downloadFile_same_size l fs h body data :
  remote env (url l) = Responds h body ->
  fs !! pathOf l = Some (File data) ->
  tempFileSize_of h = Some (Some (Z.of_nat (length data))) ->
  downloadFile l fs
  = (Ret false, fs,
     [EvGet (url l);
      EvLog (LSizes (Z.of_nat (length data)) (Some (Z.of_nat (length data))));
      EvLog LSkipSameSize]).
Proof.
  intros H Hfile Hsize. run_download. rewrite H. cbv beta iota. cbn [app fst snd].
  rewrite bool_decide_eq_true_2 by (rewrite Hfile; eauto).
  rewrite Hfile, Hsize. cbn [same_size]. rewrite Z.eqb_refl. reflexivity.
Qed.

(** A file is there and has another size, or the header is not a number. *)
Lemma downloadFile_replace l fs h body data t :
  remote env (url l) = Responds h body ->
  fs !! pathOf l = Some (File data) ->
  tempFileSize_of h = Some t ->
  t <> Some (Z.of_nat (length data)) ->
  writable env (pathOf l) = true ->
  downloadFile l fs
  = (Ret true, <[pathOf l := File body]> fs,
     [EvGet (url l); EvLog (LSizes (Z.of_nat (length data)) t);
      EvLog LReplacing; EvUnlink (pathOf l); EvStream (pathOf l);
      EvLog LDownloaded]).
Proof.
  intros H Hfile Hsize Hne Hw. run_download. rewrite H. cbv beta iota. cbn [app fst snd].
  rewrite bool_decide_eq_true_2 by (rewrite Hfile; eauto).
  rewrite Hfile, Hsize.
  assert (Hdiff : same_size (Z.of_nat (length data)) t = false).
  { destruct t as [z |]; [| reflexivity]. cbn [same_size].
    apply Z.eqb_neq. congruence. }
  repeat first [rewrite Hdiff | rewrite Hw | rewrite Hfile
               | rewrite (FsFacts.can_write_removed _ _ _ Hfile)
               | progress cbv beta iota | progress cbn [andb]].
  cbn [app]. rewrite (FsFacts.insert_removed _ _ _ _ Hfile). reflexivity.
Qed.


#[local] Abbreviation ensureFolder := (ensureFolder env self).

Lemma outcomes_app t1 t2 : outcomes (t1 ++ t2) = outcomes t1 ++ outcomes t2.
Proof. apply omap_app. Qed.

Lemma requested_app t1 t2 : requested (t1 ++ t2) = requested t1 ++ requested t2.
Proof. apply omap_app. Qed.

Lemma streamed_app t1 t2 : streamed (t1 ++ t2) = streamed t1 ++ streamed t2.
Proof. apply omap_app. Qed.

(** Every call asks the server once and ends in exactly one outcome; a skip
    leaves the file system as it was, and what is thrown was logged last. *)
Lemma downloadFile_shape l fs r fs' t :
  downloadFile l fs = (r, fs', t) ->
  requested t = [url l]
  /\ match r with
     | Ret true => outcomes t = [downloaded]
     | Ret false => outcomes t = [skipped] /\ streamed t = [] /\ fs' = fs
     | Throw e => outcomes t = [failed] /\ last t = Some (EvLog (LFailed (url l) e))
     | Starved => False
     end.
Proof.
  run_download. destruct (remote env (url l)) as [| h body]; cbv beta iota.
  { intros H. apply triple_inj in H as (<- & <- & <-). auto. }
  cbn [app fst snd].
  destruct (fs !! pathOf l) as [[data |] |] eqn:Hnode.
  - rewrite bool_decide_eq_true_2 by eauto. rewrite ?Hnode. cbv beta iota.
    destruct (tempFileSize_of h) as [tmp |]; cbv beta iota.
    2: { intros H. apply triple_inj in H as (<- & <- & <-). auto. }
    destruct (same_size (Z.of_nat (length data)) tmp); cbv beta iota.
    { intros H. apply triple_inj in H as (<- & <- & <-). auto. }
    rewrite Hnode. cbv beta iota.
    destruct (writable env (pathOf l)) eqn:Hw; cbv beta iota.
    2: { intros H. apply triple_inj in H as (<- & <- & <-). auto. }
    rewrite (FsFacts.can_write_removed _ _ _ Hnode). cbv beta iota. cbn [andb].
    intros H. apply triple_inj in H as (<- & <- & <-). auto.
  - rewrite bool_decide_eq_true_2 by eauto. rewrite ?Hnode. cbv beta iota.
    destruct (tempFileSize_of h) as [tmp |]; cbv beta iota.
    2: { intros H. apply triple_inj in H as (<- & <- & <-). auto. }
    destruct (same_size (dir_size env (pathOf l)) tmp); cbv beta iota.
    { intros H. apply triple_inj in H as (<- & <- & <-). auto. }
    rewrite Hnode. cbv beta iota.
    intros H. apply triple_inj in H as (<- & <- & <-). auto.
  - rewrite bool_decide_eq_false_2 by apply is_Some_None.
    cbv beta iota.
    destruct (Fs.can_write fs (pathOf l) && writable env (pathOf l)); cbv beta iota;
      intros H; apply triple_inj in H as (<- & <- & <-); auto.
Qed.

(** One turn of the [for] loop. *)
Lemma downloadLoop_cons i l rest fs :
  downloadLoop i (l :: rest) fs =
    match downloadFile l fs with
    | (Ret d, fs1, t1) =>
        let '(r, fs2, t2) := downloadLoop (S i) rest fs1 in
        (r, fs2,
         EvLog (LStarting (i + 1) (filename l)) :: t1
           ++ (if d then [EvDelay (getRandomDelay env self i)] else []) ++ t2)
    | (Throw e, fs1, t1) => (Throw e, fs1, EvLog (LStarting (i + 1) (filename l)) :: t1)
    | (Starved, fs1, t1) => (Starved, fs1, EvLog (LStarting (i + 1) (filename l)) :: t1)
    end.
Proof.
  cbn [FileDownloader.downloadLoop]. unfold bind at 1. unfold console at 1, emit at 1.
  unfold bind at 1.
  destruct (downloadFile l fs) as [[[d | e |] fs1] t1]; try reflexivity.
  destruct d; unfold bind, delay, emit, ret;
    destruct (downloadLoop (S i) rest fs1) as [[r fs2] t2]; reflexivity.
Qed.

Lemma ensureFolder_quiet fs r fs' t :
  ensureFolder fs = (r, fs', t) ->
  outcomes t = [] /\ requested t = [] /\ streamed t = [].
Proof.
  unfold FileDownloader.ensureFolder, bind, existsSync, mkdirSync, console, emit, ret.
  destruct (bool_decide _);
    [| destruct (Fs.can_make fs (folderPath self) && writable env (folderPath self))];
    intros H; apply triple_inj in H as (_ & _ & <-); auto.
Qed.

Lemma ensureFolder_present fs :
  is_Some (fs !! folderPath self) -> ensureFolder fs = (Ret tt, fs, []).
Proof.
  intros H. unfold FileDownloader.ensureFolder, bind, existsSync, ret.
  rewrite bool_decide_eq_true_2 by exact H. reflexivity.
Qed.

Lemma downloadAllFiles_run links fs :
  downloadAllFiles links fs =
    match ensureFolder fs with
    | (Ret _, fs0, t0) =>
        match downloadLoop 0 links fs0 with
        | (Ret _, fs1, t1) => (Ret tt, fs1, t0 ++ t1 ++ [EvLog LAllDownloaded])
        | (Throw e, fs1, t1) => (Throw e, fs1, t0 ++ t1)
        | (Starved, fs1, t1) => (Starved, fs1, t0 ++ t1)
        end
    | (Throw e, fs0, t0) => (Throw e, fs0, t0)
    | (Starved, fs0, t0) => (Starved, fs0, t0)
    end.
Proof.
  unfold FileDownloader.downloadAllFiles. unfold bind at 1.
  destruct (ensureFolder fs) as [[[[] | e |] fs0] t0]; try reflexivity.
  unfold bind, console, emit.
  destruct (downloadLoop 0 links fs0) as [[[[] | e |] fs1] t1]; reflexivity.
Qed.

Lemma confirm_run links answer fs :
  confirmAndDownloadFiles links answer fs =
    if confirms answer then
      match downloadAllFiles links fs with
      | (Ret _, fs', tr) =>
          (Ret tt, fs', EvPrompt (confirmMessage links) :: tr ++ [EvLog LAllComplete])
      | (Throw e, fs', tr) =>
          (Ret tt, fs', EvPrompt (confirmMessage links) :: tr ++ [EvLog (LErrorDuring e)])
      | (Starved, fs', tr) => (Starved, fs', EvPrompt (confirmMessage links) :: tr)
      end
    else (Ret tt, fs, [EvPrompt (confirmMessage links); EvLog LCancelled]).
Proof.
  unfold FileDownloader.confirmAndDownloadFiles, askUserConfirmation.
  unfold bind at 1. unfold bind at 1. unfold emit at 1, ret at 1.
  cbv beta iota. cbn [app].
  destruct (confirms answer); [| reflexivity].
  unfold try_catch. unfold bind at 1.
  destruct (downloadAllFiles links fs) as [[[[] | e |] fs'] tr]; reflexivity.
Qed.

(** The loop never starves: it has no fuel to run out of. *)
Lemma downloadLoop_total links : forall i fs,
  (downloadLoop i links fs).1.1 <> Starved.
Proof.
  induction links as [| l rest IH]; intros i fs; [discriminate |].
  rewrite downloadLoop_cons.
  destruct (downloadFile l fs) as [[[d | e |] fs1] t1] eqn:Hd.
  - specialize (IH (S i) fs1).
    destruct (downloadLoop (S i) rest fs1) as [[r fs2] t2]. exact IH.
  - discriminate.
  - apply downloadFile_shape in Hd as [_ []].
Qed.

End DownloadFacts.

(** C5. For a reference whose destination already holds a file: when the
    announced content length equals the size on disk the file is skipped and
    nothing changes; when it differs (or is not a number) the file is
    unlinked and the response body is streamed to the same path; when no
    content length is available the file is skipped and left as it is. *)
Theorem existing_file_policy pf env self l fs data h body :
  let filePath := path_join pf (folderPath self) (filename l) in
  let size := Z.of_nat (length data) in
  fs !! filePath = Some (File data) ->
  remote env (url l) = Responds h body ->
  (tempFileSize_of h = Some (Some size) ->
   downloadFile pf env self l fs
   = (Ret false, fs,
      [EvGet (url l); EvLog (LSizes size (Some size)); EvLog LSkipSameSize]))
  /\ (forall tempFileSize,
        tempFileSize_of h = Some tempFileSize ->
        tempFileSize <> Some size ->
        writable env filePath = true ->
        downloadFile pf env self l fs
        = (Ret true, <[filePath := File body]> fs,
           [EvGet (url l); EvLog (LSizes size tempFileSize); EvLog LReplacing;
            EvUnlink filePath; EvStream filePath; EvLog LDownloaded]))
  /\ (tempFileSize_of h = None ->
      downloadFile pf env self l fs
      = (Ret false, fs, [EvGet (url l); EvLog LSkipUnverifiable])).
Proof.
  intros filePath size Hfile Hresp. repeat split.
  - intros Hsame. eapply downloadFile_same_size; eassumption.
  - intros tempFileSize Htemp Hdiff Hw. eapply downloadFile_replace; eassumption.
  - intros Hnull. eapply downloadFile_unverifiable; eassumption.
Qed.

Lemma existing_file_policy_witness :
  let self := Sample.downloader in
  let filePath := js "./downloads/src-cat/a.pdf" in
  let old := js "0123456789" in
  let fs : FS := <[filePath := File old]> ∅ in
  let serving h := Sample.server [(url Sample.linkA, Responds h (js "new body"))] [] in
  downloadFile Sample.platform (serving (Some (js "10"))) self Sample.linkA fs
  = (Ret false, fs,
     [EvGet (url Sample.linkA); EvLog (LSizes 10 (Some 10%Z)); EvLog LSkipSameSize])
  /\ downloadFile Sample.platform (serving (Some (js "8"))) self Sample.linkA fs
     = (Ret true, <[filePath := File (js "new body")]> fs,
        [EvGet (url Sample.linkA); EvLog (LSizes 10 (Some 8%Z)); EvLog LReplacing;
         EvUnlink filePath; EvStream filePath; EvLog LDownloaded])
  /\ downloadFile Sample.platform (serving None) self Sample.linkA fs
     = (Ret false, fs, [EvGet (url Sample.linkA); EvLog LSkipUnverifiable]).
Proof.
  intros self filePath old fs serving.
  assert (Hfile : fs !! path_join Sample.platform (folderPath self)
                          (filename Sample.linkA) = Some (File old))
    by (vm_compute; reflexivity).
  split; [| split].
  - apply (existing_file_policy Sample.platform (serving (Some (js "10"))) self
             Sample.linkA fs old (Some (js "10")) (js "new body") Hfile eq_refl).
    reflexivity.
  - apply (existing_file_policy Sample.platform (serving (Some (js "8"))) self
             Sample.linkA fs old (Some (js "8")) (js "new body") Hfile eq_refl).
    + reflexivity.
    + discriminate.
    + reflexivity.
  - apply (existing_file_policy Sample.platform (serving None) self
             Sample.linkA fs old None (js "new body") Hfile eq_refl).
    reflexivity.
Defined.

Lemma downloadLoop_skips pf env self fs links : forall i,
  Forall (alreadyThere pf env self fs) links ->
  exists tr,
    downloadLoop pf env self i links fs = (Ret tt, fs, tr)
    /\ outcomes tr = replicate (length links) skipped
    /\ streamed tr = []
    /\ requested tr = map url links.
Proof.
  induction links as [| l rest IH]; intros i Hall.
  - exists []. repeat split; reflexivity.
  - apply Forall_cons in Hall as [(h & body & data & Hresp & Hh & Hint & Hfile) Hrest].
    destruct (IH (S i) Hrest) as (tr & Hrun & Hout & Hstr & Hreq).
    assert (Htemp : tempFileSize_of (Some h) = Some (Some (Z.of_nat (length data))))
      by (cbn [tempFileSize_of]; rewrite Hh, Hint; reflexivity).
    eexists. rewrite downloadLoop_cons.
    rewrite (downloadFile_same_size pf env self l fs _ _ _ Hresp Hfile Htemp), Hrun.
    split; [reflexivity |]. cbn [app].
    change (outcomes (?a :: ?b :: ?c :: ?d :: ?t)) with (skipped :: outcomes t).
    change (streamed (?a :: ?b :: ?c :: ?d :: ?t)) with (streamed t).
    change (requested (?a :: ?b :: ?c :: ?d :: ?t)) with (url l :: requested t).
    rewrite Hout, Hstr, Hreq. repeat split; reflexivity.
Qed.

(** C2. Idempotent download. With the operator confirming, a target folder
    that exists, and for every reference a file at its destination whose size
    is the announced content length: every outcome is [skipped], no response
    body is streamed to disk, and the file system is left exactly as it was.
    Each reference still costs one request, for its headers. *)
Theorem idempotent_download pf env self links answer fs :
  confirms answer = true ->
  is_Some (fs !! folderPath self) ->
  Forall (alreadyThere pf env self fs) links ->
  let run := confirmAndDownloadFiles pf env self links answer fs in
  run.1.1 = Ret tt
  /\ run.1.2 = fs
  /\ outcomes run.2 = replicate (length links) skipped
  /\ streamed run.2 = []
  /\ requested run.2 = map url links.
Proof.
  intros Hyes Hfolder Hall run. subst run.
  destruct (downloadLoop_skips pf env self fs links 0 Hall)
    as (tr & Hrun & Hout & Hstr & Hreq).
  rewrite confirm_run, Hyes, downloadAllFiles_run.
  rewrite (ensureFolder_present _ _ _ Hfolder), Hrun. cbn [fst snd app].
  change (outcomes (EvPrompt ?m :: ?t)) with (outcomes t).
  change (streamed (EvPrompt ?m :: ?t)) with (streamed t).
  change (requested (EvPrompt ?m :: ?t)) with (requested t).
  rewrite !outcomes_app, !streamed_app, !requested_app, Hout, Hstr, Hreq.
  cbn. rewrite !app_nil_r. repeat split; reflexivity.
Qed.

Lemma idempotent_download_witness :
  let self := Sample.downloader in
  let env := Sample.server
               [(url Sample.linkA, Responds (Some (js "3")) (js "abc"));
                (url Sample.linkB, Responds (Some (js "0")) [])] [] in
  let fs : FS :=
    <[js "./downloads/src-cat/b.pdf" := File []]>
      (<[js "./downloads/src-cat/a.pdf" := File (js "xyz")]>
         (<[js "./downloads/src-cat" := Dir]> ∅)) in
  let run := confirmAndDownloadFiles Sample.platform env self
               [Sample.linkA; Sample.linkB] (js "y") fs in
  Forall (alreadyThere Sample.platform env self fs) [Sample.linkA; Sample.linkB]
  /\ run.1.1 = Ret tt
  /\ run.1.2 = fs
  /\ outcomes run.2 = [skipped; skipped]
  /\ streamed run.2 = []
  /\ requested run.2 = [url Sample.linkA; url Sample.linkB].
Proof.
  intros self env fs run.
  assert (Hall : Forall (alreadyThere Sample.platform env self fs)
                   [Sample.linkA; Sample.linkB]).
  { repeat constructor.
    - exists (js "3"), (js "abc"), (js "xyz"). vm_compute. auto.
    - exists (js "0"), [], []. vm_compute. auto. }
  split; [exact Hall |].
  apply (idempotent_download Sample.platform env self
           [Sample.linkA; Sample.linkB] (js "y") fs eq_refl
           ltac:(vm_compute; eauto) Hall).
Defined.

(** C6. Batch abort on failure. For references [A; B; C], with the target
    folder there or created: if the download of A completes and that of B
    raises, [downloadAllFiles] raises the same error; the outcomes are
    downloaded for A and failed for B, the only requests are those for A and
    for B, and the trace ends with B's failure: C is never started. *)
Theorem batch_stops_on_failure pf env self A B C fs fs0 t0 fs1 tA e fs2 tB :
  ensureFolder env self fs = (Ret tt, fs0, t0) ->
  downloadFile pf env self A fs0 = (Ret true, fs1, tA) ->
  downloadFile pf env self B fs1 = (Throw e, fs2, tB) ->
  let run := downloadAllFiles pf env self [A; B; C] fs in
  run = (Throw e, fs2,
         t0 ++ EvLog (LStarting 1 (filename A)) :: tA
            ++ EvDelay (getRandomDelay env self 0)
            :: EvLog (LStarting 2 (filename B)) :: tB)
  /\ outcomes run.2 = [downloaded; failed]
  /\ requested run.2 = [url A; url B]
  /\ last run.2 = Some (EvLog (LFailed (url B) e)).
Proof.
  intros Hfolder HA HB run.
  assert (Hrun : run = (Throw e, fs2,
            t0 ++ EvLog (LStarting 1 (filename A)) :: tA
               ++ EvDelay (getRandomDelay env self 0)
               :: EvLog (LStarting 2 (filename B)) :: tB)).
  { subst run. rewrite downloadAllFiles_run, Hfolder.
    rewrite downloadLoop_cons, HA, downloadLoop_cons, HB. reflexivity. }
  split; [exact Hrun |]. rewrite Hrun. cbn [snd].
  destruct (ensureFolder_quiet _ _ _ _ _ _ Hfolder) as (Ho & Hr & _).
  destruct (downloadFile_shape _ _ _ _ _ _ _ _ HA) as [HrA HoA].
  destruct (downloadFile_shape _ _ _ _ _ _ _ _ HB) as [HrB [HoB HlB]].
  repeat split.
  - rewrite outcomes_app, Ho.
    change (outcomes (EvLog (LStarting ?i ?n) :: ?t)) with (outcomes t).
    rewrite outcomes_app, HoA.
    change (outcomes (EvDelay ?d :: EvLog (LStarting ?i ?n) :: ?t)) with (outcomes t).
    rewrite HoB. reflexivity.
  - rewrite requested_app, Hr.
    change (requested (EvLog ?x :: ?t)) with (requested t).
    rewrite requested_app, HrA.
    change (requested (EvDelay ?d :: EvLog ?x :: ?t)) with (requested t).
    rewrite HrB. reflexivity.
  - destruct tB as [| ev tB']; [discriminate |].
    rewrite last_app. change (?a :: tA ++ ?b :: ?c :: ev :: tB')
      with ([a] ++ tA ++ [b; c] ++ ev :: tB').
    rewrite !last_app, HlB. reflexivity.
Qed.

Lemma batch_stops_on_failure_witness :
  let self := Sample.downloader in
  let env := Sample.server
               [(url Sample.linkA, Responds (Some (js "3")) (js "abc"));
                (url Sample.linkC, Responds None (js "c"))] [] in
  let run := downloadAllFiles Sample.platform env self
               [Sample.linkA; Sample.linkB; Sample.linkC] ∅ in
  run.1.1 = Throw (NetworkError (url Sample.linkB))
  /\ outcomes run.2 = [downloaded; failed]
  /\ requested run.2 = [url Sample.linkA; url Sample.linkB].
Proof.
  intros self env run.
  pose (r0 := ensureFolder env self ∅).
  pose (rA := downloadFile Sample.platform env self Sample.linkA r0.1.2).
  pose (rB := downloadFile Sample.platform env self Sample.linkB rA.1.2).
  assert (H0 : ensureFolder env self ∅ = (Ret tt, r0.1.2, r0.2))
    by (vm_compute; reflexivity).
  assert (HA : downloadFile Sample.platform env self Sample.linkA r0.1.2
               = (Ret true, rA.1.2, rA.2)) by (vm_compute; reflexivity).
  assert (HB : downloadFile Sample.platform env self Sample.linkB rA.1.2
               = (Throw (NetworkError (url Sample.linkB)), rB.1.2, rB.2))
    by (vm_compute; reflexivity).
  destruct (batch_stops_on_failure Sample.platform env self
              Sample.linkA Sample.linkB Sample.linkC ∅ _ _ _ _ _ _ _ H0 HA HB)
    as (Hrun & Hout & Hreq & _).
  fold run in Hrun, Hout, Hreq.
  split; [rewrite Hrun; reflexivity | split; assumption].
Defined.

(** The loop stops at the first file that fails, whatever comes after it. *)
Lemma downloadLoop_stops_at_failure pf env self done : forall i fs fs1 tr l e fs2 t rest,
  downloadLoop pf env self i done fs = (Ret tt, fs1, tr) ->
  downloadFile pf env self l fs1 = (Throw e, fs2, t) ->
  downloadLoop pf env self i (done ++ l :: rest) fs
  = (Throw e, fs2,
     tr ++ EvLog (LStarting (i + length done + 1) (filename l)) :: t).
Proof.
  induction done as [| d done IH]; intros i fs fs1 tr l e fs2 t rest Hdone Hl.
  - apply triple_inj in Hdone as (_ & <- & <-).
    cbn [app length]. rewrite downloadLoop_cons, Hl, Nat.add_0_r. reflexivity.
  - cbn [app]. rewrite downloadLoop_cons in Hdone |- *.
    destruct (downloadFile pf env self d fs) as [[[b | e' |] fsd] td];
      [| discriminate | discriminate].
    destruct (downloadLoop pf env self (S i) done fsd) as [[r fsr] tdone] eqn:Hrest.
    apply triple_inj in Hdone as (-> & -> & <-).
    rewrite (IH _ _ _ _ _ _ _ _ rest Hrest Hl).
    cbn [length]. replace (S i + length done + 1)%nat with (i + S (length done) + 1)%nat by lia.
    cbn [app]. rewrite <- !app_assoc. reflexivity.
Qed.

(** C7 as stated fails: with the server rejecting the only file, the batch
    raises, and [confirmAndDownloadFiles] still returns normally. *)
Lemma download_failure_counterexample :
  let self := Sample.downloader in
  let env := Sample.server [] [] in
  (downloadAllFiles Sample.platform env self [Sample.linkA] ∅).1.1
  = Throw (NetworkError (url Sample.linkA))
  /\ (confirmAndDownloadFiles Sample.platform env self [Sample.linkA] (js "y") ∅).1.1
     = Ret tt
  /\ last (confirmAndDownloadFiles Sample.platform env self [Sample.linkA] (js "y") ∅).2
     = Some (EvLog (LErrorDuring (NetworkError (url Sample.linkA)))).
Proof. vm_compute. repeat split; reflexivity. Qed.

Lemma downloadAllFiles_total pf env self links fs :
  (downloadAllFiles pf env self links fs).1.1 <> Starved.
Proof.
  rewrite downloadAllFiles_run.
  destruct (ensureFolder env self fs) as [[[[] | e |] fs0] t0] eqn:He; try discriminate.
  - pose proof (downloadLoop_total pf env self links 0 fs0) as Hl.
    destruct (downloadLoop pf env self 0 links fs0) as [[[[] | e |] fs1] t1];
      try discriminate. exact Hl.
  - exfalso. revert He.
    unfold ensureFolder, bind, existsSync, mkdirSync, console, emit, ret.
    destruct (bool_decide _);
      [| destruct (Fs.can_make fs (folderPath self) && writable env (folderPath self))];
      discriminate.
Qed.


(** C7, amended. A file-download failure is logged and re-raised by
    [downloadFile], and leaves [downloadAllFiles] as that error, the rest of
    the batch unattempted; [confirmAndDownloadFiles] catches it, logs it and
    returns normally, so no failure reaches the caller of
    [confirmAndDownloadFiles]. *)
Theorem download_failure_stops_at_entry pf env self links answer fs :
  (forall l fs0 e fs1 t,
     downloadFile pf env self l fs0 = (Throw e, fs1, t) ->
     last t = Some (EvLog (LFailed (url l) e)))
  /\ (forall done l rest fs0 t0 fs1 tr e fs2 t,
        ensureFolder env self fs = (Ret tt, fs0, t0) ->
        downloadLoop pf env self 0 done fs0 = (Ret tt, fs1, tr) ->
        downloadFile pf env self l fs1 = (Throw e, fs2, t) ->
        downloadAllFiles pf env self (done ++ l :: rest) fs
        = (Throw e, fs2,
           t0 ++ tr ++ EvLog (LStarting (length done + 1) (filename l)) :: t))
  /\ (forall e fs' tr,
        downloadAllFiles pf env self links fs = (Throw e, fs', tr) ->
        confirms answer = true ->
        confirmAndDownloadFiles pf env self links answer fs
        = (Ret tt, fs', EvPrompt (confirmMessage links) :: tr
                          ++ [EvLog (LErrorDuring e)]))
  /\ (confirmAndDownloadFiles pf env self links answer fs).1.1 = Ret tt.
Proof.
  split; [| split; [| split]].
  - intros l fs0 e fs1 t H. apply (downloadFile_shape _ _ _ _ _ _ _ _ H).
  - intros done l rest fs0 t0 fs1 tr e fs2 t Hf Hdone Hl.
    rewrite downloadAllFiles_run, Hf.
    rewrite (downloadLoop_stops_at_failure _ _ _ _ _ _ _ _ _ _ _ _ rest Hdone Hl).
    reflexivity.
  - intros e fs' tr Hall Hyes. rewrite confirm_run, Hyes, Hall. reflexivity.
  - rewrite confirm_run.
    destruct (confirms answer); [| reflexivity].
    pose proof (downloadAllFiles_total pf env self links fs) as Htot.
    destruct (downloadAllFiles pf env self links fs) as [[[[] | e |] fs'] tr];
      try reflexivity. contradiction.
Qed.

Lemma download_failure_stops_at_entry_witness :
  let self := Sample.downloader in
  let env := Sample.server [] [] in
  let batch := downloadAllFiles Sample.platform env self [Sample.linkA] ∅ in
  (batch.1.1 = Throw (NetworkError (url Sample.linkA))
   /\ confirms (js "y") = true)
  /\ confirmAndDownloadFiles Sample.platform env self [Sample.linkA] (js "y") ∅
     = (Ret tt, batch.1.2,
        EvPrompt (confirmMessage [Sample.linkA]) :: batch.2
          ++ [EvLog (LErrorDuring (NetworkError (url Sample.linkA)))]).
Proof.
  intros self env batch.
  assert (Hb : downloadAllFiles Sample.platform env self [Sample.linkA] ∅
               = (Throw (NetworkError (url Sample.linkA)), batch.1.2, batch.2))
    by (vm_compute; reflexivity).
  split; [split; reflexivity |].
  destruct (download_failure_stops_at_entry Sample.platform env self
              [Sample.linkA] (js "y") ∅) as (_ & _ & Hcaught & _).
  exact (Hcaught _ _ _ Hb eq_refl).
Defined.

End DownloaderFacts.

(** * Further facts *)

From Stdlib Require DecimalZ DecimalPos.

(** ** The operator's answer *)

Module AnswerFacts.
Import Notions.

Lemma trim_start_split s :
  exists b, s = b ++ trim_start s /\ blank b
            /\ match trim_start s with c :: _ => is_js_space c = false | [] => True end.
Proof.
  induction s as [| c s IH]; [exists []; repeat split; constructor |].
  cbn [trim_start]. destruct (is_js_space c) eqn:Hc.
  - destruct IH as (b & Hs & Hb & Hh). exists (c :: b). split; [cbn; congruence |].
    split; [constructor; assumption | exact Hh].
  - exists []. repeat split; [constructor | exact Hc].
Qed.

Lemma trim_start_blank b s : blank b -> trim_start (b ++ s) = trim_start s.
Proof. induction 1 as [| c b Hc _ IH]; [reflexivity |]. cbn. rewrite Hc. exact IH. Qed.

Lemma trim_start_head c s : is_js_space c = false -> trim_start (c :: s) = c :: s.
Proof. intros Hc. cbn. rewrite Hc. reflexivity. Qed.

Lemma blank_rev b : blank b -> blank (rev b).
Proof. apply List.Forall_rev. Qed.

(** X1. [askUserConfirmation] takes for a yes exactly the answers that are a
    single y or Y with nothing but white space around it: the word yes, an
    empty line and anything else are a no. *)
Theorem confirmation_accepts_only_y answer :
  confirms answer = true <->
  exists before c after,
    answer = before ++ c :: after /\ blank before /\ blank after
    /\ (c = 121 \/ c = 89).
Proof.
  unfold confirms, trim. split.
  - intros H.
    destruct (trim_start_split answer) as (b & Hs & Hb & _).
    destruct (trim_start_split (rev (trim_start answer))) as (a & Hr & Ha & _).
    destruct (rev (trim_start (rev (trim_start answer)))) as [| c [| d t]] eqn:Ht;
      try discriminate.
    apply (f_equal (@rev N)) in Ht. rewrite rev_involutive in Ht. cbn in Ht.
    rewrite Ht in Hr. apply (f_equal (@rev N)) in Hr.
    rewrite rev_involutive, rev_app_distr in Hr. cbn in Hr.
    exists b, c, (rev a). split; [rewrite Hs at 1; rewrite Hr; reflexivity |].
    split; [exact Hb |]. split; [apply blank_rev, Ha |].
    apply orb_true_iff in H as [H | H]; apply N.eqb_eq in H; auto.
  - intros (b & c & a & -> & Hb & Ha & Hc).
    assert (Hns : is_js_space c = false) by (destruct Hc as [-> | ->]; reflexivity).
    rewrite (trim_start_blank _ _ Hb), (trim_start_head _ _ Hns).
    change (rev (c :: a)) with (rev a ++ [c]).
    rewrite (trim_start_blank _ _ (blank_rev _ Ha)), (trim_start_head _ _ Hns).
    cbn. destruct Hc as [-> | ->]; reflexivity.
Qed.

End AnswerFacts.

(** ** Dates in the derived paths *)

Module DateFacts.
Import FileLinkFetcher.

#[local] Abbreviation digit z := (48 + Z.to_N z).

Lemma two_digits_table :
  forallb (fun n => let z := Z.of_nat n in
                    bool_decide (formatNumber z = [digit (z / 10); digit (z mod 10)]))
    (seq 0 100) = true.
Proof. vm_compute. reflexivity. Qed.

Lemma four_digits_table :
  forallb (fun n => let z := Z.of_nat n in
                    bool_decide (decimal z = [digit (z / 1000); digit (z / 100 mod 10);
                                              digit (z / 10 mod 10); digit (z mod 10)]))
    (seq 1000 (Z.to_nat 9000)) = true.
Proof. vm_compute. reflexivity. Qed.

(** [formatNumber] on a number of at most two digits: tens, then units. *)
Lemma formatNumber_two_digits z :
  (0 <= z <= 99)%Z -> formatNumber z = [digit (z / 10); digit (z mod 10)].
Proof.
  intros Hz. pose proof two_digits_table as Ht. rewrite List.forallb_forall in Ht.
  specialize (Ht (Z.to_nat z)). cbv beta zeta in Ht.
  rewrite Z2Nat.id in Ht by lia. apply bool_decide_eq_true in Ht; [exact Ht |].
  apply in_seq. lia.
Qed.

Lemma decimal_four_digits z :
  (1000 <= z <= 9999)%Z ->
  decimal z = [digit (z / 1000); digit (z / 100 mod 10);
               digit (z / 10 mod 10); digit (z mod 10)].
Proof.
  intros Hz. pose proof four_digits_table as Ht. rewrite List.forallb_forall in Ht.
  specialize (Ht (Z.to_nat z)). cbv beta zeta in Ht.
  rewrite Z2Nat.id in Ht by lia. apply bool_decide_eq_true in Ht; [exact Ht |].
  apply in_seq. lia.
Qed.

Lemma digit_is_digit z : (0 <= z <= 9)%Z -> Json.is_digit (digit z) = true.
Proof.
  intros Hz. unfold Json.is_digit. apply andb_true_iff.
  split; apply N.leb_le; lia.
Qed.

Lemma digit_value z : (0 <= z <= 9)%Z -> Z.of_N (digit z - 48) = z.
Proof. intros Hz. lia. Qed.

(** X2. For a four-digit year and a month and a day of at most two digits,
    [formatDate] writes eight decimal digits, YYYYMMDD: single-digit months
    and days are padded with a zero, and the text reads back as the number
    year * 10000 + month * 100 + day. *)
Theorem formatDate_is_YYYYMMDD date :
  (1000 <= year date <= 9999)%Z ->
  (0 <= month date <= 99)%Z -> (0 <= day date <= 99)%Z ->
  length (formatDate date) = 8%nat
  /\ Forall (fun c => Json.is_digit c = true) (formatDate date)
  /\ parseInt (formatDate date)
     = Some (year date * 10000 + month date * 100 + day date)%Z.
Proof.
  intros Hy Hm Hd. unfold formatDate.
  rewrite (decimal_four_digits _ Hy), (formatNumber_two_digits _ Hm),
    (formatNumber_two_digits _ Hd).
  set (y := year date) in *. set (m := month date) in *. set (d := day date) in *.
  assert (H1 : (0 <= y / 1000 <= 9)%Z) by (Z.div_mod_to_equations; lia).
  assert (H2 : (0 <= y / 100 mod 10 <= 9)%Z) by (Z.div_mod_to_equations; lia).
  assert (H3 : (0 <= y / 10 mod 10 <= 9)%Z) by (Z.div_mod_to_equations; lia).
  assert (H4 : (0 <= y mod 10 <= 9)%Z) by (Z.div_mod_to_equations; lia).
  assert (H5 : (0 <= m / 10 <= 9)%Z) by (Z.div_mod_to_equations; lia).
  assert (H6 : (0 <= m mod 10 <= 9)%Z) by (Z.div_mod_to_equations; lia).
  assert (H7 : (0 <= d / 10 <= 9)%Z) by (Z.div_mod_to_equations; lia).
  assert (H8 : (0 <= d mod 10 <= 9)%Z) by (Z.div_mod_to_equations; lia).
  split; [reflexivity |]. split.
  - cbn [app]. repeat constructor; apply digit_is_digit; assumption.
  - cbn [app]. unfold parseInt.
    assert (Hns : is_js_space (digit (y / 1000)) = false).
    { remember (Z.to_N (y / 1000)) as k.
      assert (k <= 9) by lia. unfold is_js_space.
      repeat (apply orb_false_iff; split);
        try (apply andb_false_iff; left; apply N.leb_gt; lia);
        try (apply andb_false_iff; right; apply N.leb_gt; lia);
        try (apply N.eqb_neq; lia). }
    cbn [trim_start]. rewrite Hns.
    assert (Hn45 : (digit (y / 1000) =? 45) = false) by (apply N.eqb_neq; lia).
    assert (Hn43 : (digit (y / 1000) =? 43) = false) by (apply N.eqb_neq; lia).
    rewrite Hn45, Hn43, (digit_is_digit _ H1). f_equal.
    cbn [digits_value].
    rewrite !digit_is_digit, !digit_value by assumption.
    clear - Hy Hm Hd. Z.div_mod_to_equations. lia.
Qed.

Lemma formatDate_is_YYYYMMDD_witness :
  let date := mkDate 2024 5 31 in
  ((1000 <= year date <= 9999)%Z /\ (0 <= month date <= 99)%Z
   /\ (0 <= day date <= 99)%Z)
  /\ formatDate date = js "20240531"
  /\ length (formatDate date) = 8%nat
  /\ parseInt (formatDate date) = Some 20240531%Z.
Proof.
  intros date.
  assert (Hy : (1000 <= year date <= 9999)%Z) by (cbn; lia).
  assert (Hm : (0 <= month date <= 99)%Z) by (cbn; lia).
  assert (Hd : (0 <= day date <= 99)%Z) by (cbn; lia).
  split; [split; [exact Hy | split; [exact Hm | exact Hd]] |].
  split; [reflexivity |].
  destruct (formatDate_is_YYYYMMDD date Hy Hm Hd) as (Hlen & _ & Hint).
  split; [exact Hlen | exact Hint].
Defined.

End DateFacts.

(** ** The file name taken from a title *)

Module TitleFacts.
Import FileLinkFetcher Notions.

Lemma span_alnum_spec s :
  exists after, s = span_alnum s ++ after
    /\ Forall (fun c => is_alnum c = true) (span_alnum s)
    /\ match after with c :: _ => is_alnum c = false | [] => True end.
Proof.
  induction s as [| c s IH]; [exists []; repeat split; constructor |].
  cbn [span_alnum]. destruct (is_alnum c) eqn:Hc.
  - destruct IH as (after & Hs & Hall & Hnext). exists after.
    split; [cbn; congruence |]. split; [constructor; assumption | exact Hnext].
  - exists (c :: s). repeat split; [constructor | exact Hc].
Qed.

(** A run of letters and digits at the head of a text is no longer than the
    longest one. *)
Lemma span_alnum_longest ext : forall after,
  Forall (fun c => is_alnum c = true) ext ->
  (length ext <= length (span_alnum (ext ++ after)))%nat.
Proof.
  induction ext as [| c ext IH]; intros after Hall; [cbn; lia |].
  inversion Hall as [| ? ? Hc Hrest]; subst. cbn. rewrite Hc. cbn.
  specialize (IH after Hrest). lia.
Qed.

(** A run of letters and digits stops before a dot. *)
Lemma alnum_run_before_dot ext : forall after pre rest,
  Forall (fun c => is_alnum c = true) ext ->
  ext ++ after = pre ++ 46 :: rest ->
  (length ext <= length pre)%nat.
Proof.
  induction ext as [| c ext IH]; intros after pre rest Hall Heq; [cbn; lia |].
  inversion Hall as [| ? ? Hc Hrest]; subst.
  destruct pre as [| p pre]; cbn in Heq.
  - injection Heq as -> _. discriminate.
  - injection Heq as -> Heq. cbn. specialize (IH _ _ _ Hrest Heq). lia.
Qed.

(** What [match_tail] returns is a dotted tail, found at the head of the text. *)
Lemma match_tail_sound s : forall m,
  match_tail s = Some m ->
  exists pre ext after,
    m = pre ++ 46 :: ext /\ s = m ++ after /\ dotted pre ext
    /\ match after with c :: _ => is_alnum c = false | [] => True end.
Proof.
  induction s as [| c s IH]; intros m Hm; [discriminate |].
  cbn [match_tail] in Hm. destruct (is_line_terminator c) eqn:Hlt; [discriminate |].
  destruct (match_tail s) as [m' |] eqn:Hs.
  - injection Hm as <-.
    destruct (IH _ eq_refl) as (pre & ext & after & -> & -> & (Hpre & Hne & Hext) & Hnext).
    exists (c :: pre), ext, after. split; [reflexivity |]. split; [reflexivity |].
    split; [| exact Hnext]. split; [constructor; assumption | split; assumption].
  - destruct (c =? 46) eqn:Hdot; [| discriminate]. apply N.eqb_eq in Hdot as ->.
    destruct (span_alnum_spec s) as (after & Hsplit & Hall & Hnext).
    destruct (span_alnum s) as [| d run] eqn:Hrun; [discriminate |].
    injection Hm as <-. exists [], (d :: run), after.
    split; [reflexivity |]. split; [cbn; cbn in Hsplit; congruence |].
    split; [| exact Hnext]. split; [constructor | split; [discriminate | exact Hall]].
Qed.

(** A dotted tail at the head of the text is found. *)
Lemma match_tail_complete pre ext after :
  dotted pre ext -> match_tail (pre ++ 46 :: ext ++ after) <> None.
Proof.
  intros (Hpre & Hne & Hext). induction Hpre as [| c pre Hc _ IH].
  - cbn. destruct (match_tail (ext ++ after)); [discriminate |].
    destruct Hext as [| d ext Hd _]; [contradiction |].
    cbn. rewrite Hd. discriminate.
  - cbn [app match_tail]. rewrite Hc.
    destruct (match_tail (pre ++ 46 :: ext ++ after)); [discriminate | contradiction].
Qed.

(** No dotted tail at the head of the text is longer than the one found. *)
Lemma match_tail_longest s : forall m pre ext after,
  match_tail s = Some m ->
  s = pre ++ 46 :: ext ++ after -> dotted pre ext ->
  (length (pre ++ 46%N :: ext) <= length m)%nat.
Proof.
  induction s as [| c s IH]; intros m pre ext after Hm Hs Hd; [discriminate |].
  cbn [match_tail] in Hm. destruct (is_line_terminator c) eqn:Hlt; [discriminate |].
  destruct (match_tail s) as [m' |] eqn:Hrest.
  - injection Hm as <-. destruct pre as [| p pre]; cbn in Hs; injection Hs as -> Hs.
    + destruct (match_tail_sound _ _ Hrest) as (pre0 & ext0 & after0 & -> & Hs0 & _ & _).
      destruct Hd as (_ & _ & Hext). rewrite Hs0, <- app_assoc in Hs. cbn in Hs.
      pose proof (alnum_run_before_dot _ _ _ _ Hext (eq_sym Hs)) as Hle.
      cbn. rewrite length_app. cbn. lia.
    + destruct Hd as (Hpre & Hne & Hext). inversion Hpre; subst.
      assert (Hd' : dotted pre ext) by (repeat split; assumption).
      pose proof (IH _ _ _ _ eq_refl eq_refl Hd') as Hle. cbn. lia.
  - destruct (c =? 46) eqn:Hdot; [| discriminate].
    destruct (span_alnum s) as [| d run] eqn:Hrun; [discriminate |].
    injection Hm as <-. destruct pre as [| p pre]; cbn in Hs; injection Hs as -> Hs.
    + destruct Hd as (_ & _ & Hext). subst s.
      pose proof (span_alnum_longest ext after Hext) as Hle. rewrite Hrun in Hle.
      cbn in *. lia.
    + destruct Hd as (Hpre & Hne & Hext). inversion Hpre; subst.
      exfalso. apply (match_tail_complete pre ext after); [repeat split; assumption | exact Hrest].
Qed.

Lemma shape_dotted m :
  file_name_shape m <->
  exists c pre ext, m = c :: pre ++ 46 :: ext /\ is_line_terminator c = false /\ dotted pre ext.
Proof.
  split.
  - intros (stem & ext & -> & Hstem & Hlt & Hne & Hext).
    destruct Hlt as [| c stem Hc Hlt]; [contradiction |].
    exists c, stem, ext. split; [reflexivity |]. split; [exact Hc |]. repeat split; assumption.
  - intros (c & pre & ext & -> & Hc & Hpre & Hne & Hext).
    exists (c :: pre), ext. split; [reflexivity |]. split; [discriminate |].
    split; [constructor; assumption |]. split; assumption.
Qed.

(** A file name at the head of a title is found there. *)
Lemma extract_at_head m after :
  file_name_shape m ->
  exists m', extractFileNameFromTitle (m ++ after) = Some m'
             /\ occurs_at [] m' (m ++ after) /\ (length m <= length m')%nat.
Proof.
  intros (c & pre & ext & -> & Hc & Hd)%shape_dotted.
  cbn [app extractFileNameFromTitle]. rewrite Hc, <- app_assoc. cbn [app].
  pose proof (match_tail_complete pre ext after Hd) as Hfound.
  destruct (match_tail (pre ++ 46 :: ext ++ after)) as [m0 |] eqn:Hm0; [| contradiction].
  exists (c :: m0). split; [reflexivity |].
  destruct (match_tail_sound _ _ Hm0) as (pre0 & ext0 & after0 & -> & Hs0 & _ & _).
  split; [exists after0; cbn; rewrite Hs0; reflexivity |].
  pose proof (match_tail_longest _ _ _ _ _ Hm0 eq_refl Hd) as Hle. cbn. lia.
Qed.

(** What [extractFileNameFromTitle] returns, where it was found, and what
    could not be found before it. *)
Lemma extract_sound title : forall m,
  extractFileNameFromTitle title = Some m ->
  exists before after,
    title = before ++ m ++ after /\ file_name_shape m
    /\ match after with c :: _ => is_alnum c = false | [] => True end
    /\ forall before' m', file_name_shape m' -> occurs_at before' m' title ->
         (length before <= length before')%nat
         /\ (length before' = length before -> (length m' <= length m)%nat).
Proof.
  induction title as [| c rest IH]; intros m Hm; [discriminate |].
  cbn [extractFileNameFromTitle] in Hm.
  destruct (if is_line_terminator c then None else match_tail rest) as [m0 |] eqn:Hhead.
  - injection Hm as <-. destruct (is_line_terminator c) eqn:Hc; [discriminate |].
    destruct (match_tail_sound _ _ Hhead) as (pre & ext & after & -> & -> & Hd & Hnext).
    exists [], after. split; [reflexivity |].
    split; [apply shape_dotted; exists c, pre, ext; auto |]. split; [exact Hnext |].
    intros before' m' Hshape (after' & Heq). split; [cbn; lia |].
    intros Hlen. destruct before'; [| discriminate]. cbn in Heq.
    apply shape_dotted in Hshape as (c' & pre' & ext' & -> & _ & Hd').
    cbn in Heq. injection Heq as <- Heq.
    rewrite <- (app_assoc pre' _ after') in Heq. cbn in Heq.
    pose proof (match_tail_longest _ _ _ _ _ Hhead Heq Hd') as Hle. cbn. lia.
  - destruct (IH _ Hm) as (before & after & -> & Hshape & Hnext & Hleft).
    exists (c :: before), after. split; [reflexivity |]. split; [exact Hshape |].
    split; [exact Hnext |].
    intros before' m' Hshape' (after' & Heq). destruct before' as [| b before'].
    + exfalso. apply shape_dotted in Hshape' as (c' & pre' & ext' & -> & Hc' & Hd').
      cbn in Heq. injection Heq as <- Heq. rewrite Hc' in Hhead.
      rewrite <- (app_assoc pre' _ after') in Heq. cbn in Heq. rewrite Heq in Hhead.
      exact (match_tail_complete _ _ _ Hd' Hhead).
    + cbn in Heq. injection Heq as <- Heq.
      destruct (Hleft before' m' Hshape' (ex_intro _ after' Heq)) as [Hle Hlong].
      split; [cbn; lia |]. intros Hlen. apply Hlong. cbn in Hlen. lia.
Qed.

Lemma extract_finds before : forall m after,
  file_name_shape m -> extractFileNameFromTitle (before ++ m ++ after) <> None.
Proof.
  induction before as [| b before IH]; intros m after Hshape.
  - destruct (extract_at_head m after Hshape) as (m' & Hm' & _). cbn. congruence.
  - cbn [app extractFileNameFromTitle].
    destruct (if is_line_terminator b then None else match_tail (before ++ m ++ after));
      [discriminate | apply IH, Hshape].
Qed.

(** X3. What [extractFileNameFromTitle] returns is never empty and is a piece
    of the title of the shape name-dot-extension: at least one character, a
    dot, and letters or digits up to the first character of the title that
    is neither - and no line terminator inside. *)
Theorem title_match_is_a_file_name title m :
  extractFileNameFromTitle title = Some m ->
  file_name_shape m /\ m <> []
  /\ exists before after,
       title = before ++ m ++ after
       /\ match after with c :: _ => is_alnum c = false | [] => True end.
Proof.
  intros (before & after & Heq & Hshape & Hnext & _)%extract_sound.
  split; [exact Hshape |]. split.
  - destruct Hshape as (stem & ext & -> & _). destruct stem; discriminate.
  - exists before, after. split; assumption.
Qed.

(** X4. [extractFileNameFromTitle] returns null exactly when no piece of the
    title has the shape name-dot-extension. *)
Theorem title_without_file_name title :
  extractFileNameFromTitle title = None <->
  ~ exists before m, file_name_shape m /\ occurs_at before m title.
Proof.
  split.
  - intros Hnone (before & m & Hshape & after & ->).
    exact (extract_finds before m after Hshape Hnone).
  - intros Hno. destruct (extractFileNameFromTitle title) as [m |] eqn:Hm; [| reflexivity].
    destruct (extract_sound _ _ Hm) as (before & after & Heq & Hshape & _).
    exfalso. apply Hno. exists before, m. split; [exact Hshape | exists after; exact Heq].
Qed.

(** X5. The file name taken from a title is the leftmost one, and the
    longest of those that start there: no piece of the shape
    name-dot-extension starts earlier in the title, and none that starts at
    the same place is longer. *)
Theorem title_match_is_leftmost_longest title m :
  extractFileNameFromTitle title = Some m ->
  exists before,
    occurs_at before m title
    /\ forall before' m', file_name_shape m' -> occurs_at before' m' title ->
         (length before <= length before')%nat
         /\ (length before' = length before -> (length m' <= length m)%nat).
Proof.
  intros (before & after & Heq & _ & _ & Hleft)%extract_sound.
  exists before. split; [exists after; exact Heq | exact Hleft].
Qed.

Lemma title_match_is_a_file_name_witness :
  extractFileNameFromTitle (js "Q1 report.v2.pdf (final)") = Some (js "Q1 report.v2.pdf")
  /\ file_name_shape (js "Q1 report.v2.pdf").
Proof.
  assert (H : extractFileNameFromTitle (js "Q1 report.v2.pdf (final)")
              = Some (js "Q1 report.v2.pdf")) by reflexivity.
  split; [exact H |].
  exact (proj1 (title_match_is_a_file_name _ _ H)).
Defined.

Lemma title_match_is_leftmost_longest_witness :
  extractFileNameFromTitle (js "a.b c.d e") = Some (js "a.b c.d")
  /\ exists before,
       occurs_at before (js "a.b c.d") (js "a.b c.d e")
       /\ forall before' m', file_name_shape m' ->
            occurs_at before' m' (js "a.b c.d e") ->
            (length before <= length before')%nat
            /\ (length before' = length before -> (length m' <= 7)%nat).
Proof.
  assert (H : extractFileNameFromTitle (js "a.b c.d e") = Some (js "a.b c.d"))
    by reflexivity.
  split; [exact H |].
  exact (title_match_is_leftmost_longest _ _ H).
Defined.

End TitleFacts.

(** ** The checkpoint text *)

Module CheckpointFacts.
Import Json Utf8 FileLinkFetcher Notions.

Lemma lines_one_line s : one_line s -> lines s = [s].
Proof.
  induction 1 as [| c s Hc _ IH]; [reflexivity |].
  cbn. apply N.eqb_neq in Hc. rewrite Hc, IH. reflexivity.
Qed.

Lemma lines_break a b : one_line a -> lines (a ++ 10 :: b) = a :: lines b.
Proof.
  induction 1 as [| c a Hc _ IH]; [reflexivity |].
  cbn [app lines]. apply N.eqb_neq in Hc. rewrite Hc, IH. reflexivity.
Qed.

Lemma one_line_app a b : one_line a -> one_line b -> one_line (a ++ b).
Proof. apply Forall_app_2. Qed.

Lemma hex_digit_floor d : 48 <= Json.hex_digit d.
Proof. unfold Json.hex_digit. destruct (d <? 10); lia. Qed.

Lemma one_line_quote_unit c : one_line (Json.quote_unit c).
Proof.
  unfold Json.quote_unit.
  repeat match goal with
         | |- context [if ?b then _ else _] => destruct b eqn:?
         end;
    try (repeat constructor; discriminate).
  - unfold Json.unicode_escape.
    repeat constructor; try discriminate;
      match goal with |- Json.hex_digit ?d <> _ => pose proof (hex_digit_floor d); lia end.
  - repeat constructor. apply N.eqb_neq. assumption.
Qed.

Lemma one_line_quote_body s : one_line (Json.quote_body s).
Proof.
  assert (H : forall n s, (length s <= n)%nat -> one_line (Json.quote_body s)).
  { clear s. induction n as [| n IH]; intros s Hn.
    - destruct s; [constructor | cbn in Hn; lia].
    - destruct s as [| c rest]; [constructor |]. cbn [Json.quote_body].
      destruct (Json.is_lead c) eqn:Hlead.
      + destruct rest as [| d rest']; [apply one_line_quote_unit |].
        destruct (Json.is_trail d) eqn:Htrail.
        * constructor; [apply andb_true_iff in Hlead as [H1 _]; apply N.leb_le in H1; lia |].
          constructor; [apply andb_true_iff in Htrail as [H1 _]; apply N.leb_le in H1; lia |].
          apply IH. cbn in *. lia.
        * apply one_line_app; [apply one_line_quote_unit |]. apply IH. cbn in *. lia.
      + apply one_line_app; [apply one_line_quote_unit |]. apply IH. cbn in *. lia. }
  apply (H (length s)). lia.
Qed.

Lemma one_line_quote s : one_line (Json.quote s).
Proof.
  unfold Json.quote. constructor; [discriminate |].
  apply one_line_app; [apply one_line_quote_body | repeat constructor; discriminate].
Qed.

Lemma one_line_stringify l : one_line (Json.stringify l).
Proof.
  unfold Json.stringify.
  repeat first [ apply one_line_quote
               | apply one_line_app
               | (repeat constructor; discriminate) ].
Qed.

Lemma lines_join init : forall l tail,
  Forall one_line init -> one_line l ->
  lines (join [44; 10] (init ++ [l]) ++ 10 :: tail)
  = map (fun r => r ++ [44]) init ++ l :: lines tail.
Proof.
  induction init as [| x init IH]; intros l tail Hinit Hl.
  - apply lines_break, Hl.
  - inversion Hinit as [| ? ? Hx Hrest]; subst.
    change ((x :: init) ++ [l]) with (x :: (init ++ [l])).
    assert (Hjoin : join [44; 10] (x :: (init ++ [l]))
                    = x ++ [44; 10] ++ join [44; 10] (init ++ [l])).
    { destruct init; reflexivity. }
    rewrite Hjoin.
    replace ((x ++ [44; 10] ++ join [44; 10] (init ++ [l])) ++ 10 :: tail)
      with ((x ++ [44]) ++ 10 :: (join [44; 10] (init ++ [l]) ++ 10 :: tail))
      by (rewrite <- !app_assoc; reflexivity).
    rewrite lines_break
      by (apply one_line_app; [exact Hx | repeat constructor; discriminate]).
    rewrite (IH _ _ Hrest Hl). reflexivity.
Qed.

Lemma one_line_row l : one_line ([32; 32] ++ Json.stringify l).
Proof. apply one_line_app; [repeat constructor; discriminate | apply one_line_stringify]. Qed.

(** X6. The checkpoint text holds one reference per line: an opening
    bracket on a line of its own, then each reference on one line, indented
    by two spaces and followed by a comma but for the last, then the closing
    bracket - no reference runs over a line, whatever its strings hold. The
    empty list gives a bracket, an empty line and a bracket. *)
Theorem checkpoint_one_reference_per_line :
  lines (jsonLines []) = [[91]; []; [93]]
  /\ forall init l,
       lines (jsonLines (init ++ [l]))
       = [91] :: map (fun x => ([32; 32] ++ Json.stringify x) ++ [44]) init
           ++ [[32; 32] ++ Json.stringify l; [93]].
Proof.
  split; [reflexivity |]. intros init l. unfold jsonLines.
  change ([91; 10] ++ ?t) with ([91] ++ 10 :: t).
  rewrite lines_break by (repeat constructor; discriminate).
  change ([10; 93]) with (10 :: [93]).
  rewrite map_app. cbn [map].
  rewrite lines_join; [| apply Forall_map, Forall_true; intros; apply one_line_row | apply one_line_row].
  rewrite map_map. reflexivity.
Qed.

(** X7. The duplicate-page check of the loop is equality of the two lists:
    it holds exactly when the page has as many references as the page before
    and the same url and filename at every index. *)
Theorem duplicate_check_is_equality (lastPageLinks pageFileLinks : list FileLink) :
  isDuplicatePage lastPageLinks pageFileLinks = true <-> lastPageLinks = pageFileLinks.
Proof. apply FetcherFacts.isDuplicatePage_spec. Qed.

Ltac arith := zify; Z.to_euclidean_division_equations; lia.

Ltac decide_cmp :=
  repeat match goal with
  | |- context [?a <? ?b] =>
      first [ rewrite (proj2 (N.ltb_lt a b)) by arith
            | rewrite (proj2 (N.ltb_ge a b)) by arith ]
  | |- context [?a <=? ?b] =>
      first [ rewrite (proj2 (N.leb_le a b)) by arith
            | rewrite (proj2 (N.leb_gt a b)) by arith ]
  | |- context [?a =? ?b] =>
      first [ rewrite (proj2 (N.eqb_eq a b)) by arith
            | rewrite (proj2 (N.eqb_neq a b)) by arith ]
  end.

Lemma not_surrogate c :
  is_lead c = false -> is_trail c = false -> c < 0xD800 \/ 0xDFFF < c.
Proof.
  unfold is_lead, is_trail. intros Hl Ht.
  destruct (N.leb_spec 0xD800 c); [| lia].
  destruct (N.leb_spec c 0xDBFF); [discriminate |].
  destruct (N.leb_spec 0xDC00 c); [| lia].
  destruct (N.leb_spec c 0xDFFF); [discriminate | lia].
Qed.

(** A code point of the basic plane reads back as its one code unit. *)
Lemma decode_point cp bs :
  code_unit cp -> is_lead cp = false -> is_trail cp = false ->
  decode (encode_point cp ++ bs) = cons cp <$> decode bs.
Proof.
  unfold code_unit. intros Hcp Hl Ht.
  assert (Hns : cp < 0xD800 \/ 0xDFFF < cp) by (apply not_surrogate; assumption).
  clear Hl Ht. unfold encode_point.
  destruct (N.ltb_spec cp 0x80).
  { cbn [app decode]. decide_cmp. reflexivity. }
  destruct (N.ltb_spec cp 0x800).
  { cbn [app decode]. unfold is_cont. decide_cmp. cbn [andb negb].
    do 2 f_equal. arith. }
  decide_cmp. cbn [app decode]. unfold is_cont. decide_cmp. cbn [andb negb].
  destruct (N.eqb_spec (224 + cp / 4096) 224) as [He0 | He0];
    destruct (N.eqb_spec (224 + cp / 4096) 237) as [Hed | Hed];
    cbn [andb negb]; decide_cmp; cbn [andb negb]; do 2 f_equal; arith.
Qed.

Lemma pair_point_split c d :
  0xD800 <= c <= 0xDBFF -> 0xDC00 <= d <= 0xDFFF ->
  0x10000 <= pair_point c d <= 0x10FFFF
  /\ 0xD800 + (pair_point c d - 0x10000) / 0x400 = c
  /\ 0xDC00 + (pair_point c d - 0x10000) mod 0x400 = d.
Proof.
  intros Hc Hd. unfold pair_point.
  replace (0x10000 + (c - 0xD800) * 0x400 + (d - 0xDC00) - 0x10000)
    with ((c - 0xD800) * 0x400 + (d - 0xDC00)) by lia.
  split; [lia |]. split.
  - rewrite N.div_add_l by lia. rewrite N.div_small by lia. lia.
  - rewrite (N.add_comm ((c - 0xD800) * 0x400)), N.Div0.mod_add, N.mod_small by lia. lia.
Qed.

(** A surrogate pair reads back as itself. *)
Lemma decode_pair c d bs :
  is_lead c = true -> is_trail d = true ->
  decode (encode_point (pair_point c d) ++ bs) = (fun s => c :: d :: s) <$> decode bs.
Proof.
  unfold is_lead, is_trail. intros Hl Ht.
  apply andb_true_iff in Hl as [Hl1 Hl2]. apply andb_true_iff in Ht as [Ht1 Ht2].
  apply N.leb_le in Hl1, Hl2, Ht1, Ht2.
  destruct (pair_point_split c d (conj Hl1 Hl2) (conj Ht1 Ht2)) as (Hcp & Hc & Hd).
  generalize dependent (pair_point c d). intros cp Hcp Hc Hd.
  unfold encode_point. decide_cmp. cbn [app decode]. unfold is_cont. decide_cmp.
  cbn [andb negb].
  assert (Hval : (240 + cp / 262144 - 240) * 262144
                 + (128 + cp / 4096 mod 64 - 128) * 4096
                 + (128 + cp / 64 mod 64 - 128) * 64
                 + (128 + cp mod 64 - 128) = cp) by (clear Hc Hd; arith).
  rewrite Hval. unfold units_of. decide_cmp. rewrite Hc, Hd.
  destruct (N.eqb_spec (240 + cp / 262144) 240) as [He0 | He0];
    destruct (N.eqb_spec (240 + cp / 262144) 244) as [Hed | Hed];
    try (exfalso; lia);
    cbn [andb negb]; clear Hc Hd Hval; decide_cmp; cbn [andb negb];
    destruct (decode bs); reflexivity.
Qed.

(** Well-formed text reads back from its UTF-8 bytes. *)
Lemma decode_encode s :
  Forall code_unit s -> well_formed s = true -> decode (encode s) = Some s.
Proof.
  assert (H : forall n s, (length s <= n)%nat ->
            Forall code_unit s -> well_formed s = true -> decode (encode s) = Some s).
  { clear s. induction n as [| n IH]; intros s Hn Hall Hwf.
    - destruct s; [reflexivity | cbn in Hn; lia].
    - destruct s as [| c rest]; [reflexivity |].
      inversion Hall as [| ? ? Hc Hrest]; subst.
      cbn [well_formed] in Hwf. cbn [encode].
      destruct (is_lead c) eqn:Hl.
      + destruct rest as [| d rest']; [discriminate |].
        apply andb_true_iff in Hwf as [Ht Hwf]. rewrite Ht.
        inversion Hrest as [| ? ? Hd Hrest']; subst.
        rewrite (decode_pair _ _ _ Hl Ht), IH; [reflexivity | cbn in Hn; lia | assumption..].
      + apply andb_true_iff in Hwf as [Ht Hwf]. apply negb_true_iff in Ht. rewrite Ht.
        rewrite (decode_point _ _ Hc Hl Ht), IH;
          [reflexivity | cbn in Hn; lia | assumption..]. }
  apply (H (length s)). lia.
Qed.

Lemma code_unit_app a b :
  Forall code_unit a -> Forall code_unit b -> Forall code_unit (a ++ b).
Proof. apply Forall_app_2. Qed.

Lemma code_unit_js s : Forall code_unit (js s).
Proof.
  unfold js. apply Forall_map, Forall_true. intros a. unfold code_unit.
  pose proof (N_ascii_bounded a). cbn. lia.
Qed.

Lemma code_unit_quote_unit c : code_unit c -> Forall code_unit (quote_unit c).
Proof.
  intros Hc. unfold quote_unit.
  repeat match goal with
         | |- context [if ?b then _ else _] => destruct b
         end;
    try (repeat constructor; unfold code_unit; lia).
  - unfold unicode_escape. repeat constructor; unfold code_unit, hex_digit; try lia;
      match goal with |- context [?d <? 10] => destruct (d <? 10) end;
      pose proof (N.mod_lt c 16 ltac:(lia));
      pose proof (N.mod_lt (c / 16) 16 ltac:(lia));
      pose proof (N.mod_lt (c / 256) 16 ltac:(lia));
      pose proof (N.mod_lt (c / 4096) 16 ltac:(lia)); lia.
  - repeat constructor. exact Hc.
Qed.

Lemma code_unit_quote_body s : Forall code_unit s -> Forall code_unit (quote_body s).
Proof.
  assert (H : forall n s, (length s <= n)%nat ->
            Forall code_unit s -> Forall code_unit (quote_body s)).
  { clear s. induction n as [| n IH]; intros s Hn Hall.
    - destruct s; [constructor | cbn in Hn; lia].
    - destruct s as [| c rest]; [constructor |].
      inversion Hall as [| ? ? Hc Hrest]; subst. cbn [quote_body].
      destruct (is_lead c).
      + destruct rest as [| d rest']; [apply code_unit_quote_unit, Hc |].
        inversion Hrest as [| ? ? Hd Hrest']; subst.
        destruct (is_trail d).
        * constructor; [exact Hc |]. constructor; [exact Hd |].
          apply IH; [cbn in *; lia | exact Hrest'].
        * apply code_unit_app; [apply code_unit_quote_unit, Hc |].
          apply IH; [cbn in *; lia | exact Hrest].
      + apply code_unit_app; [apply code_unit_quote_unit, Hc |].
        apply IH; [cbn in *; lia | exact Hrest]. }
  intros Hall. apply (H (length s)); [lia | exact Hall].
Qed.

Lemma code_unit_quote s : Forall code_unit s -> Forall code_unit (quote s).
Proof.
  intros Hall. unfold quote. constructor; [unfold code_unit; lia |].
  apply code_unit_app; [apply code_unit_quote_body, Hall |].
  repeat constructor.
Qed.

Lemma code_unit_stringify l : of_code_units l -> Forall code_unit (stringify l).
Proof.
  intros [Hu Hf]. unfold stringify.
  repeat first [ apply code_unit_js
               | apply code_unit_quote; first [exact Hu | exact Hf | apply code_unit_js]
               | apply code_unit_app ].
Qed.

Lemma code_unit_jsonLines links :
  Forall of_code_units links -> Forall code_unit (FileLinkFetcher.jsonLines links).
Proof.
  intros Hall. unfold FileLinkFetcher.jsonLines.
  apply code_unit_app; [repeat constructor; unfold code_unit; lia |].
  apply code_unit_app; [| repeat constructor; unfold code_unit; lia].
  induction Hall as [| l rest Hl Hrest IH]; [constructor |].
  assert (Hrow : Forall code_unit ([32; 32] ++ stringify l)).
  { apply code_unit_app; [repeat constructor; unfold code_unit; lia |].
    apply code_unit_stringify, Hl. }
  destruct rest as [| l' rest'].
  - exact Hrow.
  - change (map ?f (l :: l' :: rest')) with (f l :: map f (l' :: rest')).
    change (FileLinkFetcher.join ?sep (?p :: map ?f (l' :: rest')))
      with (p ++ sep ++ FileLinkFetcher.join sep (map f (l' :: rest'))).
    apply code_unit_app; [exact Hrow |].
    apply code_unit_app; [repeat constructor; unfold code_unit; lia | exact IH].
Qed.

(** X8. The checkpoint text survives the file: its strings being sequences of
    16-bit code units - lone surrogates included, which [JSON.stringify]
    escapes - the text [saveFileLinksToJson] writes has no unpaired
    surrogate, so the UTF-8 bytes [fs.writeFileSync] stores decode, as
    [fs.readFileSync] does, to the very text that was written. *)
Theorem checkpoint_survives_utf8 links :
  Forall of_code_units links ->
  well_formed (FileLinkFetcher.jsonLines links) = true
  /\ decode (encode (FileLinkFetcher.jsonLines links))
     = Some (FileLinkFetcher.jsonLines links).
Proof.
  intros Hall. split; [apply JsonFacts.well_formed_jsonLines |].
  apply decode_encode;
    [apply code_unit_jsonLines, Hall | apply JsonFacts.well_formed_jsonLines].
Qed.

Lemma checkpoint_survives_utf8_witness :
  let link := mkFileLink (js "https://example.com/a") [0xD83D; 0xDE00; 0xD800; 46; 0xAC00] in
  Forall of_code_units [link]
  /\ decode (encode (FileLinkFetcher.jsonLines [link]))
     = Some (FileLinkFetcher.jsonLines [link]).
Proof.
  intros link.
  assert (H : Forall of_code_units [link]).
  { repeat constructor. }
  split; [exact H |].
  exact (proj2 (checkpoint_survives_utf8 [link] H)).
Defined.

End CheckpointFacts.

(** ** Discovery as a whole *)

Module DiscoveryFacts.
Import FileLinkFetcher FetcherFacts Notions TitleFacts.

Section MoreWalkFacts.
Context (pf : Platform) (env : Env) (self : Fetcher).

#[local] Abbreviation walk := (walk pf env self).
#[local] Abbreviation pageResult := (pageResult pf env self).
#[local] Abbreviation pageUrlOf := (pageUrlOf pf self).
#[local] Abbreviation pageEvents := (pageEvents pf env self).
#[local] Abbreviation turnEvents := (turnEvents pf env self).
#[local] Abbreviation linksFrom := (linksFrom pf env self).
#[local] Abbreviation linksOf := (linksOf pf env self).
#[local] Abbreviation urlsFrom := (urlsFrom pf self).
#[local] Abbreviation saveFileLinksToJson := (saveFileLinksToJson pf env self).
#[local] Abbreviation walkAndSave := (walkAndSave pf env self).
#[local] Abbreviation fetchAllFileLinks := (fetchAllFileLinks pf env self).

(** Every link the loop over the anchors pushes is usable. *)
Lemma collectLinks_usable links : forall acc,
  Forall usable acc -> Forall usable (collectLinks pf self links acc).1.
Proof.
  induction links as [| a links IH]; intros acc Hacc; [exact Hacc |].
  cbn [collectLinks]. destruct (extractFileUrl pf self (href a)) as [e | [u |]];
    [exact Hacc | | apply IH, Hacc].
  destruct (extractFileNameFromTitle (title a)) as [name |] eqn:Hname;
    [| apply IH, Hacc].
  destruct (truthy u && truthy name) eqn:Ht; [| apply IH, Hacc].
  apply IH, Forall_app_2; [exact Hacc |]. constructor; [| constructor].
  apply andb_true_iff in Ht as [Hu _]. split; cbn.
  - destruct u; discriminate.
  - apply extract_sound in Hname as (_ & _ & _ & Hshape & _). exact Hshape.
Qed.

Lemma pageResult_usable page links :
  pageResult page = Ret links -> Forall usable links.
Proof.
  unfold FileLinkFetcher.pageResult, getFileLinksFromPage.
  destruct (launches _); [| discriminate].
  unfold bind, emit, console, ret, throw.
  destruct (tryPage pf self (render env page (pageUrlOf page))) as [found err] eqn:Htry.
  cbn [fst snd].
  assert (Hfound : Forall usable found).
  { unfold tryPage in Htry. destruct (anchors _) as [as_ |].
    - pose proof (collectLinks_usable as_ [] (List.Forall_nil _)) as H.
      rewrite Htry in H. exact H.
    - injection Htry as <- _. constructor. }
  destruct err; destruct (closes _); cbn; intros [= <-]; exact Hfound.
Qed.

Lemma walk_usable fuel : forall page lastLinks acc fs links fs' tr,
  walk fuel page lastLinks acc fs = (Ret links, fs', tr) ->
  Forall usable acc -> Forall usable links.
Proof.
  induction fuel as [| fuel IH]; intros page lastLinks acc fs links fs' tr Hrun Hacc.
  - apply triple_inj in Hrun as (Hres & _). discriminate.
  - destruct (pageResult_cases pf env self page) as [[found Hp] | Hp].
    + rewrite (walk_turn _ _ _ _ _ _ _ _ _ Hp) in Hrun.
      pose proof (pageResult_usable _ _ Hp) as Hfound.
      destruct (isDuplicatePage lastLinks found).
      { apply triple_inj in Hrun as ([= <-] & _). exact Hacc. }
      destruct (Z.of_nat (length found) <? maxItemsPerPage self)%Z.
      { apply triple_inj in Hrun as ([= <-] & _). apply Forall_app_2; assumption. }
      destruct (walk fuel (page + 1)%Z found (acc ++ found) fs) as [[r f'] t'] eqn:Hw.
      apply triple_inj in Hrun as (-> & _ & _).
      eapply IH; [exact Hw | apply Forall_app_2; assumption].
    + rewrite (walk_throw _ _ _ _ _ _ _ _ _ Hp) in Hrun.
      apply triple_inj in Hrun as (Hres & _). discriminate.
Qed.

(** A run of [walkAndSave] that hands back a list got it from the walk. *)
Lemma walkAndSave_inv fuel fs links fs' tr :
  walkAndSave fuel fs = (Ret (FromWalk links), fs', tr) ->
  exists tw ts,
    walk fuel (startPage self) [] [] fs = (Ret links, fs, tw)
    /\ saveFileLinksToJson links fs = (Ret tt, fs', ts)
    /\ tr = tw ++ EvLog (LFileLinks links) :: ts.
Proof.
  intros Hrun.
  destruct (walk fuel (startPage self) [] [] fs) as [[r f1] tw] eqn:Hw.
  pose proof (walk_fs _ _ _ _ _ _ _ _ _ _ _ Hw) as ->.
  destruct r as [found | e |].
  - rewrite (walkAndSave_ret _ _ _ _ _ _ _ Hw) in Hrun.
    destruct (saveFileLinksToJson found fs) as [[[[] | e |] f2] ts] eqn:Hs;
      apply triple_inj in Hrun as (Hres & <- & <-); try discriminate.
    injection Hres as <-. exists tw, ts. rewrite Hs. auto.
  - unfold FileLinkFetcher.walkAndSave, bind in Hrun. rewrite Hw in Hrun.
    apply triple_inj in Hrun as (Hres & _). discriminate.
  - unfold FileLinkFetcher.walkAndSave, bind in Hrun. rewrite Hw in Hrun.
    apply triple_inj in Hrun as (Hres & _). discriminate.
Qed.

(** A run of [fetchAllFileLinks] that hands back a walked list went through
    [walkAndSave]. *)
Lemma fetchAll_walked fuel answer fs links :
  (fetchAllFileLinks fuel answer fs).1.1 = Ret (FromWalk links) ->
  exists fs' tr, walkAndSave fuel fs = (Ret (FromWalk links), fs', tr).
Proof.
  intros Hrun.
  destruct (fs !! outputFilePath self) as [node |] eqn:Hout.
  - destruct (confirms answer) eqn:Hc.
    + exfalso. revert Hrun. unfold FileLinkFetcher.fetchAllFileLinks.
      unfold bind at 1. unfold existsSync.
      rewrite bool_decide_eq_true_2 by (rewrite Hout; eauto).
      unfold askUserConfirmation, loadExisting. rewrite Hc.
      unfold bind, console, emit, ret, throw, readFileSync. rewrite Hout.
      destruct node as [text |]; [| discriminate].
      destruct (Json.parse text) as [v |]; [| discriminate].
      destruct (length_of v); discriminate.
    + rewrite (fetchAll_declined pf env self _ _ _ ltac:(rewrite Hout; eauto) Hc) in Hrun.
      destruct (walkAndSave fuel fs) as [[r f'] t']. cbn in Hrun. subst r. eauto.
  - rewrite (fetchAll_fresh pf env self _ _ _ Hout) in Hrun.
    destruct (walkAndSave fuel fs) as [[r f'] t']. cbn in Hrun. subst r. eauto.
Qed.

(** The shape of any run of the loop. *)
Lemma walk_shape fuel : forall page lastLinks acc fs res fs' tr,
  walk fuel page lastLinks acc fs = (res, fs', tr) ->
  exists m,
    (m <= fuel)%nat /\ fetched tr = urlsFrom page m
    /\ forall links, res = Ret links ->
         (1 <= m)%nat
         /\ ((last tr = Some (EvLog (LStopDuplicate (page + Z.of_nat m - 1)))
              /\ links = acc ++ linksFrom page (m - 1))
             \/ (last tr = Some (EvLog (LStopShort (maxItemsPerPage self)))
                 /\ links = acc ++ linksFrom page m)).
Proof.
  induction fuel as [| fuel IH]; intros page lastLinks acc fs res fs' tr Hrun.
  - apply triple_inj in Hrun as (<- & _ & <-). exists 0%nat.
    split; [lia |]. split; [reflexivity |]. discriminate.
  - destruct (pageResult_cases pf env self page) as [[found Hp] | Hp].
    + rewrite (walk_turn _ _ _ _ _ _ _ _ _ Hp) in Hrun.
      pose proof (linksOf_ret _ _ _ _ _ Hp) as Hof.
      destruct (isDuplicatePage lastLinks found).
      { apply triple_inj in Hrun as (<- & _ & <-). exists 1%nat.
        split; [lia |]. split.
        - rewrite fetched_app, (fetched_turnEvents _ _ _ _ _ Hp). reflexivity.
        - intros links [= <-]. split; [lia |]. left. split.
          + rewrite last_snoc. do 3 f_equal. lia.
          + cbn. rewrite app_nil_r. reflexivity. }
      destruct (Z.of_nat (length found) <? maxItemsPerPage self)%Z.
      { apply triple_inj in Hrun as (<- & _ & <-). exists 1%nat.
        split; [lia |]. split.
        - rewrite fetched_app, (fetched_turnEvents _ _ _ _ _ Hp). reflexivity.
        - intros links [= <-]. split; [lia |]. right. split.
          + rewrite last_snoc. reflexivity.
          + cbn. rewrite Hof, app_nil_r. reflexivity. }
      destruct (walk fuel (page + 1)%Z found (acc ++ found) fs) as [[r f'] t'] eqn:Hw.
      apply triple_inj in Hrun as (<- & _ & <-).
      destruct (IH _ _ _ _ _ _ _ Hw) as (m & Hm & Hfetched & Hret).
      exists (S m). split; [lia |]. split.
      * rewrite fetched_app, (fetched_turnEvents _ _ _ _ _ Hp), Hfetched. reflexivity.
      * intros links ->. destruct (Hret _ eq_refl) as (H1 & Hcases).
        split; [lia |].
        assert (Hlast : last (turnEvents page found ++ t') = last t').
        { destruct Hcases as [[Hl _] | [Hl _]];
            rewrite last_app, Hl; reflexivity. }
        rewrite Hlast.
        destruct Hcases as [[Hl ->] | [Hl ->]]; [left | right]; split.
        -- rewrite Hl. do 3 f_equal. lia.
        -- replace (S m - 1)%nat with (S (m - 1)) by lia.
           cbn [FileLinkFetcher.linksFrom]. rewrite Hof, <- app_assoc. reflexivity.
        -- exact Hl.
        -- cbn [FileLinkFetcher.linksFrom]. rewrite Hof, <- app_assoc. reflexivity.
    + rewrite (walk_throw _ _ _ _ _ _ _ _ _ Hp) in Hrun.
      apply triple_inj in Hrun as (<- & _ & <-).
      exists (if launches (render env page (pageUrlOf page)) then 1 else 0)%nat.
      split; [destruct (launches _); lia |]. split.
      * change (fetched (EvLog ?l :: ?t)) with (fetched t).
        rewrite fetched_pageEvents. destruct (launches _); reflexivity.
      * discriminate.
Qed.

(** The loop only logs and navigates. *)
Lemma walk_events fuel : forall page lastLinks acc fs ev,
  In ev (walk fuel page lastLinks acc fs).2 ->
  (exists l, ev = EvLog l) \/ (exists u, ev = EvGoto u).
Proof.
  assert (Hturn : forall page found ev, In ev (turnEvents page found) ->
            (exists l, ev = EvLog l) \/ (exists u, ev = EvGoto u)).
  { intros page found ev [<- | Hin]; [eauto |].
    apply in_app_iff in Hin as [Hin | [<- | []]]; [| eauto].
    apply pageEvents_cases in Hin as [-> | [err ->]]; eauto. }
  induction fuel as [| fuel IH]; intros page lastLinks acc fs ev Hin; [destruct Hin |].
  destruct (pageResult_cases pf env self page) as [[found Hp] | Hp].
  - rewrite (walk_turn _ _ _ _ _ _ _ _ _ Hp) in Hin.
    destruct (isDuplicatePage lastLinks found).
    { cbn [snd] in Hin. apply in_app_iff in Hin as [Hin | [<- | []]]; eauto. }
    destruct (Z.of_nat (length found) <? maxItemsPerPage self)%Z.
    { cbn [snd] in Hin. apply in_app_iff in Hin as [Hin | [<- | []]]; eauto. }
    specialize (IH (page + 1)%Z found (acc ++ found) fs ev).
    destruct (walk fuel (page + 1)%Z found (acc ++ found) fs) as [[r f'] t'].
    cbn [snd] in *. apply in_app_iff in Hin as [Hin | Hin]; eauto.
  - rewrite (walk_throw _ _ _ _ _ _ _ _ _ Hp) in Hin. cbn [snd] in Hin.
    destruct Hin as [<- | Hin]; [eauto |].
    apply pageEvents_cases in Hin as [-> | [err ->]]; eauto.
Qed.

(** The loop, kept going up to a page on which the browser fails. *)
Lemma walk_aborts k : forall fuel page lastLinks acc fs e,
  keepsGoing pf env self page lastLinks k ->
  pageResult (page + Z.of_nat k) = Throw e ->
  (k < fuel)%nat ->
  (walk fuel page lastLinks acc fs).1 = (Throw e, fs).
Proof.
  induction k as [| k IH]; intros fuel page lastLinks acc fs e Hgo Hk Hfuel.
  - rewrite Z.add_0_r in Hk. destruct fuel as [| fuel]; [lia |].
    rewrite (walk_throw _ _ _ _ _ _ _ _ _ Hk). reflexivity.
  - destruct fuel as [| fuel]; [lia |].
    destruct Hgo as (found & Hp & Hdup & Hfull & Hgo).
    rewrite (walk_turn _ _ _ _ _ _ _ _ _ Hp), Hdup, Hfull.
    replace (page + Z.of_nat (S k))%Z with (page + 1 + Z.of_nat k)%Z in Hk by lia.
    pose proof (IH fuel (page + 1)%Z found (acc ++ found) fs e Hgo Hk ltac:(lia)) as Hw.
    destruct (walk fuel (page + 1)%Z found (acc ++ found) fs) as [[r f'] t'].
    exact Hw.
Qed.

End MoreWalkFacts.

Section SaveFacts.
Context (pf : Platform) (env : Env) (self : Fetcher).

(** What a save may change, whatever its outcome: the checkpoint, and the
    places on the way of its folder, which become directories when they held
    nothing. *)
Lemma save_frame links fs r fs' ts :
  let out := outputFilePath self in
  let dir := path_dirname pf out in
  saveFileLinksToJson pf env self links fs = (r, fs', ts) ->
  ~ Fs.on_the_way fs dir (Fs.place_of fs out) ->
  cwd fs' = cwd fs
  /\ (forall place,
        place <> Fs.place_of fs out -> ~ Fs.on_the_way fs dir place ->
        Fs.entry fs' place = Fs.entry fs place)
  /\ (forall place,
        Fs.on_the_way fs dir place ->
        Fs.entry fs' place = Fs.entry fs place
        \/ (Fs.entry fs place = None /\ Fs.entry fs' place = Some Dir))
  /\ ((r = Ret tt /\ fs' !! out = Some (File (jsonLines links)))
      \/ ((exists p, r = Throw (IOError p))
          /\ Fs.entry fs' (Fs.place_of fs out) = Fs.entry fs (Fs.place_of fs out))).
Proof.
  intros out dir. subst out.
  unfold saveFileLinksToJson, bind, existsSync, mkdirSync,
    writeFileSync, console, emit, ret.
  fold dir. set (out := outputFilePath self).
  intros Hrun Hout.
  assert (Hself : forall place, Fs.on_the_way fs dir place -> place <> Fs.place_of fs out)
    by (intros place Hway ->; exact (Hout Hway)).
  destruct (bool_decide (is_Some (fs !! dir))) eqn:Hdir.
  - destruct (Fs.can_write fs out) eqn:Hcw; destruct (writable env out); cbn [andb] in Hrun;
      apply triple_inj in Hrun as (<- & <- & _);
      try (split; [reflexivity |]; split; [reflexivity |]; split; [auto |];
           right; split; [eauto | reflexivity]).
    split; [apply FsFacts.cwd_insert |].
    split; [intros place Hne _; apply FsFacts.entry_write_ne; assumption |].
    split; [intros place Hway; left; apply FsFacts.entry_write_ne; auto |].
    left. split; [reflexivity | apply FsFacts.lookup_write_eq, Hcw].
  - destruct (Fs.can_make fs dir) eqn:Hcm; destruct (writable env dir); cbn [andb] in Hrun;
      try (apply triple_inj in Hrun as (<- & <- & _);
           split; [reflexivity |]; split; [reflexivity |]; split; [auto |];
           right; split; [eauto | reflexivity]).
    assert (Hoff : forall place, ~ Fs.on_the_way fs dir place ->
              Fs.entry (<[dir := Dir]> fs) place = Fs.entry fs place).
    { intros place Hway. apply FsFacts.entry_mkdir_off_way; [exact Hcm |].
      intros passed Hin Hp. apply Hway. exists passed. auto. }
    assert (Hon : forall place, Fs.on_the_way fs dir place ->
              Fs.entry (<[dir := Dir]> fs) place = Fs.entry fs place
              \/ (Fs.entry fs place = None
                  /\ Fs.entry (<[dir := Dir]> fs) place = Some Dir)).
    { intros place (passed & Hin & Hp).
      pose proof (FsFacts.entry_mkdir_on_way _ _ _ _ Hcm Hin Hp) as Hafter.
      destruct (FsFacts.entry_before_mkdir _ _ _ _ Hcm Hin Hp) as [Hb | Hb].
      - right. auto.
      - left. congruence. }
    assert (Hplace : Fs.place_of (<[dir := Dir]> fs) out = Fs.place_of fs out)
      by apply FsFacts.place_of_insert.
    destruct (Fs.can_write (<[dir := Dir]> fs) out) eqn:Hcw; destruct (writable env out);
      cbn [andb] in Hrun; apply triple_inj in Hrun as (<- & <- & _);
      try (split; [apply FsFacts.cwd_insert |]; split; [intros place _; apply Hoff |];
           split; [exact Hon |]; right; split; [eauto | apply Hoff, Hout]).
    split; [rewrite !FsFacts.cwd_insert; reflexivity |].
    split.
    { intros place Hne Hway. rewrite FsFacts.entry_write_ne; [apply Hoff, Hway | exact Hcw |].
      rewrite Hplace. exact Hne. }
    split.
    { intros place Hway. rewrite FsFacts.entry_write_ne; [apply Hon, Hway | exact Hcw |].
      rewrite Hplace. apply Hself, Hway. }
    left. split; [reflexivity | apply FsFacts.lookup_write_eq, Hcw].
Qed.

(** [walkAndSave], whatever the walk does. *)
Lemma walkAndSave_run fuel fs :
  walkAndSave pf env self fuel fs =
    match walk pf env self fuel (startPage self) [] [] fs with
    | (Ret links, _, tw) =>
        let '(r, fs', ts) := saveFileLinksToJson pf env self links fs in
        (match r with
         | Ret _ => Ret (FromWalk links)
         | Throw e => Throw e
         | Starved => Starved
         end, fs', tw ++ EvLog (LFileLinks links) :: ts)
    | (Throw e, _, tw) => (Throw e, fs, tw)
    | (Starved, _, tw) => (Starved, fs, tw)
    end.
Proof.
  destruct (walk pf env self fuel (startPage self) [] [] fs) as [[r f1] tw] eqn:Hw.
  pose proof (walk_fs _ _ _ _ _ _ _ _ _ _ _ Hw) as ->.
  destruct r as [links | e |].
  - apply (walkAndSave_ret _ _ _ _ _ _ _ Hw).
  - unfold walkAndSave, bind. rewrite Hw. reflexivity.
  - unfold walkAndSave, bind. rewrite Hw. reflexivity.
Qed.

(** [fetchAllFileLinks] when the operator reuses the checkpoint. *)
Lemma fetchAll_reuse_run fuel answer fs :
  is_Some (fs !! outputFilePath self) ->
  confirms answer = true ->
  fetchAllFileLinks pf env self fuel answer fs =
    let out := outputFilePath self in
    let asked := [EvLog (LExisting out); EvPrompt reuseMessage] in
    match fs !! out with
    | Some (File text) =>
        match Json.parse text with
        | None => (Throw SyntaxError, fs, asked)
        | Some v =>
            match length_of v with
            | inl e => (Throw e, fs, asked)
            | inr n => (Ret (FromCheckpoint v), fs, asked ++ [EvLog (LLoaded n out)])
            end
        end
    | _ => (Throw (IOError out), fs, asked)
    end.
Proof.
  intros Hsome Hyes. unfold fetchAllFileLinks.
  unfold bind at 1. unfold existsSync.
  rewrite bool_decide_eq_true_2 by exact Hsome.
  unfold askUserConfirmation, loadExisting. rewrite Hyes.
  unfold bind, console, emit, ret, throw, readFileSync.
  destruct (fs !! outputFilePath self) as [[text |] |]; try reflexivity.
  destruct (Json.parse text) as [v |]; [| reflexivity].
  destruct (length_of v); reflexivity.
Qed.
(** Saving the checkpoint keeps the working directory. *)
Lemma save_cwd links fs :
  cwd (saveFileLinksToJson pf env self links fs).1.2 = cwd fs.
Proof.
  unfold saveFileLinksToJson, bind, existsSync, mkdirSync, writeFileSync, console, emit, ret.
  destruct (bool_decide _).
  - destruct (Fs.can_write fs _ && writable env _); [apply FsFacts.cwd_insert | reflexivity].
  - destruct (Fs.can_make fs _ && writable env _); [| reflexivity].
    destruct (Fs.can_write _ _ && writable env _); cbn [fst snd];
      rewrite ?FsFacts.cwd_insert; reflexivity.
Qed.

(** Discovery keeps the working directory. *)
Lemma discovery_keeps_cwd fuel answer fs :
  cwd (fetchAllFileLinks pf env self fuel answer fs).1.2 = cwd fs.
Proof.
  assert (Hws : cwd (walkAndSave pf env self fuel fs).1.2 = cwd fs).
  { rewrite walkAndSave_run.
    destruct (walk pf env self fuel (startPage self) [] [] fs) as [[[links | e |] f1] tw];
      [| reflexivity | reflexivity].
    pose proof (save_cwd links fs) as Hs.
    destruct (saveFileLinksToJson pf env self links fs) as [[r fs'] ts]. exact Hs. }
  destruct (fs !! outputFilePath self) as [node |] eqn:Hfound.
  - destruct (confirms answer) eqn:Hc.
    + rewrite (fetchAll_reuse_run fuel answer fs ltac:(rewrite Hfound; eauto) Hc).
      cbv zeta. rewrite Hfound.
      destruct node as [text |]; [| reflexivity].
      destruct (Json.parse text) as [v |]; [| reflexivity].
      destruct (length_of v); reflexivity.
    + rewrite (fetchAll_declined pf env self _ _ _ ltac:(rewrite Hfound; eauto) Hc).
      destruct (walkAndSave pf env self fuel fs) as [[r f'] t']. exact Hws.
  - rewrite (fetchAll_fresh pf env self _ _ _ Hfound). exact Hws.
Qed.
End SaveFacts.

Section SourceFacts.
Context (pf : Platform) (env : Env) (self : Fetcher).

(** Every link the loop over the anchors pushes is the reference of one of
    the anchors. *)
Lemma collectLinks_from shown : forall acc l,
  In l (collectLinks pf self shown acc).1 ->
  In l acc \/ exists a, In a shown /\ referenceOf pf self a = Some l.
Proof.
  induction shown as [| a shown IH]; intros acc l Hin; [left; exact Hin |].
  cbn [collectLinks] in Hin.
  assert (Hrest : In l (collectLinks pf self shown acc).1 ->
                  In l acc \/ exists b, In b (a :: shown) /\ referenceOf pf self b = Some l).
  { intros H. destruct (IH _ _ H) as [Ha | (b & Hb & Hr)]; [auto |].
    right. exists b. split; [right; exact Hb | exact Hr]. }
  unfold referenceOf in *.
  destruct (extractFileUrl pf self (href a)) as [e | [u |]] eqn:Hu;
    [left; exact Hin | | auto].
  destruct (extractFileNameFromTitle (title a)) as [name |] eqn:Hname; [| auto].
  destruct (truthy u && truthy name) eqn:Ht; [| auto].
  destruct (IH _ _ Hin) as [Ha | (b & Hb & Hr)].
  - apply in_app_or in Ha as [Ha | [<- | []]]; [auto |].
    right. exists a. split; [left; reflexivity |]. rewrite Hu, Hname, Ht. reflexivity.
  - right. exists b. split; [right; exact Hb | exact Hr].
Qed.

Lemma pageResult_from page links l :
  pageResult pf env self page = Ret links -> In l links ->
  exists shown a,
    anchors (render env page (pageUrlOf pf self page)) = Some shown
    /\ In a shown /\ referenceOf pf self a = Some l.
Proof.
  unfold pageResult, getFileLinksFromPage.
  destruct (launches _); [| discriminate].
  unfold bind, emit, console, ret, throw.
  destruct (tryPage pf self (render env page (pageUrlOf pf self page)))
    as [found err] eqn:Htry.
  cbn [fst snd].
  assert (Hfound : In l found ->
            exists shown a,
              anchors (render env page (pageUrlOf pf self page)) = Some shown
              /\ In a shown /\ referenceOf pf self a = Some l).
  { unfold tryPage in Htry. destruct (anchors _) as [shown |].
    - intros Hin. pose proof (collectLinks_from shown [] l) as H.
      rewrite Htry in H. destruct (H Hin) as [[] | (a & Ha & Hr)]. eauto.
    - injection Htry as <- _. intros []. }
  destruct err; destruct (closes _); cbn; intros [= <-]; exact Hfound.
Qed.

Lemma linksFrom_from count : forall page l,
  In l (linksFrom pf env self page count) ->
  exists k, In l (linksOf pf env self (page + Z.of_nat k)).
Proof.
  induction count as [| count IH]; intros page l Hin; [destruct Hin |].
  cbn [linksFrom] in Hin. apply in_app_or in Hin as [Hin | Hin].
  - exists 0%nat. rewrite Z.add_0_r. exact Hin.
  - destruct (IH _ _ Hin) as [k Hk]. exists (S k).
    replace (page + Z.of_nat (S k))%Z with (page + 1 + Z.of_nat k)%Z by lia. exact Hk.
Qed.

(** A page delivered without a failure yields the references of its
    anchors, in order. *)
Lemma pageResult_through page shown :
  let r := render env page (pageUrlOf pf self page) in
  launches r = true -> closes r = true -> anchors r = Some shown ->
  (forall a, In a shown -> exists u, extractFileUrl pf self (href a) = inr u) ->
  pageResult pf env self page = Ret (omap (referenceOf pf self) shown).
Proof.
  intros r Hl Hc Ha Hok.
  destruct (try_block_absorbs pf env self page Hl Hc) as [Hp _]. fold r in Hp.
  rewrite Hp. unfold tryPage. rewrite Ha.
  rewrite (collectLinks_through pf self shown [] Hok). reflexivity.
Qed.
End SourceFacts.

(** X9. Every reference a page walk hands back has a non-empty url and a file
    name of the shape the title pattern matches, and is the reference of an
    anchor of a page; a page delivered without a failure yields the
    references of its anchors, in their order, and nothing else; and an
    anchor whose href the download pattern does not match, or whose title
    holds no file name, has no reference. *)
Theorem discovered_links_are_usable pf env self fuel answer fs links :
  (fetchAllFileLinks pf env self fuel answer fs).1.1 = Ret (FromWalk links) ->
  Forall usable links
  /\ (forall l, In l links ->
        exists page shown a,
          anchors (render env page (pageUrlOf pf self page)) = Some shown
          /\ In a shown /\ referenceOf pf self a = Some l)
  /\ (forall page shown,
        let r := render env page (pageUrlOf pf self page) in
        launches r = true -> closes r = true -> anchors r = Some shown ->
        (forall a, In a shown -> exists u, extractFileUrl pf self (href a) = inr u) ->
        pageResult pf env self page = Ret (omap (referenceOf pf self) shown))
  /\ (forall a,
        downloadPattern self (href a) = None
        \/ extractFileNameFromTitle (title a) = None ->
        referenceOf pf self a = None).
Proof.
  intros (fs' & tr & Hws)%fetchAll_walked.
  apply walkAndSave_inv in Hws as (tw & ts & Hw & _).
  split; [exact (walk_usable _ _ _ _ _ _ _ _ _ _ _ Hw (List.Forall_nil _)) |].
  split.
  { intros l Hin.
    destruct (walk_shape pf env self _ _ _ _ _ _ _ _ Hw) as (m & _ & _ & Hres).
    destruct (Hres _ eq_refl) as (_ & [[_ ->] | [_ ->]]);
      apply linksFrom_from in Hin as [k Hk]; unfold linksOf in Hk;
      destruct (pageResult pf env self (startPage self + Z.of_nat k)) as [found | |] eqn:Hp;
      try destruct Hk;
      destruct (pageResult_from pf env self _ _ _ Hp Hk) as (shown & a & H);
      eauto. }
  split; [intros page shown; apply pageResult_through |].
  intros a H. unfold referenceOf, extractFileUrl.
  destruct H as [-> | ->]; [reflexivity |].
  destruct (downloadPattern self (href a)) as [m |]; [| reflexivity].
  destruct (startsWith (js "http") m); [reflexivity |].
  destruct (url_href pf m (baseUrl self)); reflexivity.
Qed.

Lemma discovered_links_are_usable_witness :
  let unmatched := mkAnchor (js "other") (js "x.pdf") in
  let untitled := mkAnchor (js "/files/z") (js "no name") in
  let shown := [Sample.anchorA; unmatched; untitled; Sample.anchorB] in
  let env := Sample.site [shown] in
  let self := Sample.fetcher 80 in
  (fetchAllFileLinks Sample.platform env self 5 [] ∅).1.1
  = Ret (FromWalk [Sample.linkA; Sample.linkB])
  /\ Forall usable [Sample.linkA; Sample.linkB]
  /\ pageResult Sample.platform env self 1 = Ret [Sample.linkA; Sample.linkB]
  /\ referenceOf Sample.platform self unmatched = None
  /\ referenceOf Sample.platform self untitled = None.
Proof.
  intros unmatched untitled shown env self.
  assert (H : (fetchAllFileLinks Sample.platform env self 5 [] ∅).1.1
              = Ret (FromWalk [Sample.linkA; Sample.linkB]))
    by (vm_compute; reflexivity).
  split; [exact H |].
  destruct (discovered_links_are_usable Sample.platform env self 5 [] ∅ _ H)
    as (Husable & _ & Hpage & Hnone).
  split; [exact Husable |]. split.
  - etransitivity; [apply (Hpage 1%Z shown eq_refl eq_refl eq_refl) | vm_compute; reflexivity].
    intros a Hin. cbn in Hin.
    repeat (destruct Hin as [<- | Hin]; [eexists; vm_compute; reflexivity |]).
    destruct Hin.
  - split; apply Hnone; [left | right]; vm_compute; reflexivity.
Defined.





(** X12. A failure of the browser itself (launch, new page or close) on a page
    the walk reaches is not absorbed: [fetchAllFileLinks] raises it, the
    references of the pages before it are dropped, and nothing is written. *)
Theorem browser_failure_aborts_discovery pf env self fuel answer fs (k : nat) e :
  keepsGoing pf env self (startPage self) [] k ->
  pageResult pf env self (startPage self + Z.of_nat k) = Throw e ->
  (k < fuel)%nat ->
  fs !! outputFilePath self = None \/ confirms answer = false ->
  let run := fetchAllFileLinks pf env self fuel answer fs in
  run.1 = (Throw e, fs)
  /\ forall ev, In ev run.2 ->
       (exists l, ev = EvLog l) \/ (exists u, ev = EvGoto u)
       \/ ev = EvPrompt reuseMessage.
Proof.
  intros Hgo Hk Hfuel Hfresh run.
  pose proof (walk_aborts pf env self k fuel (startPage self) [] [] fs e Hgo Hk Hfuel) as Hw.
  pose proof (walk_events pf env self fuel (startPage self) [] [] fs) as Hev.
  assert (Hws : walkAndSave pf env self fuel fs
                = (Throw e, fs, (walk pf env self fuel (startPage self) [] [] fs).2)).
  { rewrite walkAndSave_run.
    destruct (walk pf env self fuel (startPage self) [] [] fs) as [[r f1] tw].
    cbn in Hw. injection Hw as -> ->. reflexivity. }
  subst run. destruct (fs !! outputFilePath self) as [node |] eqn:Hout.
  - destruct Hfresh as [Hfresh | Hno]; [discriminate |].
    rewrite (fetchAll_declined pf env self _ _ _ ltac:(rewrite Hout; eauto) Hno), Hws.
    split; [reflexivity |]. cbn [snd].
    intros ev [<- | [<- | [<- | Hin]]]; eauto.
    destruct (Hev _ Hin); eauto.
  - rewrite (fetchAll_fresh pf env self _ _ _ Hout), Hws.
    split; [reflexivity |]. cbn [snd]. intros ev Hin. destruct (Hev _ Hin); eauto.
Qed.

Lemma browser_failure_aborts_discovery_witness :
  let env := Scenario.crashing [[Sample.anchorA]] in
  let self := Sample.fetcher 1 in
  (keepsGoing Sample.platform env self 1 [] 1
   /\ pageResult Sample.platform env self 2 = Throw BrowserError)
  /\ (fetchAllFileLinks Sample.platform env self 5 [] ∅).1 = (Throw BrowserError, ∅).
Proof.
  intros env self.
  assert (Hgo : keepsGoing Sample.platform env self 1 [] 1).
  { exists [Sample.linkA]. repeat split. }
  assert (Hk : pageResult Sample.platform env self (1 + Z.of_nat 1) = Throw BrowserError)
    by reflexivity.
  split; [split; [exact Hgo | exact Hk] |].
  apply (browser_failure_aborts_discovery Sample.platform env self 5 [] ∅ 1
           BrowserError Hgo Hk); [lia | left; reflexivity].
Defined.

(** X13. When the operator chooses to reuse the checkpoint, no page is fetched
    and nothing is written, whatever the file holds: the outcome is the
    parsed value, or the error of reading a directory (IOError), of text that
    is not JSON (SyntaxError), or of taking the length of null (TypeError).
    There is no fall-back to the page walk. *)
Theorem reuse_never_fetches pf env self fuel answer fs :
  is_Some (fs !! outputFilePath self) ->
  confirms answer = true ->
  let run := fetchAllFileLinks pf env self fuel answer fs in
  run.1.2 = fs
  /\ fetched run.2 = []
  /\ (forall p, ~ In (EvWriteFile p) run.2)
  /\ run.1.1 =
       match fs !! outputFilePath self with
       | Some (File text) =>
           match Json.parse text with
           | None => Throw SyntaxError
           | Some Json.JNull => Throw TypeError
           | Some v => Ret (FromCheckpoint v)
           end
       | _ => Throw (IOError (outputFilePath self))
       end.
Proof.
  intros Hsome Hyes run. subst run.
  rewrite (fetchAll_reuse_run pf env self fuel answer fs Hsome Hyes). cbv zeta.
  destruct (fs !! outputFilePath self) as [[text |] |].
  - destruct (Json.parse text) as [v |].
    + destruct v; cbn; repeat split; try reflexivity;
        intros p Hin; cbn in Hin; intuition discriminate.
    + cbn. repeat split; try reflexivity. intros p Hin; cbn in Hin; intuition discriminate.
  - cbn. repeat split; try reflexivity. intros p Hin; cbn in Hin; intuition discriminate.
  - cbn. repeat split; try reflexivity. intros p Hin; cbn in Hin; intuition discriminate.
Qed.

Lemma reuse_never_fetches_witness :
  let env := Sample.site [[Sample.anchorA]] in
  let self := Sample.fetcher 1 in
  let fs : FS := <[outputFilePath self := File (js "[1,")]> ∅ in
  let run := fetchAllFileLinks Sample.platform env self 5 (js "y") fs in
  run.1.2 = fs /\ fetched run.2 = [] /\ run.1.1 = Throw SyntaxError.
Proof.
  intros env self fs run.
  destruct (reuse_never_fetches Sample.platform env self 5 (js "y") fs
              ltac:(vm_compute; eauto) eq_refl) as (Hfs & Hf & _ & Hres).
  split; [exact Hfs |]. split; [exact Hf |].
  etransitivity; [exact Hres | vm_compute; reflexivity].
Defined.

(** X14. Whatever its outcome, [fetchAllFileLinks] changes nothing in the file
    system but the checkpoint and the places on the way of its folder, which
    become directories when they held nothing; and the checkpoint changes
    only in a run that returns a walked list, to the text of that whole list.
    The folder is whatever [path.dirname] makes of the checkpoint path; the
    checkpoint is taken not to lie on its way. *)
Theorem discovery_touches_only_the_checkpoint pf env self fuel answer fs :
  let out := outputFilePath self in
  let dir := path_dirname pf out in
  ~ Fs.on_the_way fs dir (Fs.place_of fs out) ->
  let run := fetchAllFileLinks pf env self fuel answer fs in
  cwd run.1.2 = cwd fs
  /\ (forall place,
        place <> Fs.place_of fs out -> ~ Fs.on_the_way fs dir place ->
        Fs.entry run.1.2 place = Fs.entry fs place)
  /\ (forall place,
        Fs.on_the_way fs dir place ->
        Fs.entry run.1.2 place = Fs.entry fs place
        \/ (Fs.entry fs place = None /\ Fs.entry run.1.2 place = Some Dir))
  /\ (Fs.entry run.1.2 (Fs.place_of fs out) = Fs.entry fs (Fs.place_of fs out)
      \/ exists links,
           run.1.1 = Ret (FromWalk links)
           /\ run.1.2 !! out = Some (File (jsonLines links))).
Proof.
  intros out dir Hout run.
  assert (Hsame : forall (r : Res LinkList) (t : list Event),
            let same := (r, fs, t) in
            cwd same.1.2 = cwd fs
            /\ (forall place,
                  place <> Fs.place_of fs out -> ~ Fs.on_the_way fs dir place ->
                  Fs.entry same.1.2 place = Fs.entry fs place)
            /\ (forall place,
                  Fs.on_the_way fs dir place ->
                  Fs.entry same.1.2 place = Fs.entry fs place
                  \/ (Fs.entry fs place = None /\ Fs.entry same.1.2 place = Some Dir))
            /\ (Fs.entry same.1.2 (Fs.place_of fs out) = Fs.entry fs (Fs.place_of fs out)
                \/ exists links,
                     same.1.1 = Ret (FromWalk links)
                     /\ same.1.2 !! out = Some (File (jsonLines links)))).
  { intros r t. cbn. auto. }
  assert (Hws : let ws := walkAndSave pf env self fuel fs in
            cwd ws.1.2 = cwd fs
            /\ (forall place,
                  place <> Fs.place_of fs out -> ~ Fs.on_the_way fs dir place ->
                  Fs.entry ws.1.2 place = Fs.entry fs place)
            /\ (forall place,
                  Fs.on_the_way fs dir place ->
                  Fs.entry ws.1.2 place = Fs.entry fs place
                  \/ (Fs.entry fs place = None /\ Fs.entry ws.1.2 place = Some Dir))
            /\ (Fs.entry ws.1.2 (Fs.place_of fs out) = Fs.entry fs (Fs.place_of fs out)
                \/ exists links,
                     ws.1.1 = Ret (FromWalk links)
                     /\ ws.1.2 !! out = Some (File (jsonLines links)))).
  { cbv zeta. rewrite walkAndSave_run.
    destruct (walk pf env self fuel (startPage self) [] [] fs) as [[[links | e |] f1] tw];
      [| apply Hsame | apply Hsame].
    destruct (saveFileLinksToJson pf env self links fs) as [[r fs'] ts] eqn:Hs.
    destruct (save_frame pf env self _ _ _ _ _ Hs Hout) as (Hcwd & Hframe & Hdir & Hres).
    cbn [fst snd]. split; [exact Hcwd |]. split; [exact Hframe |]. split; [exact Hdir |].
    destruct Hres as [[-> Hfile] | [_ Hkept]]; [right; eauto | left; exact Hkept]. }
  subst run. destruct (fs !! outputFilePath self) as [node |] eqn:Hfound.
  - destruct (confirms answer) eqn:Hc.
    + rewrite (fetchAll_reuse_run pf env self fuel answer fs
                 ltac:(rewrite Hfound; eauto) Hc). cbv zeta. rewrite Hfound.
      destruct node as [text |]; [| apply Hsame].
      destruct (Json.parse text) as [v |]; [| apply Hsame].
      destruct (length_of v); apply Hsame.
    + rewrite (fetchAll_declined pf env self _ _ _ ltac:(rewrite Hfound; eauto) Hc).
      cbv zeta in Hws.
      destruct (walkAndSave pf env self fuel fs) as [[r f'] t']. exact Hws.
  - rewrite (fetchAll_fresh pf env self _ _ _ Hfound). exact Hws.
Qed.

Lemma discovery_touches_only_the_checkpoint_witness :
  let env := Sample.site [[Sample.anchorA]] in
  let self := Sample.fetcher 80 in
  let fs : FS := <[js "./notes.txt" := File (js "keep")]> ∅ in
  let run := fetchAllFileLinks Sample.platform env self 5 [] fs in
  ~ Fs.on_the_way fs (path_dirname Sample.platform (outputFilePath self))
      (Fs.place_of fs (outputFilePath self))
  /\ Fs.entry run.1.2 [js "notes.txt"] = Some (File (js "keep"))
  /\ Fs.entry run.1.2 [js "downloads"] = Some Dir.
Proof.
  intros env self fs run.
  assert (Hout : ~ Fs.on_the_way fs (path_dirname Sample.platform (outputFilePath self))
                     (Fs.place_of fs (outputFilePath self))).
  { intros (passed & Hin & [more Hp]). vm_compute in Hin.
    repeat (destruct Hin as [<- | Hin]; [vm_compute in Hp; congruence |]).
    destruct Hin. }
  split; [exact Hout |].
  destruct (discovery_touches_only_the_checkpoint Sample.platform env self 5 [] fs Hout)
    as (_ & Hframe & Hway & _).
  split.
  - etransitivity; [apply (Hframe [js "notes.txt"]) | vm_compute; reflexivity].
    + vm_compute. congruence.
    + intros (passed & Hin & [more Hp]). vm_compute in Hin.
      repeat (destruct Hin as [<- | Hin]; [vm_compute in Hp; congruence |]).
      destruct Hin.
  - destruct (Hway [js "downloads"]) as [Hkept | [_ Hmade]]; [| | exact Hmade].
    + exists [js "downloads"]. split; [vm_compute; auto | reflexivity].
    + vm_compute. reflexivity.
Defined.

Lemma js_inj a b : js a = js b -> a = b.
Proof.
  unfold js. intros H.
  rewrite <- (string_of_list_ascii_of_string a), <- (string_of_list_ascii_of_string b).
  f_equal. revert H.
  generalize (list_ascii_of_string a) (list_ascii_of_string b).
  induction l as [| x l IH]; intros [| y l'] H; try discriminate; [reflexivity |].
  cbn in H. injection H as Hxy Hl. f_equal; [| apply IH, Hl].
  rewrite <- (ascii_N_embedding x), <- (ascii_N_embedding y). congruence.
Qed.

(** [n.toString()] tells the integers apart. *)
Lemma decimal_inj p q : decimal p = decimal q -> p = q.
Proof.
  unfold decimal. intros H%js_inj.
  assert (Hnn : forall z, Z.to_int z <> Decimal.Pos Decimal.Nil
                          /\ Z.to_int z <> Decimal.Neg Decimal.Nil).
  { intros [| k | k]; cbn; split; try discriminate;
      intros [= Hk]; exact (DecimalPos.Unsigned.to_uint_nonnil k Hk). }
  apply (f_equal NilZero.int_of_string) in H.
  rewrite !NilZero.isi in H by apply Hnn.
  injection H as H. rewrite <- (DecimalZ.of_to p), <- (DecimalZ.of_to q). congruence.
Qed.

Lemma urlsFrom_spec pf self m : forall page u,
  In u (urlsFrom pf self page m) <->
  exists i, (i < m)%nat /\ u = pageUrlOf pf self (page + Z.of_nat i).
Proof.
  induction m as [| m IH]; intros page u; cbn [urlsFrom].
  - split; [intros [] | intros (i & Hi & _); lia].
  - split.
    + intros [<- | Hin].
      * exists 0%nat. split; [lia |]. rewrite Z.add_0_r. reflexivity.
      * apply IH in Hin as (i & Hi & ->). exists (S i). split; [lia |].
        f_equal. lia.
    + intros (i & Hi & ->). destruct i as [| i].
      * left. rewrite Z.add_0_r. reflexivity.
      * right. apply IH. exists i. split; [lia |]. f_equal. lia.
Qed.



End DiscoveryFacts.

(** ** Retrieval as a whole *)

Module RetrievalFacts.
Import FileDownloader FetcherFacts DownloaderFacts Notions.

Section MoreDownloadFacts.
Context (pf : Platform) (env : Env) (self : Downloader).

#[local] Abbreviation downloadFile := (downloadFile pf env self).
#[local] Abbreviation downloadLoop := (downloadLoop pf env self).
#[local] Abbreviation downloadAllFiles := (downloadAllFiles pf env self).
#[local] Abbreviation confirmAndDownloadFiles := (confirmAndDownloadFiles pf env self).
#[local] Abbreviation pathOf fileLink :=
  (path_join pf (folderPath self) (filename fileLink)).

(** For bounds that are integers, and a draw that is a binary64 value in
    [0, 1), the delay is an integer within the bounds. *)
Lemma getRandomDelay_bounds i lo hi :
  minDelayMs self = Number.of_Z lo -> maxDelayMs self = Number.of_Z hi ->
  (lo <= hi)%Z ->
  Number.safe lo -> Number.safe hi -> Number.safe (hi - lo + 1) ->
  Number.is_double (random env i) ->
  (0 <= random env i)%Q -> (random env i < 1)%Q ->
  exists d, getRandomDelay env self i = Number.of_Z d /\ (lo <= d <= hi)%Z.
Proof.
  intros Hmin Hmax Hle Hlo Hhi Hspan Hr H0 H1.
  assert (Hs1 : Number.safe 1) by (unfold Number.safe; lia).
  assert (Hsd : Number.safe (hi - lo)) by (unfold Number.safe in *; lia).
  assert (HN : (1 <= hi - lo + 1 <= 2 ^ 53)%Z) by (unfold Number.safe in *; lia).
  unfold getRandomDelay. rewrite Hmin, Hmax. unfold Number.of_Z.
  rewrite (NumberFacts.round_Z lo Hlo), (NumberFacts.round_Z hi Hhi),
    (NumberFacts.round_Z 1 Hs1).
  rewrite (NumberFacts.sub_Z _ _ Hsd), (NumberFacts.add_Z _ _ Hspan).
  rewrite Hr. cbn [Number.mul].
  destruct (NumberFacts.round_mul_below _ _ Hr H0 H1 HN) as (y & -> & Hy0 & Hy1).
  cbn [Number.floor].
  assert (Hk0 : (0 <= Qfloor y)%Z).
  { change 0%Z with (Qfloor 0). apply Qfloor_resp_le, Hy0. }
  assert (Hk1 : (Qfloor y < hi - lo + 1)%Z).
  { rewrite Zlt_Qlt. eapply Qle_lt_trans; [apply Qfloor_le | exact Hy1]. }
  assert (Hsk : Number.safe (Qfloor y + lo)) by (unfold Number.safe in *; lia).
  rewrite (NumberFacts.add_Z _ _ Hsk).
  exists (Qfloor y + lo)%Z. split; [symmetry; apply NumberFacts.round_Z, Hsk | lia].
Qed.

Ltac run_file :=
  unfold FileDownloader.downloadFile, axios_get, checkExisting;
  unfold try_catch, bind, existsSync, statSync_size, unlinkSync, streamToFile,
    console, emit, ret, throw.

(** What one download does to the file system: it returns [true] having
    written the body at the destination, or leaves everything as it was. *)
Lemma downloadFile_cases l fs r fs' t :
  downloadFile l fs = (r, fs', t) ->
  (r = Ret true
   /\ exists h body,
        remote env (url l) = Responds h body
        /\ Fs.can_write fs (pathOf l) = true
        /\ fs' = <[pathOf l := File body]> fs
        /\ streamed t = [pathOf l])
  \/ (r = Ret false /\ fs' = fs /\ is_Some (fs !! pathOf l) /\ streamed t = [])
  \/ ((exists e, r = Throw e) /\ fs' = fs).
Proof.
  run_file. destruct (remote env (url l)) as [| h body] eqn:Hresp; cbv beta iota.
  { intros H. apply triple_inj in H as (<- & <- & <-). right. right. eauto. }
  cbn [app fst snd].
  destruct (fs !! pathOf l) as [[data |] |] eqn:Hnode.
  - rewrite bool_decide_eq_true_2 by eauto. rewrite ?Hnode. cbv beta iota.
    destruct (tempFileSize_of h) as [tmp |]; cbv beta iota.
    2: { intros H. apply triple_inj in H as (<- & <- & <-).
         right. left. repeat split; eauto. }
    destruct (same_size (Z.of_nat (length data)) tmp); cbv beta iota.
    { intros H. apply triple_inj in H as (<- & <- & <-).
      right. left. repeat split; eauto. }
    rewrite Hnode. cbv beta iota.
    destruct (writable env (pathOf l)) eqn:Hw; cbv beta iota.
    2: { intros H. apply triple_inj in H as (<- & <- & <-). right. right. eauto. }
    rewrite (FsFacts.can_write_removed _ _ _ Hnode). cbn [andb]. cbv beta iota.
    rewrite (FsFacts.insert_removed _ _ _ _ Hnode).
    intros H. apply triple_inj in H as (<- & <- & <-). left.
    split; [reflexivity |]. exists h, body. split; [reflexivity |].
    split; [apply (FsFacts.lookup_file_can_write _ _ _ Hnode) |].
    split; reflexivity.
  - rewrite bool_decide_eq_true_2 by eauto. rewrite ?Hnode. cbv beta iota.
    destruct (tempFileSize_of h) as [tmp |]; cbv beta iota.
    2: { intros H. apply triple_inj in H as (<- & <- & <-).
         right. left. repeat split; eauto. }
    destruct (same_size (dir_size env (pathOf l)) tmp); cbv beta iota.
    { intros H. apply triple_inj in H as (<- & <- & <-).
      right. left. repeat split; eauto. }
    rewrite Hnode. cbv beta iota.
    intros H. apply triple_inj in H as (<- & <- & <-). right. right. eauto.
  - rewrite bool_decide_eq_false_2 by apply is_Some_None.
    cbv beta iota.
    destruct (Fs.can_write fs (pathOf l)) eqn:Hcw;
      destruct (writable env (pathOf l)); cbn [andb]; cbv beta iota; intros H;
      apply triple_inj in H as (<- & <- & <-);
      try (right; right; eauto; fail).
    left. split; [reflexivity |]. exists h, body. repeat split; assumption.
Qed.

(** What one download leaves behind. *)
Lemma downloadFile_effect l fs r fs' t :
  downloadFile l fs = (r, fs', t) ->
  cwd fs' = cwd fs
  /\ (forall place,
        Fs.is_dir (Fs.find place (root fs')) = Fs.is_dir (Fs.find place (root fs)))
  /\ (forall place, place <> Fs.place_of fs (pathOf l) ->
        Fs.entry fs' place = Fs.entry fs place)
  /\ match r with
     | Ret true =>
         exists h body,
           remote env (url l) = Responds h body
           /\ Fs.can_write fs (pathOf l) = true
           /\ fs' !! pathOf l = Some (File body)
           /\ streamed t = [pathOf l]
     | Ret false => fs' = fs /\ is_Some (fs !! pathOf l) /\ streamed t = []
     | _ => True
     end.
Proof.
  intros Hrun.
  destruct (downloadFile_cases _ _ _ _ _ Hrun)
    as [(-> & h & body & Hresp & Hcw & -> & Hs) | [(-> & -> & Hsome & Hs) | ((e & ->) & ->)]].
  - split; [apply FsFacts.cwd_insert |].
    split; [intros place; apply FsFacts.dirs_write, Hcw |].
    split; [intros place Hne; apply FsFacts.entry_write_ne; assumption |].
    exists h, body. split; [exact Hresp |]. split; [exact Hcw |].
    split; [apply FsFacts.lookup_write_eq, Hcw | exact Hs].
  - repeat split; auto.
  - repeat split; auto.
Qed.

Lemma delays_app t1 t2 : delays (t1 ++ t2) = delays t1 ++ delays t2.
Proof. apply omap_app. Qed.

(** The events of one download: none is a pause, and the line that reports
    the download comes last, and only when the call returns [true]. *)
Lemma downloadFile_trace l fs r fs' t :
  downloadFile l fs = (r, fs', t) ->
  exists t0,
    (forall ev, In ev t0 -> ev <> EvLog LDownloaded /\ forall ms, ev <> EvDelay ms)
    /\ t = t0 ++ match r with Ret true => [EvLog LDownloaded] | _ => [] end.
Proof.
  assert (Hquiet : forall (evs : list Event),
            Forall (fun ev => match ev with
                              | EvLog LDownloaded | EvDelay _ => False
                              | _ => True
                              end) evs ->
            forall ev, In ev evs -> ev <> EvLog LDownloaded /\ forall ms, ev <> EvDelay ms).
  { intros evs Hall ev Hin. rewrite List.Forall_forall in Hall.
    specialize (Hall ev Hin). split; [| intros ms]; intros ->; exact Hall. }
  run_file. destruct (remote env (url l)) as [| h body] eqn:Hresp; cbv beta iota.
  { intros H. apply triple_inj in H as (<- & _ & <-). eexists.
    split; [apply Hquiet | symmetry; apply app_nil_r].
    repeat constructor. }
  cbn [app fst snd].
  destruct (fs !! pathOf l) as [[data |] |] eqn:Hnode.
  - rewrite bool_decide_eq_true_2 by eauto. rewrite ?Hnode. cbv beta iota.
    destruct (tempFileSize_of h) as [tmp |]; cbv beta iota.
    2: { intros H. apply triple_inj in H as (<- & _ & <-). eexists.
         split; [apply Hquiet | symmetry; apply app_nil_r].
         repeat constructor. }
    destruct (same_size (Z.of_nat (length data)) tmp); cbv beta iota.
    { intros H. apply triple_inj in H as (<- & _ & <-). eexists.
      split; [apply Hquiet | symmetry; apply app_nil_r].
      repeat constructor. }
    rewrite Hnode. cbv beta iota.
    destruct (writable env (pathOf l)) eqn:Hw; cbv beta iota.
    2: { intros H. apply triple_inj in H as (<- & _ & <-). eexists.
         split; [apply Hquiet | symmetry; apply app_nil_r].
         repeat constructor. }
    rewrite (FsFacts.can_write_removed _ _ _ Hnode). cbn [andb]. cbv beta iota.
    intros H. apply triple_inj in H as (<- & _ & <-).
    exists [EvGet (url l); EvLog (LSizes (Z.of_nat (length data)) tmp);
            EvLog LReplacing; EvUnlink (pathOf l); EvStream (pathOf l)].
    split; [apply Hquiet; repeat constructor | reflexivity].
  - rewrite bool_decide_eq_true_2 by eauto. rewrite ?Hnode. cbv beta iota.
    destruct (tempFileSize_of h) as [tmp |]; cbv beta iota.
    2: { intros H. apply triple_inj in H as (<- & _ & <-). eexists.
         split; [apply Hquiet | symmetry; apply app_nil_r].
         repeat constructor. }
    destruct (same_size (dir_size env (pathOf l)) tmp); cbv beta iota.
    { intros H. apply triple_inj in H as (<- & _ & <-). eexists.
      split; [apply Hquiet | symmetry; apply app_nil_r].
      repeat constructor. }
    rewrite Hnode. cbv beta iota.
    intros H. apply triple_inj in H as (<- & _ & <-). eexists.
    split; [apply Hquiet | symmetry; apply app_nil_r].
    repeat constructor.
  - rewrite bool_decide_eq_false_2 by apply is_Some_None.
    cbv beta iota.
    destruct (Fs.can_write fs (pathOf l)) eqn:Hcw;
      destruct (writable env (pathOf l)); cbn [andb]; cbv beta iota; intros H;
      apply triple_inj in H as (<- & _ & <-);
      try (eexists;
           split; [apply Hquiet | symmetry; apply app_nil_r];
           repeat constructor; fail).
    exists [EvGet (url l); EvStream (pathOf l)].
    split; [apply Hquiet; repeat constructor | reflexivity].
Qed.

(** A download makes no pause of its own. *)
Lemma downloadFile_no_delay l fs :
  delays (downloadFile l fs).2 = [].
Proof.
  destruct (downloadFile l fs) as [[r fs'] t] eqn:Hrun. cbn [snd].
  destruct (downloadFile_trace _ _ _ _ _ Hrun) as (t0 & Hquiet & ->).
  rewrite delays_app.
  assert (H0 : delays t0 = []).
  { clear Hrun. induction t0 as [| ev t0 IH]; [reflexivity |].
    destruct (Hquiet ev (or_introl eq_refl)) as [_ Hnd].
    destruct ev; try (apply IH; intros ev' Hin; apply Hquiet; right; exact Hin).
    destruct (Hnd _ eq_refl). }
  rewrite H0. destruct r as [[] | |]; reflexivity.
Qed.

(** The shape of any run of the [for] loop. *)
Lemma loop_shape links : forall i fs r fs' t,
  downloadLoop i links fs = (r, fs', t) ->
  exists n,
    (n <= length links)%nat
    /\ requested t = map url (take n links)
    /\ length (outcomes t) = n
    /\ length (delays t) = length (filter (eq downloaded) (outcomes t))
    /\ match r with
       | Ret _ => n = length links /\ ~ In failed (outcomes t)
       | Throw e => (1 <= n)%nat /\ last (outcomes t) = Some failed
       | Starved => False
       end.
Proof.
  induction links as [| l rest IH]; intros i fs r fs' t Hrun.
  - apply triple_inj in Hrun as (<- & _ & <-). exists 0%nat.
    repeat split; try reflexivity. intros [].
  - rewrite downloadLoop_cons in Hrun.
    pose proof (downloadFile_no_delay l fs) as Hnd.
    destruct (downloadFile l fs) as [[rd fs1] t1] eqn:Hd. cbn [snd] in Hnd.
    destruct (downloadFile_shape pf env self _ _ _ _ _ Hd) as [Hreq Hout].
    destruct rd as [d | e |]; [| | destruct Hout].
    + destruct (downloadLoop (S i) rest fs1) as [[r2 fs2] t2] eqn:Hl.
      apply triple_inj in Hrun as (<- & _ & <-).
      destruct (IH _ _ _ _ _ Hl) as (n & Hn & Hreq2 & Hlen & Hdel & Hres).
      exists (S n). split; [cbn; lia |].
      change (?a :: ?t ++ ?d ++ ?t') with ([a] ++ t ++ d ++ t').
      rewrite !requested_app, !outcomes_app, !delays_app, Hreq, Hnd, Hreq2.
      assert (Ho : exists o, outcomes t1 = [o] /\ o <> failed
                   /\ (if d then o = downloaded else o = skipped)).
      { destruct d; [exists downloaded | exists skipped; destruct Hout as [Hout _]];
          repeat split; auto; discriminate. }
      destruct Ho as (o & -> & Hof & Hod).
      assert (Hq : requested (if d then [EvDelay (getRandomDelay env self i)] else []) = [])
        by (destruct d; reflexivity).
      assert (Hq' : outcomes (if d then [EvDelay (getRandomDelay env self i)] else []) = [])
        by (destruct d; reflexivity).
      rewrite Hq, Hq'.
      change (requested [EvLog (LStarting (i + 1) (filename l))]) with (@nil jsstring).
      change (outcomes [EvLog (LStarting (i + 1) (filename l))]) with (@nil DownloadOutcome).
      change (delays [EvLog (LStarting (i + 1) (filename l))]) with (@nil number).
      cbn [app map take length].
      split; [reflexivity |]. split; [rewrite Hlen; reflexivity |]. split.
      * destruct d; subst o;
          [rewrite filter_cons_True by reflexivity
          |rewrite filter_cons_False by discriminate];
          [change (delays [EvDelay (getRandomDelay env self i)])
             with [getRandomDelay env self i]
          |change (delays []) with (@nil number)];
          cbn [app length]; rewrite Hdel; reflexivity.
      * destruct r2 as [? | e |]; [| | exact Hres].
        -- destruct Hres as [-> Hnf]. split; [reflexivity |].
           intros [Hin | Hin]; [congruence | exact (Hnf Hin)].
        -- destruct Hres as [H1 Hlast]. split; [lia |].
           destruct (outcomes t2) as [| o2 os]; [discriminate |]. exact Hlast.
    + apply triple_inj in Hrun as (<- & _ & <-). destruct Hout as [Hout _].
      exists 1%nat. split; [cbn; lia |].
      change (?a :: ?t) with ([a] ++ t).
      rewrite requested_app, outcomes_app, delays_app, Hreq, Hout, Hnd.
      cbn. repeat split; try reflexivity; lia.
Qed.

Lemma delays_log l t : delays (EvLog l :: t) = delays t.
Proof. reflexivity. Qed.

(** Every pause of the loop is a draw of [getRandomDelay]. *)
Lemma loop_delays links : forall i fs ms,
  In ms (delays (downloadLoop i links fs).2) ->
  exists j, ms = getRandomDelay env self j.
Proof.
  induction links as [| l rest IH]; intros i fs ms Hin; [destruct Hin |].
  rewrite downloadLoop_cons in Hin.
  pose proof (downloadFile_no_delay l fs) as Hnd.
  destruct (downloadFile l fs) as [[[d | e |] fs1] t1]; cbn [snd] in *.
  - specialize (IH (S i) fs1 ms).
    destruct (downloadLoop (S i) rest fs1) as [[r2 fs2] t2]. cbn [snd] in *.
    rewrite delays_log, !delays_app, Hnd in Hin. cbn [app] in Hin.
    apply in_app_iff in Hin as [Hin | Hin]; [| auto].
    destruct d; [destruct Hin as [<- | []]; eauto | destruct Hin].
  - rewrite delays_log, Hnd in Hin. destruct Hin.
  - rewrite delays_log, Hnd in Hin. destruct Hin.
Qed.

(** Events among which there is neither a pause nor the line that reports
    a download. *)
#[local] Abbreviation quiet q :=
  (forall x : Event, In x q -> x <> EvLog LDownloaded /\ forall ms, x <> EvDelay ms).

(** Where the pauses stand: the line that reports a download is directly
    followed by a pause, the draw for a file whose index is in [R], and a
    pause comes directly after such a line. *)
#[local] Abbreviation paced R t :=
  (forall before ev after, t = before ++ ev :: after ->
     (ev = EvLog LDownloaded ->
      exists j : nat, R j /\ head after = Some (EvDelay (getRandomDelay env self j)))
     /\ (forall ms, ev = EvDelay ms -> last before = Some (EvLog LDownloaded))).

Lemma paced_nil (R : nat -> Prop) : paced R [].
Proof. intros b e a H. destruct b; discriminate. Qed.

Lemma paced_after_quiet (R : nat -> Prop) q : forall t,
  quiet q -> paced R t -> paced R (q ++ t).
Proof.
  induction q as [| x q IHq]; intros t Hq Ht before ev after Heq.
  - exact (Ht _ _ _ Heq).
  - destruct before as [| b before].
    + injection Heq as <- _. destruct (Hq x (or_introl eq_refl)) as [Hx1 Hx2].
      split; [intros Hev; destruct (Hx1 Hev) | intros ms Hev; destruct (Hx2 _ Hev)].
    + injection Heq as <- Heq.
      destruct (IHq t (fun y H => Hq y (or_intror H)) Ht before ev after Heq)
        as [H1 H2].
      split; [exact H1 |]. intros ms Hev. specialize (H2 ms Hev).
      destruct before as [| b' before]; [discriminate | exact H2].
Qed.

Lemma paced_before_quiet (R : nat -> Prop) t q :
  paced R t -> quiet q -> paced R (t ++ q).
Proof.
  intros Ht Hq before ev after Heq.
  assert (Hin : In ev q ->
            (ev = EvLog LDownloaded ->
             exists j : nat, R j /\ head after = Some (EvDelay (getRandomDelay env self j)))
            /\ (forall ms, ev = EvDelay ms -> last before = Some (EvLog LDownloaded))).
  { intros Hev. destruct (Hq ev Hev) as [Hx1 Hx2].
    split; [intros H; destruct (Hx1 H) | intros ms H; destruct (Hx2 _ H)]. }
  apply app_eq_inv in Heq as [(k & -> & Hk) | (k & -> & ->)].
  - destruct k as [| ev' k].
    + apply Hin. cbn in Hk. rewrite <- Hk. left. reflexivity.
    + injection Hk as -> ->. destruct (Ht _ _ _ eq_refl) as [H1 H2].
      split; [| exact H2]. intros Hev. destruct (H1 Hev) as (j & Hj & Hh).
      exists j. split; [exact Hj |]. destruct k; [discriminate | exact Hh].
  - apply Hin, in_elt.
Qed.

Lemma paced_mono (R R' : nat -> Prop) t :
  (forall j, R j -> R' j) -> paced R t -> paced R' t.
Proof.
  intros HR Ht before ev after Heq. destruct (Ht _ _ _ Heq) as [H1 H2].
  split; [| exact H2]. intros Hev. destruct (H1 Hev) as (j & Hj & Hh). eauto.
Qed.

Lemma loop_paced links : forall i fs,
  paced (fun j => (i <= j < i + length links)%nat) (downloadLoop i links fs).2.
Proof.
  induction links as [| l rest IH]; intros i fs; [apply paced_nil |].
  rewrite downloadLoop_cons.
  destruct (downloadFile l fs) as [[rd fs1] t1] eqn:Hd.
  destruct (downloadFile_trace _ _ _ _ _ Hd) as (t0 & Ht0 & ->).
  assert (Hq0 : quiet (EvLog (LStarting (i + 1) (filename l)) :: t0)).
  { intros x [<- | Hx]; [split; [| intros ms]; discriminate | exact (Ht0 x Hx)]. }
  cbn [length].
  set (R := fun j => (i <= j < i + S (length rest))%nat).
  destruct rd as [d | e |].
  - specialize (IH (S i) fs1).
    destruct (downloadLoop (S i) rest fs1) as [[r2 fs2] t2]. cbn [snd] in *.
    assert (IH' : paced R t2).
    { apply (paced_mono (fun j => (S i <= j < S i + length rest)%nat));
        [intros j Hj; unfold R; lia | exact IH]. }
    destruct d.
    + rewrite !app_comm_cons, <- app_assoc.
      apply paced_after_quiet; [exact Hq0 |].
      intros before ev after Heq.
      destruct before as [| b0 before].
      { injection Heq as <- <-. split; [| discriminate].
        intros _. exists i. split; [unfold R; lia | reflexivity]. }
      injection Heq as <- Heq.
      destruct before as [| b1 before].
      { injection Heq as <- <-. split; [discriminate | reflexivity]. }
      injection Heq as <- Heq.
      destruct (IH' _ _ _ Heq) as [H1 H2]. split; [exact H1 |].
      intros ms Hev. specialize (H2 ms Hev).
      destruct before as [| b2 before]; [discriminate | exact H2].
    + rewrite app_nil_r. cbn [app]. rewrite app_comm_cons.
      apply paced_after_quiet; assumption.
  - cbn [snd]. rewrite app_nil_r. rewrite <- (app_nil_r (_ :: t0)).
    apply paced_after_quiet; [exact Hq0 | apply paced_nil].
  - cbn [snd]. rewrite app_nil_r. rewrite <- (app_nil_r (_ :: t0)).
    apply paced_after_quiet; [exact Hq0 | apply paced_nil].
Qed.

Lemma ensureFolder_trace fs :
  quiet (ensureFolder env self fs).2.
Proof.
  unfold FileDownloader.ensureFolder, bind, existsSync, mkdirSync, console, emit, ret.
  destruct (bool_decide (is_Some (fs !! folderPath self))); [intros x [] |].
  destruct (Fs.can_make fs (folderPath self) && writable env (folderPath self));
    cbn [fst snd app]; [| intros x []].
  intros x [<- | [<- | []]]; split; try intros ms; discriminate.
Qed.

(** The pacing of a whole batch. *)
Lemma batch_paced links fs :
  paced (fun j => (j < length links)%nat) (downloadAllFiles links fs).2.
Proof.
  rewrite downloadAllFiles_run.
  pose proof (ensureFolder_trace fs) as Hq0.
  destruct (ensureFolder env self fs) as [[r0 fs0] t0]. cbn [snd] in Hq0.
  assert (Hnil : paced (fun j => (j < length links)%nat) t0).
  { rewrite <- (app_nil_r t0). apply paced_after_quiet; [exact Hq0 | apply paced_nil]. }
  destruct r0 as [[] | e |]; [| exact Hnil | exact Hnil].
  assert (Hloop : paced (fun j => (j < length links)%nat) (downloadLoop 0 links fs0).2).
  { apply (paced_mono (fun j => (0 <= j < 0 + length links)%nat));
      [intros j Hj; lia | apply loop_paced]. }
  destruct (downloadLoop 0 links fs0) as [[[[] | e |] fs1] t1]; cbn [snd] in *;
    apply paced_after_quiet; try assumption.
  apply paced_before_quiet; [exact Hloop |].
  intros x [<- | []]; split; try intros ms; discriminate.
Qed.

(** The loop keeps the working directory and the directories, and writes at
    the places of the destinations of its files only. *)
Lemma loop_frame links : forall i fs,
  let fs' := (downloadLoop i links fs).1.2 in
  cwd fs' = cwd fs
  /\ (forall place,
        Fs.is_dir (Fs.find place (root fs')) = Fs.is_dir (Fs.find place (root fs)))
  /\ (forall place,
        (forall l, In l links -> place <> Fs.place_of fs (pathOf l)) ->
        Fs.entry fs' place = Fs.entry fs place).
Proof.
  induction links as [| l rest IH]; intros i fs; cbv zeta.
  { repeat split; reflexivity. }
  rewrite downloadLoop_cons.
  destruct (downloadFile l fs) as [[rd fs1] t1] eqn:Hd.
  destruct (downloadFile_effect _ _ _ _ _ Hd) as (Hcwd & Hdirs & Hframe & _).
  assert (H1 : cwd fs1 = cwd fs
               /\ (forall place,
                     Fs.is_dir (Fs.find place (root fs1))
                     = Fs.is_dir (Fs.find place (root fs)))
               /\ (forall place,
                     (forall l', In l' (l :: rest) -> place <> Fs.place_of fs (pathOf l')) ->
                     Fs.entry fs1 place = Fs.entry fs place)).
  { split; [exact Hcwd |]. split; [exact Hdirs |].
    intros place Hp. apply Hframe, Hp. left. reflexivity. }
  destruct rd as [d | e |]; [| exact H1 | exact H1].
  specialize (IH (S i) fs1).
  destruct (downloadLoop (S i) rest fs1) as [[r2 fs2] t2]. cbn [fst snd] in *.
  destruct IH as (Hc2 & Hd2 & Hf2).
  split; [congruence |]. split; [intros place; rewrite Hd2; apply Hdirs |].
  intros place Hp. rewrite Hf2; [apply Hframe, Hp; left; reflexivity |].
  intros l' Hl'. unfold Fs.place_of. rewrite Hcwd. apply Hp. right. exact Hl'.
Qed.

(** A path that names none of the destinations names after the loop what it
    named before. *)
Lemma loop_lookup links i fs q :
  (forall l, In l links -> Fs.place_of fs q <> Fs.place_of fs (pathOf l)) ->
  (downloadLoop i links fs).1.2 !! q = fs !! q.
Proof.
  intros Hq. destruct (loop_frame links i fs) as (Hc & Hd & Hf).
  apply FsFacts.lookup_same; [exact Hc | exact Hd | apply Hf, Hq].
Qed.

Lemma ensureFolder_effect fs :
  let run := ensureFolder env self fs in
  cwd run.1.2 = cwd fs
  /\ (forall place, ~ Fs.on_the_way fs (folderPath self) place ->
        Fs.entry run.1.2 place = Fs.entry fs place)
  /\ (forall place, Fs.on_the_way fs (folderPath self) place ->
        Fs.entry run.1.2 place = Fs.entry fs place
        \/ (Fs.entry fs place = None /\ Fs.entry run.1.2 place = Some Dir))
  /\ (run.1.1 = Ret tt -> is_Some (run.1.2 !! folderPath self))
  /\ delays run.2 = []
  /\ run.1.1 <> Starved.
Proof.
  unfold FileDownloader.ensureFolder, bind, existsSync, mkdirSync, console, emit, ret.
  destruct (bool_decide (is_Some (fs !! folderPath self))) eqn:Hex.
  - apply bool_decide_eq_true in Hex. cbn. repeat split; auto; discriminate.
  - destruct (Fs.can_make fs (folderPath self)) eqn:Hcm;
      destruct (writable env (folderPath self)); cbn [andb fst snd app];
      try (repeat split; auto; discriminate).
    split; [apply FsFacts.cwd_insert |]. split.
    { intros place Hway. apply FsFacts.entry_mkdir_off_way; [exact Hcm |].
      intros passed Hin Hp. apply Hway. exists passed. auto. }
    split.
    { intros place (passed & Hin & Hp).
      pose proof (FsFacts.entry_mkdir_on_way _ _ _ _ Hcm Hin Hp) as Hafter.
      destruct (FsFacts.entry_before_mkdir _ _ _ _ Hcm Hin Hp) as [Hb | Hb].
      - right. auto.
      - left. congruence. }
    split; [intros _; rewrite (FsFacts.lookup_mkdir_eq _ _ Hcm); eauto |].
    split; [reflexivity | discriminate].
Qed.

#[local] Abbreviation settled := (settled pf env self).

(** A settled file is skipped. *)
Lemma downloadFile_settled l fs :
  settled fs l ->
  exists t, downloadFile l fs = (Ret false, fs, t)
            /\ outcomes t = [skipped] /\ streamed t = [] /\ requested t = [url l].
Proof.
  intros (h & body & Hresp & Hh & Hint & Hsize). unfold size_at in Hsize.
  run_file. rewrite Hresp. cbv beta iota. cbn [app fst snd tempFileSize_of].
  rewrite Hh, Hint.
  destruct (fs !! pathOf l) as [[data |] |] eqn:Hnode; [| | discriminate];
    injection Hsize as Hsize;
    rewrite bool_decide_eq_true_2 by eauto; rewrite ?Hnode; cbv beta iota;
    cbn [same_size]; rewrite Hsize, Z.eqb_refl; cbv beta iota;
    eexists; (split; [reflexivity |]); repeat split.
Qed.

(** Against an honest server, a download that returns leaves its file
    settled. *)
Lemma downloadFile_settles l fs d fs' t :
  honest env [l] ->
  downloadFile l fs = (Ret d, fs', t) -> settled fs' l.
Proof.
  intros Hhonest. destruct (Hhonest l (or_introl eq_refl)) as (h & body & Hresp & Hh & Hint).
  intros Hrun. exists h, body. split; [exact Hresp |]. split; [exact Hh |].
  split; [exact Hint |]. revert Hrun. unfold size_at.
  run_file. rewrite Hresp. cbv beta iota. cbn [app fst snd tempFileSize_of].
  rewrite Hh, Hint.
  destruct (fs !! pathOf l) as [[data |] |] eqn:Hnode.
  - rewrite bool_decide_eq_true_2 by eauto. rewrite ?Hnode. cbv beta iota.
    cbn [same_size].
    destruct (Z.of_nat (length data) =? Z.of_nat (length body))%Z eqn:Hsame; cbv beta iota.
    { intros H. apply triple_inj in H as (_ & <- & _). rewrite Hnode.
      apply Z.eqb_eq in Hsame. congruence. }
    rewrite Hnode. cbv beta iota.
    destruct (writable env (pathOf l)); cbv beta iota.
    2: { intros H. apply triple_inj in H as (Hr & _). discriminate. }
    rewrite (FsFacts.can_write_removed _ _ _ Hnode). cbn [andb]. cbv beta iota.
    rewrite (FsFacts.insert_removed _ _ _ _ Hnode).
    intros H. apply triple_inj in H as (_ & <- & _).
    rewrite (FsFacts.lookup_write_eq _ _ _ (FsFacts.lookup_file_can_write _ _ _ Hnode)).
    reflexivity.
  - rewrite bool_decide_eq_true_2 by eauto. rewrite ?Hnode. cbv beta iota.
    cbn [same_size].
    destruct (dir_size env (pathOf l) =? Z.of_nat (length body))%Z eqn:Hsame; cbv beta iota.
    { intros H. apply triple_inj in H as (_ & <- & _). rewrite Hnode.
      apply Z.eqb_eq in Hsame. congruence. }
    rewrite Hnode. cbv beta iota.
    intros H. apply triple_inj in H as (Hr & _). discriminate.
  - rewrite bool_decide_eq_false_2 by apply is_Some_None.
    cbv beta iota.
    destruct (Fs.can_write fs (pathOf l)) eqn:Hcw;
      destruct (writable env (pathOf l)); cbn [andb]; cbv beta iota; intros H;
      try (apply triple_inj in H as (Hr & _); discriminate).
    apply triple_inj in H as (_ & <- & _).
    rewrite (FsFacts.lookup_write_eq _ _ _ Hcw). reflexivity.
Qed.

Lemma settled_frame fs fs' l :
  fs' !! pathOf l = fs !! pathOf l -> settled fs l -> settled fs' l.
Proof.
  intros Heq (h & body & Hresp & Hh & Hint & Hsize). exists h, body.
  repeat split; try assumption. unfold size_at in *. rewrite Heq. exact Hsize.
Qed.

(** Against an honest server, a loop that returns leaves every file settled,
    provided no two files share a destination. *)
Lemma loop_settles links : forall i fs fs' t,
  honest env links -> NoDup (map (fun l => Fs.place_of fs (pathOf l)) links) ->
  downloadLoop i links fs = (Ret tt, fs', t) ->
  forall l, In l links -> settled fs' l.
Proof.
  induction links as [| l rest IH]; intros i fs fs' t Hhonest Hnd Hrun x Hin;
    [destruct Hin |].
  rewrite downloadLoop_cons in Hrun.
  destruct (downloadFile l fs) as [[rd fs1] t1] eqn:Hd.
  destruct (downloadFile_effect _ _ _ _ _ Hd) as (Hcwd & _).
  destruct rd as [d | e |];
    [| apply triple_inj in Hrun as (Hr & _); discriminate
     | apply triple_inj in Hrun as (Hr & _); discriminate].
  destruct (downloadLoop (S i) rest fs1) as [[r2 fs2] t2] eqn:Hl.
  apply triple_inj in Hrun as (-> & -> & _).
  cbn [map] in Hnd. apply NoDup_cons in Hnd as [Hfresh Hnd].
  assert (Hplaces : forall l', Fs.place_of fs1 (pathOf l') = Fs.place_of fs (pathOf l'))
    by (intros l'; unfold Fs.place_of; rewrite Hcwd; reflexivity).
  destruct Hin as [<- | Hin].
  - apply (settled_frame fs1).
    + pose proof (loop_lookup rest (S i) fs1 (pathOf l)) as Hf. rewrite Hl in Hf.
      apply Hf. intros l' Hl' Heq. apply Hfresh.
      apply list_elem_of_In, in_map_iff. exists l'.
      split; [rewrite <- !Hplaces; symmetry; exact Heq | exact Hl'].
    + apply (downloadFile_settles _ _ _ _ _ (fun l' H => Hhonest l' (or_introl
               match H with or_introl e => e | or_intror f => match f with end end)) Hd).
  - apply (IH _ _ _ _ (fun l' H => Hhonest l' (or_intror H))
             ltac:(erewrite map_ext; [exact Hnd | intros l'; apply Hplaces]) Hl _ Hin).
Qed.

(** A loop over settled files skips them all. *)
Lemma loop_skips_settled links : forall i fs,
  (forall l, In l links -> settled fs l) ->
  exists tr,
    downloadLoop i links fs = (Ret tt, fs, tr)
    /\ outcomes tr = replicate (length links) skipped
    /\ streamed tr = []
    /\ requested tr = map url links.
Proof.
  induction links as [| l rest IH]; intros i fs Hall.
  - exists []. repeat split; reflexivity.
  - destruct (downloadFile_settled l fs (Hall l (or_introl eq_refl)))
      as (t1 & Hd & Ho & Hs & Hq).
    destruct (IH (S i) fs (fun l' H => Hall l' (or_intror H)))
      as (tr & Hrun & Hout & Hstr & Hreq).
    eexists. rewrite downloadLoop_cons, Hd, Hrun. split; [reflexivity |].
    change (?a :: ?t ++ [] ++ ?t') with ([a] ++ t ++ t').
    rewrite !outcomes_app, !streamed_app, !requested_app, Ho, Hs, Hq, Hout, Hstr, Hreq.
    repeat split; reflexivity.
Qed.

(** One download keeps what a path names, or puts a file there. *)
Lemma downloadFile_keeps l fs r fs' t p :
  downloadFile l fs = (r, fs', t) ->
  is_Some (fs !! p) -> is_Some (fs' !! p).
Proof.
  intros Hrun Hp.
  destruct (downloadFile_cases _ _ _ _ _ Hrun)
    as [(-> & h & body & Hresp & Hcw & -> & Hs) | [(-> & -> & _) | (_ & ->)]];
    [| exact Hp | exact Hp].
  destruct Hp as [node Hp].
  apply FsFacts.lookup_spec in Hp as (Hv & Hr & He).
  destruct (decide (Fs.place_of fs p = Fs.place_of fs (pathOf l))) as [Heq | Hne].
  - exists (File body). apply FsFacts.lookup_spec. split; [exact Hv |]. split.
    + rewrite (FsFacts.reachable_same fs); [exact Hr | apply FsFacts.cwd_insert |].
      intros place. apply FsFacts.dirs_write, Hcw.
    + rewrite FsFacts.place_of_insert, Heq. apply FsFacts.entry_write_eq.
      apply FsFacts.can_write_spec in Hcw. tauto.
  - rewrite (FsFacts.lookup_write_ne _ _ _ _ Hcw Hne).
    exists node. apply FsFacts.lookup_spec. auto.
Qed.

(** A loop keeps what was there. *)
Lemma loop_keeps links : forall i fs fs' t p,
  downloadLoop i links fs = (Ret tt, fs', t) ->
  is_Some (fs !! p) -> is_Some (fs' !! p).
Proof.
  induction links as [| l rest IH]; intros i fs fs' t p Hrun Hp.
  - apply triple_inj in Hrun as (_ & <- & _). exact Hp.
  - rewrite downloadLoop_cons in Hrun.
    destruct (downloadFile l fs) as [[rd fs1] t1] eqn:Hd.
    pose proof (downloadFile_keeps _ _ _ _ _ p Hd Hp) as Hp1.
    destruct rd as [d | e |];
      [| apply triple_inj in Hrun as (Hr & _); discriminate
       | apply triple_inj in Hrun as (Hr & _); discriminate].
    destruct (downloadLoop (S i) rest fs1) as [[r2 fs2] t2] eqn:Hl.
    apply triple_inj in Hrun as (-> & -> & _).
    exact (IH _ _ _ _ _ Hl Hp1).
Qed.

(** Retrieval keeps the working directory, and changes only the places on
    the way of the folder and the places of the destinations. *)
Lemma confirm_frame links answer fs :
  let fs' := (confirmAndDownloadFiles links answer fs).1.2 in
  cwd fs' = cwd fs
  /\ (forall place,
        (forall l, In l links -> place <> Fs.place_of fs (pathOf l)) ->
        (~ Fs.on_the_way fs (folderPath self) place ->
         Fs.entry fs' place = Fs.entry fs place)
        /\ (Fs.on_the_way fs (folderPath self) place ->
            Fs.entry fs' place = Fs.entry fs place
            \/ (Fs.entry fs place = None /\ Fs.entry fs' place = Some Dir))).
Proof.
  cbv zeta. rewrite confirm_run. destruct (confirms answer); [| cbn; auto].
  rewrite downloadAllFiles_run.
  pose proof (ensureFolder_effect fs) as (Hcwd0 & Hoff & Hon & _).
  destruct (ensureFolder env self fs) as [[r0 fs0] t0].
  cbn [fst snd] in Hcwd0, Hoff, Hon.
  pose proof (loop_frame links 0 fs0) as (Hcwd1 & _ & Hframe1).
  assert (Hplaces : forall l, Fs.place_of fs0 (pathOf l) = Fs.place_of fs (pathOf l))
    by (intros l; unfold Fs.place_of; rewrite Hcwd0; reflexivity).
  assert (H0 : cwd fs0 = cwd fs
               /\ (forall place,
                     (forall l, In l links -> place <> Fs.place_of fs (pathOf l)) ->
                     (~ Fs.on_the_way fs (folderPath self) place ->
                      Fs.entry fs0 place = Fs.entry fs place)
                     /\ (Fs.on_the_way fs (folderPath self) place ->
                         Fs.entry fs0 place = Fs.entry fs place
                         \/ (Fs.entry fs place = None /\ Fs.entry fs0 place = Some Dir))))
    by (split; [exact Hcwd0 | intros place _; split; [apply Hoff | apply Hon]]).
  destruct r0 as [[] | e |]; [| exact H0 | exact H0].
  assert (H1 : cwd (downloadLoop 0 links fs0).1.2 = cwd fs
               /\ (forall place,
                     (forall l, In l links -> place <> Fs.place_of fs (pathOf l)) ->
                     (~ Fs.on_the_way fs (folderPath self) place ->
                      Fs.entry (downloadLoop 0 links fs0).1.2 place = Fs.entry fs place)
                     /\ (Fs.on_the_way fs (folderPath self) place ->
                         Fs.entry (downloadLoop 0 links fs0).1.2 place = Fs.entry fs place
                         \/ (Fs.entry fs place = None
                             /\ Fs.entry (downloadLoop 0 links fs0).1.2 place = Some Dir)))).
  { split; [congruence |]. intros place Hp.
    rewrite Hframe1 by (intros l Hl; rewrite Hplaces; exact (Hp l Hl)).
    split; [apply Hoff | apply Hon]. }
  destruct (downloadLoop 0 links fs0) as [[[[] | e |] f1] t1]; exact H1.
Qed.

Lemma on_the_way_cases fs p place :
  Fs.on_the_way fs p place \/ ~ Fs.on_the_way fs p place.
Proof.
  unfold Fs.on_the_way.
  destruct (decide (Exists (fun passed => place `prefix_of` passed)
                      (Path.trail (cwd fs) p))) as [H | H].
  - left. apply List.Exists_exists in H. exact H.
  - right. intros Hway. apply H, List.Exists_exists. exact Hway.
Qed.

(** Retrieval keeps the directories. *)
Lemma confirm_dirs links answer fs place :
  Fs.is_dir (Fs.find place (root fs)) = true ->
  Fs.is_dir (Fs.find place (root (confirmAndDownloadFiles links answer fs).1.2)) = true.
Proof.
  intros Hdir. rewrite confirm_run. destruct (confirms answer); [| exact Hdir].
  rewrite downloadAllFiles_run.
  assert (H0 : Fs.is_dir (Fs.find place (root (ensureFolder env self fs).1.2)) = true).
  { unfold FileDownloader.ensureFolder, bind, existsSync, mkdirSync, console, emit, ret.
    destruct (bool_decide (is_Some (fs !! folderPath self))); [exact Hdir |].
    destruct (Fs.can_make fs (folderPath self)) eqn:Hcm;
      destruct (writable env (folderPath self)); cbn [andb fst snd]; try exact Hdir.
    apply FsFacts.dirs_mkdir; assumption. }
  destruct (ensureFolder env self fs) as [[r0 fs0] t0]. cbn [fst snd] in H0.
  destruct r0 as [[] | e |]; [| exact H0 | exact H0].
  pose proof (loop_frame links 0 fs0) as (_ & Hdirs & _).
  specialize (Hdirs place). rewrite H0 in Hdirs.
  destruct (downloadLoop 0 links fs0) as [[[[] | e |] f1] t1]; exact Hdirs.
Qed.

(** Retrieval keeps a file whose place is none of the destinations. *)
Lemma confirm_keeps_file links answer fs q data :
  fs !! q = Some (File data) ->
  (forall l, In l links -> Fs.place_of fs q <> Fs.place_of fs (pathOf l)) ->
  (confirmAndDownloadFiles links answer fs).1.2 !! q = Some (File data).
Proof.
  intros Hfile Hq.
  apply FsFacts.lookup_spec in Hfile as (Hv & Hr & He).
  destruct (confirm_frame links answer fs) as [Hcwd Hframe].
  apply FsFacts.lookup_spec. split; [exact Hv |]. split.
  - apply FsFacts.reachable_spec. rewrite Hcwd.
    apply FsFacts.reachable_spec in Hr.
    eapply List.Forall_impl; [| exact Hr].
    intros place. apply confirm_dirs.
  - unfold Fs.place_of. rewrite Hcwd. fold (Fs.place_of fs q).
    destruct (Hframe _ Hq) as [Hoff Hon].
    destruct (on_the_way_cases fs (folderPath self) (Fs.place_of fs q)) as [Hway | Hway].
    + destruct (Hon Hway) as [-> | [Hnone _]]; [exact He | congruence].
    + rewrite (Hoff Hway). exact He.
Qed.

(** Retrieval returns, whatever the downloads do. *)
Lemma confirm_returns links answer fs :
  (confirmAndDownloadFiles links answer fs).1.1 = Ret tt.
Proof.
  rewrite confirm_run. destruct (confirms answer); [| reflexivity].
  pose proof (downloadAllFiles_total pf env self links fs) as Htot.
  destruct (downloadAllFiles links fs) as [[[[] | e |] fs'] tr];
    [reflexivity | reflexivity | contradiction].
Qed.

End MoreDownloadFacts.

(** X16. [getRandomDelay] stays within the configured bounds: when the
    bounds are integers, with minDelayMs <= maxDelayMs, small enough for
    binary64 arithmetic on them to be exact, and the draw of [Math.random]
    is a binary64 value in [0, 1), the delay is an integer between
    minDelayMs and maxDelayMs, both included. *)
Theorem random_delay_within_bounds env self i lo hi :
  minDelayMs self = Number.of_Z lo -> maxDelayMs self = Number.of_Z hi ->
  (lo <= hi)%Z ->
  Number.safe lo -> Number.safe hi -> Number.safe (hi - lo + 1) ->
  Number.is_double (random env i) ->
  (0 <= random env i)%Q -> (random env i < 1)%Q ->
  exists d, getRandomDelay env self i = Number.of_Z d /\ (lo <= d <= hi)%Z.
Proof. apply getRandomDelay_bounds. Qed.

Lemma random_delay_within_bounds_witness :
  let draw := (5404319552844595 # 18014398509481984)%Q in
  let env := mkEnv (fun _ _ => mkRendering true None true) (fun _ => Rejects)
               (fun _ => true) (fun _ => 4096%Z) (fun _ => draw) in
  let self := FileDownloader.mk (js "./downloads") (Number.of_Z 0) (Number.of_Z 9) in
  (Number.is_double draw /\ (0 <= draw)%Q /\ (draw < 1)%Q)
  /\ getRandomDelay env self 0 = Number.of_Z 3
  /\ exists d, getRandomDelay env self 0 = Number.of_Z d /\ (0 <= d <= 9)%Z.
Proof.
  intros draw env self.
  assert (Hd : Number.is_double draw) by (vm_compute; reflexivity).
  assert (H0 : (0 <= draw)%Q) by (vm_compute; discriminate).
  assert (H1 : (draw < 1)%Q) by reflexivity.
  split; [split; [exact Hd | split; [exact H0 | exact H1]] |].
  split; [vm_compute; reflexivity |].
  apply (random_delay_within_bounds env self 0%nat 0 9 eq_refl eq_refl);
    try exact Hd; try exact H0; try exact H1;
    try (unfold Number.safe; lia); lia.
Defined.

(** X17. What [downloadFile] leaves behind: a call that reports
    [downloaded: true] found a place it could write a file at - the
    directory of the destination was there - and has put the body the
    server sent for that url at the destination; a call that reports
    [downloaded: false] found something there and changed nothing; with
    nothing at the destination and no directory to write it in, the call
    raises; and whatever the outcome, the working directory stays and no
    place other than the one the destination names is touched. *)
Theorem download_leaves_body_or_nothing pf env self l fs r fs' t :
  downloadFile pf env self l fs = (r, fs', t) ->
  let dest := path_join pf (folderPath self) (filename l) in
  cwd fs' = cwd fs
  /\ (forall place, place <> Fs.place_of fs dest ->
        Fs.entry fs' place = Fs.entry fs place)
  /\ (r = Ret true ->
      exists h body,
        remote env (url l) = Responds h body
        /\ Fs.can_write fs dest = true
        /\ fs' !! dest = Some (File body) /\ streamed t = [dest])
  /\ (r = Ret false -> fs' = fs /\ is_Some (fs !! dest) /\ streamed t = [])
  /\ (fs !! dest = None -> Fs.can_write fs dest = false ->
      (exists e, r = Throw e) /\ fs' = fs).
Proof.
  intros Hrun dest.
  destruct (downloadFile_effect pf env self _ _ _ _ _ Hrun) as (Hcwd & _ & Hframe & Hres).
  split; [exact Hcwd |]. split; [exact Hframe |].
  split; [intros ->; exact Hres |]. split; [intros ->; exact Hres |].
  intros Hnone Hcw.
  destruct (downloadFile_cases pf env self _ _ _ _ _ Hrun)
    as [(_ & h & body & _ & Hcw' & _) | [(_ & _ & [node Hsome] & _) | H]];
    [fold dest in Hcw'; congruence | fold dest in Hsome; congruence | exact H].
Qed.

Lemma download_leaves_body_or_nothing_witness :
  let env := Sample.server [(url Sample.linkA, Responds None (js "body"))] [] in
  let dest := js "./downloads/src-cat/a.pdf" in
  let bare : FS := <[js "./notes.txt" := File (js "keep")]> ∅ in
  let fs : FS := <[js "./downloads/src-cat" := Dir]> bare in
  let run := downloadFile Sample.platform env Sample.downloader Sample.linkA fs in
  let lost := downloadFile Sample.platform env Sample.downloader Sample.linkA bare in
  run.1.1 = Ret true
  /\ Fs.entry run.1.2 [js "notes.txt"] = Some (File (js "keep"))
  /\ run.1.2 !! dest = Some (File (js "body"))
  /\ (bare !! dest = None /\ Fs.can_write bare dest = false)
  /\ lost.1.1 = Throw (IOError dest) /\ lost.1.2 = bare.
Proof.
  intros env dest bare fs run lost.
  assert (Hr : run.1.1 = Ret true) by (vm_compute; reflexivity).
  destruct (download_leaves_body_or_nothing Sample.platform env Sample.downloader
              Sample.linkA fs run.1.1 run.1.2 run.2 eq_refl) as (_ & Hframe & Hyes & _).
  split; [exact Hr |]. split.
  { etransitivity; [apply (Hframe [js "notes.txt"]); vm_compute; congruence
                   | vm_compute; reflexivity]. }
  split.
  { destruct (Hyes Hr) as (h & body & Hresp & _ & Hfile & _).
    etransitivity; [exact Hfile |].
    assert (Hb : remote env (url Sample.linkA) = Responds None (js "body"))
      by (vm_compute; reflexivity).
    rewrite Hb in Hresp. injection Hresp as _ <-. reflexivity. }
  assert (Hnone : bare !! dest = None) by (vm_compute; reflexivity).
  assert (Hcw : Fs.can_write bare dest = false) by (vm_compute; reflexivity).
  split; [split; assumption |].
  destruct (download_leaves_body_or_nothing Sample.platform env Sample.downloader
              Sample.linkA bare lost.1.1 lost.1.2 lost.2 eq_refl)
    as (_ & _ & _ & _ & Hthrows).
  destruct (Hthrows Hnone Hcw) as [_ Hsame].
  split; [vm_compute; reflexivity | exact Hsame].
Defined.

(** X18. [downloadAllFiles] asks the server for the files in list order, one
    request each, and stops at the first failure: the requests are the urls
    of a prefix of the list and every requested file has one outcome. A run
    that returns went through the whole list without a failure and logged
    the closing line; a run that raises either could not create the folder,
    before any request, or ends with a failed outcome. *)
Theorem batch_requests_in_order pf env self links fs r fs' tr :
  downloadAllFiles pf env self links fs = (r, fs', tr) ->
  exists n,
    (n <= length links)%nat
    /\ requested tr = map url (take n links)
    /\ length (outcomes tr) = n
    /\ match r with
       | Ret _ =>
           n = length links /\ ~ In failed (outcomes tr)
           /\ last tr = Some (EvLog LAllDownloaded)
       | Throw e =>
           (n = 0%nat /\ e = IOError (folderPath self))
           \/ ((1 <= n)%nat /\ last (outcomes tr) = Some failed)
       | Starved => False
       end.
Proof.
  rewrite downloadAllFiles_run.
  destruct (ensureFolder env self fs) as [[r0 fs0] t0] eqn:He.
  destruct (ensureFolder_quiet _ _ _ _ _ _ He) as (Ho & Hq & _).
  destruct r0 as [[] | e |].
  - destruct (downloadLoop pf env self 0 links fs0) as [[r1 fs1] t1] eqn:Hl.
    destruct (loop_shape pf env self _ _ _ _ _ _ Hl) as (n & Hn & Hreq & Hlen & _ & Hres).
    destruct r1 as [[] | e |]; [| | destruct Hres];
      intros H; apply triple_inj in H as (<- & _ & <-); exists n;
      rewrite ?requested_app, ?outcomes_app, Hq, Ho; cbn [app];
      (split; [exact Hn |]).
    + change (outcomes [EvLog LAllDownloaded]) with (@nil DownloadOutcome).
      change (requested [EvLog LAllDownloaded]) with (@nil jsstring).
      rewrite !app_nil_r. split; [exact Hreq |]. split; [exact Hlen |].
      destruct Hres as [-> Hnf]. split; [reflexivity |]. split; [exact Hnf |].
      rewrite app_assoc. apply last_snoc.
    + split; [exact Hreq |]. split; [exact Hlen |]. right. exact Hres.
  - intros H. apply triple_inj in H as (<- & _ & <-). exists 0%nat.
    rewrite Hq, Ho. split; [lia |]. split; [reflexivity |]. split; [reflexivity |].
    left. split; [reflexivity |].
    revert He. unfold ensureFolder, bind, existsSync, mkdirSync, console, emit, ret.
    destruct (bool_decide _); [discriminate |].
    destruct (Fs.can_make fs (folderPath self) && writable env (folderPath self));
      [discriminate |].
    intros [= <- _ _]. reflexivity.
  - exfalso. pose proof (ensureFolder_effect env self fs) as (_ & _ & _ & _ & _ & Hns).
    rewrite He in Hns. exact (Hns eq_refl).
Qed.

Lemma batch_requests_in_order_witness :
  let env := Sample.server [(url Sample.linkA, Responds None (js "body"))] [] in
  let links := [Sample.linkA; Sample.linkB; Sample.linkC] in
  let run := downloadAllFiles Sample.platform env Sample.downloader links ∅ in
  exists n,
    (n <= 3)%nat
    /\ requested run.2 = map url (take n links)
    /\ length (outcomes run.2) = n
    /\ match run.1.1 with
       | Ret _ =>
           n = 3%nat /\ ~ In failed (outcomes run.2)
           /\ last run.2 = Some (EvLog LAllDownloaded)
       | Throw e =>
           (n = 0%nat /\ e = IOError (folderPath Sample.downloader))
           \/ ((1 <= n)%nat /\ last (outcomes run.2) = Some failed)
       | Starved => False
       end.
Proof.
  intros env links run.
  exact (batch_requests_in_order Sample.platform env Sample.downloader links ∅
           run.1.1 run.1.2 run.2 eq_refl).
Defined.

(** X19. Pacing follows downloads: among the events of a batch, the line
    that reports a download is directly followed by a pause - the draw of
    [getRandomDelay] for the index of one of the files - and a pause comes
    directly after such a line and nowhere else, so never after a file that
    was skipped or failed; there are as many pauses as downloads; and - for
    integer bounds with minDelayMs <= maxDelayMs, small enough for binary64
    arithmetic on them to be exact, and draws of [Math.random] that are
    binary64 values in [0, 1) - every pause lasts an integer number of
    milliseconds between minDelayMs and maxDelayMs. *)
Theorem pacing_follows_downloads pf env self links fs :
  let tr := (downloadAllFiles pf env self links fs).2 in
  length (delays tr) = length (filter (eq downloaded) (outcomes tr))
  /\ (forall before ev after,
        tr = before ++ ev :: after ->
        (ev = EvLog LDownloaded ->
         exists i, (i < length links)%nat
                   /\ head after = Some (EvDelay (getRandomDelay env self i)))
        /\ (forall ms, ev = EvDelay ms -> last before = Some (EvLog LDownloaded)))
  /\ (forall lo hi,
        minDelayMs self = Number.of_Z lo -> maxDelayMs self = Number.of_Z hi ->
        (lo <= hi)%Z ->
        Number.safe lo -> Number.safe hi -> Number.safe (hi - lo + 1) ->
        (forall i, Number.is_double (random env i)
                   /\ (0 <= random env i)%Q /\ (random env i < 1)%Q) ->
        Forall (fun ms => exists d, ms = Number.of_Z d /\ (lo <= d <= hi)%Z)
          (delays tr)).
Proof.
  cbv zeta.
  assert (Hshape : delays (downloadAllFiles pf env self links fs).2
                   = delays (downloadLoop pf env self 0 links
                               (ensureFolder env self fs).1.2).2
                     \/ delays (downloadAllFiles pf env self links fs).2 = []).
  { rewrite downloadAllFiles_run.
    pose proof (ensureFolder_effect env self fs) as (_ & _ & _ & _ & Hd0 & _).
    destruct (ensureFolder env self fs) as [[[[] | e |] fs0] t0]; cbn [fst snd] in *;
      [| right; exact Hd0 | right; exact Hd0].
    left. destruct (downloadLoop pf env self 0 links fs0) as [[[[] | e |] fs1] t1];
      cbn [snd]; rewrite ?delays_app, Hd0; cbn [app]; rewrite ?app_nil_r; reflexivity. }
  split; [| split; [apply batch_paced |]].
  - rewrite downloadAllFiles_run.
    pose proof (ensureFolder_effect env self fs) as (_ & _ & _ & _ & Hd0 & _).
    destruct (ensureFolder env self fs) as [[r0 fs0] t0] eqn:He.
    destruct (ensureFolder_quiet _ _ _ _ _ _ He) as (Ho & _ & _). cbn [snd] in Hd0.
    assert (Hloop : let t1 := (downloadLoop pf env self 0 links fs0).2 in
              length (delays t1) = length (filter (eq downloaded) (outcomes t1))).
    { cbv zeta.
      destruct (downloadLoop pf env self 0 links fs0) as [[r1 fs1] t1] eqn:Hl.
      destruct (loop_shape pf env self _ _ _ _ _ _ Hl) as (n & _ & _ & _ & Hdel & _).
      exact Hdel. }
    cbv zeta in Hloop.
    destruct r0 as [[] | e |].
    + destruct (downloadLoop pf env self 0 links fs0) as [[[[] | e |] fs1] t1];
        cbn [snd] in *; rewrite ?delays_app, ?outcomes_app, Hd0, Ho; cbn [app];
        rewrite ?app_nil_r; exact Hloop.
    + cbn [snd]. rewrite Hd0, Ho. reflexivity.
    + cbn [snd]. rewrite Hd0, Ho. reflexivity.
  - intros lo hi Hmin Hmax Hle Hlo Hhi Hspan Hrand.
    destruct Hshape as [-> | ->]; [| constructor].
    apply List.Forall_forall. intros ms Hin.
    apply loop_delays in Hin as [j ->].
    destruct (Hrand j) as (Hr & H0 & H1).
    exact (getRandomDelay_bounds env self j lo hi Hmin Hmax Hle Hlo Hhi Hspan Hr H0 H1).
Qed.

Lemma pacing_follows_downloads_witness :
  let env := Sample.server [(url Sample.linkA, Responds None (js "body"))] [] in
  let dest := js "./downloads/src-cat/a.pdf" in
  let tr := (downloadAllFiles Sample.platform env Sample.downloader
               [Sample.linkA; Sample.linkB] ∅).2 in
  let before := [EvMkdir (js "./downloads/src-cat");
                 EvLog (LFolderCreated (js "./downloads/src-cat"));
                 EvLog (LStarting 1 (js "a.pdf"));
                 EvGet (url Sample.linkA); EvStream dest] in
  let pause := EvDelay (Number.of_Z 1500) in
  let after := [EvLog (LStarting 2 (js "b.pdf")); EvGet (url Sample.linkB);
                EvLog (LFailed (url Sample.linkB) (NetworkError (url Sample.linkB)))] in
  tr = before ++ EvLog LDownloaded :: pause :: after
  /\ outcomes tr = [downloaded; failed]
  /\ (exists i, (i < 2)%nat
                /\ head (pause :: after)
                   = Some (EvDelay (getRandomDelay env Sample.downloader i)))
  /\ Forall (fun ms => exists d, ms = Number.of_Z d /\ (0 <= d <= 3000)%Z) (delays tr).
Proof.
  intros env dest tr before pause after.
  assert (Htr : tr = before ++ EvLog LDownloaded :: pause :: after)
    by (vm_compute; reflexivity).
  split; [exact Htr |].
  split; [rewrite Htr; reflexivity |].
  destruct (pacing_follows_downloads Sample.platform env Sample.downloader
              [Sample.linkA; Sample.linkB] ∅) as (_ & Hpaced & Hbounds).
  split; [exact (proj1 (Hpaced _ _ _ Htr) eq_refl) |].
  apply (Hbounds 0%Z 3000%Z eq_refl eq_refl);
    try (unfold Number.safe; lia); try lia.
  intros i. split; [vm_compute; reflexivity |].
  split; [vm_compute; discriminate | reflexivity].
Defined.

(** X20. A batch that completed, run again against a server that announces
    the true length of every body, downloads nothing: when no two files
    share a destination - their paths name different places - the second
    run skips every file, streams no body and leaves the file system as the
    first run left it. *)
Theorem second_run_downloads_nothing pf env self links fs fs1 tr1 :
  honest env links ->
  NoDup (map (fun l => Fs.place_of fs (path_join pf (folderPath self) (filename l))) links) ->
  downloadAllFiles pf env self links fs = (Ret tt, fs1, tr1) ->
  exists tr2,
    downloadAllFiles pf env self links fs1 = (Ret tt, fs1, tr2)
    /\ outcomes tr2 = replicate (length links) skipped
    /\ streamed tr2 = []
    /\ requested tr2 = map url links.
Proof.
  intros Hhonest Hnd. rewrite downloadAllFiles_run.
  pose proof (ensureFolder_effect env self fs) as (Hcwd0 & _ & _ & Hfolder & _).
  destruct (ensureFolder env self fs) as [[[[] | e |] fs0] t0] eqn:He;
    [| discriminate | discriminate].
  cbn [fst snd] in Hfolder, Hcwd0. specialize (Hfolder eq_refl).
  destruct (downloadLoop pf env self 0 links fs0) as [[[[] | e |] f1] t1] eqn:Hl;
    [| discriminate | discriminate].
  intros H. apply triple_inj in H as (_ & <- & _).
  assert (Hnd0 : NoDup (map (fun l => Fs.place_of fs0
                                         (path_join pf (folderPath self) (filename l))) links)).
  { erewrite map_ext; [exact Hnd |].
    intros l. unfold Fs.place_of. rewrite Hcwd0. reflexivity. }
  pose proof (loop_settles pf env self _ _ _ _ _ Hhonest Hnd0 Hl) as Hsettled.
  pose proof (loop_keeps pf env self _ _ _ _ _ _ Hl Hfolder) as Hfolder1.
  destruct (loop_skips_settled pf env self links 0 f1 Hsettled)
    as (tr & Hrun & Hout & Hstr & Hreq).
  exists (tr ++ [EvLog LAllDownloaded]).
  rewrite downloadAllFiles_run, (ensureFolder_present _ _ _ Hfolder1), Hrun.
  split; [reflexivity |].
  rewrite outcomes_app, streamed_app, requested_app, Hout, Hstr, Hreq.
  repeat split; apply app_nil_r.
Qed.

Lemma second_run_downloads_nothing_witness :
  let env := Sample.server [(url Sample.linkA, Responds (Some (js "4")) (js "body"))] [] in
  let first := downloadAllFiles Sample.platform env Sample.downloader [Sample.linkA] ∅ in
  let second := downloadAllFiles Sample.platform env Sample.downloader [Sample.linkA] first.1.2 in
  (first.1.1 = Ret tt /\ outcomes first.2 = [downloaded])
  /\ exists tr2,
       second = (Ret tt, first.1.2, tr2) /\ outcomes tr2 = [skipped]
       /\ streamed tr2 = [] /\ requested tr2 = [url Sample.linkA].
Proof.
  intros env first second.
  split; [split; vm_compute; reflexivity |].
  apply (second_run_downloads_nothing Sample.platform env Sample.downloader
           [Sample.linkA] ∅ first.1.2 first.2).
  - intros l [<- | []]. exists (js "4"), (js "body"). repeat split.
  - vm_compute. repeat constructor. intros H. inversion H.
  - vm_compute. reflexivity.
Defined.

(** Why the destinations have to be different places and not only different
    strings: two spellings of one destination are two paths, the second file
    is written over the first, and a second run downloads both again. *)
Lemma two_spellings_of_one_destination :
  let twin := mkFileLink (js "https://example.com/files/twin") (js "./a.pdf") in
  let env := Sample.server
               [(url Sample.linkA, Responds (Some (js "1")) (js "x"));
                (url twin, Responds (Some (js "2")) (js "yy"))] [] in
  let links := [Sample.linkA; twin] in
  let dest l := path_join Sample.platform (folderPath Sample.downloader) (filename l) in
  let first := downloadAllFiles Sample.platform env Sample.downloader links ∅ in
  let second := downloadAllFiles Sample.platform env Sample.downloader links first.1.2 in
  honest env links
  /\ NoDup (map dest links)
  /\ Fs.place_of ∅ (dest Sample.linkA) = Fs.place_of ∅ (dest twin)
  /\ first.1.1 = Ret tt
  /\ second.1.1 = Ret tt
  /\ outcomes second.2 = [downloaded; downloaded].
Proof.
  intros twin env links dest first second. split.
  { intros l [<- | [<- | []]]; [exists (js "1"), (js "x") | exists (js "2"), (js "yy")];
      repeat split. }
  split.
  { vm_compute. repeat constructor; intros H; inversion H as [| ? ? ? H']; subst;
      try discriminate; inversion H'. }
  repeat split; vm_compute; reflexivity.
Qed.

(** X21. Retrieval keeps the working directory and touches only the places
    on the way of the target folder and the places the destinations of the
    listed files name: every other place is left as it was, whatever the
    outcome; a place on the way of the folder that is no destination is left
    as it was or, when it held nothing, becomes a directory; and when the
    operator declines, retrieval changes nothing and asks the server for
    nothing. *)
Theorem retrieval_touches_only_destinations pf env self links answer fs :
  let run := confirmAndDownloadFiles pf env self links answer fs in
  let dest l := Fs.place_of fs (path_join pf (folderPath self) (filename l)) in
  cwd run.1.2 = cwd fs
  /\ (forall place,
        (forall l, In l links -> place <> dest l) ->
        ~ Fs.on_the_way fs (folderPath self) place ->
        Fs.entry run.1.2 place = Fs.entry fs place)
  /\ (forall place,
        (forall l, In l links -> place <> dest l) ->
        Fs.on_the_way fs (folderPath self) place ->
        Fs.entry run.1.2 place = Fs.entry fs place
        \/ (Fs.entry fs place = None /\ Fs.entry run.1.2 place = Some Dir))
  /\ (confirms answer = false -> run.1.2 = fs /\ requested run.2 = []).
Proof.
  cbv zeta.
  destruct (confirm_frame pf env self links answer fs) as [Hcwd Hframe].
  split; [exact Hcwd |].
  split; [intros place Hp; apply (Hframe place Hp) |].
  split; [intros place Hp; apply (Hframe place Hp) |].
  intros Hno. rewrite confirm_run, Hno. split; reflexivity.
Qed.

Lemma retrieval_touches_only_destinations_witness :
  let env := Sample.server [(url Sample.linkA, Responds None (js "body"))] [] in
  let fs : FS := <[js "./notes.txt" := File (js "keep")]> ∅ in
  let run := confirmAndDownloadFiles Sample.platform env Sample.downloader
               [Sample.linkA] (js "y") fs in
  Fs.entry run.1.2 [js "notes.txt"] = Some (File (js "keep"))
  /\ Fs.entry run.1.2 [js "downloads"] = Some Dir
  /\ Fs.entry run.1.2 [js "downloads"; js "src-cat"; js "a.pdf"] = Some (File (js "body"))
  /\ (confirmAndDownloadFiles Sample.platform env Sample.downloader
        [Sample.linkA] (js "no") fs).1.2 = fs.
Proof.
  intros env fs run.
  destruct (retrieval_touches_only_destinations Sample.platform env Sample.downloader
              [Sample.linkA] (js "y") fs) as (_ & Hoff & Hon & _).
  split.
  { etransitivity; [apply (Hoff [js "notes.txt"]) | vm_compute; reflexivity].
    - intros l [<- | []]. vm_compute. congruence.
    - intros (passed & Hin & [more Hp]). vm_compute in Hin.
      repeat (destruct Hin as [<- | Hin]; [vm_compute in Hp; congruence |]).
      destruct Hin. }
  split.
  { destruct (Hon [js "downloads"]) as [Hkept | [_ Hmade]]; [| | | exact Hmade].
    - intros l [<- | []]. vm_compute. congruence.
    - exists [js "downloads"]. split; [vm_compute; auto | reflexivity].
    - vm_compute. reflexivity. }
  split; [vm_compute; reflexivity |].
  destruct (retrieval_touches_only_destinations Sample.platform env Sample.downloader
              [Sample.linkA] (js "no") fs) as (_ & _ & _ & Hno).
  exact (proj1 (Hno eq_refl)).
Defined.

End RetrievalFacts.

(** ** The whole process *)

Module ProcessFacts.
Import FileLinkFetcher FetcherFacts DownloaderFacts Notions Pipeline DiscoveryFacts RetrievalFacts.

Section CallerFacts.
Context (pf : Platform) (env : Env) (self : Fetcher).
Context (untyped : Json.json -> jsstring -> FS -> Run).

#[local] Abbreviation fetchAllFileLinks := (fetchAllFileLinks pf env self).
#[local] Abbreviation retrieve := (retrieve pf env self).
#[local] Abbreviation fetchAndDownloadFileLinks :=
  (fetchAndDownloadFileLinks pf env self untyped).
#[local] Abbreviation startDownloadProcess :=
  (startDownloadProcess pf env self untyped).
#[local] Abbreviation downloader :=
  (FileDownloader.mk (downloadFolderPath self)
     (downloadMinDelayMs self) (downloadMaxDelayMs self)).

(** The retrieval half of the process returns, whatever the downloads do. *)
Lemma retrieve_returns links answer fs :
  exists fs' t,
    retrieve links answer fs
    = (Ret tt, fs', Top (LFound (length links) links) :: map Inner t)
    /\ (FileDownloader.confirmAndDownloadFiles pf env downloader links answer fs)
       = (Ret tt, fs', t).
Proof.
  unfold Pipeline.retrieve.
  pose proof (confirm_returns pf env downloader links answer fs) as Hr.
  destruct (FileDownloader.confirmAndDownloadFiles pf env downloader links answer fs)
    as [[r fs'] t]. cbn [fst] in Hr. subst r. eauto.
Qed.

(** The process on a discovery that hands back a typed list. *)
Lemma process_typed fuel a1 a2 fs fl fs1 t1 links :
  fetchAllFileLinks fuel a1 fs = (Ret fl, fs1, t1) ->
  typed fl = Some links ->
  fetchAndDownloadFileLinks fuel a1 a2 fs =
    let '(r, fs2, t2) := retrieve links a2 fs1 in (r, fs2, map Inner t1 ++ t2).
Proof.
  intros Hfound Htyped. unfold Pipeline.fetchAndDownloadFileLinks. rewrite Hfound.
  destruct fl as [v | walked]; cbn [typed] in Htyped.
  - rewrite Htyped. reflexivity.
  - injection Htyped as ->. reflexivity.
Qed.
End CallerFacts.



(** X23. A run that walked the pages leaves a checkpoint the next run resumes
    from: provided no download is written over the checkpoint - the
    destination of no file names the place the checkpoint path names - a
    next run whose operator answers y to the reuse question fetches no page
    and offers for download exactly the list the first run found. *)
Theorem next_run_resumes_from_checkpoint pf env self untyped
    fuel a1 a2 fs links fuel' b1 b2 :
  let out := outputFilePath self in
  let first := fetchAndDownloadFileLinks pf env self untyped fuel a1 a2 fs in
  (fetchAllFileLinks pf env self fuel a1 fs).1.1 = Ret (FromWalk links) ->
  (forall l, In l links ->
     Fs.place_of fs out
     <> Fs.place_of fs (path_join pf (downloadFolderPath self) (filename l))) ->
  confirms b1 = true ->
  first.1.1 = Ret tt
  /\ first.1.2 !! out = Some (File (jsonLines links))
  /\ fetchAndDownloadFileLinks pf env self untyped fuel' b1 b2 first.1.2 =
       let '(r, fs2, t2) := retrieve pf env self links b2 first.1.2 in
       (r, fs2,
        map Inner [EvLog (LExisting out); EvPrompt reuseMessage;
                   EvLog (LLoaded (Some (length links)) out)] ++ t2).
Proof.
  intros out first Hfound Hdests Hyes. subst first.
  pose proof (discovery_keeps_cwd pf env self fuel a1 fs) as Hcwd.
  destruct (fetchAllFileLinks pf env self fuel a1 fs) as [[r fsA] tA] eqn:HfA.
  cbn [fst snd] in Hfound, Hcwd. subst r.
  assert (Hfile : fsA !! out = Some (File (jsonLines links))).
  { pose proof (fetchAll_walked pf env self fuel a1 fs links) as Hw.
    rewrite HfA in Hw. destruct (Hw eq_refl) as (fsW & tW & Hws).
    assert (fsW = fsA) as ->.
    { revert HfA. destruct (fs !! outputFilePath self) as [node |] eqn:Hout.
      - destruct (confirms a1) eqn:Hc.
        + rewrite (fetchAll_reuse_run pf env self fuel a1 fs ltac:(rewrite Hout; eauto) Hc).
          cbv zeta. rewrite Hout. destruct node as [text |]; [| discriminate].
          destruct (Json.parse text) as [v |]; [| discriminate].
          destruct (length_of v); discriminate.
        + rewrite (fetchAll_declined pf env self _ _ _ ltac:(rewrite Hout; eauto) Hc), Hws.
          intros [= -> _]. reflexivity.
      - rewrite (fetchAll_fresh pf env self _ _ _ Hout), Hws.
        intros [= -> _]. reflexivity. }
    apply walkAndSave_inv in Hws as (tw & ts & _ & Hsave & _).
    apply (save_ok _ _ _ _ _ _ _ Hsave). }
  rewrite (process_typed pf env self untyped _ _ a2 _ _ _ _ _ HfA eq_refl).
  destruct (retrieve_returns pf env self links a2 fsA) as (fs1 & t1 & -> & Hconf).
  cbn [fst snd]. split; [reflexivity |].
  assert (Hkept : fs1 !! out = Some (File (jsonLines links))).
  { pose proof (confirm_keeps_file pf env
                  (FileDownloader.mk (downloadFolderPath self)
                     (downloadMinDelayMs self) (downloadMaxDelayMs self))
                  links a2 fsA out _ Hfile) as Hframe.
    rewrite Hconf in Hframe. apply Hframe.
    intros l Hl. unfold Fs.place_of. rewrite Hcwd. exact (Hdests l Hl). }
  split; [exact Hkept |].
  assert (Hre : fetchAllFileLinks pf env self fuel' b1 fs1
                = (Ret (FromCheckpoint (Json.JArray (map Json.of_FileLink links))), fs1,
                   [EvLog (LExisting out); EvPrompt reuseMessage;
                    EvLog (LLoaded (Some (length links)) out)])).
  { rewrite (fetchAll_reused pf env self fuel' b1 fs1 _ _ (Some (length links))
               Hkept Hyes (JsonFacts.parse_jsonLines links)); [reflexivity |].
    cbn [length_of]. rewrite length_map. reflexivity. }
  apply (process_typed pf env self untyped _ _ b2 _ _ _ _ _ Hre).
  apply JsonFacts.as_FileLinks_of.
Qed.

Lemma next_run_resumes_from_checkpoint_witness :
  let env := Sample.site [[Sample.anchorA]; [Sample.anchorA]] in
  let self := Sample.fetcher 1 in
  let untyped : Json.json -> jsstring -> FS -> Run :=
    fun _ _ fs => (Starved, fs, []) in
  let first := fetchAndDownloadFileLinks Sample.platform env self untyped 5 [] (js "y") ∅ in
  let second := fetchAndDownloadFileLinks Sample.platform env self untyped 0 (js "y") (js "n") first.1.2 in
  first.1.1 = Ret tt
  /\ first.1.2 !! outputFilePath self = Some (File (jsonLines [Sample.linkA]))
  /\ second =
       let '(r, fs2, t2) := retrieve Sample.platform env self [Sample.linkA] (js "n") first.1.2 in
       (r, fs2,
        map Inner [EvLog (LExisting (outputFilePath self)); EvPrompt reuseMessage;
                   EvLog (LLoaded (Some 1%nat) (outputFilePath self))] ++ t2).
Proof.
  intros env self untyped first second.
  apply (next_run_resumes_from_checkpoint Sample.platform env self untyped
           5 [] (js "y") ∅ [Sample.linkA] 0 (js "y") (js "n")).
  - vm_compute. reflexivity.
  - intros l [<- | []]. vm_compute. congruence.
  - reflexivity.
Defined.

End ProcessFacts.

(** ** The patterns of the scripts *)

Module ScriptFacts.
Import Json FileLinkFetcher Scripts.

Lemma strip_prefix_app p : forall s r, strip_prefix p s = Some r -> s = p ++ r.
Proof.
  induction p as [| a p IH]; intros s r H.
  - cbn in H. injection H as ->. reflexivity.
  - destruct s as [| b s]; [discriminate |]. cbn in H.
    destruct (N.eqb_spec a b) as [-> |]; [| discriminate].
    cbn. f_equal. apply IH, H.
Qed.

Lemma startsWith_app p s : startsWith p (p ++ s) = true.
Proof. induction p as [| a p IH]; [reflexivity |]. cbn. rewrite N.eqb_refl. exact IH. Qed.

(** What [leftmost] finds was found at the head of a tail of the text. *)
Lemma leftmost_some {A} (at_head : jsstring -> option A) s : forall m,
  leftmost at_head s = Some m ->
  exists before rest, s = before ++ rest /\ at_head rest = Some m.
Proof.
  induction s as [| c s IH]; intros m H; cbn [leftmost] in H.
  - destruct (at_head []) eqn:Hh; [| discriminate]. injection H as <-.
    exists [], []. split; [reflexivity | exact Hh].
  - destruct (at_head (c :: s)) eqn:Hh.
    + injection H as <-. exists [], (c :: s). split; [reflexivity | exact Hh].
    + destruct (IH _ H) as (before & rest & -> & Hr).
      exists (c :: before), rest. split; [reflexivity | exact Hr].
Qed.

Lemma span_url_split s : exists rest, s = span_url s ++ rest.
Proof.
  induction s as [| c s [rest IH]]; [exists []; reflexivity |].
  cbn. destruct (is_url_char c); [| exists (c :: s); reflexivity].
  exists rest. cbn. congruence.
Qed.

Lemma last_pdf_split run : forall m tail,
  last_pdf run = Some (m, tail) -> run = m ++ tail.
Proof.
  induction run as [| c run IH]; intros m tail H; [discriminate |].
  cbn [last_pdf] in H. destruct (last_pdf run) as [[m' tail'] |].
  - injection H as <- <-. cbn. f_equal. apply IH. reflexivity.
  - destruct (strip_prefix (js ".pdf") run) as [tail' |] eqn:Hs; [| discriminate].
    injection H as <- <-. apply strip_prefix_app in Hs. cbn. f_equal. exact Hs.
Qed.

Lemma pdf_path_split s m : pdf_path s = Some m -> exists rest, s = m ++ rest.
Proof.
  unfold pdf_path. destruct (last_pdf (span_url s)) as [[m' tail] |] eqn:Hl; [| discriminate].
  apply last_pdf_split in Hl. destruct (span_url_split s) as [rest Hs].
  intros H.
  assert (Hcases : m = m' ++ tail \/ m = m').
  { destruct tail as [| q [| c tail]]; [| | destruct (q =? 63)];
      injection H as <-; auto. }
  destruct Hcases as [-> | ->].
  - exists rest. rewrite <- Hl. exact Hs.
  - exists (tail ++ rest). rewrite app_assoc, <- Hl. exact Hs.
Qed.

Lemma after_scheme_split scheme s m :
  after_scheme scheme s = Some m ->
  exists path rest, m = scheme ++ js "://" ++ path /\ s = js "://" ++ path ++ rest.
Proof.
  unfold after_scheme. destruct (strip_prefix (js "://") s) as [body |] eqn:Hs; [| discriminate].
  apply strip_prefix_app in Hs. destruct (pdf_path body) as [path |] eqn:Hp; [| discriminate].
  cbn. intros [= <-]. destruct (pdf_path_split _ _ Hp) as [rest ->].
  exists path, rest. split; [rewrite <- app_assoc; reflexivity | exact Hs].
Qed.

(** A match of the MiraeAsset pattern at the head of a text starts with
    http and is a prefix of the text. *)
Lemma mirae_at_spec s m :
  mirae_at s = Some m ->
  startsWith (js "http") m = true /\ exists rest, s = m ++ rest.
Proof.
  unfold mirae_at. destruct (strip_prefix (js "http") s) as [r0 |] eqn:Hs; [| discriminate].
  apply strip_prefix_app in Hs. subst s.
  destruct (match r0 with
            | c :: r1 => if c =? 115 then after_scheme (js "https") r1 else None
            | [] => None
            end) as [m1 |] eqn:Hwith.
  - intros [= <-]. destruct r0 as [| c r1]; [discriminate |].
    destruct (N.eqb_spec c 115) as [-> |]; [| discriminate].
    apply after_scheme_split in Hwith as (path & rest & -> & ->).
    split; [reflexivity |]. exists rest.
    change (js "http" ++ 115 :: ?t) with (js "https" ++ t).
    rewrite <- !app_assoc. reflexivity.
  - intros (path & rest & -> & ->)%after_scheme_split.
    split; [reflexivity |]. exists rest. rewrite <- !app_assoc. reflexivity.
Qed.

Lemma mirae_spec href m :
  MIRAE_DOWNLOAD_PATTERN href = Some m ->
  startsWith (js "http") m = true
  /\ exists before after, href = before ++ m ++ after.
Proof.
  intros (before & rest & -> & Hat)%leftmost_some.
  apply mirae_at_spec in Hat as (Hhttp & after & ->). eauto.
Qed.

Section PatternFacts.
Context (pf : Platform) (self : Fetcher).

(** With a pattern whose matches all start with http, [extractFileUrl] hands
    the match back as it is. *)
Lemma extractFileUrl_absolute :
  (forall href m, downloadPattern self href = Some m -> startsWith (js "http") m = true) ->
  forall href, extractFileUrl pf self href = inr (downloadPattern self href).
Proof.
  intros Habs href. unfold extractFileUrl.
  destruct (downloadPattern self href) as [m |] eqn:Hm; [| reflexivity].
  rewrite (Habs _ _ Hm). reflexivity.
Qed.

(** The loop over the anchors does not fail when [extractFileUrl] does not. *)
Lemma collectLinks_no_error links : forall acc,
  (forall href, exists u, extractFileUrl pf self href = inr u) ->
  (collectLinks pf self links acc).2 = None.
Proof.
  intros acc Hok. revert acc. induction links as [| a links IH]; intros acc; [reflexivity |].
  cbn [collectLinks]. destruct (Hok (href a)) as [u ->].
  destruct u as [u |]; [| apply IH].
  destruct (extractFileNameFromTitle (title a)); [| apply IH].
  destruct (truthy u && truthy _); apply IH.
Qed.
End PatternFacts.

(** X24. With the download pattern of the MiraeAsset script, every match is
    a piece of the href that starts with http, so [extractFileUrl] hands it
    back as it is, never resolves it against the base URL and never raises;
    and a listing page that fails can only have failed in the browser, and
    then contributes the empty list. *)
Theorem mirae_links_are_taken_verbatim pf self :
  downloadPattern self = MIRAE_DOWNLOAD_PATTERN ->
  (forall href, extractFileUrl pf self href = inr (MIRAE_DOWNLOAD_PATTERN href))
  /\ (forall href m, MIRAE_DOWNLOAD_PATTERN href = Some m ->
        startsWith (js "http") m = true
        /\ exists before after, href = before ++ m ++ after)
  /\ (forall r e, (tryPage pf self r).2 = Some e ->
        e = PageError /\ (tryPage pf self r).1 = []).
Proof.
  intros Hpat.
  assert (Hex : forall href, extractFileUrl pf self href = inr (MIRAE_DOWNLOAD_PATTERN href)).
  { intros href. rewrite <- Hpat. apply extractFileUrl_absolute.
    rewrite Hpat. intros h m Hm. apply (mirae_spec _ _ Hm). }
  split; [exact Hex |]. split; [apply mirae_spec |].
  intros r e. unfold tryPage. destruct (anchors r) as [links |].
  - rewrite (collectLinks_no_error pf self links []); [discriminate |].
    intros href. rewrite Hex. eauto.
  - cbn. intros [= <-]. auto.
Qed.

Lemma mirae_links_are_taken_verbatim_witness :
  let self :=
    FileLinkFetcher.new Sample.platform (js "https://example.com/list?page={curPage}")
      (mkSource (js "src") (js "CO") (js "cat"))
      (mkDate 2024 1 1) (mkDate 2024 5 31) 1 10 MIRAE_DOWNLOAD_PATTERN
      (Number.of_Z 0) (Number.of_Z 500) in
  let href := js "javascript:down('https://cdn.example.com/r/2024 Q1.pdf')" in
  downloadPattern self = MIRAE_DOWNLOAD_PATTERN
  /\ extractFileUrl Sample.platform self (js "go('https://cdn.example.com/r/q1.pdf?v=2')")
     = inr (Some (js "https://cdn.example.com/r/q1.pdf?v=2")).
Proof.
  intros self href.
  assert (H : downloadPattern self = MIRAE_DOWNLOAD_PATTERN) by reflexivity.
  split; [exact H |].
  destruct (mirae_links_are_taken_verbatim Sample.platform self H) as [Hex _].
  rewrite Hex. vm_compute. reflexivity.
Defined.

Lemma span_unquoted_spec s :
  Forall (fun c => c <> 34 /\ c <> 39) (span_unquoted s)
  /\ exists rest, s = span_unquoted s ++ rest.
Proof.
  induction s as [| c s [Hall [rest IH]]]; [split; [constructor | exists []; reflexivity] |].
  cbn. destruct (N.eqb_spec c 34) as [-> | H34]; cbn.
  { split; [constructor | exists (34 :: s); reflexivity]. }
  destruct (N.eqb_spec c 39) as [-> | H39]; cbn.
  { split; [constructor | exists (39 :: s); reflexivity]. }
  split; [constructor; auto | exists rest; congruence].
Qed.

Lemma hankyung_spec href m :
  HANKYUNG_DOWNLOAD_PATTERN href = Some m ->
  exists query,
    m = js "/analysis/downpdf?" ++ query
    /\ Forall (fun c => c <> 34 /\ c <> 39) query
    /\ exists before after, href = before ++ m ++ after.
Proof.
  intros (before & rest & -> & Hat)%leftmost_some. unfold hankyung_at in Hat.
  destruct (strip_prefix (js "/analysis/downpdf?") rest) as [r |] eqn:Hs; [| discriminate].
  assert (Hm : js "/analysis/downpdf?" ++ span_unquoted r = m) by congruence.
  subst m. clear Hat. apply strip_prefix_app in Hs. subst rest.
  destruct (span_unquoted_spec r) as [Hall [after Hr]].
  exists (span_unquoted r). split; [reflexivity |]. split; [exact Hall |].
  exists before, after. rewrite <- app_assoc, <- Hr. reflexivity.
Qed.

(** X25. With the download pattern of the HanKyung script, every match is a
    piece of the href that starts with /analysis/downpdf? and runs up to the
    next quote, so [extractFileUrl] never takes it as it is: each link is
    what [new URL] makes of it against the base URL, and the call raises
    exactly when that constructor does. *)
Theorem hankyung_links_are_resolved pf self :
  downloadPattern self = HANKYUNG_DOWNLOAD_PATTERN ->
  (forall href,
     extractFileUrl pf self href =
       match HANKYUNG_DOWNLOAD_PATTERN href with
       | Some m =>
           match url_href pf m (baseUrl self) with
           | Some h => inr (Some h)
           | None => inl TypeError
           end
       | None => inr None
       end)
  /\ (forall href m, HANKYUNG_DOWNLOAD_PATTERN href = Some m ->
        exists query,
          m = js "/analysis/downpdf?" ++ query
          /\ Forall (fun c => c <> 34 /\ c <> 39) query
          /\ exists before after, href = before ++ m ++ after).
Proof.
  intros Hpat. split; [| apply hankyung_spec].
  intros href. unfold extractFileUrl. rewrite Hpat.
  destruct (HANKYUNG_DOWNLOAD_PATTERN href) as [m |] eqn:Hm; [| reflexivity].
  destruct (hankyung_spec _ _ Hm) as (query & -> & _). reflexivity.
Qed.

Lemma hankyung_links_are_resolved_witness :
  let self :=
    FileLinkFetcher.new Sample.platform (js "https://example.com/list?page={curPage}")
      (mkSource (js "src") (js "CO") (js "cat"))
      (mkDate 2024 1 1) (mkDate 2024 5 31) 1 80 HANKYUNG_DOWNLOAD_PATTERN
      (Number.of_Z 0) (Number.of_Z 3000) in
  downloadPattern self = HANKYUNG_DOWNLOAD_PATTERN
  /\ extractFileUrl Sample.platform self (js "/analysis/downpdf?report_idx=7")
     = inr (Some (js "https://example.com/analysis/downpdf?report_idx=7")).
Proof.
  intros self.
  assert (H : downloadPattern self = HANKYUNG_DOWNLOAD_PATTERN) by reflexivity.
  split; [exact H |].
  destruct (hankyung_links_are_resolved Sample.platform self H) as [Hex _].
  rewrite Hex. vm_compute. reflexivity.
Defined.

End ScriptFacts.

(** ** The links of DartFetcher *)

Module DartFacts.
Import Json FileLinkFetcher Scripts DartFetcher Notions AnswerFacts ScriptFacts.

Lemma sanitize_from_clean : forall s in_run,
  Forall (fun c => is_reserved c = false) (sanitize_from in_run s).
Proof.
  induction s as [| c s IH]; intros in_run; cbn [sanitize_from]; [constructor |].
  destruct (is_reserved c) eqn:Hc.
  - destruct in_run; [apply IH |]. constructor; [reflexivity | apply IH].
  - constructor; [exact Hc | apply IH].
Qed.

Lemma sanitize_from_fixed : forall s in_run,
  Forall (fun c => is_reserved c = false) s -> sanitize_from in_run s = s.
Proof.
  intros s in_run H. revert in_run.
  induction H as [| c s Hc _ IH]; intros in_run; [reflexivity |].
  cbn [sanitize_from]. rewrite Hc. f_equal. apply IH.
Qed.

Lemma sanitize_from_length : forall s in_run,
  (length (sanitize_from in_run s) <= length s)%nat.
Proof.
  induction s as [| c s IH]; intros in_run; cbn [sanitize_from]; [reflexivity |].
  pose proof (IH true). pose proof (IH false).
  destruct (is_reserved c); [destruct in_run |]; cbn [length]; lia.
Qed.

Lemma sanitize_from_plain : forall s in_run,
  List.filter plain (sanitize_from in_run s) = List.filter plain s.
Proof.
  induction s as [| c s IH]; intros in_run; cbn [sanitize_from]; [reflexivity |].
  destruct (is_reserved c) eqn:Hc.
  - assert (Hp : plain c = false) by (unfold plain; rewrite Hc; reflexivity).
    cbn [List.filter]. rewrite Hp.
    destruct in_run; [apply IH |]. cbn [List.filter].
    change (plain 95) with false. apply IH.
  - cbn [List.filter]. rewrite IH. reflexivity.
Qed.

Lemma span_digits_split s : forall ds r,
  span_digits s = (ds, r) ->
  s = ds ++ r /\ Forall (fun c => is_digit c = true) ds
  /\ match r with c :: _ => is_digit c = false | [] => True end.
Proof.
  induction s as [| c s IH]; intros ds r H; cbn [span_digits] in H.
  - injection H as <- <-. repeat split; constructor.
  - destruct (is_digit c) eqn:Hc.
    + destruct (span_digits s) as [ds' r'] eqn:E. injection H as <- <-.
      destruct (IH _ _ eq_refl) as (-> & Hd & Hr).
      repeat split; [constructor; assumption | exact Hr].
    + injection H as <- <-. repeat split; [constructor | exact Hc].
Qed.

Lemma span_digits_app ds : forall r,
  Forall (fun c => is_digit c = true) ds ->
  match r with c :: _ => is_digit c = false | [] => True end ->
  span_digits (ds ++ r) = (ds, r).
Proof.
  induction ds as [| d ds IH]; intros r Hd Hr.
  - destruct r as [| c r]; [reflexivity |]. cbn. rewrite Hr. reflexivity.
  - inversion Hd as [| ? ? Hc Hds]; subst. cbn. rewrite Hc, (IH r Hds Hr). reflexivity.
Qed.

Lemma strip_prefix_here p : forall s, strip_prefix p (p ++ s) = Some s.
Proof.
  induction p as [| a p IH]; intros s; [reflexivity |].
  cbn. rewrite N.eqb_refl. apply IH.
Qed.

Lemma openPdfDownload_at_sound s rcpNo dcmNo :
  openPdfDownload_at s = Some (rcpNo, dcmNo) ->
  digits rcpNo /\ digits dcmNo
  /\ exists ws rest, blank ws /\ s = call rcpNo ws dcmNo ++ rest.
Proof.
  unfold openPdfDownload_at.
  destruct (strip_prefix _ s) as [r0 |] eqn:H0; [| discriminate]. cbn [mbind option_bind].
  apply strip_prefix_app in H0.
  destruct (span_digits r0) as [rcp r1] eqn:E1.
  apply span_digits_split in E1. destruct E1 as (-> & Hd1 & _).
  destruct rcp as [| c1 rcp]; [discriminate |].
  destruct (strip_prefix _ r1) as [r2 |] eqn:H2; [| discriminate]. cbn [mbind option_bind].
  apply strip_prefix_app in H2.
  destruct (strip_prefix _ (trim_start r2)) as [r3 |] eqn:H3; [| discriminate].
  cbn [mbind option_bind]. apply strip_prefix_app in H3.
  destruct (span_digits r3) as [dcm r4] eqn:E4.
  apply span_digits_split in E4. destruct E4 as (-> & Hd4 & _).
  destruct dcm as [| c4 dcm]; [discriminate |].
  destruct (strip_prefix _ r4) as [r5 |] eqn:H5; [| discriminate]. cbn [mbind option_bind].
  apply strip_prefix_app in H5.
  intros [= <- <-].
  split; [split; [discriminate | exact Hd1] |].
  split; [split; [discriminate | exact Hd4] |].
  destruct (trim_start_split r2) as (ws & Hr2 & Hws & _).
  exists ws, r5. split; [exact Hws |].
  rewrite H0, H2, Hr2, H3, H5. unfold call.
  repeat rewrite <- app_assoc. reflexivity.
Qed.

Lemma openPdfDownload_at_complete rcpNo ws dcmNo rest :
  digits rcpNo -> digits dcmNo -> blank ws ->
  openPdfDownload_at (call rcpNo ws dcmNo ++ rest) = Some (rcpNo, dcmNo).
Proof.
  intros [Hn1 Hd1] [Hn2 Hd2] Hws. unfold openPdfDownload_at, call.
  repeat rewrite <- app_assoc. rewrite strip_prefix_here. cbn [mbind option_bind].
  rewrite (span_digits_app rcpNo _ Hd1) by reflexivity.
  destruct rcpNo as [| c1 rcpNo]; [contradiction |].
  rewrite strip_prefix_here. cbn [mbind option_bind].
  rewrite (trim_start_blank ws _ Hws).
  change (js "'" ++ dcmNo ++ js "')" ++ rest) with (39 :: dcmNo ++ js "')" ++ rest).
  rewrite trim_start_head by reflexivity.
  change (strip_prefix (js "'") (39 :: dcmNo ++ js "')" ++ rest))
    with (Some (dcmNo ++ js "')" ++ rest)).
  cbn [mbind option_bind].
  rewrite (span_digits_app dcmNo _ Hd2) by reflexivity.
  destruct dcmNo as [| c2 dcmNo]; [contradiction |].
  rewrite strip_prefix_here. reflexivity.
Qed.

Lemma leftmost_finds {A} (at_head : jsstring -> option A) before : forall rest m,
  at_head rest = Some m -> exists m', leftmost at_head (before ++ rest) = Some m'.
Proof.
  induction before as [| c before IH]; intros rest m H.
  - cbn [app]. destruct rest as [| c rest]; cbn [leftmost]; rewrite H; eauto.
  - cbn [app leftmost]. destruct (at_head (c :: before ++ rest)); [eauto |].
    apply (IH _ _ H).
Qed.

Section DartFacts.
Context (site : Site).

Lemma getPdfDownloadInfo_sound reportUrl rcpNo dcmNo :
  (getPdfDownloadInfo site reportUrl).1 = Some (rcpNo, dcmNo) ->
  digits rcpNo /\ digits dcmNo
  /\ exists a before ws rest,
       report site reportUrl = Some (Some a) /\ blank ws
       /\ a = before ++ call rcpNo ws dcmNo ++ rest.
Proof.
  unfold getPdfDownloadInfo.
  destruct (report site reportUrl) as [[a |] |]; [| discriminate | discriminate].
  destruct (truthy a); [| discriminate].
  destruct (leftmost openPdfDownload_at a) as [[r d] |] eqn:Hl; [| discriminate].
  intros [= <- <-].
  apply leftmost_some in Hl. destruct Hl as (before & tail & -> & Hat).
  apply openPdfDownload_at_sound in Hat.
  destruct Hat as (Hr & Hd & ws & rest & Hws & ->).
  split; [exact Hr |]. split; [exact Hd |].
  exists (before ++ call r ws d ++ rest), before, ws, rest. auto.
Qed.

Lemma getDownloadInfo_link rcpNo dcmNo fileType l :
  (getDownloadInfo site rcpNo dcmNo fileType).1 = inr l ->
  url l = downloadUrlOf fileType rcpNo dcmNo
  /\ Forall (fun c => is_reserved c = false) (filename l).
Proof.
  unfold getDownloadInfo.
  destruct (disposition site _) as [[h |] |]; [| discriminate | discriminate].
  destruct (truthy h); [| discriminate].
  destruct (nameIn site h) as [e | name]; [discriminate |].
  intros [= <-]. split; [reflexivity | apply sanitize_from_clean].
Qed.

Lemma getDownloadInfo_steps rcpNo dcmNo fileType :
  (getDownloadInfo site rcpNo dcmNo fileType).2
  = [Log (LFetchingInfo (downloadUrlOf fileType rcpNo dcmNo));
     Get (downloadUrlOf fileType rcpNo dcmNo)].
Proof.
  unfold getDownloadInfo.
  destruct (disposition site _) as [[h |] |]; [| reflexivity | reflexivity].
  destruct (truthy h); [| reflexivity].
  destruct (nameIn site h); reflexivity.
Qed.

Lemma linkLoop_links searchItems : forall fileLinks,
  Forall dart_link fileLinks ->
  Forall dart_link (linkLoop site searchItems fileLinks).1
  /\ (length (linkLoop site searchItems fileLinks).1
      <= length fileLinks + length searchItems)%nat
  /\ exists more, (linkLoop site searchItems fileLinks).1 = fileLinks ++ more.
Proof.
  induction searchItems as [| result rest IH]; intros fileLinks Hacc.
  - cbn. split; [exact Hacc |]. split; [lia |]. exists []. symmetry. apply app_nil_r.
  - cbn [linkLoop].
    destruct (getPdfDownloadInfo site (href result)) as [[[rcpNo dcmNo] |] t0] eqn:Hinfo.
    + assert (Hnum : digits rcpNo /\ digits dcmNo).
      { pose proof (getPdfDownloadInfo_sound (href result) rcpNo dcmNo) as H.
        rewrite Hinfo in H. destruct (H eq_refl) as (? & ? & _). auto. }
      assert (Hpush : forall fileType l,
                 (fileType = js "pdf" \/ fileType = js "zip") ->
                 (getDownloadInfo site rcpNo dcmNo fileType).1 = inr l ->
                 Forall dart_link (fileLinks ++ [mkFileLink (url l) (filename l)])).
      { intros fileType l Hft Hl. apply getDownloadInfo_link in Hl.
        destruct Hl as [Hu Hn]. apply Forall_app. split; [exact Hacc |].
        constructor; [| constructor]. split; [| exact Hn].
        exists fileType, rcpNo, dcmNo. cbn. tauto. }
      destruct (getDownloadInfo site rcpNo dcmNo (js "pdf")) as [[e | l] t1] eqn:Hpdf.
      * destruct (getDownloadInfo site rcpNo dcmNo (js "zip")) as [[e' | l] t2] eqn:Hzip.
        -- specialize (IH fileLinks Hacc).
           destruct (linkLoop site rest fileLinks) as [out t]. cbn [fst snd length] in *.
           destruct IH as (? & Hlen & ?). split; [assumption | split; [clear - Hlen; lia | assumption]].
        -- specialize (IH _ (Hpush (js "zip") l (or_intror eq_refl)
                                  ltac:(rewrite Hzip; reflexivity))).
           destruct (linkLoop site rest _) as [out t]. cbn [fst snd length] in *.
           destruct IH as (? & Hlen & more & Hout). rewrite length_app in Hlen. cbn [length] in Hlen.
           split; [assumption | split; [clear - Hlen; lia |]]. rewrite Hout, <- app_assoc. eauto.
      * specialize (IH _ (Hpush (js "pdf") l (or_introl eq_refl)
                                ltac:(rewrite Hpdf; reflexivity))).
        destruct (linkLoop site rest _) as [out t]. cbn [fst snd length] in *.
        destruct IH as (? & Hlen & more & Hout). rewrite length_app in Hlen. cbn [length] in Hlen.
        split; [assumption | split; [clear - Hlen; lia |]]. rewrite Hout, <- app_assoc. eauto.
    + specialize (IH fileLinks Hacc).
      destruct (linkLoop site rest fileLinks) as [out t]. cbn [fst snd length] in *.
      destruct IH as (? & Hlen & ?). split; [assumption | split; [clear - Hlen; lia | assumption]].
Qed.

Lemma getPdfDownloadInfo_gets reportUrl :
  List.filter is_get (getPdfDownloadInfo site reportUrl).2 = [Get reportUrl].
Proof.
  unfold getPdfDownloadInfo.
  destruct (report site reportUrl) as [[a |] |];
    [destruct (truthy a); [destruct (leftmost openPdfDownload_at a) |] | |];
    reflexivity.
Qed.

Lemma getPdfDownloadInfo_some reportUrl info :
  (getPdfDownloadInfo site reportUrl).1 = Some info ->
  (getPdfDownloadInfo site reportUrl).2 = [Get reportUrl].
Proof.
  unfold getPdfDownloadInfo.
  destruct (report site reportUrl) as [[a |] |];
    [destruct (truthy a); [destruct (leftmost openPdfDownload_at a) |] | |];
    cbn; intros H; try discriminate; reflexivity.
Qed.

(** X26. [getPdfDownloadInfo] gives two numbers only when the page was
    loaded and the [onclick] attribute of its download button holds a call
    [openPdfDownload('...', '...')] of two non-empty runs of digits, with at
    most white space after the comma; the numbers are the two runs of such a
    call. And it gives numbers whenever the attribute holds such a call. *)
Theorem report_numbers_come_from_the_button (reportUrl : jsstring) :
  (forall rcpNo dcmNo,
     (getPdfDownloadInfo site reportUrl).1 = Some (rcpNo, dcmNo) ->
     digits rcpNo /\ digits dcmNo
     /\ exists a before ws rest,
          report site reportUrl = Some (Some a) /\ blank ws
          /\ a = before ++ call rcpNo ws dcmNo ++ rest)
  /\ (forall before rcpNo ws dcmNo rest,
        report site reportUrl = Some (Some (before ++ call rcpNo ws dcmNo ++ rest)) ->
        digits rcpNo -> digits dcmNo -> blank ws ->
        exists info, (getPdfDownloadInfo site reportUrl).1 = Some info).
Proof.
  split; [intros rcpNo dcmNo; apply getPdfDownloadInfo_sound |].
  intros before rcpNo ws dcmNo rest Hrep Hr Hd Hws.
  unfold getPdfDownloadInfo. rewrite Hrep.
  assert (Htruthy : truthy (before ++ call rcpNo ws dcmNo ++ rest) = true).
  { destruct before; reflexivity. }
  rewrite Htruthy.
  destruct (leftmost_finds openPdfDownload_at before _ _
              (openPdfDownload_at_complete rcpNo ws dcmNo rest Hr Hd Hws)) as [info ->].
  exists info. reflexivity.
Qed.

(** X27. Every link the loop of [fetchAllFileLinks] collects has for URL a
    download address of the site, for a PDF or for an archive, with two
    non-empty runs of digits for numbers, and a file name without a
    reserved character; and there is at most one link for each search
    item. *)
Theorem dart_links_are_well_formed (searchItems : list SearchResultItem) :
  Forall dart_link (linkLoop site searchItems []).1
  /\ (length (linkLoop site searchItems []).1 <= length searchItems)%nat.
Proof.
  destruct (linkLoop_links searchItems [] (List.Forall_nil _)) as (H & Hlen & _).
  split; [exact H | exact Hlen].
Qed.

(** X28. For each search item the loop of [fetchAllFileLinks] loads the
    report page and, when the page gives two numbers, asks for the PDF of
    those numbers and - directly after that request, and only when it gave
    no link - for the archive of the same numbers. Item by item the steps of
    the loop are one of these runs, so at most three requests are sent for
    an item, and an item whose page gives no numbers costs one. *)
Theorem archive_is_asked_after_pdf_failed (searchItems : list SearchResultItem) :
  exists parts,
    (linkLoop site searchItems []).2 = concat parts
    /\ Forall2
         (fun result part =>
            let reportUrl := href result in
            let info := getPdfDownloadInfo site reportUrl in
            (length (List.filter is_get part) <= 3)%nat
            /\ match info.1 with
               | None =>
                   part = info.2 ++ [Log (LNoInfo reportUrl)]
                   /\ List.filter is_get part = [Get reportUrl]
               | Some (rcpNo, dcmNo) =>
                   let pdf := downloadUrlOf (js "pdf") rcpNo dcmNo in
                   let zip := downloadUrlOf (js "zip") rcpNo dcmNo in
                   match (getDownloadInfo site rcpNo dcmNo (js "pdf")).1 with
                   | inr _ => part = [Get reportUrl; Log (LFetchingInfo pdf); Get pdf]
                   | inl _ =>
                       match (getDownloadInfo site rcpNo dcmNo (js "zip")).1 with
                       | inr _ =>
                           part = [Get reportUrl; Log (LFetchingInfo pdf); Get pdf;
                                   Log (LFetchingInfo zip); Get zip]
                       | inl zipError =>
                           part = [Get reportUrl; Log (LFetchingInfo pdf); Get pdf;
                                   Log (LFetchingInfo zip); Get zip;
                                   Log (LZipFailed zipError)]
                       end
                   end
               end)
         searchItems parts.
Proof.
  generalize (@nil FileLink).
  induction searchItems as [| result rest IH]; intros fileLinks.
  { exists []. split; [reflexivity | constructor]. }
  cbn [linkLoop].
  pose proof (getPdfDownloadInfo_gets (href result)) as H0.
  pose proof (getPdfDownloadInfo_some (href result)) as Hsome.
  destruct (getPdfDownloadInfo site (href result)) as [[[rcpNo dcmNo] |] t0] eqn:Hinfo;
    cbn [fst snd] in H0, Hsome.
  - rewrite (Hsome _ eq_refl). clear Hsome H0.
    pose proof (getDownloadInfo_steps rcpNo dcmNo (js "pdf")) as Ht1.
    pose proof (getDownloadInfo_steps rcpNo dcmNo (js "zip")) as Ht2.
    destruct (getDownloadInfo site rcpNo dcmNo (js "pdf")) as [[e | l] t1] eqn:Hpdf;
      cbn [snd] in Ht1; subst t1.
    + destruct (getDownloadInfo site rcpNo dcmNo (js "zip")) as [[e' | l] t2] eqn:Hzip;
        cbn [snd] in Ht2; subst t2.
      * destruct (IH fileLinks) as (parts & Hparts & Hall).
        destruct (linkLoop site rest fileLinks) as [out t]. cbn [snd] in *. subst t.
        exists ([Get (href result); Log (LFetchingInfo (downloadUrlOf (js "pdf") rcpNo dcmNo)); Get (downloadUrlOf (js "pdf") rcpNo dcmNo); Log (LFetchingInfo (downloadUrlOf (js "zip") rcpNo dcmNo)); Get (downloadUrlOf (js "zip") rcpNo dcmNo); Log (LZipFailed e')] :: parts). split; [reflexivity |].
        constructor; [| exact Hall]. cbv zeta. rewrite Hinfo. cbn [fst snd].
        rewrite Hpdf, Hzip. cbn [fst]. split; [| reflexivity]. cbn. lia.
      * destruct (IH (fileLinks ++ [mkFileLink (url l) (filename l)]))
          as (parts & Hparts & Hall).
        destruct (linkLoop site rest _) as [out t]. cbn [snd] in *. subst t.
        exists ([Get (href result); Log (LFetchingInfo (downloadUrlOf (js "pdf") rcpNo dcmNo)); Get (downloadUrlOf (js "pdf") rcpNo dcmNo); Log (LFetchingInfo (downloadUrlOf (js "zip") rcpNo dcmNo)); Get (downloadUrlOf (js "zip") rcpNo dcmNo)] :: parts). split; [reflexivity |].
        constructor; [| exact Hall]. cbv zeta. rewrite Hinfo. cbn [fst snd].
        rewrite Hpdf, Hzip. cbn [fst]. split; [| reflexivity]. cbn. lia.
    + destruct (IH (fileLinks ++ [mkFileLink (url l) (filename l)]))
        as (parts & Hparts & Hall).
      destruct (linkLoop site rest _) as [out t]. cbn [snd] in *. subst t.
      exists ([Get (href result); Log (LFetchingInfo (downloadUrlOf (js "pdf") rcpNo dcmNo)); Get (downloadUrlOf (js "pdf") rcpNo dcmNo)] :: parts). split; [reflexivity |].
      constructor; [| exact Hall]. cbv zeta. rewrite Hinfo. cbn [fst snd].
      rewrite Hpdf. cbn [fst]. split; [| reflexivity]. cbn. lia.
  - destruct (IH fileLinks) as (parts & Hparts & Hall).
    destruct (linkLoop site rest fileLinks) as [out t]. cbn [snd] in *. subst t.
    exists ((t0 ++ [Log (LNoInfo (href result))]) :: parts).
    split; [cbn [concat]; rewrite <- app_assoc; reflexivity |].
    constructor; [| exact Hall]. cbv zeta. rewrite Hinfo. cbn [fst snd].
    assert (Hg : List.filter is_get (t0 ++ [Log (LNoInfo (href result))])
                 = [Get (href result)]).
    { rewrite List.filter_app, H0. reflexivity. }
    rewrite Hg. split; [cbn; lia |]. split; reflexivity.
Qed.
End DartFacts.

(** X29. The file name [getDownloadInfo] gives a link holds none of the
    characters less-than, greater-than, colon, double quote, slash,
    backslash, bar, question mark and star; it is no longer than the name
    read off the header; the characters that are neither of these nor an
    underscore are all kept, in their order; and a name without such a
    character, so also a name already made safe, is left as it is. *)
Theorem sanitized_name_is_safe (fileName : jsstring) :
  Forall (fun c => is_reserved c = false) (sanitize fileName)
  /\ (length (sanitize fileName) <= length fileName)%nat
  /\ List.filter plain (sanitize fileName) = List.filter plain fileName
  /\ (Forall (fun c => is_reserved c = false) fileName -> sanitize fileName = fileName)
  /\ sanitize (sanitize fileName) = sanitize fileName.
Proof.
  unfold sanitize. split; [apply sanitize_from_clean |].
  split; [apply sanitize_from_length |].
  split; [apply sanitize_from_plain |].
  split; [apply sanitize_from_fixed |].
  apply sanitize_from_fixed, sanitize_from_clean.
Qed.

Lemma sanitized_name_is_safe_witness :
  sanitize (js "q1/2025: report?.pdf") = js "q1_2025_ report_.pdf"
  /\ sanitize (js "report.pdf") = js "report.pdf".
Proof.
  split; [vm_compute; reflexivity |].
  assert (H : Forall (fun c => is_reserved c = false) (js "report.pdf")).
  { apply List.Forall_forall. intros c Hin. vm_compute in Hin.
    repeat (destruct Hin as [<- | Hin]; [reflexivity |]). destruct Hin. }
  exact (proj1 (proj2 (proj2 (proj2 (sanitized_name_is_safe (js "report.pdf"))))) H).
Defined.

Lemma report_numbers_come_from_the_button_witness :
  (getPdfDownloadInfo DartSample.site (js "r1")).1
  = Some (js "20250102000123", js "1234567")
  /\ digits (js "20250102000123") /\ digits (js "1234567").
Proof.
  assert (H : (getPdfDownloadInfo DartSample.site (js "r1")).1
              = Some (js "20250102000123", js "1234567")) by (vm_compute; reflexivity).
  split; [exact H |].
  destruct (proj1 (report_numbers_come_from_the_button DartSample.site (js "r1")) _ _ H)
    as (Hr & Hd & _).
  split; [exact Hr | exact Hd].
Defined.

Lemma archive_is_asked_after_pdf_failed_witness :
  let pdf2 := downloadUrlOf (js "pdf") (js "20250103000456") (js "7654321") in
  let zip2 := downloadUrlOf (js "zip") (js "20250103000456") (js "7654321") in
  exists before after,
    (linkLoop DartSample.site DartSample.searchItems []).2
    = before ++ [Get (js "r2"); Log (LFetchingInfo pdf2); Get pdf2;
                 Log (LFetchingInfo zip2); Get zip2] ++ after.
Proof.
  intros pdf2 zip2.
  destruct (archive_is_asked_after_pdf_failed DartSample.site DartSample.searchItems)
    as (parts & Htrace & Hparts).
  inversion Hparts as [| r1 part1 rest1 parts1 _ Hrest]; subst.
  inversion Hrest as [| r2 part2 rest2 parts2 (_ & H2) _]; subst.
  vm_compute in H2. subst part2.
  exists part1, (concat parts2). rewrite Htrace. cbn [concat]. reflexivity.
Defined.

End DartFacts.
